(** * Frontal grids: a shallow embedding of [generalexam/ge_utils/front_utils.py]

    The development follows the Python module function by function.  NumPy
    arrays are lists (two-dimensional arrays are lists of rows), Python
    integers are [Z], and raised exceptions are the [Raise] branch of
    [result].  Arrays that the Python code updates in place are passed
    through and returned.

    Latitudes and longitudes, wind components, thermal parameters and the
    grid spacings of the advection are IEEE doubles, [PrimFloat.float]: their
    operations round to nearest, and they have infinities and NaN, as
    Python's [float] and NumPy's [float64] do.  Coordinates and distances in
    metres on the NARR grid are the rationals [Q] that the doubles denote,
    with exact arithmetic. *)

From Stdlib Require Import ZArith QArith Qabs Qround Lia Lqa List Bool String.
From Stdlib Require Import Floats.
From stdpp Require Import base list option numbers sorting strings relations.

Local Open Scope Z_scope.

(** ** Exceptions *)

Inductive exn : Type :=
  | ValueError
  | IndexError
  | TypeError.

Inductive result (A : Type) : Type :=
  | Ok (a : A)
  | Raise (e : exn).

Arguments Ok {A} a.
Arguments Raise {A} e.

#[global] Instance result_bind : MBind result :=
  λ A B (k : A → result B) (x : result A),
    match x with
    | Ok a => k a
    | Raise e => Raise e
    end.

#[global] Instance result_ret : MRet result := λ A a, Ok a.

(** [assert_that b e]: the [error_checking.assert_*] helpers raise when the
    tested condition fails. *)
Definition assert_that (b : bool) (e : exn) : result unit :=
  if b then Ok tt else Raise e.

Fixpoint foldM {A S : Type} (f : S → A → result S) (s : S) (l : list A)
  : result S :=
  match l with
  | [] => Ok s
  | a :: l' => s' ← f s a ; foldM f s' l'
  end.

(** ** Two-dimensional arrays *)

Module Matrix.

Abbreviation matrix A := (list (list A)).

Section Ops.
Context {A : Type}.

Definition nrows (m : matrix A) : nat := length m.
Definition ncols (m : matrix A) : nat := length (hd [] m).

(** [m.shape == (R, C)] *)
Definition is_matrix (R C : nat) (m : matrix A) : Prop :=
  length m = R ∧ Forall (λ row, length row = C) m.

(** [m[r, c]] for indices already known to be non-negative. *)
Definition mget (m : matrix A) (r c : nat) : option A :=
  m !! r ≫= (λ row, row !! c).

(** [m[r, c] = v], nothing written out of range. *)
Definition mset (m : matrix A) (r c : nat) (v : A) : matrix A :=
  alter (λ row, <[c := v]> row) r m.

Definition mtabulate (R C : nat) (f : nat → nat → A) : matrix A :=
  (λ r, (λ c, f r c) <$> seq 0 C) <$> seq 0 R.

End Ops.

Definition mmap {A B : Type} (f : A → B) (m : matrix A) : matrix B :=
  (λ row : list A, f <$> row) <$> m.

Definition mzip_with {A B C : Type} (f : A → B → C)
    (m1 : matrix A) (m2 : matrix B) : matrix C :=
  zip_with (zip_with f) m1 m2.

(** [numpy.full((R, C), v)] *)
Definition np_full {A : Type} (R C : Z) (v : A) : result (matrix A) :=
  if decide (0 ≤ R ∧ 0 ≤ C)
  then Ok (replicate (Z.to_nat R) (replicate (Z.to_nat C) v))
  else Raise ValueError.

(** Cells of a Boolean array holding [True], in row-major order. *)
Fixpoint where_row (r c : nat) (row : list bool) : list (nat * nat) :=
  match row with
  | [] => []
  | b :: row' => (if b then [(r, c)] else []) ++ where_row r (S c) row'
  end.

Fixpoint where_from (r : nat) (m : matrix bool) : list (nat * nat) :=
  match m with
  | [] => []
  | row :: m' => where_row r 0 row ++ where_from (S r) m'
  end.

Definition where_cells (m : matrix bool) : list (nat * nat) := where_from 0 m.

(** [numpy.where(m)] for a two-dimensional [m]: the pair (row indices,
    column indices). *)
Definition np_where (m : matrix bool) : list Z * list Z :=
  ((λ p, Z.of_nat p.1) <$> where_cells m, (λ p, Z.of_nat p.2) <$> where_cells m).

(** An index [i] into an axis of length [n]: negative indices count from the
    end, anything else out of range raises [IndexError]. *)
Definition norm_index (n : nat) (i : Z) : result nat :=
  if decide (0 ≤ i < Z.of_nat n) then Ok (Z.to_nat i)
  else if decide (- Z.of_nat n ≤ i < 0) then Ok (Z.to_nat (i + Z.of_nat n))
  else Raise IndexError.

(** Broadcasting of two one-dimensional index arrays. *)
Definition broadcast_indices (rows cols : list Z) : result (list (Z * Z)) :=
  if decide (length rows = length cols) then Ok (zip rows cols)
  else match rows, cols with
       | [r], _ => Ok ((λ c, (r, c)) <$> cols)
       | _, [c] => Ok ((λ r, (r, c)) <$> rows)
       | _, _ => Raise IndexError
       end.

(** [m[rows, cols] = v] with integer index arrays. *)
Definition index_put {A : Type} (m : matrix A) (idx : list Z * list Z) (v : A)
  : result (matrix A) :=
  ps ← broadcast_indices idx.1 idx.2 ;
  foldM (λ m' p,
           r ← norm_index (nrows m) p.1 ;
           c ← norm_index (ncols m) p.2 ;
           Ok (mset m' r c v)) m ps.

(** [m[mask] = v] with a Boolean mask of the same shape. *)
Definition mask_put {A : Type} (m : matrix A) (mask : matrix bool) (v : A)
  : result (matrix A) :=
  if decide (length <$> m = length <$> mask)
  then Ok (mzip_with (λ x b, if b : bool then v else x) m mask)
  else Raise IndexError.

Definition mall {A : Type} (p : A → bool) (m : matrix A) : bool :=
  forallb (forallb p) m.

End Matrix.
Import Matrix.

(** ** One-dimensional arrays and scalar helpers *)

Definition Qlt_bool (x y : Q) : bool := negb (Qle_bool y x).

(** The rational that a finite double denotes (0 for an infinity and for
    NaN). *)
Definition float_to_Q (x : float) : Q :=
  match Prim2SF x with
  | S754_finite s m e => (inject_Z (cond_Zopp s (Z.pos m)) * 2 ^ e)%Q
  | _ => 0%Q
  end.

(** [l[i]] with Python's negative indices. *)
Definition np_item {A : Type} (l : list A) (i : Z) : result A :=
  k ← norm_index (length l) i ;
  match l !! k with
  | Some x => Ok x
  | None => Raise IndexError
  end.

(** [m[r, c]] and [m[r, c] = v] with integer scalars. *)
Definition item_get {A : Type} (m : matrix A) (r c : Z) : result A :=
  r' ← norm_index (nrows m) r ;
  c' ← norm_index (ncols m) c ;
  match mget m r' c' with
  | Some x => Ok x
  | None => Raise IndexError
  end.

Definition item_put {A : Type} (m : matrix A) (r c : Z) (v : A)
  : result (matrix A) :=
  r' ← norm_index (nrows m) r ;
  c' ← norm_index (ncols m) c ;
  Ok (mset m r' c' v).

(** [numpy.min] and [numpy.max] raise [ValueError] on a zero-size array. *)
Definition np_min_Z (l : list Z) : result Z :=
  match l with
  | [] => Raise ValueError
  | x :: l' => Ok (foldr Z.min x l')
  end.

Definition np_max_Z (l : list Z) : result Z :=
  match l with
  | [] => Raise ValueError
  | x :: l' => Ok (foldr Z.max x l')
  end.

(** Minimum and maximum of two numbers, as [numpy.min], [numpy.max] and
    Python's [max([x, y])] give them. *)
Definition Qmin' (x y : Q) : Q := if Qle_bool x y then x else y.
Definition Qmax' (x y : Q) : Q := if Qle_bool x y then y else x.

Definition np_min_Q (l : list Q) : result Q :=
  match l with
  | [] => Raise ValueError
  | x :: l' => Ok (foldr Qmin' x l')
  end.

Definition np_max_Q (l : list Q) : result Q :=
  match l with
  | [] => Raise ValueError
  | x :: l' => Ok (foldr Qmax' x l')
  end.

(** [numpy.where(l)[0]] for a one-dimensional Boolean array. *)
Fixpoint where1_from (i : nat) (l : list bool) : list Z :=
  match l with
  | [] => []
  | b :: l' => (if b then [Z.of_nat i] else []) ++ where1_from (S i) l'
  end.

Definition np_where1 (l : list bool) : list Z := where1_from 0 l.

(** [l[idx]] with an integer index array. *)
Definition np_take {A : Type} (l : list A) (idx : list Z) : result (list A) :=
  mapM (np_item l) idx.

(** Element-wise operation on two arrays of the same shape. *)
Definition elementwise {A B C : Type} (f : A → B → C)
    (m1 : matrix A) (m2 : matrix B) : result (matrix C) :=
  if decide (length <$> m1 = length <$> m2)
  then Ok (mzip_with f m1 m2)
  else Raise ValueError.

(** ** Module constants *)

(** [1e-3], the double nearest to one thousandth. *)
Definition TOLERANCE_DEG : float := 0x1.0624dd2f1a9fcp-10%float.

(** [numpy.ones((3, 3))] *)
Definition STRUCTURE_MATRIX_FOR_BINARY_CLOSING : matrix bool :=
  replicate 3 (replicate 3 true).

Definition NO_FRONT_INTEGER_ID : Z := 0.
Definition WARM_FRONT_INTEGER_ID : Z := 1.
Definition COLD_FRONT_INTEGER_ID : Z := 2.
Definition ANY_FRONT_INTEGER_ID : Z := 1.

Definition WARM_FRONT_STRING_ID : string := "warm".
Definition COLD_FRONT_STRING_ID : string := "cold".
Definition VALID_STRING_IDS : list string :=
  [WARM_FRONT_STRING_ID; COLD_FRONT_STRING_ID].

(** ** [scipy.ndimage] binary morphology

    [binary_dilation] and [binary_erosion] with [border_value=0],
    [origin=0] and one iteration; the centre of the structuring element is
    at (rows // 2, columns // 2). *)

Module Morphology.

Definition struct_offsets (structure : matrix bool) : list (Z * Z) :=
  (λ p : nat * nat,
     (Z.of_nat p.1 - Z.of_nat (nrows structure / 2),
      Z.of_nat p.2 - Z.of_nat (ncols structure / 2)))
  <$> where_cells structure.

(** Value of a Boolean image at any integer position, [False] outside. *)
Definition bget (m : matrix bool) (r c : Z) : bool :=
  if decide (0 ≤ r ∧ 0 ≤ c)
  then default false (mget m (Z.to_nat r) (Z.to_nat c))
  else false.

Definition binary_dilation (input structure : matrix bool) : matrix bool :=
  mtabulate (nrows input) (ncols input) (λ r c,
    existsb (λ s : Z * Z, bget input (Z.of_nat r - s.1) (Z.of_nat c - s.2))
            (struct_offsets structure)).

Definition binary_erosion (input structure : matrix bool) : matrix bool :=
  mtabulate (nrows input) (ncols input) (λ r c,
    forallb (λ s : Z * Z, bget input (Z.of_nat r + s.1) (Z.of_nat c + s.2))
            (struct_offsets structure)).

Definition binary_closing (input structure : matrix bool) : matrix bool :=
  binary_erosion (binary_dilation input structure) structure.

End Morphology.
Import Morphology.

(** ** Private helpers of the module *)

Definition _is_polyline_closed
    (vertex_latitudes_deg vertex_longitudes_deg : list float) : result bool :=
  lat_first ← np_item vertex_latitudes_deg 0 ;
  lat_last ← np_item vertex_latitudes_deg (-1) ;
  let absolute_lat_diff_deg := PrimFloat.abs (lat_first - lat_last)%float in
  lng_first ← np_item vertex_longitudes_deg 0 ;
  lng_last ← np_item vertex_longitudes_deg (-1) ;
  let absolute_lng_diff_deg := PrimFloat.abs (lng_first - lng_last)%float in
  Ok ((absolute_lat_diff_deg <? TOLERANCE_DEG)%float
      && (absolute_lng_diff_deg <? TOLERANCE_DEG)%float).

(** The closed masks are written into the grid that was passed in, which is
    also the grid returned. *)
Definition _close_frontal_grid_matrix (frontal_grid_matrix : matrix Z)
  : result (matrix Z) :=
  let binary_warm_front_matrix :=
    binary_closing (mmap (Z.eqb WARM_FRONT_INTEGER_ID) frontal_grid_matrix)
                   STRUCTURE_MATRIX_FOR_BINARY_CLOSING in
  let binary_cold_front_matrix :=
    binary_closing (mmap (Z.eqb COLD_FRONT_INTEGER_ID) frontal_grid_matrix)
                   STRUCTURE_MATRIX_FOR_BINARY_CLOSING in
  frontal_grid_matrix ←
    index_put frontal_grid_matrix (np_where binary_warm_front_matrix)
              WARM_FRONT_INTEGER_ID ;
  index_put frontal_grid_matrix (np_where binary_cold_front_matrix)
            COLD_FRONT_INTEGER_ID.

(** [numpy.gradient(f, dy, dx)] of a two-dimensional array of doubles with
    scalar spacings: inside, [(f[i + 1] - f[i - 1]) / (2. * h)]; on the two
    edges, [(f[1] - f[0]) / h] and [(f[-1] - f[-2]) / h]; every axis needs at
    least two elements. *)
Module Gradient.

Definition fget (f : matrix float) (r c : nat) : float :=
  default 0%float (mget f r c).

Definition gradient_axis0 (f : matrix float) (h : float) : matrix float :=
  let R := nrows f in
  mtabulate R (ncols f) (λ r c,
    if decide (r = 0)%nat then ((fget f 1 c - fget f 0 c) / h)%float
    else if decide (r = R - 1)%nat
         then ((fget f (R - 1) c - fget f (R - 2) c) / h)%float
         else ((fget f (r + 1) c - fget f (r - 1) c) / (2 * h))%float).

Definition gradient_axis1 (f : matrix float) (h : float) : matrix float :=
  let C := ncols f in
  mtabulate (nrows f) C (λ r c,
    if decide (c = 0)%nat then ((fget f r 1 - fget f r 0) / h)%float
    else if decide (c = C - 1)%nat
         then ((fget f r (C - 1) - fget f r (C - 2)) / h)%float
         else ((fget f r (c + 1) - fget f r (c - 1)) / (2 * h))%float).

Definition np_gradient (f : matrix float) (dy dx : float)
  : result (matrix float * matrix float) :=
  _ ← assert_that (bool_decide (2 ≤ nrows f ∧ 2 ≤ ncols f)%nat) ValueError ;
  Ok (gradient_axis0 f dy, gradient_axis1 f dx).

End Gradient.
Import Gradient.

Definition _get_thermal_advection_over_grid
    (grid_relative_u_wind_matrix_m_s01 grid_relative_v_wind_matrix_m_s01
     thermal_param_matrix_kelvins : matrix float)
    (grid_spacing_x_metres grid_spacing_y_metres : float)
  : result (matrix float) :=
  '(y_gradient_matrix_kelvins_m01, x_gradient_matrix_kelvins_m01) ←
    np_gradient thermal_param_matrix_kelvins
                grid_spacing_y_metres grid_spacing_x_metres ;
  ux ← elementwise PrimFloat.mul grid_relative_u_wind_matrix_m_s01
                   x_gradient_matrix_kelvins_m01 ;
  vy ← elementwise PrimFloat.mul grid_relative_v_wind_matrix_m_s01
                   y_gradient_matrix_kelvins_m01 ;
  s ← elementwise PrimFloat.add ux vy ;
  Ok (mmap PrimFloat.opp s).

(** ** [cv2.dilate]

    One iteration, default anchor (the kernel centre, columns // 2 and
    rows // 2) and default border, under which cells outside the image
    never contribute. *)

Module OpenCV.

(** Value of an integer image at any integer position, 0 outside. *)
Definition zget (m : matrix Z) (r c : Z) : Z :=
  if decide (0 ≤ r ∧ 0 ≤ c)
  then default 0 (mget m (Z.to_nat r) (Z.to_nat c))
  else 0.

Definition kernel_offsets (kernel : matrix Z) : list (Z * Z) :=
  (λ p : nat * nat,
     (Z.of_nat p.1 - Z.of_nat (nrows kernel / 2),
      Z.of_nat p.2 - Z.of_nat (ncols kernel / 2)))
  <$> where_cells (mmap (λ x, negb (x =? 0)) kernel).

Definition cv2_dilate (src kernel : matrix Z) : matrix Z :=
  mtabulate (nrows src) (ncols src) (λ r c,
    foldr Z.max 0
      ((λ o : Z * Z, zget src (Z.of_nat r + o.1) (Z.of_nat c + o.2))
       <$> kernel_offsets kernel)).

End OpenCV.
Import OpenCV.

(** ** [skimage.measure.label]

    Two cells are connected when they are neighbours and hold the same
    value; cells holding 0 are background and get label 0; the components
    are numbered from 1 in the raster order of their first cell.
    [connectivity = 2] makes the eight surrounding cells neighbours,
    [connectivity = 1] the four orthogonal ones. *)

Module Label.

Definition neighbour_offsets (connectivity : Z) : list (Z * Z) :=
  if connectivity =? 1
  then [(-1, 0); (0, -1); (0, 1); (1, 0)]
  else [(-1, -1); (-1, 0); (-1, 1); (0, -1); (0, 1); (1, -1); (1, 0); (1, 1)].

(** Flood fill from the cells of [stack]: every reachable unlabelled cell
    holding [v] gets label [k]. *)
Fixpoint flood (fuel : nat) (offs : list (Z * Z)) (image : matrix Z) (v k : Z)
    (stack : list (Z * Z)) (lab : matrix Z) : matrix Z :=
  match fuel with
  | O => lab
  | S fuel' =>
    match stack with
    | [] => lab
    | p :: stack' =>
      if (zget image p.1 p.2 =? v) && (zget lab p.1 p.2 =? 0)
      then flood fuel' offs image v k
                 (((λ o : Z * Z, (p.1 + o.1, p.2 + o.2)) <$> offs) ++ stack')
                 (mset lab (Z.to_nat p.1) (Z.to_nat p.2) k)
      else flood fuel' offs image v k stack' lab
    end
  end.

Definition all_cells (R C : nat) : list (nat * nat) :=
  r ← seq 0 R ; (λ c, (r, c)) <$> seq 0 C.

Definition flood_fuel (image : matrix Z) : nat :=
  S (S (9 * (nrows image * ncols image))).

Definition label_step (offs : list (Z * Z)) (image : matrix Z)
    (st : matrix Z * Z) (p : nat * nat) : matrix Z * Z :=
  let v := zget image (Z.of_nat p.1) (Z.of_nat p.2) in
  if negb (v =? 0) && (zget st.1 (Z.of_nat p.1) (Z.of_nat p.2) =? 0)
  then (flood (flood_fuel image) offs image v (st.2 + 1)
              [(Z.of_nat p.1, Z.of_nat p.2)] st.1,
        st.2 + 1)
  else st.

Definition label_image (image : matrix Z) (connectivity : Z) : matrix Z :=
  (foldl (label_step (neighbour_offsets connectivity) image)
         (mtabulate (nrows image) (ncols image) (λ _ _, 0), 0)
         (all_cells (nrows image) (ncols image))).1.

End Label.
Import Label.

(** ** Front types and the public functions on grids *)

Definition check_front_type (front_string_id : string) : result unit :=
  assert_that (bool_decide (front_string_id ∈ VALID_STRING_IDS)) ValueError.

Section NARR.

(** [nwp_model_utils.get_xy_grid_spacing(model_name=NARR_MODEL_NAME)[0]]:
    the grid spacing of the NARR grid in metres, a positive constant of the
    GewitterGefahr library. *)
Variable narr_grid_spacing_metres : Q.

(** The comparison [s * sqrt (i^2 + j^2) <= d] between non-negative reals is
    decided on the squares.  Distances are exact here: the rounding of the
    square root and of the product in the source, which can move an offset
    lying within an ulp of the distance across it, is not modelled. *)
Definition buffer_distance_to_narr_mask (buffer_distance_metres : Q)
  : result (matrix bool) :=
  _ ← assert_that (Qlt_bool 0 buffer_distance_metres) ValueError ;
  let buffer_distance_metres := Qmax' buffer_distance_metres 1 in
  let grid_spacing_metres := narr_grid_spacing_metres in
  let max_row_or_column_offset :=
    Qfloor (buffer_distance_metres / grid_spacing_metres) in
  let row_or_column_offsets :=
    (λ i, Z.of_nat i - max_row_or_column_offset)
    <$> seq 0 (Z.to_nat (2 * max_row_or_column_offset + 1)) in
  let column_offset_matrix :=
    (λ _ : Z, row_or_column_offsets) <$> row_or_column_offsets in
  let row_offset_matrix :=
    (λ y : Z, (λ _ : Z, y) <$> row_or_column_offsets)
    <$> row_or_column_offsets in
  Ok (mzip_with
        (λ i j : Z,
           Qle_bool (grid_spacing_metres * grid_spacing_metres
                     * inject_Z (i * i + j * j))
                    (buffer_distance_metres * buffer_distance_metres))
        row_offset_matrix column_offset_matrix).

Definition dilate_binary_narr_image (binary_matrix : matrix Z)
    (dilation_distance_metres : option Q)
    (dilation_kernel_matrix : option (matrix Z)) : result (matrix Z) :=
  _ ← assert_that (mall (λ x, 0 <=? x) binary_matrix) ValueError ;
  _ ← assert_that (mall (λ x, x <=? 1) binary_matrix) ValueError ;
  dilation_kernel_matrix ←
    match dilation_kernel_matrix with
    | Some k => Ok k
    | None =>
      match dilation_distance_metres with
      | Some d =>
        mask ← buffer_distance_to_narr_mask d ; Ok (mmap Z.b2z mask)
      | None => Raise TypeError
      end
    end ;
  _ ← assert_that (mall (λ x, 0 <=? x) dilation_kernel_matrix) ValueError ;
  _ ← assert_that (mall (λ x, x <=? 1) dilation_kernel_matrix) ValueError ;
  _ ← assert_that (1 <=? foldr Z.add 0 (concat dilation_kernel_matrix))
                  ValueError ;
  Ok (cv2_dilate binary_matrix dilation_kernel_matrix).

(** Squared grid-index distances from one cell to a set of cells. *)
Definition squared_distances (row column : Z) (rows columns : list Z)
  : list Z :=
  let these_row_diffs := (λ r, row - r) <$> rows in
  let these_column_diffs := (λ c, column - c) <$> columns in
  zip_with Z.add ((λ x, x * x) <$> these_row_diffs)
                 ((λ x, x * x) <$> these_column_diffs).

Definition resolve_point (cold_idx warm_idx : list Z * list Z)
    (st : matrix Z * matrix Z) (p : Z * Z) : result (matrix Z * matrix Z) :=
  let '(binary_cold_front_matrix, binary_warm_front_matrix) := st in
  this_min_cold_front_distance ←
    np_min_Z (squared_distances p.1 p.2 cold_idx.1 cold_idx.2) ;
  this_min_warm_front_distance ←
    np_min_Z (squared_distances p.1 p.2 warm_idx.1 warm_idx.2) ;
  if this_min_cold_front_distance <=? this_min_warm_front_distance
  then
    w ← item_put binary_warm_front_matrix p.1 p.2 NO_FRONT_INTEGER_ID ;
    Ok (binary_cold_front_matrix, w)
  else
    c ← item_put binary_cold_front_matrix p.1 p.2 NO_FRONT_INTEGER_ID ;
    Ok (c, binary_warm_front_matrix).

Definition dilate_ternary_narr_image (ternary_matrix : matrix Z)
    (dilation_distance_metres : option Q)
    (dilation_kernel_matrix : option (matrix Z)) : result (matrix Z) :=
  _ ← assert_that (mall (λ x, 0 <=? x) ternary_matrix) ValueError ;
  _ ← assert_that (mall (λ x, x <=? 2) ternary_matrix) ValueError ;
  let R := Z.of_nat (nrows ternary_matrix) in
  let C := Z.of_nat (ncols ternary_matrix) in
  binary_cold_front_matrix ← np_full R C NO_FRONT_INTEGER_ID ;
  binary_cold_front_matrix ←
    mask_put binary_cold_front_matrix
             (mmap (Z.eqb COLD_FRONT_INTEGER_ID) ternary_matrix)
             ANY_FRONT_INTEGER_ID ;
  binary_cold_front_matrix ←
    dilate_binary_narr_image binary_cold_front_matrix
      dilation_distance_metres dilation_kernel_matrix ;
  binary_warm_front_matrix ← np_full R C NO_FRONT_INTEGER_ID ;
  binary_warm_front_matrix ←
    mask_put binary_warm_front_matrix
             (mmap (Z.eqb WARM_FRONT_INTEGER_ID) ternary_matrix)
             ANY_FRONT_INTEGER_ID ;
  binary_warm_front_matrix ←
    dilate_binary_narr_image binary_warm_front_matrix
      dilation_distance_metres dilation_kernel_matrix ;
  let cold_idx := np_where (mmap (Z.eqb COLD_FRONT_INTEGER_ID) ternary_matrix) in
  let warm_idx := np_where (mmap (Z.eqb WARM_FRONT_INTEGER_ID) ternary_matrix) in
  both ← elementwise andb
           (mmap (Z.eqb ANY_FRONT_INTEGER_ID) binary_cold_front_matrix)
           (mmap (Z.eqb ANY_FRONT_INTEGER_ID) binary_warm_front_matrix) ;
  let both_idx := np_where both in
  '(binary_cold_front_matrix, binary_warm_front_matrix) ←
    foldM (resolve_point cold_idx warm_idx)
          (binary_cold_front_matrix, binary_warm_front_matrix)
          (zip both_idx.1 both_idx.2) ;
  ternary_matrix ←
    mask_put ternary_matrix
             (mmap (Z.eqb ANY_FRONT_INTEGER_ID) binary_cold_front_matrix)
             COLD_FRONT_INTEGER_ID ;
  mask_put ternary_matrix
           (mmap (Z.eqb ANY_FRONT_INTEGER_ID) binary_warm_front_matrix)
           WARM_FRONT_INTEGER_ID.

End NARR.

Record frontal_grid_dict : Type := {
  warm_front_row_indices : list Z;
  warm_front_column_indices : list Z;
  cold_front_row_indices : list Z;
  cold_front_column_indices : list Z
}.

Definition frontal_grid_to_points (frontal_grid_matrix : matrix Z)
  : result frontal_grid_dict :=
  _ ← assert_that (mall (λ x, NO_FRONT_INTEGER_ID <=? x) frontal_grid_matrix)
                  ValueError ;
  _ ← assert_that (mall (λ x, x <=? COLD_FRONT_INTEGER_ID) frontal_grid_matrix)
                  ValueError ;
  let warm := np_where (mmap (Z.eqb WARM_FRONT_INTEGER_ID) frontal_grid_matrix) in
  let cold := np_where (mmap (Z.eqb COLD_FRONT_INTEGER_ID) frontal_grid_matrix) in
  Ok {| warm_front_row_indices := warm.1;
        warm_front_column_indices := warm.2;
        cold_front_row_indices := cold.1;
        cold_front_column_indices := cold.2 |}.

Definition frontal_points_to_grid (frontal_grid_dict : frontal_grid_dict)
    (num_grid_rows num_grid_columns : Z) : result (matrix Z) :=
  frontal_grid_matrix ←
    np_full num_grid_rows num_grid_columns NO_FRONT_INTEGER_ID ;
  frontal_grid_matrix ←
    index_put frontal_grid_matrix
              (warm_front_row_indices frontal_grid_dict,
               warm_front_column_indices frontal_grid_dict)
              WARM_FRONT_INTEGER_ID ;
  index_put frontal_grid_matrix
            (cold_front_row_indices frontal_grid_dict,
             cold_front_column_indices frontal_grid_dict)
            COLD_FRONT_INTEGER_ID.

Record frontal_region_dict : Type := {
  row_indices_by_region : list (list Z);
  column_indices_by_region : list (list Z);
  front_type_by_region : list string
}.

(** One pass of the loop over regions: the cells of region [i] and its
    front type. *)
Definition region_of (frontal_grid_matrix region_matrix : matrix Z) (i : nat)
  : result (list Z * list Z * string) :=
  let idx := np_where (mmap (Z.eqb (Z.of_nat i + 1)) region_matrix) in
  r0 ← np_item idx.1 0 ;
  c0 ← np_item idx.2 0 ;
  this_integer_id ← item_get frontal_grid_matrix r0 c0 ;
  Ok (idx.1, idx.2,
      if this_integer_id =? WARM_FRONT_INTEGER_ID then WARM_FRONT_STRING_ID
      else if this_integer_id =? COLD_FRONT_INTEGER_ID then COLD_FRONT_STRING_ID
      else "").

(** The name [frontal_grid_matrix] is bound again to the closed grid, so the
    loop over regions reads the closed grid. *)
Definition frontal_grid_to_regions (frontal_grid_matrix : matrix Z)
  : result frontal_region_dict :=
  frontal_grid_matrix ← _close_frontal_grid_matrix frontal_grid_matrix ;
  let region_matrix := label_image frontal_grid_matrix 2 in
  num_regions ← np_max_Z (concat region_matrix) ;
  regions ← mapM (region_of frontal_grid_matrix region_matrix)
                 (seq 0 (Z.to_nat num_regions)) ;
  Ok {| row_indices_by_region := (λ x, x.1.1) <$> regions;
        column_indices_by_region := (λ x, x.1.2) <$> regions;
        front_type_by_region := (λ x, x.2) <$> regions |}.

Definition get_frontal_types_over_grid
    (grid_relative_u_wind_matrix_m_s01 grid_relative_v_wind_matrix_m_s01
     thermal_param_matrix_kelvins : matrix float) (binary_matrix : matrix bool)
    (grid_spacing_x_metres grid_spacing_y_metres : float)
  : result (matrix Z) :=
  thermal_advection_matrix_kelvins_m01 ←
    _get_thermal_advection_over_grid
      grid_relative_u_wind_matrix_m_s01 grid_relative_v_wind_matrix_m_s01
      thermal_param_matrix_kelvins grid_spacing_x_metres grid_spacing_y_metres ;
  warm_mask ← elementwise andb
                (mmap (λ a, (0 <? a)%float)
                      thermal_advection_matrix_kelvins_m01)
                binary_matrix ;
  cold_mask ← elementwise andb
                (mmap (λ a, (a <=? 0)%float)
                      thermal_advection_matrix_kelvins_m01)
                binary_matrix ;
  let num_grid_rows := Z.of_nat (nrows binary_matrix) in
  let num_grid_columns := Z.of_nat (ncols binary_matrix) in
  frontal_grid_matrix ←
    np_full num_grid_rows num_grid_columns NO_FRONT_INTEGER_ID ;
  frontal_grid_matrix ←
    index_put frontal_grid_matrix (np_where warm_mask) WARM_FRONT_INTEGER_ID ;
  index_put frontal_grid_matrix (np_where cold_mask) COLD_FRONT_INTEGER_ID.

(** ** Polylines on the NARR grid *)

(** A planar geometry is the list of its vertices. *)
Abbreviation geometry := (list (Q * Q)).

Record front_record : Type := {
  unix_time_sec : Z;
  front_type : string;
  latitudes_deg : list float;
  longitudes_deg : list float
}.

Record frontal_grid_table : Type := {
  table_unix_time_sec : list Z;
  table_warm_front_row_indices : list (list Z);
  table_warm_front_column_indices : list (list Z);
  table_cold_front_row_indices : list (list Z);
  table_cold_front_column_indices : list (list Z)
}.

(** [numpy.unique]: the sorted distinct values. *)
Definition np_unique (l : list Z) : list Z := merge_sort Z.le (remove_dups l).

Section Polylines.

(** Constants and functions of the libraries the module calls:
    GewitterGefahr's [nwp_model_utils] for the NARR grid and its map
    projection, Shapely for the predicates on geometries. *)
Variable narr_grid_spacing_metres : Q.
Variable narr_grid_point_x_coords_metres : list Q.
Variable narr_grid_point_y_coords_metres : list Q.
Variable narr_grid_dimensions : Z * Z.
Variable project_latlng_to_xy : list float → list float → list Q * list Q.
Variable linestring_is_valid : geometry → bool.
Variable shapely_intersects : geometry → geometry → bool.
Variable shapely_touches : geometry → geometry → bool.

Definition _check_polyline (vertex_x_coords_metres vertex_y_coords_metres : list Q)
  : result unit :=
  let num_vertices := length vertex_x_coords_metres in
  assert_that (bool_decide (length vertex_y_coords_metres = num_vertices))
              TypeError.

Definition _vertex_arrays_to_list
    (vertex_x_coords_metres vertex_y_coords_metres : list Q) : result geometry :=
  _ ← _check_polyline vertex_x_coords_metres vertex_y_coords_metres ;
  Ok (zip vertex_x_coords_metres vertex_y_coords_metres).

Definition _polyline_from_vertex_arrays_to_linestring
    (vertex_x_coords_metres vertex_y_coords_metres : list Q) : result geometry :=
  vertex_list_xy_metres ←
    _vertex_arrays_to_list vertex_x_coords_metres vertex_y_coords_metres ;
  _ ← assert_that (linestring_is_valid vertex_list_xy_metres) ValueError ;
  Ok vertex_list_xy_metres.

Definition _grid_cell_to_polygon
    (grid_point_x_metres grid_point_y_metres x_spacing_metres
     y_spacing_metres : Q) : geometry :=
  let x_min_metres := (grid_point_x_metres - x_spacing_metres / 2)%Q in
  let x_max_metres := (grid_point_x_metres + x_spacing_metres / 2)%Q in
  let y_min_metres := (grid_point_y_metres - y_spacing_metres / 2)%Q in
  let y_max_metres := (grid_point_y_metres + y_spacing_metres / 2)%Q in
  zip [x_min_metres; x_max_metres; x_max_metres; x_min_metres; x_min_metres]
      [y_min_metres; y_min_metres; y_max_metres; y_max_metres; y_min_metres].

Definition _polyline_to_grid_points
    (polyline_x_coords_metres polyline_y_coords_metres
     grid_point_x_coords_metres grid_point_y_coords_metres : list Q)
  : result (list Z * list Z) :=
  polyline_object_xy_metres ←
    _polyline_from_vertex_arrays_to_linestring
      polyline_x_coords_metres polyline_y_coords_metres ;
  x1 ← np_item grid_point_x_coords_metres 1 ;
  x0 ← np_item grid_point_x_coords_metres 0 ;
  let x_spacing_metres := (x1 - x0)%Q in
  y1 ← np_item grid_point_y_coords_metres 1 ;
  y0 ← np_item grid_point_y_coords_metres 0 ;
  let y_spacing_metres := (y1 - y0)%Q in
  x_lo ← np_min_Q polyline_x_coords_metres ;
  let x_min_to_consider_metres := (x_lo - x_spacing_metres)%Q in
  x_hi ← np_max_Q polyline_x_coords_metres ;
  let x_max_to_consider_metres := (x_hi + x_spacing_metres)%Q in
  y_lo ← np_min_Q polyline_y_coords_metres ;
  let y_min_to_consider_metres := (y_lo - y_spacing_metres)%Q in
  y_hi ← np_max_Q polyline_y_coords_metres ;
  let y_max_to_consider_metres := (y_hi + y_spacing_metres)%Q in
  let x_in_range_indices :=
    np_where1 ((λ x, Qle_bool x_min_to_consider_metres x
                     && Qle_bool x x_max_to_consider_metres)
               <$> grid_point_x_coords_metres) in
  let y_in_range_indices :=
    np_where1 ((λ y, Qle_bool y_min_to_consider_metres y
                     && Qle_bool y y_max_to_consider_metres)
               <$> grid_point_y_coords_metres) in
  row_offset ← np_min_Z y_in_range_indices ;
  column_offset ← np_min_Z x_in_range_indices ;
  grid_points_x_to_consider_metres ←
    np_take grid_point_x_coords_metres x_in_range_indices ;
  grid_points_y_to_consider_metres ←
    np_take grid_point_y_coords_metres y_in_range_indices ;
  let cells :=
    concat (imap (λ i y,
      concat (imap (λ j x,
        let this_grid_cell_edge_polygon_xy_metres :=
          _grid_cell_to_polygon x y x_spacing_metres y_spacing_metres in
        let this_intersection_flag :=
          shapely_intersects this_grid_cell_edge_polygon_xy_metres
                             polyline_object_xy_metres
          || shapely_touches this_grid_cell_edge_polygon_xy_metres
                             polyline_object_xy_metres in
        if this_intersection_flag
        then [(Z.of_nat i + row_offset, Z.of_nat j + column_offset)]
        else [])
        grid_points_x_to_consider_metres))
      grid_points_y_to_consider_metres) in
  Ok (fst <$> cells, snd <$> cells).

Definition _grid_points_to_binary_image (rows_in_object columns_in_object : list Z)
    (num_grid_rows num_grid_columns : Z) : result (matrix bool) :=
  binary_matrix ← np_full num_grid_rows num_grid_columns false ;
  index_put binary_matrix (rows_in_object, columns_in_object) true.

Definition polyline_to_binary_narr_grid
    (polyline_latitudes_deg polyline_longitudes_deg : list float)
    (dilation_distance_metres : Q) : result (matrix Z) :=
  _ ← assert_that (Qle_bool 0 dilation_distance_metres) ValueError ;
  let dilation_distance_metres := Qmax' dilation_distance_metres 1 in
  let '(polyline_x_coords_metres, polyline_y_coords_metres) :=
    project_latlng_to_xy polyline_latitudes_deg polyline_longitudes_deg in
  '(rows_in_polyline, columns_in_polyline) ←
    _polyline_to_grid_points polyline_x_coords_metres polyline_y_coords_metres
      narr_grid_point_x_coords_metres narr_grid_point_y_coords_metres ;
  let '(num_grid_rows, num_grid_columns) := narr_grid_dimensions in
  binary_matrix ←
    _grid_points_to_binary_image rows_in_polyline columns_in_polyline
                                 num_grid_rows num_grid_columns ;
  dilate_binary_narr_image narr_grid_spacing_metres (mmap Z.b2z binary_matrix)
                           (Some dilation_distance_metres) None.

(** Body of the loop over the fronts of one valid time: [i] is the index of
    the valid time, [j] the index of the front in the table. *)
Definition rasterize_front (front_table : list front_record)
    (dilation_distance_metres : Q) (i : nat)
    (this_frontal_grid_matrix : matrix Z) (j : Z) : result (matrix Z) :=
  lats ← np_item (latitudes_deg <$> front_table) j ;
  lngs ← np_item (longitudes_deg <$> front_table) j ;
  skip_this_front ← _is_polyline_closed lats lngs ;
  if skip_this_front : bool then Ok this_frontal_grid_matrix
  else
    this_binary_matrix ←
      polyline_to_binary_narr_grid lats lngs dilation_distance_metres ;
    type_j ← np_item (front_type <$> front_table) j ;
    if String.eqb type_j WARM_FRONT_STRING_ID
    then index_put this_frontal_grid_matrix
                   (np_where (mmap (λ x, negb (x =? 0)) this_binary_matrix))
                   WARM_FRONT_INTEGER_ID
    else
      type_i ← np_item (front_type <$> front_table) (Z.of_nat i) ;
      if String.eqb type_i COLD_FRONT_STRING_ID
      then index_put this_frontal_grid_matrix
                     (np_where (mmap (λ x, negb (x =? 0)) this_binary_matrix))
                     COLD_FRONT_INTEGER_ID
      else Ok this_frontal_grid_matrix.

(** Body of the loop over valid times. *)
Definition rasterize_time (front_table : list front_record)
    (dilation_distance_metres : Q) (i : nat) (valid_time : Z)
  : result frontal_grid_dict :=
  let '(num_grid_rows, num_grid_columns) := narr_grid_dimensions in
  let these_front_indices :=
    np_where1 ((λ t, t =? valid_time) <$> (unix_time_sec <$> front_table)) in
  this_frontal_grid_matrix ←
    np_full num_grid_rows num_grid_columns NO_FRONT_INTEGER_ID ;
  this_frontal_grid_matrix ←
    foldM (rasterize_front front_table dilation_distance_metres i)
          this_frontal_grid_matrix these_front_indices ;
  frontal_grid_to_points this_frontal_grid_matrix.

Definition many_polylines_to_narr_grid (front_table : list front_record)
    (dilation_distance_metres : Q) : result frontal_grid_table :=
  let valid_times_unix_sec := np_unique (unix_time_sec <$> front_table) in
  dicts ← mapM (λ it : nat * Z,
                  rasterize_time front_table dilation_distance_metres it.1 it.2)
               (imap (λ i t, (i, t)) valid_times_unix_sec) ;
  Ok {| table_unix_time_sec := valid_times_unix_sec;
        table_warm_front_row_indices := warm_front_row_indices <$> dicts;
        table_warm_front_column_indices := warm_front_column_indices <$> dicts;
        table_cold_front_row_indices := cold_front_row_indices <$> dicts;
        table_cold_front_column_indices := cold_front_column_indices <$> dicts |}.

End Polylines.

Definition put_cells {A : Type} (m : matrix A) (cells : list (nat * nat)) (v : A)
  : matrix A :=
  foldl (λ m' p, mset m' p.1 p.2 v) m cells.

Definition cell_index (p : nat * nat) : Z * Z := (Z.of_nat p.1, Z.of_nat p.2).

(** The index sets of a [frontal_grid_dict] as lists of (row, column) pairs. *)
Definition points_dict (warm cold : list (Z * Z)) : frontal_grid_dict :=
  {| warm_front_row_indices := warm.*1;
     warm_front_column_indices := warm.*2;
     cold_front_row_indices := cold.*1;
     cold_front_column_indices := cold.*2 |}.

Definition dict_warm_points (d : frontal_grid_dict) : list (Z * Z) :=
  zip (warm_front_row_indices d) (warm_front_column_indices d).

Definition dict_cold_points (d : frontal_grid_dict) : list (Z * Z) :=
  zip (cold_front_row_indices d) (cold_front_column_indices d).

Definition cell_of_index (p : Z * Z) : nat * nat := (Z.to_nat p.1, Z.to_nat p.2).


(** ** A small instance of the library parameters

    A 3 x 4 grid with a spacing of 2 metres, a map projection that takes the
    longitude as x and the latitude as y, and a cell footprint meeting a
    polyline when it contains one of its vertices.  It serves to run the
    module on small inputs. *)

Module SmallGrid.

Definition grid_spacing_metres : Q := 2.
Definition grid_point_x_coords_metres : list Q := [0; 2; 4; 6]%Q.
Definition grid_point_y_coords_metres : list Q := [0; 2; 4]%Q.
Definition grid_dimensions : Z * Z := (3, 4).

Definition project_latlng_to_xy (latitudes_deg longitudes_deg : list float)
  : list Q * list Q :=
  (float_to_Q <$> longitudes_deg, float_to_Q <$> latitudes_deg).

Definition linestring_is_valid (line : geometry) : bool :=
  bool_decide (2 ≤ length line)%nat.

Definition vertex_in_box (box : geometry) (v : Q * Q) : bool :=
  match box with
  | lo :: _ :: hi :: _ =>
    Qle_bool lo.1 v.1 && Qle_bool v.1 hi.1
    && Qle_bool lo.2 v.2 && Qle_bool v.2 hi.2
  | _ => false
  end.

Definition shapely_intersects (polygon line : geometry) : bool :=
  existsb (vertex_in_box polygon) line.

Definition shapely_touches (polygon line : geometry) : bool := false.

Definition polyline_to_grid_points :=
  _polyline_to_grid_points linestring_is_valid shapely_intersects shapely_touches.

Definition polyline_to_binary_grid :=
  polyline_to_binary_narr_grid grid_spacing_metres
    grid_point_x_coords_metres grid_point_y_coords_metres grid_dimensions
    project_latlng_to_xy linestring_is_valid shapely_intersects shapely_touches.

Definition rasterize_one_front :=
  rasterize_front grid_spacing_metres
    grid_point_x_coords_metres grid_point_y_coords_metres grid_dimensions
    project_latlng_to_xy linestring_is_valid shapely_intersects shapely_touches.

Definition many_polylines_to_grid :=
  many_polylines_to_narr_grid grid_spacing_metres
    grid_point_x_coords_metres grid_point_y_coords_metres grid_dimensions
    project_latlng_to_xy linestring_is_valid shapely_intersects shapely_touches.

(** A warm front and a cold front valid at the same time, and a closed
    polyline. *)
Definition warm_record : front_record :=
  {| unix_time_sec := 0; front_type := WARM_FRONT_STRING_ID;
     latitudes_deg := [0; 0]%float; longitudes_deg := [0; 2]%float |}.

Definition cold_record : front_record :=
  {| unix_time_sec := 0; front_type := COLD_FRONT_STRING_ID;
     latitudes_deg := [4; 4]%float; longitudes_deg := [4; 6]%float |}.

Definition closed_record : front_record :=
  {| unix_time_sec := 0; front_type := COLD_FRONT_STRING_ID;
     latitudes_deg := [2; 4; 2]%float; longitudes_deg := [2; 4; 2]%float |}.

(** A polyline whose ends lie a little less than one thousandth of a degree
    apart in latitude. *)
Definition nearly_closed_record : front_record :=
  {| unix_time_sec := 0; front_type := COLD_FRONT_STRING_ID;
     latitudes_deg := [0x1.ec49ba5e353f7p-11; -0x1.0000000000004p-14]%float;
     longitudes_deg := [0; 0]%float |}.

End SmallGrid.


(** ** The stages of [dilate_ternary_narr_image] *)

(** The kernel [dilate_binary_narr_image] dilates with: the one given, or
    else the one built from the dilation distance. *)
Definition chosen_kernel (narr_grid_spacing_metres : Q)
    (dilation_distance_metres : option Q)
    (dilation_kernel_matrix : option (matrix Z)) : result (matrix Z) :=
  match dilation_kernel_matrix with
  | Some k => Ok k
  | None =>
    match dilation_distance_metres with
    | Some d =>
      mask ← buffer_distance_to_narr_mask narr_grid_spacing_metres d ;
      Ok (mmap Z.b2z mask)
    | None => Raise TypeError
    end
  end.

(** The binary image of one front type, before dilation. *)
Definition binary_front_matrix (label : Z) (ternary_matrix : matrix Z)
  : result (matrix Z) :=
  m ← np_full (Z.of_nat (nrows ternary_matrix))
              (Z.of_nat (ncols ternary_matrix)) NO_FRONT_INTEGER_ID ;
  mask_put m (mmap (Z.eqb label) ternary_matrix) ANY_FRONT_INTEGER_ID.

(** The dilated mask of one front type. *)
Definition dilated_front_matrix (narr_grid_spacing_metres : Q) (label : Z)
    (ternary_matrix : matrix Z) (dilation_distance_metres : option Q)
    (dilation_kernel_matrix : option (matrix Z)) : result (matrix Z) :=
  m ← binary_front_matrix label ternary_matrix ;
  dilate_binary_narr_image narr_grid_spacing_metres m
    dilation_distance_metres dilation_kernel_matrix.

(** Smallest squared grid-index distance from cell [p] to the cells [idx]. *)
Definition min_squared_distance (p : Z * Z) (idx : list Z * list Z)
  : result Z :=
  np_min_Z (squared_distances p.1 p.2 idx.1 idx.2).

(** The test of [resolve_point]: the cold front keeps the contested cell. *)
Definition cold_wins (cold_idx warm_idx : list Z * list Z) (p : Z * Z) : bool :=
  match min_squared_distance p cold_idx, min_squared_distance p warm_idx with
  | Ok dc, Ok dw => dc <=? dw
  | _, _ => false
  end.

(** The centre of a kernel, where [cv2.dilate] anchors it. *)
Definition kernel_centre (kernel : matrix Z) : option Z :=
  mget kernel (nrows kernel / 2) (ncols kernel / 2).

(** All entries are 0 or 1. *)
Definition binary_image (m : matrix Z) : Prop :=
  ∀ r c x, mget m r c = Some x → x = 0 ∨ x = 1.


(** An index pair (rows, columns) that lists at least one cell. *)
Definition has_points (idx : list Z * list Z) : Prop :=
  idx.1 ≠ [] ∧ idx.2 ≠ [].

(** Label of a cell after [dilate_ternary_narr_image], from its label [x]
    before and the values [a] and [b] of the dilated cold and warm masks. *)
Definition resolved_label (cold_idx warm_idx : list Z * list Z) (p : Z * Z)
    (x a b : Z) : Z :=
  let contested := (a =? ANY_FRONT_INTEGER_ID) && (b =? ANY_FRONT_INTEGER_ID) in
  let warm_after :=
    if contested && cold_wins cold_idx warm_idx p
    then NO_FRONT_INTEGER_ID else b in
  let cold_after :=
    if contested && negb (cold_wins cold_idx warm_idx p)
    then NO_FRONT_INTEGER_ID else a in
  if warm_after =? ANY_FRONT_INTEGER_ID then WARM_FRONT_INTEGER_ID
  else if cold_after =? ANY_FRONT_INTEGER_ID then COLD_FRONT_INTEGER_ID
  else x.

(** Squared grid-index distance between the position [p] and the cell [q]. *)
Definition squared_distance (p : Z * Z) (q : nat * nat) : Z :=
  (p.1 - Z.of_nat q.1) * (p.1 - Z.of_nat q.1)
  + (p.2 - Z.of_nat q.2) * (p.2 - Z.of_nat q.2).

(** A valid ternary grid: every entry is 0, 1 or 2. *)
Definition ternary_grid (g : matrix Z) : Prop :=
  ∀ r c x, mget g r c = Some x → 0 ≤ x ≤ 2.


(** ** Connected cells of an image *)

(** Value of an integer image at a position, 0 outside. *)
Definition zat (m : matrix Z) (p : Z * Z) : Z := zget m p.1 p.2.

Definition shift (p o : Z * Z) : Z * Z := (p.1 + o.1, p.2 + o.2).

(** [b] is a neighbour of [a] holding the same value. *)
Definition neighbour_step (offs : list (Z * Z)) (image : matrix Z)
    (a b : Z * Z) : Prop :=
  zat image a = zat image b ∧ ∃ o, o ∈ offs ∧ b = shift a o.

(** [a] and [b] are joined by a chain of neighbours holding the same value. *)
Definition linked (offs : list (Z * Z)) (image : matrix Z) : relation (Z * Z) :=
  rtc (neighbour_step offs image).

(** Cells that [flood] may still label: they hold [v] and have no label. *)
Definition unlabelled (image : matrix Z) (v : Z) (R C : nat) (lab : matrix Z)
  : list (nat * nat) :=
  filter (λ q, zat image (cell_index q) = v ∧ zat lab (cell_index q) = 0)
         (all_cells R C).

Definition flood_measure (offs : list (Z * Z)) (image : matrix Z) (v : Z)
    (R C : nat) (stack : list (Z * Z)) (lab : matrix Z) : nat :=
  S (length offs) * length (unlabelled image v R C lab) + length stack.

(** The front type read from a grid value, as in [frontal_grid_to_regions]. *)
Definition front_type_of_id (this_integer_id : Z) : string :=
  if this_integer_id =? WARM_FRONT_INTEGER_ID then WARM_FRONT_STRING_ID
  else if this_integer_id =? COLD_FRONT_INTEGER_ID then COLD_FRONT_STRING_ID
  else "".

(** The cells of region [i] (component id [i + 1]) in raster order. *)
Definition region_cells (region_matrix : matrix Z) (i : nat)
  : list (nat * nat) :=
  where_cells (mmap (Z.eqb (Z.of_nat i + 1)) region_matrix).

(** What one pass of the loop of [frontal_grid_to_regions] emits for region
    [i] when the region has a cell. *)
Definition region_summary (frontal_grid_matrix region_matrix : matrix Z)
    (i : nat) : list Z * list Z * string :=
  ((λ p : nat * nat, Z.of_nat p.1) <$> region_cells region_matrix i,
   (λ p : nat * nat, Z.of_nat p.2) <$> region_cells region_matrix i,
   front_type_of_id
     (zat frontal_grid_matrix
          (cell_index (hd (0%nat, 0%nat) (region_cells region_matrix i))))).


(** Raster (row-major) order on cells. *)
Definition raster_lt (p q : nat * nat) : Prop :=
  (p.1 < q.1 ∨ (p.1 = q.1 ∧ p.2 < q.2))%nat.


(** The index pairs [ps] address the cell (r, c) of a grid with [R] rows and
    [C] columns; a negative index counts from the end. *)
Definition addresses (R C : nat) (ps : list (Z * Z)) (r c : nat) : Prop :=
  ∃ p, p ∈ ps ∧ p.1 mod Z.of_nat R = Z.of_nat r
       ∧ p.2 mod Z.of_nat C = Z.of_nat c.


(** The distance that [buffer_distance_to_narr_mask] and
    [polyline_to_binary_narr_grid] work with: at least one metre. *)
Definition effective_distance (d : Q) : Q := Qmax' d 1.


(** The checks [dilate_binary_narr_image] makes on a kernel: every entry is
    0 or 1 and the entries sum to at least 1. *)
Definition valid_kernel (k : matrix Z) : Prop :=
  binary_image k ∧ ∃ i j, mget k i j = Some 1.


(** The cells of region [i] of a region dictionary, as (row, column) pairs. *)
Definition region_points (d : frontal_region_dict) (i : nat) : list (Z * Z) :=
  zip (default [] (row_indices_by_region d !! i))
      (default [] (column_indices_by_region d !! i)).


Definition _binary_image_to_grid_points (binary_matrix : matrix bool)
  : list Z * list Z :=
  np_where binary_matrix.


(** ** Polylines on a sorted grid *)

(** The grid coordinate [v] lies within the extent [lo, hi] of the polyline
    widened by one grid spacing. *)
Definition in_window (lo hi spacing v : Q) : bool :=
  Qle_bool (lo - spacing) v && Qle_bool v (hi + spacing).

(** Coordinates in ascending order. *)
Definition ascending (l : list Q) : Prop :=
  ∀ i j x y, (i ≤ j)%nat → l !! i = Some x → l !! j = Some y → (x <= y)%Q.

Section CellTest.

Variable shapely_intersects : geometry → geometry → bool.
Variable shapely_touches : geometry → geometry → bool.

(** The test of the double loop of [_polyline_to_grid_points]: the footprint
    of the grid cell around (x, y) meets the polyline. *)
Definition cell_meets_polyline (x y x_spacing_metres y_spacing_metres : Q)
    (line : geometry) : bool :=
  shapely_intersects
    (_grid_cell_to_polygon x y x_spacing_metres y_spacing_metres) line
  || shapely_touches
       (_grid_cell_to_polygon x y x_spacing_metres y_spacing_metres) line.

End CellTest.


(** * Climatology of fronts: [generalexam/ge_utils/climatology_utils.py] *)

Definition WINTER_STRING : string := "winter".
Definition SPRING_STRING : string := "spring".
Definition SUMMER_STRING : string := "summer".
Definition FALL_STRING : string := "fall".

Definition VALID_SEASON_STRINGS : list string :=
  [WINTER_STRING; SPRING_STRING; SUMMER_STRING; FALL_STRING].

Definition _check_season (season_string : string) : result unit :=
  assert_that (bool_decide (season_string ∈ VALID_SEASON_STRINGS)) ValueError.

Definition _check_hours (hours : list Z) : result unit :=
  _ ← assert_that (forallb (λ h, 0 <=? h) hours) ValueError ;
  assert_that (forallb (λ h, h <=? 23) hours) ValueError.

Definition _check_months (months : list Z) : result unit :=
  _ ← assert_that (forallb (λ m, 1 <=? m) months) ValueError ;
  assert_that (forallb (λ m, m <=? 12) months) ValueError.

Definition season_to_months (season_string : string) : result (list Z) :=
  _ ← _check_season season_string ;
  if String.eqb season_string WINTER_STRING then Ok [12; 1; 2]
  else if String.eqb season_string SPRING_STRING then Ok [3; 4; 5]
  else if String.eqb season_string SUMMER_STRING then Ok [6; 7; 8]
  else Ok [9; 10; 11].

(** [numpy.diff] of a one-dimensional array. *)
Definition np_diff (l : list Z) : list Z := zip_with Z.sub (tail l) l.

(** An element-wise operation on two one-dimensional arrays, with NumPy's
    broadcasting of an array of length 1. *)
Definition broadcast1 {A B C : Type} (f : A → B → C) (l1 : list A)
    (l2 : list B) : result (list C) :=
  if decide (length l1 = length l2) then Ok (zip_with f l1 l2)
  else match l1, l2 with
       | [a], _ => Ok (f a <$> l2)
       | _, [b] => Ok ((λ a, f a b) <$> l1)
       | _, _ => Raise ValueError
       end.

(** [l[idx] = v] with an integer index array. *)
Definition np_put1 {A : Type} (l : list A) (idx : list Z) (v : A)
  : result (list A) :=
  foldM (λ acc i, k ← norm_index (length l) i ; Ok (<[k := v]> acc)) l idx.

Section Climatology.

(** [front_utils.NO_FRONT_ENUM], the label of a time without front, and the
    hour of day and the month of a Unix time as
    [time_conversion.unix_sec_to_string] of the GewitterGefahr library gives
    them with the formats '%H' and '%m'. *)
Variable NO_FRONT_ENUM : Z.
Variable unix_sec_to_hour : Z → Z.
Variable unix_sec_to_month : Z → Z.

Definition _exact_times_to_hours (exact_times_unix_sec : list Z) : list Z :=
  unix_sec_to_hour <$> exact_times_unix_sec.

Definition _exact_times_to_months (exact_times_unix_sec : list Z) : list Z :=
  unix_sec_to_month <$> exact_times_unix_sec.

Definition filter_by_hour (all_times_unix_sec hours_to_keep : list Z)
  : result (list Z) :=
  _ ← _check_hours hours_to_keep ;
  let all_hours := _exact_times_to_hours all_times_unix_sec in
  let num_times := length all_times_unix_sec in
  let keep_time_flags :=
    foldl (λ keep_time_flags this_hour,
             zip_with orb keep_time_flags
                      ((λ h, h =? this_hour) <$> all_hours))
          (replicate num_times false) hours_to_keep in
  Ok (np_where1 keep_time_flags).

Definition filter_by_month (all_times_unix_sec months_to_keep : list Z)
  : result (list Z) :=
  _ ← _check_months months_to_keep ;
  let all_months := _exact_times_to_months all_times_unix_sec in
  let num_times := length all_times_unix_sec in
  let keep_time_flags :=
    foldl (λ keep_time_flags this_month,
             zip_with orb keep_time_flags
                      ((λ m, m =? this_month) <$> all_months))
          (replicate num_times false) months_to_keep in
  Ok (np_where1 keep_time_flags).

(** The start indices of the fronts of the relevant type: a label of that
    type whose predecessor is missing, has another type, or is more than the
    smallest time step earlier. *)
Definition front_start_indices (front_type_enums time_steps_sec : list Z)
    (smallest_time_step_sec relevant_front_type_enum : Z) : result (list Z) :=
  let frontal_flags :=
    (λ e, e =? relevant_front_type_enum) <$> front_type_enums in
  prev_non_frontal_flags ←
    broadcast1 orb
      ((λ s, smallest_time_step_sec <? s) <$> time_steps_sec)
      ((λ e, negb (e =? relevant_front_type_enum))
       <$> removelast front_type_enums) ;
  let prev_non_frontal_flags := true :: prev_non_frontal_flags in
  flags ← broadcast1 andb frontal_flags prev_non_frontal_flags ;
  Ok (np_where1 flags).

(** Body of the loop over the start indices. *)
Definition separate_from (valid_times_unix_sec : list Z)
    (separation_time_sec relevant_front_type_enum : Z)
    (front_type_enums : list Z) (k : Z) : result (list Z) :=
  this_enum ← np_item front_type_enums k ;
  if negb (this_enum =? relevant_front_type_enum) then Ok front_type_enums
  else
    this_time ← np_item valid_times_unix_sec k ;
    flags ← broadcast1 andb
               ((λ e, e =? relevant_front_type_enum) <$> front_type_enums)
               ((λ t, t <? this_time + separation_time_sec)
                <$> valid_times_unix_sec) ;
    let these_indices := filter (λ i, k < i) (np_where1 flags) in
    if bool_decide (length these_indices = 0%nat) then Ok front_type_enums
    else np_put1 front_type_enums these_indices NO_FRONT_ENUM.

(** One pass of the [while] loop. *)
Definition separation_pass (valid_times_unix_sec time_steps_sec : list Z)
    (smallest_time_step_sec separation_time_sec relevant_front_type_enum : Z)
    (front_type_enums : list Z) : result (list Z) :=
  starts ← front_start_indices front_type_enums time_steps_sec
             smallest_time_step_sec relevant_front_type_enum ;
  foldM (separate_from valid_times_unix_sec separation_time_sec
           relevant_front_type_enum) front_type_enums starts.

(** The [while True] loop: passes are made until one changes nothing.  The
    bound [fuel] on the number of passes is never reached when it exceeds
    the number of labels. *)
Fixpoint separation_loop (fuel : nat)
    (valid_times_unix_sec time_steps_sec : list Z)
    (smallest_time_step_sec separation_time_sec relevant_front_type_enum : Z)
    (front_type_enums : list Z) : result (list Z) :=
  match fuel with
  | O => Ok front_type_enums
  | S fuel' =>
    let orig_front_type_enums := front_type_enums in
    front_type_enums ←
      separation_pass valid_times_unix_sec time_steps_sec
        smallest_time_step_sec separation_time_sec relevant_front_type_enum
        front_type_enums ;
    if bool_decide (front_type_enums = orig_front_type_enums)
    then Ok front_type_enums
    else separation_loop fuel' valid_times_unix_sec time_steps_sec
           smallest_time_step_sec separation_time_sec relevant_front_type_enum
           front_type_enums
  end.

Definition _apply_sep_time_one_front_type (front_type_enums
    valid_times_unix_sec : list Z)
    (separation_time_sec relevant_front_type_enum : Z) : result (list Z) :=
  let time_steps_sec := np_diff valid_times_unix_sec in
  smallest_time_step_sec ← np_min_Z time_steps_sec ;
  separation_loop (S (length front_type_enums)) valid_times_unix_sec
    time_steps_sec smallest_time_step_sec separation_time_sec
    relevant_front_type_enum front_type_enums.

End Climatology.


(** ** Statements about the separation time *)

(** [new] is [old] with some labels of the relevant type replaced by the
    label of no front, and nothing else changed. *)
Definition removes_only (NO_FRONT_ENUM relevant_front_type_enum : Z)
    (old new : list Z) : Prop :=
  Forall2 (λ o n, n = o ∨ (o = relevant_front_type_enum ∧ n = NO_FRONT_ENUM))
          old new.

(** Time [k] starts a front of the relevant type: it has that label, and the
    time before it is missing, has another label, or lies more than the
    smallest time step back. *)
Definition front_start (front_type_enums valid_times_unix_sec : list Z)
    (smallest_time_step_sec relevant_front_type_enum : Z) (k : nat) : Prop :=
  front_type_enums !! k = Some relevant_front_type_enum ∧
  match k with
  | O => True
  | S j =>
    front_type_enums !! j ≠ Some relevant_front_type_enum ∨
    ∃ t0 t1, valid_times_unix_sec !! j = Some t0 ∧
             valid_times_unix_sec !! k = Some t1 ∧
             smallest_time_step_sec < t1 - t0
  end.


(** ** IEEE doubles

    The operations of [PrimFloat] are specified by those of [SpecFloat] on
    the sign, mantissa and exponent of a double. *)

(** A double that is not NaN and carries the sign [s]. *)
Definition sf_signed (s : bool) (x : spec_float) : Prop :=
  match x with
  | S754_zero s' | S754_infinity s' | S754_finite s' _ _ => s' = s
  | S754_nan => False
  end.

Definition sf_is_zero (x : spec_float) : Prop :=
  match x with S754_zero _ => True | _ => False end.

(** Two doubles that compare alike: the same, or two zeros. *)
Definition sf_alike (x y : spec_float) : Prop :=
  x = y ∨ (sf_is_zero x ∧ sf_is_zero y).

(** The sign of a double: its comparison with zero, [None] for NaN. *)
Definition sf_cmp0 (x : spec_float) : option comparison :=
  SFcompare x (S754_zero false).

(** * Properties *)

Arguments np_where : simpl never.
Arguments where_cells : simpl never.
Arguments mmap : simpl never.
Arguments mzip_with : simpl never.
Arguments mtabulate : simpl never.
Arguments put_cells : simpl never.
Arguments index_put : simpl never.
Arguments cell_index : simpl never.
Arguments cell_of_index : simpl never.
Arguments mall : simpl never.
Arguments nrows : simpl never.
Arguments ncols : simpl never.

(** ** Results *)

Lemma bind_Ok {A B : Type} (x : result A) (k : A → result B) (b : B) :
  (x ≫= k) = Ok b ↔ ∃ a, x = Ok a ∧ k a = Ok b.
Proof.
  destruct x as [a|e]; simpl.
  - split; [intros H; exists a; done | intros (a' & [= <-] & H); done].
  - split; [done | intros (a' & [=] & _)].
Qed.

Lemma assert_that_Ok (b : bool) (e : exn) : assert_that b e = Ok tt ↔ b = true.
Proof. destruct b; simpl; split; done. Qed.

(** ** Arrays *)

Section MatrixFacts.
Context {A : Type}.
Implicit Types (m : matrix A) (r c R C : nat).

Lemma mget_Some_lt m R C r c x :
  is_matrix R C m → mget m r c = Some x → (r < R ∧ c < C)%nat.
Proof.
  intros [HR HC]. unfold mget. destruct (m !! r) as [row|] eqn:Hrow; [|done].
  simpl. intros Hc. split.
  - rewrite <- HR. by eapply lookup_lt_Some.
  - rewrite Forall_lookup in HC. rewrite <- (HC _ _ Hrow).
    by eapply lookup_lt_Some.
Qed.

Lemma mget_is_Some m R C r c :
  is_matrix R C m → (r < R)%nat → (c < C)%nat → is_Some (mget m r c).
Proof.
  intros [HR HC] Hr Hc. unfold mget.
  destruct (lookup_lt_is_Some_2 m r) as [row Hrow]; [lia|].
  rewrite Hrow. simpl. apply lookup_lt_is_Some_2.
  rewrite Forall_lookup in HC. rewrite (HC _ _ Hrow). done.
Qed.

Lemma mget_mtabulate R C (f : nat → nat → A) r c :
  mget (mtabulate R C f) r c
  = if decide (r < R ∧ c < C)%nat then Some (f r c) else None.
Proof.
  unfold mget, mtabulate. rewrite list_lookup_fmap.
  destruct (decide (r < R)%nat) as [Hr|Hr].
  - rewrite lookup_seq_lt by done. simpl. rewrite list_lookup_fmap.
    destruct (decide (c < C)%nat) as [Hc|Hc].
    + rewrite lookup_seq_lt by done. simpl. rewrite decide_True by done. done.
    + rewrite lookup_seq_ge by lia. simpl. rewrite decide_False by lia. done.
  - rewrite lookup_seq_ge by lia. simpl. rewrite decide_False by lia. done.
Qed.

Lemma is_matrix_mtabulate R C (f : nat → nat → A) :
  is_matrix R C (mtabulate R C f).
Proof.
  split.
  - unfold mtabulate. by rewrite length_fmap, length_seq.
  - unfold mtabulate. apply Forall_fmap, Forall_forall. intros r _. simpl.
    by rewrite length_fmap, length_seq.
Qed.

Lemma is_matrix_nrows m R C : is_matrix R C m → nrows m = R.
Proof. by intros [? _]. Qed.

Lemma is_matrix_ncols m R C : is_matrix R C m → (0 < R)%nat → ncols m = C.
Proof.
  intros [HR HC] Hpos. unfold ncols. destruct m as [|row m']; simpl in *; [lia|].
  by inversion HC.
Qed.

Lemma is_matrix_shape m R C : is_matrix R C m → length <$> m = replicate R C.
Proof.
  intros [HR HC]. subst R. induction HC as [|row m' Hrow _ IH]; [done|].
  rewrite fmap_cons. simpl length. simpl replicate. by f_equal.
Qed.

Lemma is_matrix_self m :
  is_matrix (nrows m) (ncols m) m ↔ Forall (λ row, length row = ncols m) m.
Proof. unfold is_matrix, nrows. split; [by intros [_ ?] | by intros ?]. Qed.

Lemma matrix_ext m1 m2 R C :
  is_matrix R C m1 → is_matrix R C m2 →
  (∀ r c, (r < R)%nat → (c < C)%nat → mget m1 r c = mget m2 r c) →
  m1 = m2.
Proof.
  intros [HR1 HC1] [HR2 HC2] Hget. apply list_eq. intros r.
  destruct (decide (r < R)%nat) as [Hr|Hr].
  - destruct (lookup_lt_is_Some_2 m1 r) as [row1 Hrow1]; [lia|].
    destruct (lookup_lt_is_Some_2 m2 r) as [row2 Hrow2]; [lia|].
    rewrite Hrow1, Hrow2. f_equal. apply list_eq. intros c.
    rewrite Forall_lookup in HC1. rewrite Forall_lookup in HC2.
    pose proof (HC1 _ _ Hrow1) as Hl1. pose proof (HC2 _ _ Hrow2) as Hl2.
    destruct (decide (c < C)%nat) as [Hc|Hc].
    + specialize (Hget r c Hr Hc). unfold mget in Hget.
      by rewrite Hrow1, Hrow2 in Hget.
    + rewrite !lookup_ge_None_2 by lia. done.
  - rewrite !lookup_ge_None_2 by lia. done.
Qed.

Lemma mget_mset m r c r' c' (v : A) :
  mget (mset m r c v) r' c'
  = if decide (r = r' ∧ c = c') then (λ _, v) <$> mget m r' c' else mget m r' c'.
Proof.
  unfold mget, mset. rewrite list_lookup_alter.
  destruct (decide (r = r')) as [->|Hr].
  - destruct (m !! r') as [row|]; simpl.
    + rewrite list_lookup_insert.
      destruct (decide (c = c')) as [->|Hc].
      * destruct (decide (c' < length row)%nat) as [Hlt|Hge].
        -- rewrite decide_True by done. rewrite decide_True by done.
           destruct (lookup_lt_is_Some_2 row c' Hlt) as [x ->]. done.
        -- rewrite decide_False by lia. rewrite decide_True by done.
           rewrite lookup_ge_None_2 by lia. done.
      * rewrite decide_False by (intros []; congruence).
        rewrite decide_False by (intros []; congruence). done.
    + by destruct (decide _).
  - rewrite decide_False by (intros []; congruence). done.
Qed.

Lemma is_matrix_mset m R C r c (v : A) :
  is_matrix R C m → is_matrix R C (mset m r c v).
Proof.
  intros [HR HC]. split.
  - unfold mset. by rewrite length_alter.
  - unfold mset. rewrite Forall_lookup. intros i row.
    rewrite list_lookup_alter. rewrite Forall_lookup in HC.
    destruct (decide (r = i)) as [->|Hne].
    + destruct (m !! i) as [row0|] eqn:Hrow0; simpl; [|done].
      intros [= <-]. rewrite length_insert. by eapply HC.
    + by apply HC.
Qed.

End MatrixFacts.

Lemma mget_mmap {A B : Type} (f : A → B) (m : matrix A) r c :
  mget (mmap f m) r c = f <$> mget m r c.
Proof.
  unfold mget, mmap. rewrite list_lookup_fmap.
  destruct (m !! r) as [row|]; simpl; [|done]. by rewrite list_lookup_fmap.
Qed.

Lemma is_matrix_mmap {A B : Type} (f : A → B) (m : matrix A) R C :
  is_matrix R C m → is_matrix R C (mmap f m).
Proof.
  intros [HR HC]. split.
  - unfold mmap. by rewrite length_fmap.
  - unfold mmap. apply Forall_fmap. eapply Forall_impl; [exact HC|].
    intros row Hrow. simpl. by rewrite length_fmap.
Qed.

Lemma shape_mmap {A B : Type} (f : A → B) (m : matrix A) :
  length <$> mmap f m = length <$> m.
Proof.
  unfold mmap. rewrite <- list_fmap_compose. apply list_fmap_ext.
  intros i row _. simpl. by rewrite length_fmap.
Qed.

Lemma nrows_mmap {A B : Type} (f : A → B) (m : matrix A) :
  nrows (mmap f m) = nrows m.
Proof. unfold nrows, mmap. by rewrite length_fmap. Qed.

Lemma ncols_mmap {A B : Type} (f : A → B) (m : matrix A) :
  ncols (mmap f m) = ncols m.
Proof. unfold ncols, mmap. destruct m; simpl; [done|]. by rewrite length_fmap. Qed.

Lemma mget_mzip_with {A B C : Type} (f : A → B → C) (m1 : matrix A)
    (m2 : matrix B) r c :
  mget (mzip_with f m1 m2) r c
  = x ← mget m1 r c ; y ← mget m2 r c ; Some (f x y).
Proof.
  unfold mget, mzip_with. rewrite lookup_zip_with.
  destruct (m1 !! r) as [row1|]; simpl; [|done].
  destruct (m2 !! r) as [row2|]; simpl.
  - rewrite lookup_zip_with. done.
  - by destruct (row1 !! c).
Qed.

Lemma is_matrix_mzip_with {A B C : Type} (f : A → B → C) (m1 : matrix A)
    (m2 : matrix B) R K :
  is_matrix R K m1 → is_matrix R K m2 → is_matrix R K (mzip_with f m1 m2).
Proof.
  intros [HR1 HC1] [HR2 HC2]. split.
  - unfold mzip_with. rewrite length_zip_with. lia.
  - unfold mzip_with. rewrite Forall_lookup. intros i row.
    rewrite lookup_zip_with. rewrite Forall_lookup in HC1.
    rewrite Forall_lookup in HC2.
    destruct (m1 !! i) as [row1|] eqn:H1; simpl; [|done].
    destruct (m2 !! i) as [row2|] eqn:H2; simpl; [|done].
    intros [= <-]. rewrite length_zip_with.
    rewrite (HC1 _ _ H1), (HC2 _ _ H2). lia.
Qed.

Lemma np_full_Ok {A : Type} (R C : nat) (v : A) :
  np_full (Z.of_nat R) (Z.of_nat C) v = Ok (replicate R (replicate C v)).
Proof.
  unfold np_full. rewrite decide_True by lia. by rewrite !Nat2Z.id.
Qed.

Lemma is_matrix_replicate {A : Type} (R C : nat) (v : A) :
  is_matrix R C (replicate R (replicate C v)).
Proof.
  split; [by rewrite length_replicate|].
  apply Forall_replicate. by rewrite length_replicate.
Qed.

Lemma mget_replicate {A : Type} (R C : nat) (v : A) r c :
  mget (replicate R (replicate C v)) r c
  = if decide (r < R ∧ c < C)%nat then Some v else None.
Proof.
  unfold mget.
  destruct (decide (r < R)%nat) as [Hr|Hr].
  - rewrite lookup_replicate_2 by done. simpl.
    destruct (decide (c < C)%nat) as [Hc|Hc].
    + rewrite lookup_replicate_2 by done. by rewrite decide_True.
    + rewrite decide_False by lia. apply lookup_replicate_None. lia.
  - rewrite decide_False by lia.
    assert (replicate R (replicate C v) !! r = None) as ->; [|done].
    apply lookup_replicate_None. lia.
Qed.

(** ** [numpy.where] *)

Lemma elem_of_where_row r c0 row p :
  p ∈ where_row r c0 row ↔ ∃ i, p = (r, (c0 + i)%nat) ∧ row !! i = Some true.
Proof.
  revert c0. induction row as [|b row IH]; intros c0; simpl.
  - split; [by intros ?%elem_of_nil | by intros (i & _ & ?)].
  - rewrite elem_of_app, IH. split.
    + intros [Hb | (i & -> & Hi)].
      * destruct b; [|by apply elem_of_nil in Hb].
        apply list_elem_of_singleton in Hb as ->. exists 0%nat.
        split; [f_equal; lia | done].
      * exists (S i). split; [f_equal; lia | done].
    + intros ([|i] & -> & Hi); simpl in Hi.
      * injection Hi as ->. left. rewrite Nat.add_0_r.
        by apply list_elem_of_singleton.
      * right. exists i. split; [f_equal; lia | done].
Qed.

Lemma elem_of_where_from r0 m p :
  p ∈ where_from r0 m
  ↔ ∃ i, p.1 = (r0 + i)%nat ∧ mget m i p.2 = Some true.
Proof.
  revert r0. induction m as [|row m IH]; intros r0; simpl.
  - split; [by intros ?%elem_of_nil | by intros (i & _ & ?)].
  - rewrite elem_of_app, IH, elem_of_where_row. split.
    + intros [(i & -> & Hi) | (i & Hp & Hi)].
      * exists 0%nat. simpl. split; [lia | done].
      * exists (S i). split; [lia | done].
    + intros ([|i] & Hp & Hi).
      * left. exists p.2. unfold mget in Hi. simpl in Hi.
        split; [|done]. destruct p as [pr pc]; simpl in *. f_equal. lia.
      * right. exists i. split; [lia | done].
Qed.

Lemma elem_of_where_cells m r c :
  (r, c) ∈ where_cells m ↔ mget m r c = Some true.
Proof.
  unfold where_cells. rewrite elem_of_where_from. simpl. split.
  - by intros (i & -> & Hi).
  - intros Hi. by exists r.
Qed.

Lemma NoDup_where_row r c0 row : NoDup (where_row r c0 row).
Proof.
  revert c0. induction row as [|b row IH]; intros c0; simpl.
  - constructor.
  - destruct b; simpl; [|apply IH]. constructor; [|apply IH].
    rewrite elem_of_where_row. intros (i & [= Hi] & _). lia.
Qed.

Lemma NoDup_where_from r0 m : NoDup (where_from r0 m).
Proof.
  revert r0. induction m as [|row m IH]; intros r0; simpl.
  - constructor.
  - apply NoDup_app. split; [apply NoDup_where_row|]. split; [|apply IH].
    intros p. rewrite elem_of_where_row, elem_of_where_from.
    intros (i & -> & _) (j & Hj & _). simpl in Hj. lia.
Qed.

Lemma NoDup_where_cells m : NoDup (where_cells m).
Proof. apply NoDup_where_from. Qed.

Lemma np_where_cells m :
  np_where m = ((cell_index <$> where_cells m).*1, (cell_index <$> where_cells m).*2).
Proof.
  unfold np_where. f_equal; rewrite <- list_fmap_compose; done.
Qed.

(** ** Index assignment *)

Lemma norm_index_nat (n k : nat) : (k < n)%nat → norm_index n (Z.of_nat k) = Ok k.
Proof.
  intros Hk. unfold norm_index. rewrite decide_True by lia. by rewrite Nat2Z.id.
Qed.

Lemma zip_fst_snd {A B : Type} (l : list (A * B)) : zip (l.*1) (l.*2) = l.
Proof. induction l as [|[a b] l IH]; [done|]. rewrite !fmap_cons. simpl. by f_equal. Qed.

Lemma broadcast_indices_zip (ps : list (Z * Z)) :
  broadcast_indices (ps.*1) (ps.*2) = Ok ps.
Proof.
  unfold broadcast_indices. rewrite decide_True by (by rewrite !length_fmap).
  by rewrite zip_fst_snd.
Qed.

Section IndexPut.
Context {A : Type}.
Implicit Types (m : matrix A).

Lemma foldM_put_cells (n1 n2 : nat) acc cells (v : A) :
  (∀ p, p ∈ cells → (p.1 < n1 ∧ p.2 < n2)%nat) →
  foldM (λ m' (p : Z * Z),
           r ← norm_index n1 p.1 ;
           c ← norm_index n2 p.2 ;
           Ok (mset m' r c v)) acc (cell_index <$> cells)
  = Ok (put_cells acc cells v).
Proof.
  unfold put_cells. revert acc.
  induction cells as [|p cells IH]; intros acc Hin; [done|].
  rewrite fmap_cons. simpl.
  destruct (Hin p) as [Hr Hc]; [by left|].
  rewrite !norm_index_nat by done. simpl. apply IH.
  intros q Hq. apply Hin. by right.
Qed.

Lemma index_put_cells m cells (v : A) :
  (∀ p, p ∈ cells → (p.1 < nrows m ∧ p.2 < ncols m)%nat) →
  index_put m ((cell_index <$> cells).*1, (cell_index <$> cells).*2) v
  = Ok (put_cells m cells v).
Proof.
  intros Hin. unfold index_put. simpl fst. simpl snd.
  rewrite broadcast_indices_zip. simpl. by apply foldM_put_cells.
Qed.

Lemma is_matrix_put_cells m R C cells (v : A) :
  is_matrix R C m → is_matrix R C (put_cells m cells v).
Proof.
  unfold put_cells. revert m. induction cells as [|p cells IH]; intros m Hm;
    simpl; [done|]. apply IH. by apply is_matrix_mset.
Qed.

Lemma mget_put_cells m cells (v : A) r c :
  mget (put_cells m cells v) r c
  = if decide ((r, c) ∈ cells) then (λ _, v) <$> mget m r c else mget m r c.
Proof.
  unfold put_cells. revert m. induction cells as [|p cells IH]; intros m;
    cbn [foldl].
  - case_decide as H; [by apply elem_of_nil in H | done].
  - rewrite IH, mget_mset. destruct p as [pr pc]. simpl.
    destruct (decide ((r, c) ∈ cells)) as [Hin|Hin].
    + rewrite (decide_True (P := (r, c) ∈ (pr, pc) :: cells))
        by (apply elem_of_cons; by right).
      destruct (decide (pr = r ∧ pc = c)); [|done].
      by destruct (mget m r c).
    + destruct (decide (pr = r ∧ pc = c)) as [[-> ->]|Hne].
      * rewrite (decide_True (P := (r, c) ∈ (r, c) :: cells))
          by (apply elem_of_cons; by left). done.
      * rewrite (decide_False (P := (r, c) ∈ (pr, pc) :: cells)); [done|].
        intros [[= -> ->]|?]%elem_of_cons; [by apply Hne | done].
Qed.

Lemma index_put_where m (mask : matrix bool) R C (v : A) :
  is_matrix R C m → is_matrix R C mask →
  index_put m (np_where mask) v
  = Ok (mzip_with (λ x (b : bool), if b then v else x) m mask).
Proof.
  intros Hm Hmask. rewrite np_where_cells, index_put_cells.
  - f_equal. eapply matrix_ext.
    + by apply is_matrix_put_cells.
    + by apply is_matrix_mzip_with.
    + intros r c Hr Hc. rewrite mget_put_cells, mget_mzip_with.
      destruct (mget_is_Some m R C r c Hm Hr Hc) as [x Hx].
      destruct (mget_is_Some mask R C r c Hmask Hr Hc) as [b Hb].
      rewrite Hx, Hb. simpl.
      destruct (decide ((r, c) ∈ where_cells mask)) as [Hin|Hin].
      * apply elem_of_where_cells in Hin. rewrite Hb in Hin.
        by injection Hin as ->.
      * destruct b; [|done]. exfalso. apply Hin.
        by apply elem_of_where_cells.
  - intros [r c] Hp. apply elem_of_where_cells in Hp. simpl.
    destruct (mget_Some_lt _ _ _ _ _ _ Hmask Hp) as [Hr Hc].
    rewrite (is_matrix_nrows _ _ _ Hm).
    rewrite (is_matrix_ncols _ _ _ Hm) by lia. done.
Qed.

End IndexPut.

Lemma mall_spec {A : Type} (p : A → bool) (m : matrix A) :
  mall p m = true ↔ ∀ r c x, mget m r c = Some x → p x = true.
Proof.
  unfold mall. rewrite forallb_forall. split.
  - intros H r c x Hx. unfold mget in Hx.
    destruct (m !! r) as [row|] eqn:Hrow; [|done]. simpl in Hx.
    assert (forallb p row = true) as Hall.
    { apply H, list_elem_of_In, list_elem_of_lookup. eauto. }
    rewrite forallb_forall in Hall.
    apply Hall, list_elem_of_In, list_elem_of_lookup. eauto.
  - intros H row [r Hrow]%list_elem_of_In%list_elem_of_lookup.
    apply forallb_forall.
    intros x [c Hx]%list_elem_of_In%list_elem_of_lookup.
    apply (H r c). unfold mget. by rewrite Hrow.
Qed.

Lemma cell_index_inj : Inj (=) (=) cell_index.
Proof.
  intros [r1 c1] [r2 c2]. unfold cell_index. simpl. intros [= H1 H2].
  f_equal; lia.
Qed.

Lemma cell_index_of_index (p : Z * Z) :
  0 ≤ p.1 → 0 ≤ p.2 → cell_index (cell_of_index p) = p.
Proof.
  destruct p as [r c]. unfold cell_index, cell_of_index. simpl. intros Hr Hc.
  f_equal; lia.
Qed.

Lemma cell_of_index_index (p : nat * nat) : cell_of_index (cell_index p) = p.
Proof.
  destruct p as [r c]. unfold cell_index, cell_of_index. simpl.
  by rewrite !Nat2Z.id.
Qed.

Lemma cell_index_cells (ps : list (Z * Z)) :
  (∀ p, p ∈ ps → 0 ≤ p.1 ∧ 0 ≤ p.2) →
  cell_index <$> (cell_of_index <$> ps) = ps.
Proof.
  intros Hpos. rewrite <- list_fmap_compose. rewrite <- (list_fmap_id ps) at 2.
  apply list_fmap_ext. intros i p Hp. simpl.
  destruct (Hpos p) as [? ?]; [by eapply list_elem_of_lookup_2|].
  by apply cell_index_of_index.
Qed.

Lemma elem_of_cell_of_index (ps : list (Z * Z)) (q : nat * nat) :
  (∀ p, p ∈ ps → 0 ≤ p.1 ∧ 0 ≤ p.2) →
  q ∈ cell_of_index <$> ps ↔ cell_index q ∈ ps.
Proof.
  intros Hpos. rewrite list_elem_of_fmap. split.
  - intros (p & -> & Hp). destruct (Hpos p Hp) as [? ?].
    by rewrite cell_index_of_index.
  - intros Hq. exists (cell_index q). by rewrite cell_of_index_index.
Qed.

(** ** The rasterizer round trip *)

Lemma zip_cell_index (cells : list (nat * nat)) :
  zip ((λ p : nat * nat, Z.of_nat p.1) <$> cells)
      ((λ p : nat * nat, Z.of_nat p.2) <$> cells)
  = cell_index <$> cells.
Proof.
  induction cells as [|p cells IH]; [done|]. rewrite !fmap_cons. simpl.
  by f_equal.
Qed.

Lemma frontal_grid_to_points_Ok (g : matrix Z) :
  (∀ r c x, mget g r c = Some x → 0 ≤ x ≤ 2) →
  ∃ d, frontal_grid_to_points g = Ok d
       ∧ dict_warm_points d
         = cell_index <$> where_cells (mmap (Z.eqb WARM_FRONT_INTEGER_ID) g)
       ∧ dict_cold_points d
         = cell_index <$> where_cells (mmap (Z.eqb COLD_FRONT_INTEGER_ID) g).
Proof.
  intros Hval. unfold frontal_grid_to_points.
  assert (mall (λ x, NO_FRONT_INTEGER_ID <=? x) g = true) as ->.
  { apply mall_spec. intros r c x Hx. apply Z.leb_le.
    unfold NO_FRONT_INTEGER_ID. by apply (Hval r c). }
  assert (mall (λ x, x <=? COLD_FRONT_INTEGER_ID) g = true) as ->.
  { apply mall_spec. intros r c x Hx. apply Z.leb_le.
    unfold COLD_FRONT_INTEGER_ID. by apply (Hval r c). }
  simpl. eexists. split; [done|].
  unfold dict_warm_points, dict_cold_points. simpl.
  split; apply zip_cell_index.
Qed.

(** C1.  For warm and cold index sets without duplicates, with every index
    in range and no cell in both sets, [frontal_points_to_grid] followed by
    [frontal_grid_to_points] returns the same warm index set and the same
    cold index set, up to the order of the points. *)
Theorem frontal_points_grid_round_trip (warm cold : list (Z * Z)) (R C : Z) :
  NoDup warm → NoDup cold →
  0 ≤ R → 0 ≤ C →
  (∀ p, p ∈ warm ++ cold → 0 ≤ p.1 < R ∧ 0 ≤ p.2 < C) →
  (∀ p, p ∈ warm → p ∉ cold) →
  ∃ g d, frontal_points_to_grid (points_dict warm cold) R C = Ok g
         ∧ frontal_grid_to_points g = Ok d
         ∧ dict_warm_points d ≡ₚ warm
         ∧ dict_cold_points d ≡ₚ cold.
Proof.
  intros NDw NDc HR HC Hrange Hdisj.
  set (Rn := Z.to_nat R). set (Cn := Z.to_nat C).
  set (warmN := cell_of_index <$> warm). set (coldN := cell_of_index <$> cold).
  assert (∀ p, p ∈ warm → 0 ≤ p.1 ∧ 0 ≤ p.2) as Hposw.
  { intros p Hp. destruct (Hrange p); [apply elem_of_app; by left | lia]. }
  assert (∀ p, p ∈ cold → 0 ≤ p.1 ∧ 0 ≤ p.2) as Hposc.
  { intros p Hp. destruct (Hrange p); [apply elem_of_app; by right | lia]. }
  assert (∀ q, q ∈ warmN ++ coldN → (q.1 < Rn ∧ q.2 < Cn)%nat) as HrangeN.
  { intros q Hq. destruct (Hrange (cell_index q)) as [H1 H2].
    - apply elem_of_app. apply elem_of_app in Hq as [Hq|Hq]; [left|right];
        by apply elem_of_cell_of_index in Hq.
    - destruct q as [r c]. unfold cell_index in *. simpl in *. lia. }
  set (g0 := replicate Rn (replicate Cn NO_FRONT_INTEGER_ID)).
  assert (is_matrix Rn Cn g0) as Hg0 by apply is_matrix_replicate.
  set (g1 := put_cells g0 warmN WARM_FRONT_INTEGER_ID).
  assert (is_matrix Rn Cn g1) as Hg1 by by apply is_matrix_put_cells.
  set (g := put_cells g1 coldN COLD_FRONT_INTEGER_ID).
  assert (is_matrix Rn Cn g) as Hg by by apply is_matrix_put_cells.
  assert (frontal_points_to_grid (points_dict warm cold) R C = Ok g) as Hgrid.
  { unfold frontal_points_to_grid, points_dict. simpl.
    rewrite <- (Z2Nat.id R), <- (Z2Nat.id C) by done. rewrite np_full_Ok.
    fold Rn Cn g0. simpl.
    rewrite <- (cell_index_cells warm Hposw). fold warmN.
    rewrite index_put_cells.
    - fold g1. simpl. rewrite <- (cell_index_cells cold Hposc). fold coldN.
      rewrite index_put_cells; [done|].
      intros q Hq. destruct (HrangeN q) as [? ?]; [apply elem_of_app; by right|].
      rewrite (is_matrix_nrows _ _ _ Hg1).
      rewrite (is_matrix_ncols _ _ _ Hg1) by lia. done.
    - intros q Hq. destruct (HrangeN q) as [? ?]; [apply elem_of_app; by left|].
      rewrite (is_matrix_nrows _ _ _ Hg0).
      rewrite (is_matrix_ncols _ _ _ Hg0) by lia. done. }
  assert (∀ r c, mget g r c
                 = if decide (r < Rn ∧ c < Cn)%nat
                   then Some (if decide ((r, c) ∈ coldN) then COLD_FRONT_INTEGER_ID
                              else if decide ((r, c) ∈ warmN) then WARM_FRONT_INTEGER_ID
                              else NO_FRONT_INTEGER_ID)
                   else None) as Hget.
  { intros r c. unfold g, g1, g0. rewrite !mget_put_cells, mget_replicate.
    destruct (decide (r < Rn ∧ c < Cn)%nat); repeat case_decide; done. }
  destruct (frontal_grid_to_points_Ok g) as (d & Hd & Hdw & Hdc).
  { intros r c x. rewrite Hget. repeat case_decide; intros [= <-];
      unfold COLD_FRONT_INTEGER_ID, WARM_FRONT_INTEGER_ID, NO_FRONT_INTEGER_ID; lia. }
  exists g, d. split; [done|]. split; [done|].
  assert (∀ q, q ∈ warmN → q ∉ coldN) as HdisjN.
  { intros q Hw Hc. apply elem_of_cell_of_index in Hw; [|done].
    apply elem_of_cell_of_index in Hc; [|done]. by apply (Hdisj (cell_index q)). }
  split.
  - rewrite Hdw. apply NoDup_Permutation; [|done|].
    + apply NoDup_fmap_2; [apply cell_index_inj | apply NoDup_where_cells].
    + intros p. rewrite list_elem_of_fmap. split.
      * intros ([r c] & -> & Hq). apply elem_of_where_cells in Hq.
        rewrite mget_mmap, Hget in Hq. apply elem_of_cell_of_index; [done|].
        fold warmN. revert Hq. unfold WARM_FRONT_INTEGER_ID, COLD_FRONT_INTEGER_ID,
          NO_FRONT_INTEGER_ID. repeat case_decide; simpl; intros [=]; done.
      * intros Hp. exists (cell_of_index p).
        destruct (Hposw p Hp). rewrite cell_index_of_index by lia.
        split; [done|]. assert (cell_of_index p ∈ warmN) as HpN.
        { apply list_elem_of_fmap. eauto. }
        destruct (cell_of_index p) as [r c] eqn:Hrc.
        apply elem_of_where_cells. rewrite mget_mmap, Hget.
        destruct (HrangeN (r, c)) as [? ?]; [apply elem_of_app; by left|].
        simpl in *. rewrite decide_True by done.
        rewrite decide_False by by apply HdisjN.
        rewrite decide_True by done. done.
  - rewrite Hdc. apply NoDup_Permutation; [|done|].
    + apply NoDup_fmap_2; [apply cell_index_inj | apply NoDup_where_cells].
    + intros p. rewrite list_elem_of_fmap. split.
      * intros ([r c] & -> & Hq). apply elem_of_where_cells in Hq.
        rewrite mget_mmap, Hget in Hq. apply elem_of_cell_of_index; [done|].
        fold coldN. revert Hq. unfold WARM_FRONT_INTEGER_ID, COLD_FRONT_INTEGER_ID,
          NO_FRONT_INTEGER_ID. repeat case_decide; simpl; intros [=]; done.
      * intros Hp. exists (cell_of_index p).
        destruct (Hposc p Hp). rewrite cell_index_of_index by lia.
        split; [done|]. assert (cell_of_index p ∈ coldN) as HpN.
        { apply list_elem_of_fmap. eauto. }
        destruct (cell_of_index p) as [r c] eqn:Hrc.
        apply elem_of_where_cells. rewrite mget_mmap, Hget.
        destruct (HrangeN (r, c)) as [? ?]; [apply elem_of_app; by right|].
        simpl in *. rewrite decide_True by done.
        rewrite decide_True by done. done.
Qed.

Lemma frontal_points_grid_round_trip_witness :
  ∃ g d,
    frontal_points_to_grid (points_dict [(0, 0); (1, 2)] [(2, 1)]) 3 3 = Ok g
    ∧ frontal_grid_to_points g = Ok d
    ∧ dict_warm_points d ≡ₚ [(0, 0); (1, 2)]
    ∧ dict_cold_points d ≡ₚ [(2, 1)].
Proof.
  apply frontal_points_grid_round_trip.
  - apply (bool_decide_unpack _). reflexivity.
  - apply (bool_decide_unpack _). reflexivity.
  - lia.
  - lia.
  - intros p Hp. cbn [app] in Hp.
    repeat (apply elem_of_cons in Hp as [->|Hp]); [cbn [fst snd]; lia..|].
    by apply elem_of_nil in Hp.
  - intros p Hw Hc.
    apply list_elem_of_singleton in Hc as ->.
    repeat (apply elem_of_cons in Hw as [Hw|Hw]); [discriminate..|].
    by apply elem_of_nil in Hw.
Defined.

(** ** Binary closing *)

Section TabulateFacts.
Context {A : Type}.

Lemma nrows_mtabulate R C (f : nat → nat → A) : nrows (mtabulate R C f) = R.
Proof. unfold nrows, mtabulate. by rewrite length_fmap, length_seq. Qed.

Lemma ncols_mtabulate R C (f : nat → nat → A) :
  ncols (mtabulate R C f) = if decide (R = 0)%nat then 0%nat else C.
Proof.
  unfold ncols, mtabulate. destruct R as [|R]; [done|].
  simpl. by rewrite length_fmap, length_seq.
Qed.

Lemma mtabulate_ext R C (f g : nat → nat → A) :
  (∀ r c, (r < R)%nat → (c < C)%nat → f r c = g r c) →
  mtabulate R C f = mtabulate R C g.
Proof.
  intros Hfg. eapply matrix_ext; try apply is_matrix_mtabulate.
  intros r c Hr Hc. rewrite !mget_mtabulate, !decide_True by done.
  f_equal. by apply Hfg.
Qed.

End TabulateFacts.

Lemma ncols_mtabulate_shape {A B : Type} (m : matrix A) (f : nat → nat → B) :
  ncols (mtabulate (nrows m) (ncols m) f) = ncols m.
Proof.
  rewrite ncols_mtabulate. case_decide as H; [|done].
  unfold nrows in H. by destruct m.
Qed.

Lemma bget_mtabulate R C (f : nat → nat → bool) (r c : Z) :
  bget (mtabulate R C f) r c = true
  ↔ 0 ≤ r < Z.of_nat R ∧ 0 ≤ c < Z.of_nat C
    ∧ f (Z.to_nat r) (Z.to_nat c) = true.
Proof.
  unfold bget. destruct (decide (0 ≤ r ∧ 0 ≤ c)) as [[Hr Hc]|Hneg].
  - rewrite mget_mtabulate.
    destruct (decide (Z.to_nat r < R ∧ Z.to_nat c < C)%nat) as [[? ?]|Hout];
      simpl.
    + split; [intros ?; split_and!; [lia..|done] | by intros (_ & _ & ?)].
    + split; [done | intros (? & ? & _); exfalso; apply Hout; lia].
  - split; [done | intros (? & ? & _); exfalso; apply Hneg; lia].
Qed.

Section Closing.
Variable structure : matrix bool.

Lemma binary_dilation_spec (input : matrix bool) (r c : Z) :
  bget (binary_dilation input structure) r c = true
  ↔ 0 ≤ r < Z.of_nat (nrows input) ∧ 0 ≤ c < Z.of_nat (ncols input)
    ∧ ∃ s, s ∈ struct_offsets structure ∧ bget input (r - s.1) (c - s.2) = true.
Proof.
  unfold binary_dilation. rewrite bget_mtabulate.
  split; intros (Hr & Hc & H); (split; [done|]; split; [done|]).
  - apply existsb_exists in H as (s & Hs%list_elem_of_In & Hb).
    exists s. split; [done|]. by rewrite !Z2Nat.id in Hb by lia.
  - destruct H as (s & Hs & Hb). apply existsb_exists.
    exists s. split; [by apply list_elem_of_In|].
    by rewrite !Z2Nat.id by lia.
Qed.

Lemma binary_erosion_spec (input : matrix bool) (r c : Z) :
  bget (binary_erosion input structure) r c = true
  ↔ 0 ≤ r < Z.of_nat (nrows input) ∧ 0 ≤ c < Z.of_nat (ncols input)
    ∧ ∀ s, s ∈ struct_offsets structure → bget input (r + s.1) (c + s.2) = true.
Proof.
  unfold binary_erosion. rewrite bget_mtabulate.
  split; intros (Hr & Hc & H); (split; [done|]; split; [done|]).
  - intros s Hs. rewrite forallb_forall in H.
    specialize (H s (proj1 (list_elem_of_In _ _) Hs)).
    by rewrite !Z2Nat.id in H by lia.
  - apply forallb_forall. intros s Hs%list_elem_of_In.
    rewrite !Z2Nat.id by lia. by apply H.
Qed.

Lemma nrows_binary_dilation input :
  nrows (binary_dilation input structure) = nrows input.
Proof. apply nrows_mtabulate. Qed.

Lemma ncols_binary_dilation input :
  ncols (binary_dilation input structure) = ncols input.
Proof. apply ncols_mtabulate_shape. Qed.

Lemma nrows_binary_closing input :
  nrows (binary_closing input structure) = nrows input.
Proof.
  unfold binary_closing, binary_erosion.
  by rewrite nrows_mtabulate, nrows_binary_dilation.
Qed.

Lemma ncols_binary_closing input :
  ncols (binary_closing input structure) = ncols input.
Proof.
  unfold binary_closing, binary_erosion.
  by rewrite ncols_mtabulate_shape, ncols_binary_dilation.
Qed.

Lemma is_matrix_binary_closing input :
  is_matrix (nrows input) (ncols input) (binary_closing input structure).
Proof.
  unfold binary_closing, binary_erosion.
  rewrite nrows_binary_dilation, ncols_binary_dilation.
  apply is_matrix_mtabulate.
Qed.

Lemma binary_closing_spec (input : matrix bool) (r c : Z) :
  bget (binary_closing input structure) r c = true
  ↔ 0 ≤ r < Z.of_nat (nrows input) ∧ 0 ≤ c < Z.of_nat (ncols input)
    ∧ ∀ s, s ∈ struct_offsets structure →
           bget (binary_dilation input structure) (r + s.1) (c + s.2) = true.
Proof.
  unfold binary_closing. rewrite binary_erosion_spec.
  by rewrite nrows_binary_dilation, ncols_binary_dilation.
Qed.

(** Closing is idempotent for every structuring element. *)
Lemma binary_closing_idem (input : matrix bool) :
  binary_closing (binary_closing input structure) structure
  = binary_closing input structure.
Proof.
  set (cl := binary_closing input structure).
  unfold binary_closing at 1. unfold binary_erosion.
  rewrite nrows_binary_dilation, ncols_binary_dilation.
  unfold cl at 1 2. rewrite nrows_binary_closing, ncols_binary_closing.
  unfold cl, binary_closing at 2, binary_erosion.
  rewrite nrows_binary_dilation, ncols_binary_dilation.
  apply mtabulate_ext. intros r c Hr Hc.
  apply eq_true_iff_eq. rewrite !forallb_forall. split.
  - intros H s Hs. specialize (H s Hs).
    apply binary_dilation_spec in H as (_ & _ & s' & Hs' & Hcl).
    apply binary_closing_spec in Hcl as (_ & _ & Hcl).
    specialize (Hcl s' Hs').
    replace (Z.of_nat r + s.1 - s'.1 + s'.1) with (Z.of_nat r + s.1) in Hcl by lia.
    replace (Z.of_nat c + s.2 - s'.2 + s'.2) with (Z.of_nat c + s.2) in Hcl by lia.
    done.
  - intros H s Hs. pose proof (H s Hs) as Hd.
    apply binary_dilation_spec in Hd as (Hr' & Hc' & _).
    apply binary_dilation_spec.
    rewrite nrows_binary_closing, ncols_binary_closing.
    split; [done|]. split; [done|].
    exists s. split; [by apply list_elem_of_In|].
    replace (Z.of_nat r + s.1 - s.1) with (Z.of_nat r) by lia.
    replace (Z.of_nat c + s.2 - s.2) with (Z.of_nat c) by lia.
    apply binary_closing_spec. split; [lia|]. split; [lia|].
    intros s' Hs'. apply H. by apply list_elem_of_In.
Qed.

End Closing.

(** C9.  Applying the binary closing of the pipeline (3 x 3 structuring
    element of ones, one iteration) twice gives the same mask as applying it
    once. *)
Theorem closing_idempotent (binary_matrix : matrix bool) :
  binary_closing
    (binary_closing binary_matrix STRUCTURE_MATRIX_FOR_BINARY_CLOSING)
    STRUCTURE_MATRIX_FOR_BINARY_CLOSING
  = binary_closing binary_matrix STRUCTURE_MATRIX_FOR_BINARY_CLOSING.
Proof. apply binary_closing_idem. Qed.

(** ** Items of one-dimensional arrays *)

Lemma np_item_lookup {A : Type} (l : list A) (i : Z) (x : A) :
  0 ≤ i → l !! Z.to_nat i = Some x → np_item l i = Ok x.
Proof.
  intros Hi Hx. unfold np_item, norm_index.
  pose proof (lookup_lt_Some _ _ _ Hx). rewrite decide_True by lia.
  simpl. by rewrite Hx.
Qed.

Lemma np_item_first {A : Type} (l : list A) (x : A) :
  head l = Some x → np_item l 0 = Ok x.
Proof. intros Hx. apply np_item_lookup; [done|]. by destruct l. Qed.

Lemma np_item_last {A : Type} (l : list A) (x : A) :
  last l = Some x → np_item l (-1) = Ok x.
Proof.
  intros Hx. rewrite last_lookup in Hx. pose proof (lookup_lt_Some _ _ _ Hx).
  unfold np_item, norm_index. rewrite decide_False by lia.
  rewrite decide_True by lia. simpl.
  replace (Z.to_nat (-1 + Z.of_nat (length l))) with (pred (length l)) by lia.
  by rewrite Hx.
Qed.

Lemma Qlt_bool_iff (x y : Q) : Qlt_bool x y = true ↔ (x < y)%Q.
Proof.
  unfold Qlt_bool. rewrite negb_true_iff. split.
  - intros H. apply Qnot_le_lt. intros Hle. apply Qle_bool_iff in Hle. congruence.
  - intros H. destruct (Qle_bool y x) eqn:Hb; [|done].
    apply Qle_bool_iff in Hb. exfalso. by apply (Qlt_not_le x y).
Qed.

Lemma foldM_app {A S : Type} (f : S → A → result S) (s : S) (l1 l2 : list A) :
  foldM f s (l1 ++ l2) = foldM f s l1 ≫= λ s', foldM f s' l2.
Proof.
  revert s. induction l1 as [|a l1 IH]; intros s; simpl; [done|].
  destruct (f s a) as [s'|e]; simpl; [apply IH | done].
Qed.

(** ** Closed polylines *)

Lemma is_polyline_closed_ends (lats lngs : list float)
    (lat0 latn lng0 lngn : float) :
  head lats = Some lat0 → last lats = Some latn →
  head lngs = Some lng0 → last lngs = Some lngn →
  _is_polyline_closed lats lngs
  = Ok ((PrimFloat.abs (lat0 - latn) <? TOLERANCE_DEG)%float
        && (PrimFloat.abs (lng0 - lngn) <? TOLERANCE_DEG)%float).
Proof.
  intros H1 H2 H3 H4. unfold _is_polyline_closed.
  by rewrite (np_item_first _ _ H1), (np_item_last _ _ H2),
    (np_item_first _ _ H3), (np_item_last _ _ H4).
Qed.

Lemma is_polyline_closed_true (lats lngs : list float)
    (lat0 latn lng0 lngn : float) :
  head lats = Some lat0 → last lats = Some latn →
  head lngs = Some lng0 → last lngs = Some lngn →
  (PrimFloat.abs (lat0 - latn) <? TOLERANCE_DEG)%float = true →
  (PrimFloat.abs (lng0 - lngn) <? TOLERANCE_DEG)%float = true →
  _is_polyline_closed lats lngs = Ok true.
Proof.
  intros H1 H2 H3 H4 Hlat Hlng.
  rewrite (is_polyline_closed_ends _ _ _ _ _ _ H1 H2 H3 H4).
  by rewrite Hlat, Hlng.
Qed.

Section PolylineFacts.

Variable narr_grid_spacing_metres : Q.
Variable narr_grid_point_x_coords_metres : list Q.
Variable narr_grid_point_y_coords_metres : list Q.
Variable narr_grid_dimensions : Z * Z.
Variable project_latlng_to_xy : list float → list float → list Q * list Q.
Variable linestring_is_valid : geometry → bool.
Variable shapely_intersects : geometry → geometry → bool.
Variable shapely_touches : geometry → geometry → bool.

#[local] Abbreviation rasterize_front' :=
  (rasterize_front narr_grid_spacing_metres narr_grid_point_x_coords_metres
     narr_grid_point_y_coords_metres narr_grid_dimensions project_latlng_to_xy
     linestring_is_valid shapely_intersects shapely_touches).

#[local] Abbreviation polyline_to_binary_narr_grid' :=
  (polyline_to_binary_narr_grid narr_grid_spacing_metres
     narr_grid_point_x_coords_metres narr_grid_point_y_coords_metres
     narr_grid_dimensions project_latlng_to_xy
     linestring_is_valid shapely_intersects shapely_touches).

Lemma rasterize_front_closed (front_table : list front_record) (d : Q)
    (i : nat) (g : matrix Z) (j : Z) (record : front_record) :
  0 ≤ j → front_table !! Z.to_nat j = Some record →
  _is_polyline_closed (latitudes_deg record) (longitudes_deg record) = Ok true →
  rasterize_front' front_table d i g j = Ok g.
Proof.
  intros Hj Hrec Hclosed. unfold rasterize_front.
  rewrite (np_item_lookup (latitudes_deg <$> front_table) j
             (latitudes_deg record)); [|done|].
  2: { rewrite list_lookup_fmap, Hrec. reflexivity. }
  simpl.
  rewrite (np_item_lookup (longitudes_deg <$> front_table) j
             (longitudes_deg record)); [|done|].
  2: { rewrite list_lookup_fmap, Hrec. reflexivity. }
  simpl. by rewrite Hclosed.
Qed.

(** C6, as the code has it.  A front whose first and last vertices differ by
    less than 1e-3 degrees in latitude and in longitude, as the code computes
    it (the difference of the two doubles, rounded to the nearest double, in
    absolute value strictly below the double [1e-3]), writes no cell of the
    label grid of its valid time, and the loop over the fronts of that time
    goes on with the fronts after it: the grid is the one obtained without
    that front. *)
Theorem closed_polyline_contributes_nothing (front_table : list front_record)
    (d : Q) (i : nat) (j : Z) (record : front_record)
    (lat0 latn lng0 lngn : float) :
  0 ≤ j → front_table !! Z.to_nat j = Some record →
  head (latitudes_deg record) = Some lat0 →
  last (latitudes_deg record) = Some latn →
  head (longitudes_deg record) = Some lng0 →
  last (longitudes_deg record) = Some lngn →
  (PrimFloat.abs (lat0 - latn) <? TOLERANCE_DEG)%float = true →
  (PrimFloat.abs (lng0 - lngn) <? TOLERANCE_DEG)%float = true →
  ∀ (g : matrix Z) (before after : list Z),
    rasterize_front' front_table d i g j = Ok g
    ∧ foldM (rasterize_front' front_table d i) g (before ++ j :: after)
      = foldM (rasterize_front' front_table d i) g (before ++ after).
Proof.
  intros Hj Hrec H1 H2 H3 H4 Hlat Hlng g before after.
  pose proof (is_polyline_closed_true _ _ _ _ _ _ H1 H2 H3 H4 Hlat Hlng)
    as Hclosed.
  split; [by eapply rasterize_front_closed|].
  rewrite !foldM_app.
  destruct (foldM (rasterize_front' front_table d i) g before) as [g1|e];
    simpl; [|done].
  by rewrite (rasterize_front_closed _ _ _ _ _ _ Hj Hrec Hclosed).
Qed.

(** C4, as the code has it.  A front that is not warm is written with the
    cold-front label only when the front at the table position of the valid
    time's index, not the front itself, is cold: a cold front [j] met while
    the front at index [i] is not cold leaves the grid as it was. *)
Theorem cold_front_label_follows_time_index (front_table : list front_record)
    (d : Q) (i : nat) (g : matrix Z) (j : Z) (record other : front_record)
    (b : matrix Z) :
  0 ≤ j → front_table !! Z.to_nat j = Some record →
  front_table !! i = Some other →
  _is_polyline_closed (latitudes_deg record) (longitudes_deg record) = Ok false →
  polyline_to_binary_narr_grid' (latitudes_deg record) (longitudes_deg record) d
    = Ok b →
  front_type record = COLD_FRONT_STRING_ID →
  front_type other ≠ COLD_FRONT_STRING_ID →
  rasterize_front' front_table d i g j = Ok g.
Proof.
  intros Hj Hrec Hother Hopen Hb Hcold Hnot. unfold rasterize_front.
  rewrite (np_item_lookup (latitudes_deg <$> front_table) j
             (latitudes_deg record)); [|done|].
  2: { rewrite list_lookup_fmap, Hrec. reflexivity. }
  simpl.
  rewrite (np_item_lookup (longitudes_deg <$> front_table) j
             (longitudes_deg record)); [|done|].
  2: { rewrite list_lookup_fmap, Hrec. reflexivity. }
  simpl. rewrite Hopen. simpl. rewrite Hb. simpl.
  rewrite (np_item_lookup (front_type <$> front_table) j
             (front_type record)); [|done|].
  2: { rewrite list_lookup_fmap, Hrec. reflexivity. }
  simpl. rewrite Hcold. simpl.
  rewrite (np_item_lookup (front_type <$> front_table) (Z.of_nat i)
             (front_type other)); [|lia|].
  2: { rewrite Nat2Z.id, list_lookup_fmap, Hother. reflexivity. }
  simpl.
  destruct (String.eqb (front_type other) COLD_FRONT_STRING_ID) eqn:Heq;
    [|done].
  by apply String.eqb_eq in Heq.
Qed.

End PolylineFacts.

Lemma closed_polyline_witness :
  SmallGrid.rasterize_one_front
    [SmallGrid.cold_record; SmallGrid.closed_record] 0 0
    (replicate 3 (replicate 4 0)) 1
  = Ok (replicate 3 (replicate 4 0))
  ∧ foldM (SmallGrid.rasterize_one_front
             [SmallGrid.cold_record; SmallGrid.closed_record] 0 0)
          (replicate 3 (replicate 4 0)) ([0] ++ 1 :: [])
    = foldM (SmallGrid.rasterize_one_front
               [SmallGrid.cold_record; SmallGrid.closed_record] 0 0)
            (replicate 3 (replicate 4 0)) ([0] ++ []).
Proof.
  apply (closed_polyline_contributes_nothing SmallGrid.grid_spacing_metres
           SmallGrid.grid_point_x_coords_metres
           SmallGrid.grid_point_y_coords_metres SmallGrid.grid_dimensions
           SmallGrid.project_latlng_to_xy SmallGrid.linestring_is_valid
           SmallGrid.shapely_intersects SmallGrid.shapely_touches
           [SmallGrid.cold_record; SmallGrid.closed_record] 0 0 1
           SmallGrid.closed_record 2 2 2 2); try reflexivity.
  lia.
Defined.

(** The test is made on rounded numbers: the latitudes of the two vertices
    of [SmallGrid.nearly_closed_record] differ by less than one thousandth
    of a degree, and the longitudes are equal, but the difference of the
    latitudes rounds to the double [1e-3], which is not below itself.  The
    polyline does not count as closed and is written to the grid. *)
Lemma nearly_closed_polyline_is_rasterized :
  (Qabs (float_to_Q 0x1.ec49ba5e353f7p-11
         - float_to_Q (-0x1.0000000000004p-14)) < 1 # 1000)%Q
  ∧ (Qabs (float_to_Q 0 - float_to_Q 0) < 1 # 1000)%Q
  ∧ latitudes_deg SmallGrid.nearly_closed_record
    = [0x1.ec49ba5e353f7p-11; -0x1.0000000000004p-14]%float
  ∧ longitudes_deg SmallGrid.nearly_closed_record = [0; 0]%float
  ∧ _is_polyline_closed (latitudes_deg SmallGrid.nearly_closed_record)
      (longitudes_deg SmallGrid.nearly_closed_record) = Ok false
  ∧ SmallGrid.rasterize_one_front [SmallGrid.nearly_closed_record] 0 0
      (replicate 3 (replicate 4 0)) 0
    = Ok [[2; 0; 0; 0]; [0; 0; 0; 0]; [0; 0; 0; 0]].
Proof.
  split; [by vm_compute|]. split; [by vm_compute|].
  split; [reflexivity|]. split; [reflexivity|].
  split; vm_compute; reflexivity.
Qed.

Lemma cold_front_label_witness :
  SmallGrid.rasterize_one_front
    [SmallGrid.warm_record; SmallGrid.cold_record] 0 0
    (replicate 3 (replicate 4 0)) 1
  = Ok (replicate 3 (replicate 4 0)).
Proof.
  apply (cold_front_label_follows_time_index SmallGrid.grid_spacing_metres
           SmallGrid.grid_point_x_coords_metres
           SmallGrid.grid_point_y_coords_metres SmallGrid.grid_dimensions
           SmallGrid.project_latlng_to_xy SmallGrid.linestring_is_valid
           SmallGrid.shapely_intersects SmallGrid.shapely_touches
           [SmallGrid.warm_record; SmallGrid.cold_record] 0 0
           (replicate 3 (replicate 4 0)) 1
           SmallGrid.cold_record SmallGrid.warm_record
           [[0; 0; 0; 0]; [0; 0; 0; 0]; [0; 0; 1; 1]]); try reflexivity.
  - lia.
  - discriminate.
Defined.

(** The same on the whole function: of a warm front followed by a cold front
    at the same valid time, only the warm front reaches the grid, while the
    two fronts in the other order are both written. *)
Example warm_then_cold_loses_cold_front :
  SmallGrid.many_polylines_to_grid
    [SmallGrid.warm_record; SmallGrid.cold_record] 0
  = Ok {| table_unix_time_sec := [0];
          table_warm_front_row_indices := [[0; 0]];
          table_warm_front_column_indices := [[0; 1]];
          table_cold_front_row_indices := [[]];
          table_cold_front_column_indices := [[]] |}
  ∧ SmallGrid.many_polylines_to_grid
      [SmallGrid.cold_record; SmallGrid.warm_record] 0
    = Ok {| table_unix_time_sec := [0];
            table_warm_front_row_indices := [[0; 0]];
            table_warm_front_column_indices := [[0; 1]];
            table_cold_front_row_indices := [[2; 2]];
            table_cold_front_column_indices := [[2; 3]] |}.
Proof. split; reflexivity. Qed.

(** ** Polylines outside the grid *)

Lemma where1_from_nil (i : nat) (l : list bool) :
  (∀ b, b ∈ l → b = false) → where1_from i l = [].
Proof.
  revert i. induction l as [|b l IH]; intros i Hl; simpl; [done|].
  rewrite (Hl b) by (by left). simpl. apply IH. intros b' Hb'.
  apply Hl. by right.
Qed.

Lemma np_min_Z_raises (l : list Z) (e : exn) :
  np_min_Z l = Raise e → e = ValueError.
Proof. destruct l; simpl; congruence. Qed.

Lemma in_range_flags_nil (lo hi : Q) (coords : list Q) :
  (∀ x, x ∈ coords → (x < lo ∨ hi < x)%Q) →
  np_where1 ((λ x, Qle_bool lo x && Qle_bool x hi) <$> coords) = [].
Proof.
  intros Hout. apply where1_from_nil. intros b Hb.
  apply list_elem_of_fmap in Hb as (x & -> & Hx).
  apply andb_false_iff. destruct (Hout x Hx) as [Hlt|Hlt].
  - left. destruct (Qle_bool lo x) eqn:Hle; [|done].
    apply Qle_bool_iff in Hle. exfalso. by apply (Qlt_not_le x lo).
  - right. destruct (Qle_bool x hi) eqn:Hle; [|done].
    apply Qle_bool_iff in Hle. exfalso. by apply (Qlt_not_le hi x).
Qed.

Section GridPoints.

Variable linestring_is_valid : geometry → bool.
Variable shapely_intersects : geometry → geometry → bool.
Variable shapely_touches : geometry → geometry → bool.

#[local] Abbreviation _polyline_to_grid_points' :=
  (_polyline_to_grid_points linestring_is_valid shapely_intersects
     shapely_touches).

(** C3, as the code has it.  When no grid column (or no grid row) lies
    within the coordinate extent of a valid polyline expanded by one grid
    spacing, [_polyline_to_grid_points] raises [ValueError], from the minimum
    of an empty index array, instead of returning a pair of empty arrays. *)
Theorem polyline_outside_grid_raises (px py gx gy : list Q)
    (x0 x1 y0 y1 x_lo x_hi y_lo y_hi : Q) :
  length py = length px →
  linestring_is_valid (zip px py) = true →
  np_item gx 1 = Ok x1 → np_item gx 0 = Ok x0 →
  np_item gy 1 = Ok y1 → np_item gy 0 = Ok y0 →
  np_min_Q px = Ok x_lo → np_max_Q px = Ok x_hi →
  np_min_Q py = Ok y_lo → np_max_Q py = Ok y_hi →
  (∀ x, x ∈ gx → (x < x_lo - (x1 - x0) ∨ x_hi + (x1 - x0) < x)%Q)
  ∨ (∀ y, y ∈ gy → (y < y_lo - (y1 - y0) ∨ y_hi + (y1 - y0) < y)%Q) →
  _polyline_to_grid_points' px py gx gy = Raise ValueError.
Proof.
  intros Hlen Hvalid Hx1 Hx0 Hy1 Hy0 Hxlo Hxhi Hylo Hyhi Hout.
  unfold _polyline_to_grid_points,
    _polyline_from_vertex_arrays_to_linestring, _vertex_arrays_to_list,
    _check_polyline.
  rewrite bool_decide_eq_true_2 by done.
  cbn [assert_that mbind result_bind]. rewrite Hvalid.
  cbn [assert_that mbind result_bind].
  rewrite Hx1, Hx0, Hy1, Hy0, Hxlo, Hxhi, Hylo, Hyhi.
  cbn [mbind result_bind].
  destruct Hout as [Hout|Hout].
  - rewrite (in_range_flags_nil _ _ gx Hout).
    match goal with |- context [np_min_Z (np_where1 ?l)] =>
      destruct (np_min_Z (np_where1 l)) as [row_offset|e] eqn:Hmin end.
    + reflexivity.
    + cbn [mbind result_bind]. by rewrite (np_min_Z_raises _ _ Hmin).
  - rewrite (in_range_flags_nil _ _ gy Hout). reflexivity.
Qed.

End GridPoints.

Lemma polyline_outside_grid_witness :
  SmallGrid.polyline_to_grid_points [100; 101]%Q [0; 0]%Q
    SmallGrid.grid_point_x_coords_metres SmallGrid.grid_point_y_coords_metres
  = Raise ValueError.
Proof.
  apply (polyline_outside_grid_raises SmallGrid.linestring_is_valid
           SmallGrid.shapely_intersects SmallGrid.shapely_touches
           [100; 101]%Q [0; 0]%Q SmallGrid.grid_point_x_coords_metres
           SmallGrid.grid_point_y_coords_metres
           0%Q 2%Q 0%Q 2%Q 100%Q 101%Q 0%Q 0%Q); try reflexivity.
  left. intros x Hx. unfold SmallGrid.grid_point_x_coords_metres in Hx.
  repeat (apply elem_of_cons in Hx as [->|Hx]); [left; reflexivity..|].
  by apply elem_of_nil in Hx.
Defined.
(** ** IEEE doubles *)

Lemma shr_1_nonneg (mrs : shr_record) :
  0 ≤ shr_m mrs → 0 ≤ shr_m (shr_1 mrs).
Proof.
  destruct mrs as [m r s]. simpl.
  destruct m as [|p|p]; [done| |lia].
  intros _. destruct p; simpl; lia.
Qed.

Lemma iter_pos_invariant {A : Type} (P : A → Prop) (f : A → A) (p : positive)
    (x : A) :
  (∀ y, P y → P (f y)) → P x → P (SpecFloat.iter_pos f p x).
Proof.
  intros Hf. revert x. induction p as [p IH|p IH|]; intros x Hx; simpl.
  - apply IH, IH, Hf, Hx.
  - apply IH, IH, Hx.
  - apply Hf, Hx.
Qed.

Lemma shr_fexp_nonneg (m e : Z) (l : location) :
  0 ≤ m → 0 ≤ shr_m (shr_fexp prec emax m e l).1.
Proof.
  intros Hm. unfold shr_fexp, shr.
  assert (0 ≤ shr_m (shr_record_of_loc m l)) as H0.
  { by destruct l as [|[]]. }
  destruct (fexp prec emax (Zdigits2 m + e) - e) as [|p|p]; simpl; try done.
  by apply (iter_pos_invariant (λ mrs, 0 ≤ shr_m mrs)); [apply shr_1_nonneg|].
Qed.

Lemma round_nearest_even_nonneg (m : Z) (l : location) :
  0 ≤ m → 0 ≤ round_nearest_even m l.
Proof.
  intros Hm. destruct l as [|[]]; simpl; try lia.
  destruct (IntDef.Z.even m); lia.
Qed.

(** Rounding keeps the sign and never gives NaN. *)
Lemma binary_round_aux_signed (s : bool) (m e : Z) (l : location) :
  0 ≤ m → sf_signed s (binary_round_aux prec emax s m e l).
Proof.
  intros Hm. unfold binary_round_aux.
  pose proof (shr_fexp_nonneg m e l Hm) as H1.
  destruct (shr_fexp prec emax m e l) as [mrs' e'].
  pose proof (shr_fexp_nonneg
                (round_nearest_even (shr_m mrs') (loc_of_shr_record mrs'))
                e' loc_Exact (round_nearest_even_nonneg _ _ H1)) as H2.
  destruct (shr_fexp prec emax _ e' loc_Exact) as [mrs'' e''].
  simpl in H2. destruct (shr_m mrs'') as [|p|p]; [done| |lia].
  by destruct (e'' <=? emax - prec).
Qed.

Lemma binary_round_aux_opp (s : bool) (m e : Z) (l : location) :
  binary_round_aux prec emax (negb s) m e l
  = SFopp (binary_round_aux prec emax s m e l).
Proof.
  unfold binary_round_aux.
  destruct (shr_fexp prec emax m e l) as [mrs' e'].
  destruct (shr_fexp prec emax _ e' loc_Exact) as [mrs'' e''].
  destruct (shr_m mrs'') as [|p|p]; [done| |done].
  by destruct (e'' <=? emax - prec).
Qed.

Lemma binary_round_opp (s : bool) (m : positive) (e : Z) :
  binary_round prec emax (negb s) m e = SFopp (binary_round prec emax s m e).
Proof.
  unfold binary_round. destruct (shl_align m e _) as [mz ez].
  apply binary_round_aux_opp.
Qed.

Lemma binary_normalize_opp (z e : Z) :
  sf_alike (binary_normalize prec emax (- z) e false)
           (SFopp (binary_normalize prec emax z e false)).
Proof.
  destruct z as [|p|p]; simpl.
  - by right.
  - left. apply (binary_round_opp false).
  - left. rewrite (binary_round_opp false).
    by destruct (binary_round prec emax false p e) as [[]|[]| |[] ? ?].
Qed.

Lemma SFopp_involutive (x : spec_float) : SFopp (SFopp x) = x.
Proof. by destruct x as [[]|[]| |[] ? ?]. Qed.

Lemma SFabs_opp (x : spec_float) : SFabs (SFopp x) = SFabs x.
Proof. by destruct x. Qed.

Lemma SFabs_alike (x y : spec_float) : sf_alike x y → SFabs x = SFabs y.
Proof.
  intros [->|[Hx Hy]]; [done|]. by destruct x, y.
Qed.

Lemma sf_alike_opp (x y : spec_float) :
  sf_alike x y → sf_alike (SFopp x) (SFopp y).
Proof.
  intros [->|[Hx Hy]]; [by left|]. right. by destruct x, y.
Qed.

Lemma SFcompare_alike (x y z : spec_float) :
  sf_alike x y → SFcompare x z = SFcompare y z ∧ SFcompare z x = SFcompare z y.
Proof.
  intros [->|[Hx Hy]]; [done|]. by destruct x, y.
Qed.

(** *** Multiplication *)

Lemma SFmul_opp_l (x y : spec_float) :
  SFmul prec emax (SFopp x) y = SFopp (SFmul prec emax x y).
Proof.
  destruct x as [sx|sx| |sx mx ex], y as [sy|sy| |sy my ey]; simpl;
    try done; try (by destruct sx, sy).
  rewrite <- binary_round_aux_opp. by destruct sx, sy.
Qed.

Lemma SFmul_signed (s1 s2 : bool) (x y : spec_float) :
  sf_signed s1 x → sf_signed s2 y →
  ¬ (sf_is_zero x ∧ y = S754_infinity s2) →
  ¬ (x = S754_infinity s1 ∧ sf_is_zero y) →
  sf_signed (xorb s1 s2) (SFmul prec emax x y).
Proof.
  intros Hx Hy H1 H2.
  destruct x as [sx|sx| |sx mx ex], y as [sy|sy| |sy my ey]; simpl in *;
    subst; try done.
  - by destruct H1.
  - by destruct H2.
  - by apply binary_round_aux_signed.
Qed.

(** *** Addition and subtraction *)

Lemma cond_Zopp_negb (s : bool) (z : Z) : cond_Zopp (negb s) z = - cond_Zopp s z.
Proof. destruct s; simpl; lia. Qed.

Lemma SFadd_opp (x y : spec_float) :
  sf_alike (SFadd prec emax (SFopp x) (SFopp y))
           (SFopp (SFadd prec emax x y)).
Proof.
  destruct x as [sx|sx| |sx mx ex], y as [sy|sy| |sy my ey];
    try (by left); try (by destruct sx, sy; (by left) || (by right)).
  cbn [SFadd SFopp]. rewrite !cond_Zopp_negb, <- Z.opp_add_distr.
  apply binary_normalize_opp.
Qed.

Lemma SFadd_zero_r_signed (x y : spec_float) :
  sf_signed false x → sf_is_zero y → sf_signed false (SFadd prec emax x y).
Proof.
  intros Hx Hy. destruct y as [sy| | |]; try done.
  destruct x as [sx|sx| |sx mx ex]; simpl in *; subst; try done.
  by destruct sy.
Qed.

Lemma SFsub_diag (x : spec_float) :
  (sf_is_zero x ∨ ∃ s m e, x = S754_finite s m e) →
  SFsub prec emax x x = S754_zero false.
Proof.
  intros [Hx|(s & m & e & ->)].
  - destruct x as [[]| | |]; done.
  - cbn [SFsub]. by rewrite Z.sub_diag.
Qed.

Lemma SFabs_sub_comm (x y : spec_float) :
  SFabs (SFsub prec emax x y) = SFabs (SFsub prec emax y x).
Proof.
  destruct x as [sx|sx| |sx mx ex], y as [sy|sy| |sy my ey];
    try done; try (by destruct sx, sy).
  cbn [SFsub]. rewrite (Z.min_comm ey ex).
  set (a := cond_Zopp sx _). set (b := cond_Zopp sy _).
  replace (b - a) with (- (a - b)) by lia.
  rewrite (SFabs_alike _ _ (binary_normalize_opp (a - b) (ex `min` ey))).
  symmetry. apply SFabs_opp.
Qed.

(** *** Comparisons with zero *)

Lemma sf_cmp0_opp (x : spec_float) :
  sf_cmp0 (SFopp x) = CompOpp <$> sf_cmp0 x.
Proof. by destruct x as [[]|[]| |[] ? ?]. Qed.

Lemma sf_cmp0_alike (x y : spec_float) :
  sf_alike x y → sf_cmp0 x = sf_cmp0 y.
Proof. intros H. by apply SFcompare_alike. Qed.

Lemma SFltb_zero_cmp0 (x : spec_float) :
  SFltb (S754_zero false) x = true ↔ sf_cmp0 x = Some Gt.
Proof. by destruct x as [[]|[]| |[] ? ?]. Qed.

Lemma SFleb_zero_cmp0 (x : spec_float) :
  SFleb x (S754_zero false) = true ↔ sf_cmp0 x = Some Lt ∨ sf_cmp0 x = Some Eq.
Proof.
  destruct x as [[]|[]| |[] ? ?]; cbn; split; try done; try tauto;
    intros [|]; done.
Qed.

Lemma sf_cmp0_None (x : spec_float) : sf_cmp0 x = None ↔ x = S754_nan.
Proof. by destruct x as [[]|[]| |[] ? ?]. Qed.

Lemma sf_cmp0_Eq (x : spec_float) : sf_cmp0 x = Some Eq ↔ sf_is_zero x.
Proof. by destruct x as [[]|[]| |[] ? ?]. Qed.

Lemma sf_signed_cmp0 (x : spec_float) :
  sf_signed false x → sf_cmp0 x = Some Gt ∨ sf_cmp0 x = Some Eq.
Proof. destruct x as [[]|[]| |[] ? ?]; simpl; try done; tauto. Qed.

Lemma sf_cmp0_Gt_signed (x : spec_float) :
  sf_cmp0 x = Some Gt →
  sf_signed false x ∧ ¬ sf_is_zero x.
Proof.
  destruct x as [[]|[]| |[] ? ?]; cbn; intros H; try done; split; auto.
Qed.

(** *** From [PrimFloat] to [SpecFloat] *)

Lemma SFcompare_refl (x : spec_float) :
  x ≠ S754_nan → SFcompare x x = Some Eq.
Proof.
  destruct x as [sx|sx| |sx mx ex]; try done; [by destruct sx|].
  intros _. simpl. rewrite Z.compare_refl.
  change (PosDef.Pos.compare_cont Eq mx mx) with (mx ?= mx)%positive.
  rewrite Pos.compare_refl. by destruct sx.
Qed.

Lemma is_nan_spec (x : float) : is_nan x = true ↔ Prim2SF x = S754_nan.
Proof.
  unfold is_nan. rewrite FloatAxioms.eqb_spec. unfold SFeqb. split.
  - intros H. destruct (Prim2SF x) as [sx|sx| |sx mx ex] eqn:Hx; [| |done|];
      by rewrite SFcompare_refl in H.
  - by intros ->.
Qed.

Lemma is_finite_spec (x : float) :
  is_finite x = true →
  sf_is_zero (Prim2SF x) ∨ ∃ s m e, Prim2SF x = S754_finite s m e.
Proof.
  unfold is_finite, is_nan, is_infinity.
  rewrite !FloatAxioms.eqb_spec, abs_spec. change (Prim2SF infinity) with (S754_infinity false).
  destruct (Prim2SF x) as [sx|sx| |sx mx ex]; intros H.
  - by left.
  - by destruct sx.
  - done.
  - right. eauto.
Qed.

Lemma ltb_zero_spec (x : float) :
  (0 <? x)%float = true ↔ sf_cmp0 (Prim2SF x) = Some Gt.
Proof. rewrite ltb_spec. apply SFltb_zero_cmp0. Qed.

Lemma leb_zero_spec (x : float) :
  (x <=? 0)%float = true
  ↔ sf_cmp0 (Prim2SF x) = Some Lt ∨ sf_cmp0 (Prim2SF x) = Some Eq.
Proof. rewrite leb_spec. apply SFleb_zero_cmp0. Qed.

Lemma eqb_zero_spec (x : float) :
  (x =? 0)%float = true ↔ sf_cmp0 (Prim2SF x) = Some Eq.
Proof.
  rewrite FloatAxioms.eqb_spec. unfold SFeqb, sf_cmp0.
  change (Prim2SF 0) with (S754_zero false).
  destruct (SFcompare _ _) as [[]|]; split; done.
Qed.

(** A double is positive, or at most zero, or NaN, and only one of the
    three. *)
Lemma float_sign_cases (a : float) :
  ((0 <? a)%float = true ∧ (a <=? 0)%float = false ∧ is_nan a = false)
  ∨ ((0 <? a)%float = false ∧ (a <=? 0)%float = true ∧ is_nan a = false)
  ∨ ((0 <? a)%float = false ∧ (a <=? 0)%float = false ∧ is_nan a = true).
Proof.
  pose proof (ltb_zero_spec a) as Hlt. pose proof (leb_zero_spec a) as Hle.
  pose proof (is_nan_spec a) as Hnan.
  rewrite <- sf_cmp0_None in Hnan.
  destruct (0 <? a)%float, (a <=? 0)%float, (is_nan a),
    (sf_cmp0 (Prim2SF a)) as [[]|];
    intuition congruence.
Qed.

(** ** Thermal advection and front types *)

Lemma elementwise_Ok {A B C : Type} (f : A → B → C) (m1 : matrix A)
    (m2 : matrix B) (R K : nat) :
  is_matrix R K m1 → is_matrix R K m2 →
  elementwise f m1 m2 = Ok (mzip_with f m1 m2).
Proof.
  intros H1 H2. unfold elementwise.
  by rewrite (is_matrix_shape _ _ _ H1), (is_matrix_shape _ _ _ H2), decide_True.
Qed.

Lemma fget_mtabulate (R C : nat) (f : nat → nat → float) (r c : nat) :
  (r < R)%nat → (c < C)%nat → fget (mtabulate R C f) r c = f r c.
Proof.
  intros Hr Hc. unfold fget. by rewrite mget_mtabulate, decide_True.
Qed.

Lemma Qle_bool_false_iff (x y : Q) : Qle_bool x y = false ↔ (y < x)%Q.
Proof.
  split.
  - intros H. apply Qnot_le_lt. intros Hle. apply Qle_bool_iff in Hle. congruence.
  - intros H. destruct (Qle_bool x y) eqn:Hb; [|done].
    apply Qle_bool_iff in Hb. exfalso. by apply (Qlt_not_le y x).
Qed.

Section Advection.

Variables (u v theta : matrix float) (mask : matrix bool) (dx dy : float).
Variables (R C : nat).
Hypothesis u_shape : is_matrix R C u.
Hypothesis v_shape : is_matrix R C v.
Hypothesis theta_shape : is_matrix R C theta.
Hypothesis mask_shape : is_matrix R C mask.
Hypothesis two_rows : (2 ≤ R)%nat.
Hypothesis two_columns : (2 ≤ C)%nat.

Let gx : matrix float := gradient_axis1 theta dx.
Let gy : matrix float := gradient_axis0 theta dy.
Let advection : matrix float :=
  mmap PrimFloat.opp
    (mzip_with PrimFloat.add (mzip_with PrimFloat.mul u gx)
       (mzip_with PrimFloat.mul v gy)).

Lemma gx_shape : is_matrix R C gx.
Proof.
  unfold gx, gradient_axis1. rewrite (is_matrix_nrows _ _ _ theta_shape).
  rewrite (is_matrix_ncols _ _ _ theta_shape) by lia.
  apply is_matrix_mtabulate.
Qed.

Lemma gy_shape : is_matrix R C gy.
Proof.
  unfold gy, gradient_axis0. rewrite (is_matrix_nrows _ _ _ theta_shape).
  rewrite (is_matrix_ncols _ _ _ theta_shape) by lia.
  apply is_matrix_mtabulate.
Qed.

Lemma gx_value (r c : nat) :
  (r < R)%nat → (c < C)%nat →
  fget gx r c
  = (if decide (c = 0)%nat then (fget theta r 1 - fget theta r 0) / dx
     else if decide (c = C - 1)%nat
          then (fget theta r (C - 1) - fget theta r (C - 2)) / dx
          else (fget theta r (c + 1) - fget theta r (c - 1)) / (2 * dx))%float.
Proof.
  intros Hr Hc. unfold gx, gradient_axis1.
  rewrite (is_matrix_nrows _ _ _ theta_shape).
  rewrite (is_matrix_ncols _ _ _ theta_shape) by lia.
  by rewrite fget_mtabulate.
Qed.

Lemma gy_value (r c : nat) :
  (r < R)%nat → (c < C)%nat →
  fget gy r c
  = (if decide (r = 0)%nat then (fget theta 1 c - fget theta 0 c) / dy
     else if decide (r = R - 1)%nat
          then (fget theta (R - 1) c - fget theta (R - 2) c) / dy
          else (fget theta (r + 1) c - fget theta (r - 1) c) / (2 * dy))%float.
Proof.
  intros Hr Hc. unfold gy, gradient_axis0.
  rewrite (is_matrix_nrows _ _ _ theta_shape).
  rewrite (is_matrix_ncols _ _ _ theta_shape) by lia.
  by rewrite fget_mtabulate.
Qed.

Lemma advection_shape : is_matrix R C advection.
Proof.
  unfold advection. apply is_matrix_mmap.
  apply is_matrix_mzip_with; apply is_matrix_mzip_with;
    auto using gx_shape, gy_shape.
Qed.

Lemma thermal_advection_Ok :
  _get_thermal_advection_over_grid u v theta dx dy = Ok advection.
Proof.
  unfold _get_thermal_advection_over_grid, np_gradient.
  rewrite (is_matrix_nrows _ _ _ theta_shape).
  rewrite (is_matrix_ncols _ _ _ theta_shape) by lia.
  rewrite bool_decide_eq_true_2 by done.
  cbn [assert_that mbind result_bind]. fold gx gy.
  rewrite (elementwise_Ok _ _ _ R C u_shape gx_shape).
  cbn [mbind result_bind].
  rewrite (elementwise_Ok _ _ _ R C v_shape gy_shape).
  cbn [mbind result_bind].
  rewrite (elementwise_Ok _ _ _ R C); [done|..];
    apply is_matrix_mzip_with; auto using gx_shape, gy_shape.
Qed.

Lemma advection_value (r c : nat) :
  (r < R)%nat → (c < C)%nat →
  mget advection r c
  = Some (- (fget u r c * fget gx r c + fget v r c * fget gy r c))%float.
Proof.
  intros Hr Hc. unfold advection. rewrite mget_mmap, !mget_mzip_with.
  unfold fget.
  destruct (mget_is_Some u R C r c u_shape Hr Hc) as [a ->].
  destruct (mget_is_Some v R C r c v_shape Hr Hc) as [b ->].
  destruct (mget_is_Some gx R C r c gx_shape Hr Hc) as [p ->].
  destruct (mget_is_Some gy R C r c gy_shape Hr Hc) as [q ->].
  reflexivity.
Qed.

Let warm_mask : matrix bool :=
  mzip_with andb (mmap (λ a, (0 <? a)%float) advection) mask.
Let cold_mask : matrix bool :=
  mzip_with andb (mmap (λ a, (a <=? 0)%float) advection) mask.
Let frontal_grid : matrix Z :=
  mzip_with (λ x (b : bool), if b then COLD_FRONT_INTEGER_ID else x)
    (mzip_with (λ x (b : bool), if b then WARM_FRONT_INTEGER_ID else x)
       (replicate R (replicate C NO_FRONT_INTEGER_ID)) warm_mask)
    cold_mask.

Lemma frontal_types_Ok :
  get_frontal_types_over_grid u v theta mask dx dy = Ok frontal_grid.
Proof.
  unfold get_frontal_types_over_grid. rewrite thermal_advection_Ok.
  cbn [mbind result_bind].
  pose proof advection_shape as Hadv.
  rewrite (elementwise_Ok _ _ _ R C); [|by apply is_matrix_mmap|done].
  cbn [mbind result_bind].
  rewrite (elementwise_Ok _ _ _ R C); [|by apply is_matrix_mmap|done].
  cbn [mbind result_bind]. fold warm_mask cold_mask.
  rewrite (is_matrix_nrows _ _ _ mask_shape).
  rewrite (is_matrix_ncols _ _ _ mask_shape) by lia.
  rewrite np_full_Ok. cbn [mbind result_bind].
  assert (is_matrix R C warm_mask) as Hw.
  { apply is_matrix_mzip_with; [by apply is_matrix_mmap|done]. }
  assert (is_matrix R C cold_mask) as Hc.
  { apply is_matrix_mzip_with; [by apply is_matrix_mmap|done]. }
  rewrite (index_put_where _ _ R C); [|apply is_matrix_replicate|done].
  cbn [mbind result_bind].
  rewrite (index_put_where _ _ R C); [done| |done].
  apply is_matrix_mzip_with; [apply is_matrix_replicate|done].
Qed.

Lemma frontal_grid_value (r c : nat) (a : float) (b : bool) :
  mget advection r c = Some a → mget mask r c = Some b →
  mget frontal_grid r c
  = Some (if (a <=? 0)%float && b then COLD_FRONT_INTEGER_ID
          else if (0 <? a)%float && b then WARM_FRONT_INTEGER_ID
          else NO_FRONT_INTEGER_ID).
Proof.
  intros Ha Hb. destruct (mget_Some_lt _ _ _ _ _ _ mask_shape Hb) as [Hr Hc].
  unfold frontal_grid, warm_mask, cold_mask.
  rewrite !mget_mzip_with, !mget_mmap, mget_replicate, Ha, Hb.
  rewrite decide_True by done.
  cbn [fmap option_fmap option_map mbind option_bind].
  by destruct ((a <=? 0)%float && b), ((0 <? a)%float && b).
Qed.

Lemma frontal_cell_value (r c : nat) :
  (r < R)%nat → (c < C)%nat →
  ∃ (a : float) (b : bool),
    mget advection r c = Some a ∧ mget mask r c = Some b
    ∧ a = (- (fget u r c * fget gx r c + fget v r c * fget gy r c))%float
    ∧ mget frontal_grid r c
      = Some (if (a <=? 0)%float && b then COLD_FRONT_INTEGER_ID
              else if (0 <? a)%float && b then WARM_FRONT_INTEGER_ID
              else NO_FRONT_INTEGER_ID).
Proof.
  intros Hr Hc. destruct (mget_is_Some mask R C r c mask_shape Hr Hc) as [b Hb].
  eexists _, b. split; [by apply advection_value|].
  split; [done|]. split; [done|].
  apply frontal_grid_value; [|done]. by apply advection_value.
Qed.

End Advection.

(** With a wind of 1 along x and 0 along y, a positive difference quotient
    along x and a finite one along y, the advection is at most zero. *)
Lemma unit_wind_advection_sign (ddx ddy : float) :
  (0 <? ddx)%float = true → is_finite ddy = true →
  (- (1 * ddx + 0 * ddy) <=? 0)%float = true.
Proof.
  intros Hx Hy. apply leb_zero_spec.
  rewrite opp_spec, add_spec, !mul_spec. unfold SF64add, SF64mul.
  apply ltb_zero_spec, sf_cmp0_Gt_signed in Hx as [Hx Hx0].
  apply is_finite_spec in Hy.
  assert (sf_signed false (SFmul prec emax (Prim2SF 1) (Prim2SF ddx))) as Hp.
  { apply (SFmul_signed false false); [done|done| |]; by intros [? ?]. }
  assert (sf_is_zero (SFmul prec emax (Prim2SF 0) (Prim2SF ddy))) as Hq.
  { change (Prim2SF 0) with (S754_zero false).
    destruct Hy as [Hy|(s & m & e & ->)]; [|done].
    by destruct (Prim2SF ddy). }
  pose proof (SFadd_zero_r_signed _ _ Hp Hq) as Hsum.
  rewrite sf_cmp0_opp.
  destruct (sf_signed_cmp0 _ Hsum) as [-> | ->]; [by left|by right].
Qed.

(** C8, as the code has it.  On a grid of at least two rows and two columns,
    [get_frontal_types_over_grid] labels a cell warm-front exactly when the
    cell is in the front mask and the advection
    -(u * dtheta/dx + v * dtheta/dy) computed there, in double arithmetic
    from the difference quotients of [numpy.gradient], is strictly positive,
    cold-front exactly when the cell is in the mask and the advection is at
    most 0, and leaves without a front the cells outside the mask and the
    cells of the mask whose advection is NaN.  In particular, where u = 1,
    v = 0, the difference quotient of theta along x is positive and the one
    along y is finite, a cell of the mask is labelled cold-front. *)
Theorem frontal_types_follow_advection_sign (u v theta : matrix float)
    (mask : matrix bool) (dx dy : float) (R C : nat) :
  is_matrix R C u → is_matrix R C v → is_matrix R C theta →
  is_matrix R C mask → (2 ≤ R)%nat → (2 ≤ C)%nat →
  ∃ advection g,
    _get_thermal_advection_over_grid u v theta dx dy = Ok advection
    ∧ get_frontal_types_over_grid u v theta mask dx dy = Ok g
    ∧ ∀ r c, (r < R)%nat → (c < C)%nat →
        ∃ (a ddx ddy : float) (b : bool),
          mget advection r c = Some a ∧ mget mask r c = Some b
          ∧ ddx = (if decide (c = 0)%nat
                   then (fget theta r 1 - fget theta r 0) / dx
                   else if decide (c = C - 1)%nat
                        then (fget theta r (C - 1) - fget theta r (C - 2)) / dx
                        else (fget theta r (c + 1) - fget theta r (c - 1))
                             / (2 * dx))%float
          ∧ ddy = (if decide (r = 0)%nat
                   then (fget theta 1 c - fget theta 0 c) / dy
                   else if decide (r = R - 1)%nat
                        then (fget theta (R - 1) c - fget theta (R - 2) c) / dy
                        else (fget theta (r + 1) c - fget theta (r - 1) c)
                             / (2 * dy))%float
          ∧ a = (- (fget u r c * ddx + fget v r c * ddy))%float
          ∧ (mget g r c = Some WARM_FRONT_INTEGER_ID
             ↔ b = true ∧ (0 <? a)%float = true)
          ∧ (mget g r c = Some COLD_FRONT_INTEGER_ID
             ↔ b = true ∧ (a <=? 0)%float = true)
          ∧ (mget g r c = Some NO_FRONT_INTEGER_ID
             ↔ b = false ∨ is_nan a = true)
          ∧ (fget u r c = 1%float → fget v r c = 0%float →
             (0 <? ddx)%float = true → is_finite ddy = true → b = true →
             mget g r c = Some COLD_FRONT_INTEGER_ID).
Proof.
  intros Hu Hv Ht Hm HR HC.
  eexists _, _. split; [by eapply thermal_advection_Ok|].
  split; [by eapply frontal_types_Ok|].
  intros r c Hr Hc.
  destruct (frontal_cell_value u v theta mask dx dy R C Hu Hv Ht Hm HR HC
              r c Hr Hc) as (a & b & Ha & Hb & Hval & Hg).
  rewrite (gx_value theta dx R C Ht HR HC r c Hr Hc) in Hval.
  rewrite (gy_value theta dy R C Ht HR HC r c Hr Hc) in Hval.
  exists a. eexists _, _. exists b.
  split; [exact Ha|]. split; [exact Hb|].
  split; [reflexivity|]. split; [reflexivity|]. split; [exact Hval|].
  rewrite Hg. unfold WARM_FRONT_INTEGER_ID, COLD_FRONT_INTEGER_ID,
    NO_FRONT_INTEGER_ID.
  split_and!.
  - destruct (float_sign_cases a) as [(-> & -> & _)|[(-> & -> & _)|(-> & -> & _)]];
      destruct b; cbn [andb]; split; try done; by intros [? ?].
  - destruct (float_sign_cases a) as [(-> & -> & _)|[(-> & -> & _)|(-> & -> & _)]];
      destruct b; cbn [andb]; split; try done; by intros [? ?].
  - destruct (float_sign_cases a) as [(-> & -> & ->)|[(-> & -> & ->)|(-> & -> & ->)]];
      destruct b; cbn [andb]; split; try done; try (by intros [?|?]); auto.
  - intros Hu1 Hv0 Hx Hy ->. rewrite Hu1, Hv0 in Hval.
    pose proof (unit_wind_advection_sign _ _ Hx Hy) as Hle.
    rewrite <- Hval in Hle. by rewrite Hle.
Qed.

Lemma frontal_types_witness :
  ∃ g,
    get_frontal_types_over_grid
      [[1; 1; 1]; [1; 1; 1]; [1; 1; 1]]%float
      [[0; 0; 0]; [0; 0; 0]; [0; 0; 0]]%float
      [[0; 1; 2]; [0; 1; 2]; [0; 1; 2]]%float
      [[true; false; true]; [true; true; true]; [false; true; true]] 1 1
    = Ok g
    ∧ mget g 1 1 = Some COLD_FRONT_INTEGER_ID
    ∧ mget g 0 1 = Some NO_FRONT_INTEGER_ID.
Proof.
  destruct (frontal_types_follow_advection_sign
              [[1; 1; 1]; [1; 1; 1]; [1; 1; 1]]%float
              [[0; 0; 0]; [0; 0; 0]; [0; 0; 0]]%float
              [[0; 1; 2]; [0; 1; 2]; [0; 1; 2]]%float
              [[true; false; true]; [true; true; true]; [false; true; true]]
              1 1 3 3)
    as (advection & g & _ & Hg & Hcell).
  - split; [reflexivity | repeat constructor].
  - split; [reflexivity | repeat constructor].
  - split; [reflexivity | repeat constructor].
  - split; [reflexivity | repeat constructor].
  - lia.
  - lia.
  - exists g. split; [exact Hg|]. split.
    + destruct (Hcell 1 1)%nat
        as (a & ddx & ddy & b & _ & Hb & -> & -> & _ & _ & _ & _ & Hcold);
        [lia..|].
      injection Hb as <-. by apply Hcold.
    + destruct (Hcell 0 1)%nat
        as (a & ddx & ddy & b & _ & Hb & _ & _ & _ & _ & _ & Hout & _);
        [lia..|].
      injection Hb as <-. apply Hout. by left.
Defined.

(** A grid with a single row has no gradient along the rows: the call raises
    [ValueError] and labels nothing. *)
Lemma frontal_types_of_single_row_raise :
  get_frontal_types_over_grid [[1; 1; 1]]%float [[0; 0; 0]]%float
    [[0; 1; 2]]%float [[true; true; true]] 1 1
  = Raise ValueError.
Proof. reflexivity. Qed.

(** The labels of a 2 x 3 grid whose thermal parameter falls along x (warm
    advection under a wind along x), rises along x, or is computed with a
    zero spacing along y: in the last case the advection is NaN and the
    cells of the mask stay without a front. *)
Example frontal_types_examples :
  get_frontal_types_over_grid
    [[1; 1; 1]; [1; 1; 1]]%float [[0; 0; 0]; [0; 0; 0]]%float
    [[2; 1; 0]; [2; 1; 0]]%float [[true; true; false]; [true; true; true]]
    1 1
  = Ok [[1; 1; 0]; [1; 1; 1]]
  ∧ get_frontal_types_over_grid
      [[1; 1; 1]; [1; 1; 1]]%float [[0; 0; 0]; [0; 0; 0]]%float
      [[0; 1; 2]; [0; 1; 2]]%float [[true; true; false]; [true; true; true]]
      1 1
    = Ok [[2; 2; 0]; [2; 2; 2]]
  ∧ get_frontal_types_over_grid
      [[1; 1; 1]; [1; 1; 1]]%float [[0; 0; 0]; [0; 0; 0]]%float
      [[0; 1; 2]; [0; 1; 2]]%float [[true; true; false]; [true; true; true]]
      1 0
    = Ok [[0; 0; 0]; [0; 0; 0]].
Proof. repeat split; vm_compute; reflexivity. Qed.

(** ** Buffer distances *)

Lemma Qmax'_le_1 (d : Q) : (d <= 1)%Q → Qmax' d 1 = 1%Q.
Proof. intros Hd. unfold Qmax'. apply Qle_bool_iff in Hd. by rewrite Hd. Qed.

Lemma Qfloor_unit_interval (x : Q) : (0 <= x)%Q → (x < 1)%Q → Qfloor x = 0.
Proof.
  intros H0 H1. pose proof (Qfloor_resp_le _ _ H0) as Hlo.
  change (Qfloor 0) with 0 in Hlo.
  pose proof (Qfloor_le x) as Hle.
  assert (inject_Z (Qfloor x) < inject_Z 1)%Q as Hlt.
  { eapply Qle_lt_trans; [exact Hle | exact H1]. }
  rewrite <- Zlt_Qlt in Hlt. lia.
Qed.

Section BufferDistance.

Variable narr_grid_spacing_metres : Q.

#[local] Abbreviation buffer_distance_to_narr_mask' :=
  (buffer_distance_to_narr_mask narr_grid_spacing_metres).

Lemma buffer_mask_rejects_nonpositive (d : Q) :
  (d <= 0)%Q → buffer_distance_to_narr_mask' d = Raise ValueError.
Proof.
  intros Hd. unfold buffer_distance_to_narr_mask.
  assert (Qlt_bool 0 d = false) as ->; [|done].
  unfold Qlt_bool. apply Qle_bool_iff in Hd. by rewrite Hd.
Qed.

Lemma buffer_mask_one_metre (d : Q) :
  (1 < narr_grid_spacing_metres)%Q → (0 < d)%Q → (d <= 1)%Q →
  buffer_distance_to_narr_mask' d = Ok [[true]].
Proof.
  intros Hs Hpos Hd. unfold buffer_distance_to_narr_mask.
  apply Qlt_bool_iff in Hpos. rewrite Hpos.
  cbn [assert_that mbind result_bind]. rewrite (Qmax'_le_1 d Hd).
  assert (0 < narr_grid_spacing_metres)%Q as Hs0.
  { eapply Qlt_trans; [|exact Hs]. reflexivity. }
  rewrite (Qfloor_unit_interval (1 / narr_grid_spacing_metres)).
  - change (seq 0 (Z.to_nat (2 * 0 + 1))) with [0%nat].
    unfold mzip_with. cbn [fmap list_fmap zip_with].
    change (Z.of_nat 0 - 0) with 0. change (0 * 0 + 0 * 0) with 0.
    f_equal. f_equal. f_equal. apply Qle_bool_iff.
    assert (narr_grid_spacing_metres * narr_grid_spacing_metres * inject_Z 0
            == 0)%Q as -> by ring.
    discriminate.
  - apply Qle_shift_div_l; [done|].
    assert (0 * narr_grid_spacing_metres == 0)%Q as -> by ring. discriminate.
  - apply Qlt_shift_div_r; [done|].
    by assert (1 * narr_grid_spacing_metres == narr_grid_spacing_metres)%Q
      as -> by ring.
Qed.

Variable narr_grid_point_x_coords_metres : list Q.
Variable narr_grid_point_y_coords_metres : list Q.
Variable narr_grid_dimensions : Z * Z.
Variable project_latlng_to_xy : list float → list float → list Q * list Q.
Variable linestring_is_valid : geometry → bool.
Variable shapely_intersects : geometry → geometry → bool.
Variable shapely_touches : geometry → geometry → bool.

#[local] Abbreviation polyline_to_binary_narr_grid' :=
  (polyline_to_binary_narr_grid narr_grid_spacing_metres
     narr_grid_point_x_coords_metres narr_grid_point_y_coords_metres
     narr_grid_dimensions project_latlng_to_xy
     linestring_is_valid shapely_intersects shapely_touches).

(** C5, as the code has it.  On a grid whose spacing exceeds one metre, a
    dilation distance from 0 to 1 metre passed to
    [polyline_to_binary_narr_grid] is raised to one metre, not to one grid
    spacing: the result is the one for a distance of one metre, and the
    kernel built from that distance is the single cell [[True]].  A negative
    distance raises [ValueError], and [buffer_distance_to_narr_mask] itself
    raises [ValueError] for a distance of zero. *)
Theorem small_distance_coerced_to_one_metre (lats lngs : list float) (d : Q) :
  (1 < narr_grid_spacing_metres)%Q →
  ((0 <= d)%Q → (d <= 1)%Q →
     polyline_to_binary_narr_grid' lats lngs d
     = polyline_to_binary_narr_grid' lats lngs 1
     ∧ buffer_distance_to_narr_mask' (Qmax' d 1) = Ok [[true]])
  ∧ ((d < 0)%Q → polyline_to_binary_narr_grid' lats lngs d = Raise ValueError)
  ∧ buffer_distance_to_narr_mask' 0 = Raise ValueError.
Proof.
  intros Hs. split; [|split].
  - intros H0 H1. split.
    + unfold polyline_to_binary_narr_grid.
      apply Qle_bool_iff in H0. rewrite H0. by rewrite (Qmax'_le_1 d H1).
    + rewrite (Qmax'_le_1 d H1). by apply buffer_mask_one_metre.
  - intros Hneg. unfold polyline_to_binary_narr_grid.
    apply Qle_bool_false_iff in Hneg. by rewrite Hneg.
  - by apply buffer_mask_rejects_nonpositive.
Qed.

End BufferDistance.

(** On the small grid, whose spacing is 2 metres, the distances 0 and 2 give
    different rasters of the same polyline, and the mask builder of the NARR
    grid (spacing 32463 metres) rejects a distance of zero. *)
Lemma zero_distance_is_not_one_grid_spacing :
  SmallGrid.polyline_to_binary_grid [0; 0]%float [0; 2]%float 0
  ≠ SmallGrid.polyline_to_binary_grid [0; 0]%float [0; 2]%float
      SmallGrid.grid_spacing_metres
  ∧ buffer_distance_to_narr_mask 32463 (Qmax' 0 1)
    ≠ buffer_distance_to_narr_mask 32463 32463
  ∧ buffer_distance_to_narr_mask 32463 0 = Raise ValueError.
Proof. split; [|split]; [by vm_compute..|reflexivity]. Qed.

Lemma small_distance_coerced_witness :
  (SmallGrid.polyline_to_binary_grid [0; 0]%float [0; 2]%float 0
   = SmallGrid.polyline_to_binary_grid [0; 0]%float [0; 2]%float 1
   ∧ buffer_distance_to_narr_mask SmallGrid.grid_spacing_metres (Qmax' 0 1)
     = Ok [[true]]).
Proof.
  apply (small_distance_coerced_to_one_metre SmallGrid.grid_spacing_metres
           SmallGrid.grid_point_x_coords_metres
           SmallGrid.grid_point_y_coords_metres SmallGrid.grid_dimensions
           SmallGrid.project_latlng_to_xy SmallGrid.linestring_is_valid
           SmallGrid.shapely_intersects SmallGrid.shapely_touches
           [0; 0]%float [0; 2]%float 0); by vm_compute.
Defined.

(** ** Dilation of binary images *)

Lemma is_matrix_own {A : Type} (m : matrix A) (R C : nat) :
  is_matrix R C m → is_matrix (nrows m) (ncols m) m.
Proof.
  intros Hm. destruct (decide (R = 0)%nat) as [->|HR].
  - destruct Hm as [Hlen _]. destruct m; [|done]. split; [done | constructor].
  - rewrite (is_matrix_nrows _ _ _ Hm), (is_matrix_ncols _ _ _ Hm) by lia. done.
Qed.

Lemma zget_nat (m : matrix Z) (r c : nat) :
  zget m (Z.of_nat r) (Z.of_nat c) = default 0 (mget m r c).
Proof. unfold zget. rewrite decide_True by lia. by rewrite !Nat2Z.id. Qed.

Lemma zget_nonzero (m : matrix Z) (r c : Z) :
  zget m r c ≠ 0 →
  0 ≤ r ∧ 0 ≤ c ∧ mget m (Z.to_nat r) (Z.to_nat c) = Some (zget m r c).
Proof.
  unfold zget. destruct (decide (0 ≤ r ∧ 0 ≤ c)) as [[? ?]|]; [|done].
  destruct (mget m (Z.to_nat r) (Z.to_nat c)); simpl; [|done]. by intros _.
Qed.

Lemma foldr_max_ge (l : list Z) :
  0 ≤ foldr Z.max 0 l ∧ ∀ x, x ∈ l → x ≤ foldr Z.max 0 l.
Proof.
  induction l as [|y l [IH0 IH]]; simpl.
  - split; [lia|]. by intros x ?%elem_of_nil.
  - split; [lia|]. intros x [->|Hx]%elem_of_cons; [lia|].
    specialize (IH x Hx). lia.
Qed.

Lemma foldr_max_in (l : list Z) :
  foldr Z.max 0 l = 0 ∨ foldr Z.max 0 l ∈ l.
Proof.
  induction l as [|y l IH]; simpl; [by left|].
  destruct (Z.max_spec y (foldr Z.max 0 l)) as [[_ ->]|[_ ->]].
  - destruct IH as [IH|IH]; [by left|]. right. by right.
  - right. by left.
Qed.

Lemma mget_cv2_dilate (src kernel : matrix Z) (r c : nat) :
  mget (cv2_dilate src kernel) r c
  = if decide (r < nrows src ∧ c < ncols src)%nat
    then Some (foldr Z.max 0
                 ((λ o : Z * Z, zget src (Z.of_nat r + o.1) (Z.of_nat c + o.2))
                  <$> kernel_offsets kernel))
    else None.
Proof. unfold cv2_dilate. by rewrite mget_mtabulate. Qed.

Lemma is_matrix_cv2_dilate (src kernel : matrix Z) (R C : nat) :
  is_matrix R C src → is_matrix R C (cv2_dilate src kernel).
Proof.
  intros Hsrc. unfold cv2_dilate. destruct (decide (R = 0)%nat) as [->|HR].
  - destruct Hsrc as [Hlen _]. destruct src; [|done]. split; [done|constructor].
  - rewrite (is_matrix_nrows _ _ _ Hsrc), (is_matrix_ncols _ _ _ Hsrc) by lia.
    apply is_matrix_mtabulate.
Qed.

Lemma zget_binary (m : matrix Z) (r c : Z) :
  binary_image m → zget m r c = 0 ∨ zget m r c = 1.
Proof.
  intros Hm. unfold zget. destruct (decide _); [|by left].
  destruct (mget m (Z.to_nat r) (Z.to_nat c)) as [x|] eqn:Hx; simpl; [|by left].
  by eapply Hm.
Qed.

Lemma cv2_dilate_binary (src kernel : matrix Z) :
  binary_image src → binary_image (cv2_dilate src kernel).
Proof.
  intros Hsrc r c x. rewrite mget_cv2_dilate. case_decide; [|done].
  intros [= <-].
  match goal with |- context [foldr Z.max 0 ?l] =>
    destruct (foldr_max_in l) as [H0|Hin] end; [by left|].
  apply list_elem_of_fmap in Hin as (o & Ho & _). rewrite Ho.
  apply zget_binary, Hsrc.
Qed.

Lemma cv2_dilate_one (src kernel : matrix Z) (r c : nat) :
  binary_image src →
  mget (cv2_dilate src kernel) r c = Some 1
  ↔ (r < nrows src ∧ c < ncols src)%nat
    ∧ ∃ o, o ∈ kernel_offsets kernel
           ∧ zget src (Z.of_nat r + o.1) (Z.of_nat c + o.2) = 1.
Proof.
  intros Hsrc. rewrite mget_cv2_dilate. case_decide as Hin;
    [|split; [done | by intros [? _]]].
  split.
  - intros [= Hmax]. split; [done|].
    match type of Hmax with foldr Z.max 0 ?l = _ =>
      destruct (foldr_max_in l) as [H0|Hl] end; [lia|].
    rewrite Hmax in Hl. apply list_elem_of_fmap in Hl as (o & Ho & Hol).
    eauto.
  - intros [_ (o & Ho & Hone)]. f_equal.
    match goal with |- foldr Z.max 0 ?l = _ =>
      pose proof (foldr_max_ge l) as [_ Hge];
      destruct (foldr_max_in l) as [H0|Hl] end.
    + specialize (Hge 1). rewrite H0 in Hge. exfalso.
      assert (1 ≤ 0); [|lia]. apply Hge. apply list_elem_of_fmap. eauto.
    + assert (1 ≤ foldr Z.max 0
                ((λ o : Z * Z, zget src (Z.of_nat r + o.1) (Z.of_nat c + o.2))
                 <$> kernel_offsets kernel)) as Hone'.
      { apply Hge. apply list_elem_of_fmap. eauto. }
      apply list_elem_of_fmap in Hl as (o' & Ho' & _).
      destruct (zget_binary src (Z.of_nat r + o'.1) (Z.of_nat c + o'.2) Hsrc);
        lia.
Qed.

Lemma kernel_offsets_centre (kernel : matrix Z) (x : Z) :
  kernel_centre kernel = Some x → x ≠ 0 → (0, 0) ∈ kernel_offsets kernel.
Proof.
  intros Hx Hnz. unfold kernel_offsets. apply list_elem_of_fmap.
  exists (nrows kernel / 2, ncols kernel / 2)%nat. split.
  - simpl. f_equal; lia.
  - apply elem_of_where_cells. rewrite mget_mmap.
    unfold kernel_centre in Hx. rewrite Hx. simpl. f_equal.
    apply negb_true_iff. by apply Z.eqb_neq.
Qed.

Lemma binary_front_matrix_Ok (label : Z) (g : matrix Z) (R C : nat) :
  is_matrix R C g →
  binary_front_matrix label g
  = Ok (mmap (λ x, if label =? x then 1 else 0) g).
Proof.
  intros Hg. apply is_matrix_own in Hg. unfold binary_front_matrix.
  rewrite np_full_Ok. cbn [mbind result_bind]. unfold mask_put.
  pose proof (is_matrix_replicate (nrows g) (ncols g) NO_FRONT_INTEGER_ID) as H0.
  rewrite (is_matrix_shape _ _ _ H0), shape_mmap, (is_matrix_shape _ _ _ Hg).
  rewrite decide_True by done. f_equal. eapply matrix_ext.
  - apply is_matrix_mzip_with; [done | by apply is_matrix_mmap].
  - by apply is_matrix_mmap.
  - intros r c Hr Hc. rewrite mget_mzip_with, !mget_mmap, mget_replicate.
    rewrite decide_True by done.
    destruct (mget_is_Some g _ _ r c Hg Hr Hc) as [x ->]. simpl.
    by destruct (label =? x).
Qed.

Lemma binary_image_front (label : Z) (g : matrix Z) :
  binary_image (mmap (λ x, if label =? x then 1 else 0) g).
Proof.
  intros r c x. rewrite mget_mmap. destruct (mget g r c) as [y|]; [|done].
  simpl. intros [= <-]. destruct (label =? y); auto.
Qed.

Lemma mall_binary (m : matrix Z) :
  binary_image m →
  mall (λ x, 0 <=? x) m = true ∧ mall (λ x, x <=? 1) m = true.
Proof.
  intros Hm. split; apply mall_spec; intros r c x Hx; apply Z.leb_le;
    destruct (Hm r c x Hx); lia.
Qed.

Lemma sum_ge_elem (l : list Z) (x : Z) :
  (∀ y, y ∈ l → 0 ≤ y) → x ∈ l → x ≤ foldr Z.add 0 l.
Proof.
  induction l as [|y l IH]; intros Hpos Hx; [by apply elem_of_nil in Hx|].
  simpl. assert (0 ≤ foldr Z.add 0 l) as Hsum.
  { clear IH Hx. induction l as [|z l IHl]; simpl; [lia|].
    assert (0 ≤ z) by (apply Hpos; right; by left).
    assert (0 ≤ foldr Z.add 0 l); [|lia].
    apply IHl. intros w [->|Hw]%elem_of_cons; apply Hpos;
      [by left | right; by right]. }
  assert (0 ≤ y) by (apply Hpos; by left).
  apply elem_of_cons in Hx as [->|Hx]; [lia|].
  assert (x ≤ foldr Z.add 0 l); [|lia].
  apply IH; [|done]. intros w Hw. apply Hpos. by right.
Qed.

Lemma mget_elem_of_concat {A : Type} (m : matrix A) (r c : nat) (x : A) :
  mget m r c = Some x → x ∈ concat m.
Proof.
  unfold mget. destruct (m !! r) as [row|] eqn:Hrow; [|done]. simpl.
  intros Hx. apply list_elem_of_In, in_concat. exists row.
  split; apply list_elem_of_In; eapply list_elem_of_lookup_2; done.
Qed.

Lemma elem_of_concat_mget {A : Type} (m : matrix A) (x : A) :
  x ∈ concat m → ∃ r c, mget m r c = Some x.
Proof.
  intros (row & [r Hr]%list_elem_of_In%list_elem_of_lookup
               & [c Hc]%list_elem_of_In%list_elem_of_lookup)
    %list_elem_of_In%in_concat.
  exists r, c. unfold mget. by rewrite Hr.
Qed.

Section DilateBinary.

Variable narr_grid_spacing_metres : Q.

Lemma dilate_binary_narr_image_Ok (m : matrix Z) (dist : option Q)
    (kernel : option (matrix Z)) (k : matrix Z) (x : Z) :
  binary_image m → chosen_kernel narr_grid_spacing_metres dist kernel = Ok k →
  binary_image k → kernel_centre k = Some x → x ≠ 0 →
  dilate_binary_narr_image narr_grid_spacing_metres m dist kernel
  = Ok (cv2_dilate m k).
Proof.
  intros Hm Hk Hbin Hcentre Hx. unfold dilate_binary_narr_image.
  destruct (mall_binary m Hm) as [-> ->].
  cbn [assert_that mbind result_bind].
  change (match kernel with
          | Some k0 => Ok k0
          | None => match dist with
                    | Some d =>
                      (mask ← buffer_distance_to_narr_mask
                                narr_grid_spacing_metres d ;
                       Ok (mmap Z.b2z mask))
                    | None => Raise TypeError
                    end
          end) with (chosen_kernel narr_grid_spacing_metres dist kernel).
  rewrite Hk. cbn [mbind result_bind].
  destruct (mall_binary k Hbin) as [-> ->].
  cbn [assert_that mbind result_bind].
  assert ((1 <=? foldr Z.add 0 (concat k)) = true) as ->; [|done].
  apply Z.leb_le. unfold kernel_centre in Hcentre.
  destruct (Hbin _ _ _ Hcentre) as [->| ->]; [done|].
  apply sum_ge_elem.
  - intros y (r & c & Hy)%elem_of_concat_mget. destruct (Hbin _ _ _ Hy); lia.
  - by eapply mget_elem_of_concat.
Qed.

End DilateBinary.

(** ** Ternary dilation *)

Lemma min_squared_distance_Ok (p : Z * Z) (idx : list Z * list Z) :
  has_points idx → ∃ d, min_squared_distance p idx = Ok d.
Proof.
  destruct idx as [[|a l1] [|b l2]]; intros [? ?]; try done.
  unfold min_squared_distance, squared_distances. cbn. eauto.
Qed.

Section Resolve.

Variables (cold_idx warm_idx : list Z * list Z).
Hypothesis cold_points : has_points cold_idx.
Hypothesis warm_points : has_points warm_idx.

Lemma resolve_point_Ok (bc bw : matrix Z) (q : nat * nat) (R C : nat) :
  is_matrix R C bc → is_matrix R C bw → (q.1 < R)%nat → (q.2 < C)%nat →
  resolve_point cold_idx warm_idx (bc, bw) (cell_index q)
  = Ok (if cold_wins cold_idx warm_idx (cell_index q)
        then (bc, mset bw q.1 q.2 NO_FRONT_INTEGER_ID)
        else (mset bc q.1 q.2 NO_FRONT_INTEGER_ID, bw)).
Proof.
  intros Hbc Hbw Hr Hc.
  destruct (min_squared_distance_Ok (cell_index q) _ cold_points) as [dc Hdc].
  destruct (min_squared_distance_Ok (cell_index q) _ warm_points) as [dw Hdw].
  unfold cold_wins. rewrite Hdc, Hdw.
  unfold resolve_point. unfold min_squared_distance in Hdc, Hdw.
  rewrite Hdc, Hdw. cbn [mbind result_bind]. unfold item_put.
  rewrite (is_matrix_nrows _ _ _ Hbc), (is_matrix_nrows _ _ _ Hbw).
  rewrite (is_matrix_ncols _ _ _ Hbc), (is_matrix_ncols _ _ _ Hbw) by lia.
  unfold cell_index. cbn [fst snd].
  rewrite !norm_index_nat by done. by destruct (dc <=? dw).
Qed.

Lemma foldM_resolve (cells : list (nat * nat)) (bc bw : matrix Z) (R C : nat) :
  is_matrix R C bc → is_matrix R C bw →
  (∀ q, q ∈ cells → (q.1 < R ∧ q.2 < C)%nat) →
  foldM (resolve_point cold_idx warm_idx) (bc, bw) (cell_index <$> cells)
  = Ok (put_cells bc
          (filter (λ q, cold_wins cold_idx warm_idx (cell_index q) = false)
                  cells) NO_FRONT_INTEGER_ID,
        put_cells bw
          (filter (λ q, cold_wins cold_idx warm_idx (cell_index q) = true)
                  cells) NO_FRONT_INTEGER_ID).
Proof.
  revert bc bw. induction cells as [|q cells IH]; intros bc bw Hbc Hbw Hin;
    [done|].
  rewrite fmap_cons. cbn [foldM].
  destruct (Hin q) as [Hr Hc]; [by left|].
  rewrite (resolve_point_Ok bc bw q R C Hbc Hbw Hr Hc).
  cbn [mbind result_bind].
  assert (∀ q', q' ∈ cells → (q'.1 < R ∧ q'.2 < C)%nat) as Hin'.
  { intros q' Hq'. apply Hin. by right. }
  destruct (cold_wins cold_idx warm_idx (cell_index q)) eqn:Hwin.
  - rewrite IH; [|done|by apply is_matrix_mset|done].
    rewrite (filter_cons_False (λ q0, cold_wins _ _ (cell_index q0) = false))
      by (by rewrite Hwin).
    rewrite (filter_cons_True (λ q0, cold_wins _ _ (cell_index q0) = true))
      by done.
    done.
  - rewrite IH; [|by apply is_matrix_mset|done|done].
    rewrite (filter_cons_True (λ q0, cold_wins _ _ (cell_index q0) = false))
      by done.
    rewrite (filter_cons_False (λ q0, cold_wins _ _ (cell_index q0) = true))
      by (by rewrite Hwin).
    done.
Qed.

End Resolve.

Lemma has_points_where (m : matrix bool) (r c : nat) :
  mget m r c = Some true → has_points (np_where m).
Proof.
  intros Hm. apply elem_of_where_cells in Hm. unfold has_points, np_where.
  cbn [fst snd]. destruct (where_cells m); [by apply elem_of_nil in Hm|].
  split; rewrite fmap_cons; done.
Qed.

Lemma dilate_binary_narr_image_inv (s : Q) (m : matrix Z) (dist : option Q)
    (kernel : option (matrix Z)) (out : matrix Z) :
  dilate_binary_narr_image s m dist kernel = Ok out →
  ∃ k, out = cv2_dilate m k.
Proof.
  unfold dilate_binary_narr_image. intros H.
  repeat (apply bind_Ok in H as (? & _ & H)). injection H as <-. eauto.
Qed.

Lemma dilated_front_matrix_eq (s : Q) (label : Z) (g : matrix Z) (R C : nat)
    (dist : option Q) (kernel : option (matrix Z)) :
  is_matrix R C g →
  dilated_front_matrix s label g dist kernel
  = dilate_binary_narr_image s (mmap (λ x, if label =? x then 1 else 0) g)
      dist kernel.
Proof.
  intros Hg. unfold dilated_front_matrix.
  by rewrite (binary_front_matrix_Ok label g R C Hg).
Qed.

Lemma dilated_front_one_has_points (s : Q) (label : Z) (g : matrix Z)
    (R C : nat) (dist : option Q) (kernel : option (matrix Z))
    (d : matrix Z) (r c : nat) :
  is_matrix R C g →
  dilated_front_matrix s label g dist kernel = Ok d →
  mget d r c = Some 1 →
  has_points (np_where (mmap (Z.eqb label) g)).
Proof.
  intros Hg Hd Hone. rewrite (dilated_front_matrix_eq _ _ _ R C) in Hd by done.
  apply dilate_binary_narr_image_inv in Hd as [k ->].
  apply cv2_dilate_one in Hone as [_ (o & _ & Ho)];
    [|apply binary_image_front].
  assert (zget (mmap (λ x, if label =? x then 1 else 0) g)
            (Z.of_nat r + o.1) (Z.of_nat c + o.2) ≠ 0) as Hnz by lia.
  apply zget_nonzero in Hnz as (_ & _ & Hget). rewrite Ho in Hget.
  rewrite mget_mmap in Hget.
  eapply (has_points_where _ (Z.to_nat (Z.of_nat r + o.1))
            (Z.to_nat (Z.of_nat c + o.2))).
  rewrite mget_mmap.
  destruct (mget g (Z.to_nat (Z.of_nat r + o.1)) (Z.to_nat (Z.of_nat c + o.2)))
    as [x|]; [|done].
  simpl in *. destruct (label =? x); [done|]. by injection Hget.
Qed.

Lemma decide_elem_of_filter_where {A : Type} (m : matrix bool)
    (f : nat * nat → bool) (v : bool) (r c : nat) (b : bool) (X Y : A) :
  mget m r c = Some b →
  (if decide ((r, c) ∈ filter (λ q, f q = v) (where_cells m)) then X else Y)
  = if b && Bool.eqb (f (r, c)) v then X else Y.
Proof.
  intros Hb. case_decide as Hin.
  - apply list_elem_of_filter in Hin as [Hf Hw].
    apply elem_of_where_cells in Hw. rewrite Hb in Hw. injection Hw as ->.
    rewrite Hf. by destruct v.
  - destruct b; [|done]. simpl.
    destruct (Bool.eqb (f (r, c)) v) eqn:Heq; [|done].
    exfalso. apply Hin. apply list_elem_of_filter. split.
    + by apply Bool.eqb_prop.
    + by apply elem_of_where_cells.
Qed.

Section TernaryDilation.

Variable narr_grid_spacing_metres : Q.
Variables (g : matrix Z) (R C : nat).
Variables (dist : option Q) (kernel : option (matrix Z)) (dc dw : matrix Z).
Hypothesis g_shape : is_matrix R C g.
Hypothesis g_valid : ∀ r c x, mget g r c = Some x → 0 ≤ x ≤ 2.
Hypothesis cold_dilated :
  dilated_front_matrix narr_grid_spacing_metres COLD_FRONT_INTEGER_ID g
    dist kernel = Ok dc.
Hypothesis warm_dilated :
  dilated_front_matrix narr_grid_spacing_metres WARM_FRONT_INTEGER_ID g
    dist kernel = Ok dw.

Let cold_idx : list Z * list Z :=
  np_where (mmap (Z.eqb COLD_FRONT_INTEGER_ID) g).
Let warm_idx : list Z * list Z :=
  np_where (mmap (Z.eqb WARM_FRONT_INTEGER_ID) g).
Let both : matrix bool :=
  mzip_with andb (mmap (Z.eqb ANY_FRONT_INTEGER_ID) dc)
                 (mmap (Z.eqb ANY_FRONT_INTEGER_ID) dw).

Lemma dilated_shape (label : Z) (d : matrix Z) :
  dilated_front_matrix narr_grid_spacing_metres label g dist kernel = Ok d →
  is_matrix R C d ∧ binary_image d.
Proof.
  intros Hd. rewrite (dilated_front_matrix_eq _ _ _ R C) in Hd by done.
  apply dilate_binary_narr_image_inv in Hd as [k ->]. split.
  - by apply is_matrix_cv2_dilate, is_matrix_mmap.
  - apply cv2_dilate_binary, binary_image_front.
Qed.

Lemma both_shape : is_matrix R C both.
Proof.
  destruct (dilated_shape _ _ cold_dilated) as [Hc _].
  destruct (dilated_shape _ _ warm_dilated) as [Hw _].
  unfold both. by apply is_matrix_mzip_with; apply is_matrix_mmap.
Qed.

Lemma resolve_loop_Ok :
  foldM (resolve_point cold_idx warm_idx) (dc, dw)
        (cell_index <$> where_cells both)
  = Ok (put_cells dc
          (filter (λ q, cold_wins cold_idx warm_idx (cell_index q) = false)
                  (where_cells both)) NO_FRONT_INTEGER_ID,
        put_cells dw
          (filter (λ q, cold_wins cold_idx warm_idx (cell_index q) = true)
                  (where_cells both)) NO_FRONT_INTEGER_ID).
Proof.
  destruct (dilated_shape _ _ cold_dilated) as [Hc _].
  destruct (dilated_shape _ _ warm_dilated) as [Hw _].
  destruct (where_cells both) as [|q cells] eqn:Hcells; [done|].
  assert (q ∈ where_cells both) as Hq by (rewrite Hcells; by left).
  destruct q as [r c]. apply elem_of_where_cells in Hq.
  unfold both in Hq. rewrite mget_mzip_with, !mget_mmap in Hq.
  destruct (mget dc r c) as [a|] eqn:Ha; [|done].
  destruct (mget dw r c) as [b|] eqn:Hb; [|done].
  cbn [fmap option_fmap option_map mbind option_bind] in Hq.
  assert ((ANY_FRONT_INTEGER_ID =? a) && (ANY_FRONT_INTEGER_ID =? b) = true)
    as Hab by congruence.
  apply andb_true_iff in Hab as [Ha1 Hb1].
  apply Z.eqb_eq in Ha1, Hb1. unfold ANY_FRONT_INTEGER_ID in *. subst a b.
  rewrite <- Hcells. eapply foldM_resolve; try done.
  - eapply dilated_front_one_has_points; [exact g_shape | exact cold_dilated
                                          | exact Ha].
  - eapply dilated_front_one_has_points; [exact g_shape | exact warm_dilated
                                          | exact Hb].
  - intros [r' c'] Hq'. apply elem_of_where_cells in Hq'.
    by eapply mget_Some_lt; [apply both_shape|].
Qed.

Lemma dilate_ternary_narr_image_spec :
  ∃ out,
    dilate_ternary_narr_image narr_grid_spacing_metres g dist kernel = Ok out
    ∧ is_matrix R C out
    ∧ ∀ r c x a b,
        mget g r c = Some x → mget dc r c = Some a → mget dw r c = Some b →
        mget out r c
        = Some (resolved_label cold_idx warm_idx (cell_index (r, c)) x a b).
Proof.
  destruct (dilated_shape _ _ cold_dilated) as [Hc _].
  destruct (dilated_shape _ _ warm_dilated) as [Hw _].
  pose proof (is_matrix_own _ _ _ g_shape) as Hown.
  unfold dilate_ternary_narr_image.
  assert (mall (λ x, 0 <=? x) g = true) as ->.
  { apply mall_spec. intros r c x Hx. apply Z.leb_le. by apply (g_valid r c). }
  assert (mall (λ x, x <=? 2) g = true) as ->.
  { apply mall_spec. intros r c x Hx. apply Z.leb_le. by apply (g_valid r c). }
  cbn [assert_that mbind result_bind].
  rewrite np_full_Ok. cbn [mbind result_bind].
  pose proof (binary_front_matrix_Ok COLD_FRONT_INTEGER_ID g R C g_shape) as Ec.
  pose proof (binary_front_matrix_Ok WARM_FRONT_INTEGER_ID g R C g_shape) as Ew.
  unfold binary_front_matrix in Ec, Ew. rewrite np_full_Ok in Ec, Ew.
  cbn [mbind result_bind] in Ec, Ew.
  rewrite Ec. cbn [mbind result_bind].
  rewrite <- (dilated_front_matrix_eq _ _ _ R C) by done.
  rewrite cold_dilated. cbn [mbind result_bind].
  rewrite Ew. cbn [mbind result_bind].
  rewrite <- (dilated_front_matrix_eq _ _ _ R C) by done.
  rewrite warm_dilated. cbn [mbind result_bind].
  rewrite (elementwise_Ok _ _ _ R C) by (by apply is_matrix_mmap).
  cbn [mbind result_bind]. fold both cold_idx warm_idx.
  change (zip (np_where both).1 (np_where both).2)
    with (zip ((λ p : nat * nat, Z.of_nat p.1) <$> where_cells both)
              ((λ p : nat * nat, Z.of_nat p.2) <$> where_cells both)).
  rewrite zip_cell_index.
  rewrite resolve_loop_Ok. cbn [mbind result_bind].
  set (dc' := put_cells dc _ _). set (dw' := put_cells dw _ _).
  assert (is_matrix R C dc') as Hc' by by apply is_matrix_put_cells.
  assert (is_matrix R C dw') as Hw' by by apply is_matrix_put_cells.
  unfold mask_put.
  rewrite (shape_mmap _ dc'), (is_matrix_shape _ _ _ g_shape),
    (is_matrix_shape _ _ _ Hc'), decide_True by done.
  cbn [mbind result_bind].
  set (g1 := mzip_with _ g _).
  assert (is_matrix R C g1) as Hg1.
  { apply is_matrix_mzip_with; [done | by apply is_matrix_mmap]. }
  rewrite (shape_mmap _ dw'), (is_matrix_shape _ _ _ Hg1),
    (is_matrix_shape _ _ _ Hw'), decide_True by done.
  eexists. split; [done|]. split.
  { apply is_matrix_mzip_with; [done | by apply is_matrix_mmap]. }
  intros r c x a b Hx Ha Hb. unfold g1, dc', dw'.
  rewrite !mget_mzip_with, !mget_mmap, !mget_put_cells, Hx, Ha, Hb.
  assert (mget both r c
          = Some ((ANY_FRONT_INTEGER_ID =? a) && (ANY_FRONT_INTEGER_ID =? b)))
    as Hboth.
  { unfold both. by rewrite mget_mzip_with, !mget_mmap, Ha, Hb. }
  rewrite !(decide_elem_of_filter_where both
              (λ q, cold_wins cold_idx warm_idx (cell_index q)) _ r c _ _ _
              Hboth).
  unfold resolved_label. rewrite (Z.eqb_sym a), (Z.eqb_sym b).
  destruct (ANY_FRONT_INTEGER_ID =? a) eqn:Ea;
    destruct (ANY_FRONT_INTEGER_ID =? b) eqn:Eb;
    destruct (cold_wins cold_idx warm_idx (cell_index (r, c))) eqn:Ew';
    cbn [andb negb Bool.eqb fmap option_fmap option_map mbind option_bind];
    rewrite ?Ea, ?Eb; rewrite ?(Z.eqb_sym _ ANY_FRONT_INTEGER_ID), ?Ea, ?Eb;
    try reflexivity.
Qed.

End TernaryDilation.

(** ** Kernels built from a buffer distance *)

Lemma Qmax'_ge_1 (d : Q) : (1 <= Qmax' d 1)%Q.
Proof.
  unfold Qmax'. destruct (Qle_bool d 1) eqn:Hd; [apply Qle_refl|].
  apply Qle_bool_false_iff in Hd. by apply Qlt_le_weak.
Qed.

Lemma buffer_mask_centre (s d : Q) :
  (0 < s)%Q → (0 < d)%Q →
  ∃ mask, buffer_distance_to_narr_mask s d = Ok mask
          ∧ kernel_centre (mmap Z.b2z mask) = Some 1.
Proof.
  intros Hs Hd. unfold buffer_distance_to_narr_mask.
  apply Qlt_bool_iff in Hd. rewrite Hd. cbn [assert_that mbind result_bind].
  eexists. split; [reflexivity|].
  set (d' := Qmax' d 1). set (k := Qfloor (d' / s)).
  assert (0 ≤ k) as Hk.
  { change 0 with (Qfloor 0). apply Qfloor_resp_le.
    apply Qle_shift_div_l; [done|].
    assert (0 * s == 0)%Q as -> by ring.
    eapply Qle_trans; [|apply Qmax'_ge_1]. discriminate. }
  set (n := Z.to_nat (2 * k + 1)).
  set (offs := (λ i : nat, Z.of_nat i - k) <$> seq 0 n).
  assert (length offs = n) as Hlen by (unfold offs; by rewrite length_fmap, length_seq).
  assert (offs !! Z.to_nat k = Some 0) as Hoff.
  { unfold offs. rewrite list_lookup_fmap, lookup_seq_lt by lia. simpl.
    f_equal. lia. }
  assert (0 < n)%nat as Hn by (unfold n; lia).
  assert ((n / 2)%nat = Z.to_nat k) as Hhalf.
  { apply Nat2Z.inj. rewrite Nat2Z.inj_div. unfold n.
    rewrite !Z2Nat.id by lia. change (Z.of_nat 2) with 2.
    symmetry. apply Z.div_unique with (r := 1); lia. }
  clearbody offs n k. unfold kernel_centre.
  assert (is_matrix n n
            (mmap Z.b2z
               (mzip_with (λ i j : Z,
                             Qle_bool (s * s * inject_Z (i * i + j * j))
                                      (d' * d'))
                  ((λ y : Z, (λ _ : Z, y) <$> offs) <$> offs)
                  ((λ _ : Z, offs) <$> offs)))) as Hshape.
  { apply is_matrix_mmap, is_matrix_mzip_with.
    - split; [by rewrite length_fmap|]. apply Forall_fmap, Forall_forall.
      intros y _. simpl. by rewrite length_fmap.
    - split; [by rewrite length_fmap|]. apply Forall_fmap, Forall_forall.
      by intros y _. }
  rewrite (is_matrix_nrows _ _ _ Hshape), (is_matrix_ncols _ _ _ Hshape) by done.
  rewrite Hhalf.
  rewrite mget_mmap, mget_mzip_with. unfold mget.
  rewrite !list_lookup_fmap, Hoff.
  cbn [fmap option_fmap option_map mbind option_bind].
  rewrite list_lookup_fmap, Hoff.
  cbn [fmap option_fmap option_map mbind option_bind].
  f_equal. change (0 * 0 + 0 * 0) with 0.
  assert (Qle_bool (s * s * inject_Z 0) (d' * d') = true) as ->; [|done].
  apply Qle_bool_iff.
  assert (s * s * inject_Z 0 == 0)%Q as -> by ring.
  apply Qmult_le_0_compat; (eapply Qle_trans; [|apply Qmax'_ge_1]);
    discriminate.
Qed.

Lemma binary_image_b2z (mask : matrix bool) : binary_image (mmap Z.b2z mask).
Proof.
  intros r c x. rewrite mget_mmap. destruct (mget mask r c) as [[]|]; simpl;
    [intros [= <-]; by right | intros [= <-]; by left | done].
Qed.

(** ** Squared distances to a set of cells *)

Lemma squared_distances_where (p : Z * Z) (m : matrix bool) :
  squared_distances p.1 p.2 (np_where m).1 (np_where m).2
  = squared_distance p <$> where_cells m.
Proof.
  unfold np_where. cbn [fst snd]. unfold squared_distances.
  induction (where_cells m) as [|q cells IH]; [done|].
  rewrite !fmap_cons. cbn [zip_with]. f_equal. apply IH.
Qed.

Lemma np_min_Z_spec (l : list Z) (m : Z) :
  np_min_Z l = Ok m → m ∈ l ∧ ∀ x, x ∈ l → m ≤ x.
Proof.
  destruct l as [|y l]; [done|]. simpl. intros [= <-].
  induction l as [|z l [IHin IHle]]; simpl.
  - split; [by left|]. intros x ->%list_elem_of_singleton. lia.
  - split.
    + destruct (Z.min_spec z (foldr Z.min y l)) as [[_ ->]|[_ ->]].
      * right. by left.
      * apply elem_of_cons in IHin as [->|Hin]; [by left|].
        right. by right.
    + intros x Hx.
      pose proof (Z.le_min_l z (foldr Z.min y l)) as Hl.
      pose proof (Z.le_min_r z (foldr Z.min y l)) as Hr.
      apply elem_of_cons in Hx as [->|Hx].
      * assert (foldr Z.min y l ≤ y) by (apply IHle; by left). lia.
      * apply elem_of_cons in Hx as [->|Hx]; [lia|].
        assert (foldr Z.min y l ≤ x) by (apply IHle; by right). lia.
Qed.

Lemma min_squared_distance_spec (p : Z * Z) (m : matrix bool) (d : Z) :
  min_squared_distance p (np_where m) = Ok d →
  (∃ q, q ∈ where_cells m ∧ d = squared_distance p q)
  ∧ ∀ q, q ∈ where_cells m → d ≤ squared_distance p q.
Proof.
  unfold min_squared_distance. rewrite squared_distances_where.
  intros [Hin Hle]%np_min_Z_spec. split.
  - apply list_elem_of_fmap in Hin as (q & -> & Hq). eauto.
  - intros q Hq. apply Hle. apply list_elem_of_fmap. eauto.
Qed.

Lemma squared_distance_self (q : nat * nat) :
  squared_distance (cell_index q) q = 0.
Proof. unfold squared_distance, cell_index. cbn [fst snd]. lia. Qed.

Lemma squared_distance_nonneg (p : Z * Z) (q : nat * nat) :
  0 ≤ squared_distance p q.
Proof.
  unfold squared_distance.
  pose proof (Z.square_nonneg (p.1 - Z.of_nat q.1)).
  pose proof (Z.square_nonneg (p.2 - Z.of_nat q.2)). lia.
Qed.

Lemma squared_distance_other (q q' : nat * nat) :
  q ≠ q' → 1 ≤ squared_distance (cell_index q) q'.
Proof.
  destruct q as [r c], q' as [r' c']. unfold squared_distance, cell_index.
  cbn [fst snd]. intros Hne.
  assert (r ≠ r' ∨ c ≠ c') as Hdiff.
  { destruct (decide (r = r')) as [->|?]; [right|by left]. congruence. }
  pose proof (Z.square_nonneg (Z.of_nat r - Z.of_nat r')).
  pose proof (Z.square_nonneg (Z.of_nat c - Z.of_nat c')).
  destruct Hdiff as [Hd|Hd].
  - assert (1 ≤ (Z.of_nat r - Z.of_nat r') * (Z.of_nat r - Z.of_nat r'));
      [nia|lia].
  - assert (1 ≤ (Z.of_nat c - Z.of_nat c') * (Z.of_nat c - Z.of_nat c'));
      [nia|lia].
Qed.

(** ** Conflicts between the dilated fronts *)

Lemma ternary_grid_mall (g : matrix Z) :
  mall (λ x, (0 <=? x) && (x <=? 2)) g = true → ternary_grid g.
Proof.
  intros Hall r c x Hx. rewrite mall_spec in Hall.
  specialize (Hall r c x Hx). apply andb_true_iff in Hall as [?%Z.leb_le ?%Z.leb_le].
  done.
Qed.

Lemma binary_image_mall (m : matrix Z) :
  mall (λ x, (x =? 0) || (x =? 1)) m = true → binary_image m.
Proof.
  intros Hall r c x Hx. rewrite mall_spec in Hall.
  specialize (Hall r c x Hx).
  apply orb_true_iff in Hall as [?%Z.eqb_eq|?%Z.eqb_eq]; auto.
Qed.

(** C2.  A cell covered by both dilated masks whose smallest squared
    grid-index distance to the cold-front cells of the input equals its
    smallest squared distance to the warm-front cells gets the cold-front
    label. *)
Theorem equidistant_contested_cell_is_cold (narr_grid_spacing_metres : Q)
    (g : matrix Z) (R C : nat) (dist : option Q) (kernel : option (matrix Z))
    (dc dw : matrix Z) (r c : nat) (d : Z) :
  is_matrix R C g → ternary_grid g →
  dilated_front_matrix narr_grid_spacing_metres COLD_FRONT_INTEGER_ID g
    dist kernel = Ok dc →
  dilated_front_matrix narr_grid_spacing_metres WARM_FRONT_INTEGER_ID g
    dist kernel = Ok dw →
  mget dc r c = Some ANY_FRONT_INTEGER_ID →
  mget dw r c = Some ANY_FRONT_INTEGER_ID →
  min_squared_distance (cell_index (r, c))
    (np_where (mmap (Z.eqb COLD_FRONT_INTEGER_ID) g)) = Ok d →
  min_squared_distance (cell_index (r, c))
    (np_where (mmap (Z.eqb WARM_FRONT_INTEGER_ID) g)) = Ok d →
  ∃ out,
    dilate_ternary_narr_image narr_grid_spacing_metres g dist kernel = Ok out
    ∧ mget out r c = Some COLD_FRONT_INTEGER_ID.
Proof.
  intros Hg Hval Hdc Hdw Ha Hb Hmc Hmw.
  destruct (dilate_ternary_narr_image_spec _ _ _ _ _ _ _ _ Hg Hval Hdc Hdw)
    as (out & Hout & _ & Hcell).
  exists out. split; [done|].
  destruct (dilated_shape _ _ _ _ _ _ Hg _ _ Hdc) as [Hshape _].
  destruct (mget_Some_lt _ _ _ _ _ _ Hshape Ha) as [Hr Hc].
  destruct (mget_is_Some g R C r c Hg Hr Hc) as [x Hx].
  rewrite (Hcell r c x _ _ Hx Ha Hb). f_equal.
  unfold resolved_label, cold_wins. rewrite Hmc, Hmw, Z.leb_refl. reflexivity.
Qed.

Lemma equidistant_contested_cell_witness :
  ∃ out,
    dilate_ternary_narr_image 1 [[1; 0; 2]] (Some 1%Q) None = Ok out
    ∧ mget out 0 1 = Some COLD_FRONT_INTEGER_ID.
Proof.
  apply (equidistant_contested_cell_is_cold 1 [[1; 0; 2]] 1 3 (Some 1%Q) None
           [[0; 1; 1]] [[1; 1; 0]] 0 1 1).
  - split; [reflexivity | repeat constructor].
  - apply ternary_grid_mall. reflexivity.
  - reflexivity.
  - reflexivity.
  - reflexivity.
  - reflexivity.
  - reflexivity.
  - reflexivity.
Defined.

(** ** Dilation keeps the front cells *)

Lemma cv2_dilate_extensive (src kernel : matrix Z) (R C r c : nat) :
  is_matrix R C src → binary_image src → (0, 0) ∈ kernel_offsets kernel →
  mget src r c = Some 1 → mget (cv2_dilate src kernel) r c = Some 1.
Proof.
  intros Hsrc Hbin Hcentre Hone. apply cv2_dilate_one; [done|]. split.
  - apply is_matrix_own in Hsrc. by eapply mget_Some_lt.
  - exists (0, 0). split; [done|]. cbn [fst snd]. rewrite !Z.add_0_r.
    by rewrite zget_nat, Hone.
Qed.

Lemma min_distance_own_type (m : matrix bool) (r c : nat) :
  mget m r c = Some true →
  ∃ d, min_squared_distance (cell_index (r, c)) (np_where m) = Ok d ∧ d ≤ 0.
Proof.
  intros Hm.
  destruct (min_squared_distance_Ok (cell_index (r, c)) (np_where m))
    as [d Hd]; [by eapply has_points_where|].
  exists d. split; [done|].
  apply min_squared_distance_spec in Hd as [_ Hle].
  rewrite <- (squared_distance_self (r, c)). apply Hle.
  by apply elem_of_where_cells.
Qed.

Lemma min_distance_other_type (m : matrix bool) (r c : nat) (d : Z) :
  mget m r c ≠ Some true →
  min_squared_distance (cell_index (r, c)) (np_where m) = Ok d → 1 ≤ d.
Proof.
  intros Hm [(q & Hq & ->) _]%min_squared_distance_spec.
  apply squared_distance_other. intros <-.
  by apply elem_of_where_cells in Hq.
Qed.

Lemma min_distance_nonneg (p : Z * Z) (m : matrix bool) (d : Z) :
  min_squared_distance p (np_where m) = Ok d → 0 ≤ d.
Proof.
  intros [(q & Hq & ->) _]%min_squared_distance_spec.
  apply squared_distance_nonneg.
Qed.

(** C10, as the code has it.  With a kernel whose centre is 1 (as given, or
    as built from a positive dilation distance), every warm-front cell of a
    valid ternary grid is still warm-front after
    [dilate_ternary_narr_image], and every cold-front cell still
    cold-front. *)
Theorem dilation_keeps_front_cells (narr_grid_spacing_metres : Q)
    (g : matrix Z) (R C : nat) (dist : option Q) (kernel : option (matrix Z))
    (r c : nat) (x : Z) :
  is_matrix R C g → ternary_grid g →
  (∃ k, kernel = Some k ∧ binary_image k ∧ kernel_centre k = Some 1)
  ∨ (kernel = None
     ∧ ∃ d, dist = Some d ∧ (0 < d)%Q ∧ (0 < narr_grid_spacing_metres)%Q) →
  mget g r c = Some x → x ≠ NO_FRONT_INTEGER_ID →
  ∃ out,
    dilate_ternary_narr_image narr_grid_spacing_metres g dist kernel = Ok out
    ∧ mget out r c = Some x.
Proof.
  intros Hg Hval Hkernel Hx Hfront.
  assert (∃ k, chosen_kernel narr_grid_spacing_metres dist kernel = Ok k
               ∧ binary_image k ∧ kernel_centre k = Some 1)
    as (k & Hk & Hbin & Hcentre).
  { destruct Hkernel as [(k & -> & Hbin & Hcentre)|(-> & d & -> & Hd & Hs)].
    - by exists k.
    - destruct (buffer_mask_centre _ _ Hs Hd) as (mask & Hmask & Hcentre).
      exists (mmap Z.b2z mask). unfold chosen_kernel. rewrite Hmask.
      split; [done|]. split; [apply binary_image_b2z | done]. }
  pose proof (kernel_offsets_centre k 1 Hcentre ltac:(done)) as Hoff.
  set (front := λ label : Z, mmap (λ y, if label =? y then 1 else 0) g).
  assert (∀ label,
            dilated_front_matrix narr_grid_spacing_metres label g dist kernel
            = Ok (cv2_dilate (front label) k)) as Hdil.
  { intros label. rewrite (dilated_front_matrix_eq _ _ _ R C) by done.
    eapply dilate_binary_narr_image_Ok; try done. apply binary_image_front. }
  destruct (dilate_ternary_narr_image_spec _ _ _ _ _ _ _ _ Hg Hval
              (Hdil COLD_FRONT_INTEGER_ID) (Hdil WARM_FRONT_INTEGER_ID))
    as (out & Hout & _ & Hcell).
  exists out. split; [done|].
  destruct (mget_Some_lt _ _ _ _ _ _ Hg Hx) as [Hr Hc].
  assert (∀ label, is_matrix R C (cv2_dilate (front label) k)) as Hshape.
  { intros label. by apply is_matrix_cv2_dilate, is_matrix_mmap. }
  destruct (mget_is_Some _ R C r c (Hshape COLD_FRONT_INTEGER_ID) Hr Hc)
    as [a Ha].
  destruct (mget_is_Some _ R C r c (Hshape WARM_FRONT_INTEGER_ID) Hr Hc)
    as [b Hb].
  rewrite (Hcell r c x a b Hx Ha Hb). f_equal.
  assert (∀ label, x = label →
            mget (cv2_dilate (front label) k) r c = Some 1) as Hown.
  { intros label ->. eapply cv2_dilate_extensive; try done.
    - by apply is_matrix_mmap.
    - apply binary_image_front.
    - unfold front. rewrite mget_mmap, Hx. simpl. by rewrite Z.eqb_refl. }
  assert (a = 0 ∨ a = 1) as Hab.
  { eapply (cv2_dilate_binary (front COLD_FRONT_INTEGER_ID) k);
      [apply binary_image_front | exact Ha]. }
  assert (b = 0 ∨ b = 1) as Hbb.
  { eapply (cv2_dilate_binary (front WARM_FRONT_INTEGER_ID) k);
      [apply binary_image_front | exact Hb]. }
  assert (x = WARM_FRONT_INTEGER_ID ∨ x = COLD_FRONT_INTEGER_ID) as [-> | ->].
  { specialize (Hval r c x Hx).
    unfold NO_FRONT_INTEGER_ID, WARM_FRONT_INTEGER_ID, COLD_FRONT_INTEGER_ID in *.
    lia. }
  - (* a warm-front cell *)
    rewrite (Hown WARM_FRONT_INTEGER_ID eq_refl) in Hb. injection Hb as <-.
    unfold resolved_label.
    destruct Hab as [-> | ->]; [reflexivity|].
    assert (cold_wins (np_where (mmap (Z.eqb COLD_FRONT_INTEGER_ID) g))
              (np_where (mmap (Z.eqb WARM_FRONT_INTEGER_ID) g))
              (cell_index (r, c)) = false) as ->; [|reflexivity].
    unfold cold_wins.
    destruct (min_squared_distance (cell_index (r, c))
                (np_where (mmap (Z.eqb COLD_FRONT_INTEGER_ID) g)))
      as [mc|] eqn:Hmc; [|done].
    destruct (min_distance_own_type (mmap (Z.eqb WARM_FRONT_INTEGER_ID) g) r c)
      as (mw & -> & Hmw); [by rewrite mget_mmap, Hx|].
    apply min_distance_other_type in Hmc; [apply Z.leb_gt; lia|].
    rewrite mget_mmap, Hx. done.
  - (* a cold-front cell *)
    rewrite (Hown COLD_FRONT_INTEGER_ID eq_refl) in Ha. injection Ha as <-.
    unfold resolved_label.
    destruct Hbb as [-> | ->]; [reflexivity|].
    assert (cold_wins (np_where (mmap (Z.eqb COLD_FRONT_INTEGER_ID) g))
              (np_where (mmap (Z.eqb WARM_FRONT_INTEGER_ID) g))
              (cell_index (r, c)) = true) as ->; [|reflexivity].
    unfold cold_wins.
    destruct (min_distance_own_type (mmap (Z.eqb COLD_FRONT_INTEGER_ID) g) r c)
      as (mc & -> & Hmc); [by rewrite mget_mmap, Hx|].
    destruct (min_squared_distance_Ok (cell_index (r, c))
                (np_where (mmap (Z.eqb WARM_FRONT_INTEGER_ID) g)))
      as [mw Hmw].
    { eapply dilated_front_one_has_points;
        [exact Hg | apply (Hdil WARM_FRONT_INTEGER_ID) | exact Hb]. }
    rewrite Hmw. apply min_distance_nonneg in Hmw. apply Z.leb_le. lia.
Qed.

Lemma dilation_keeps_front_cells_witness :
  ∃ out,
    dilate_ternary_narr_image 32463 [[1; 0; 2]; [0; 2; 1]] (Some 40000%Q) None
    = Ok out
    ∧ mget out 1 1 = Some 2.
Proof.
  apply (dilation_keeps_front_cells 32463 [[1; 0; 2]; [0; 2; 1]] 2 3
           (Some 40000%Q) None 1 1 2).
  - split; [reflexivity | repeat constructor].
  - apply ternary_grid_mall. reflexivity.
  - right. split; [reflexivity|]. exists 40000%Q.
    split; [reflexivity|]. split; reflexivity.
  - reflexivity.
  - discriminate.
Defined.

(** A kernel whose only set entry is left of its centre moves every front by
    one column: the cold-front cell (0, 1) of the input comes out
    warm-front. *)
Lemma off_centre_kernel_retypes_front_cell :
  mget [[1; 2; 0]] 0 1 = Some COLD_FRONT_INTEGER_ID
  ∧ ∃ out,
      dilate_ternary_narr_image 32463 [[1; 2; 0]] None (Some [[1; 0; 0]])
      = Ok out
      ∧ mget out 0 1 = Some WARM_FRONT_INTEGER_ID.
Proof. split; [reflexivity|]. eexists. split; reflexivity. Qed.

(** ** Connected components: the flood fill *)

Lemma elem_of_all_cells (R C : nat) (q : nat * nat) :
  q ∈ all_cells R C ↔ (q.1 < R ∧ q.2 < C)%nat.
Proof.
  unfold all_cells. rewrite list_elem_of_bind. split.
  - intros (r & (c & -> & Hc)%list_elem_of_fmap & Hr).
    apply elem_of_seq in Hr, Hc. simpl. lia.
  - intros [Hr Hc]. exists q.1. split; [|apply elem_of_seq; lia].
    apply list_elem_of_fmap. exists q.2. split; [by destruct q|].
    apply elem_of_seq. lia.
Qed.

Lemma length_all_cells (R C : nat) : length (all_cells R C) = (R * C)%nat.
Proof.
  unfold all_cells. induction R as [|R IH]; [done|].
  rewrite seq_S, bind_app, length_app, IH. simpl.
  rewrite length_app, length_fmap, length_seq. simpl. lia.
Qed.

Lemma length_filter_le {A : Type} (P : A → Prop) `{∀ x, Decision (P x)}
    (l : list A) :
  (length (filter P l) ≤ length l)%nat.
Proof.
  induction l as [|x l IH]; [done|]. rewrite filter_cons.
  destruct (decide (P x)); simpl; lia.
Qed.

Lemma length_filter_mono {A : Type} (P Q : A → Prop)
    `{∀ x, Decision (P x)} `{∀ x, Decision (Q x)} (l : list A) :
  (∀ x, Q x → P x) →
  (length (filter Q l) ≤ length (filter P l))%nat.
Proof.
  intros HQP. induction l as [|y l IH]; [done|]. rewrite !filter_cons.
  destruct (decide (Q y)) as [HQ|HQ].
  - destruct (decide (P y)) as [HP|HP]; [simpl; lia|]. by destruct HP; auto.
  - destruct (decide (P y)); simpl; lia.
Qed.

Lemma length_filter_drop {A : Type} (P Q : A → Prop)
    `{∀ x, Decision (P x)} `{∀ x, Decision (Q x)} (l : list A) (a : A) :
  (∀ x, Q x → P x) → a ∈ l → P a → ¬ Q a →
  (S (length (filter Q l)) ≤ length (filter P l))%nat.
Proof.
  intros HQP Hin HPa HQa. induction l as [|x l IH];
    [by apply elem_of_nil in Hin|].
  rewrite !filter_cons. apply elem_of_cons in Hin as [Heq|Hin].
  - subst x. destruct (decide (Q a)) as [?|_]; [done|].
    destruct (decide (P a)) as [_|?]; [|done]. simpl.
    pose proof (length_filter_mono P Q l HQP). lia.
  - specialize (IH Hin). destruct (decide (Q x)) as [HQ|HQ].
    + destruct (decide (P x)) as [HP|HP]; [simpl; lia|]. by destruct HP; auto.
    + destruct (decide (P x)); simpl; lia.
Qed.

Lemma zat_in_range (m : matrix Z) (R C : nat) (q : Z * Z) :
  is_matrix R C m → zat m q ≠ 0 →
  0 ≤ q.1 < Z.of_nat R ∧ 0 ≤ q.2 < Z.of_nat C.
Proof.
  intros Hm Hq. apply zget_nonzero in Hq as (H1 & H2 & Hget).
  destruct (mget_Some_lt _ _ _ _ _ _ Hm Hget). lia.
Qed.

Lemma zat_mset (lab : matrix Z) (R C : nat) (a q : Z * Z) (k : Z) :
  is_matrix R C lab →
  0 ≤ a.1 < Z.of_nat R → 0 ≤ a.2 < Z.of_nat C →
  zat (mset lab (Z.to_nat a.1) (Z.to_nat a.2) k) q
  = if decide (q = a) then k else zat lab q.
Proof.
  intros Hlab Hr Hc. unfold zat, zget.
  destruct (decide (0 ≤ q.1 ∧ 0 ≤ q.2)) as [[Hq1 Hq2]|Hneg].
  - rewrite mget_mset.
    destruct (decide (q = a)) as [->|Hne].
    + rewrite decide_True by done.
      destruct (mget_is_Some lab R C (Z.to_nat a.1) (Z.to_nat a.2) Hlab)
        as [x ->]; [lia..|]. done.
    + rewrite decide_False; [done|]. intros [H1 H2]. apply Hne.
      destruct q as [q1 q2], a as [a1 a2]. simpl in *. f_equal; lia.
  - rewrite decide_False; [done|]. intros ->. apply Hneg. lia.
Qed.

Lemma zat_cell_index_of (q : Z * Z) (m : matrix Z) :
  0 ≤ q.1 → 0 ≤ q.2 → cell_index (cell_of_index q) = q.
Proof. intros. by apply cell_index_of_index. Qed.

Section Flood.

Variables (offs : list (Z * Z)) (image : matrix Z) (R C : nat).
Variables (p0 : Z * Z) (v k : Z) (lab0 : matrix Z).
Hypothesis image_shape : is_matrix R C image.
Hypothesis lab0_shape : is_matrix R C lab0.
Hypothesis v_nonzero : v ≠ 0.
Hypothesis k_nonzero : k ≠ 0.
Hypothesis p0_value : zat image p0 = v.
Hypothesis k_fresh : ∀ q, zat lab0 q ≠ k.
Hypothesis component_unlabelled :
  ∀ q, linked offs image p0 q → zat lab0 q = 0.

Lemma linked_value (q : Z * Z) : linked offs image p0 q → zat image q = v.
Proof.
  intros Hq.
  eapply (rtc_ind_r (λ q', zat image q' = v)); [exact p0_value| |exact Hq].
  intros b c _ [Hbc _] IH. congruence.
Qed.

Let flood_inv (stack : list (Z * Z)) (lab : matrix Z) : Prop :=
  is_matrix R C lab
  ∧ (∀ q, zat lab q = zat lab0 q ∨ (zat lab q = k ∧ linked offs image p0 q))
  ∧ (∀ q, q ∈ stack → zat image q = v → linked offs image p0 q)
  ∧ (∀ a o, zat lab a = k → o ∈ offs → zat image (shift a o) = v →
            zat lab (shift a o) = k ∨ shift a o ∈ stack)
  ∧ (zat lab p0 = k ∨ p0 ∈ stack).

Lemma flood_inv_init : flood_inv [p0] lab0.
Proof.
  split; [done|]. split; [by left|]. split.
  { intros q ->%list_elem_of_singleton _. apply rtc_refl. }
  split.
  { intros a o Ha. by destruct (k_fresh a). }
  right. by left.
Qed.

Lemma labelled_k_linked (stack : list (Z * Z)) (lab : matrix Z) (a : Z * Z) :
  flood_inv stack lab → zat lab a = k → linked offs image p0 a.
Proof.
  intros (_ & Hlab & _) Ha. destruct (Hlab a) as [Heq|[_ ?]]; [|done].
  destruct (k_fresh a). congruence.
Qed.

Lemma flood_inv_skip (a : Z * Z) (stack : list (Z * Z)) (lab : matrix Z) :
  flood_inv (a :: stack) lab →
  (zat image a =? v) && (zat lab a =? 0) = false →
  flood_inv stack lab.
Proof.
  intros Hinv Hcond. pose proof Hinv as (Hshape & Hlab & Hstack & Hfront & Hstart).
  assert (zat image a = v → zat lab a ≠ 0) as Hnot.
  { intros Hv H0. rewrite Hv, H0, !Z.eqb_refl in Hcond. done. }
  assert (zat image a = v → linked offs image p0 a → zat lab a = k) as Hk.
  { intros Hv Hlink. destruct (Hlab a) as [Heq|[? _]]; [|done].
    rewrite (component_unlabelled a Hlink) in Heq. by destruct (Hnot Hv). }
  split; [done|]. split; [done|]. split.
  { intros q Hq. apply Hstack. by right. }
  split.
  - intros b o Hb Ho Hv. destruct (Hfront b o Hb Ho Hv) as [?|Hin]; [by left|].
    apply elem_of_cons in Hin as [Heq|?]; [|by right]. left. rewrite Heq.
    apply Hk; [congruence|]. rewrite <- Heq.
    eapply rtc_r; [by eapply labelled_k_linked|]. split; [|eauto].
    rewrite Hv. by apply linked_value, (labelled_k_linked _ _ _ Hinv).
  - destruct Hstart as [?|Hin]; [by left|].
    apply elem_of_cons in Hin as [<-|?]; [|by right]. left.
    apply Hk; [done | apply rtc_refl].
Qed.

Lemma flood_inv_push (a : Z * Z) (stack : list (Z * Z)) (lab : matrix Z) :
  flood_inv (a :: stack) lab →
  zat image a = v → zat lab a = 0 →
  flood_inv ((shift a <$> offs) ++ stack)
            (mset lab (Z.to_nat a.1) (Z.to_nat a.2) k).
Proof.
  intros (Hshape & Hlab & Hstack & Hfront & Hstart) Hv H0.
  assert (linked offs image p0 a) as Ha by (apply Hstack; [by left|done]).
  destruct (zat_in_range image R C a image_shape) as [Hr Hc]; [congruence|].
  pose proof (zat_mset lab R C a) as Hset.
  split; [by apply is_matrix_mset|]. split.
  { intros q. rewrite Hset by done. case_decide as Hq; [subst q; by right|].
    apply Hlab. }
  split.
  { intros q [Hq|Hq]%elem_of_app Hqv; [|apply Hstack; [by right|done]].
    apply list_elem_of_fmap in Hq as (o & -> & Ho).
    eapply rtc_r; [exact Ha|]. split; [congruence | eauto]. }
  split.
  - intros b o Hb Ho Hbv. rewrite Hset in Hb by done.
    rewrite Hset by done.
    destruct (decide (shift b o = a)) as [Hso|Hso]; [by left|].
    destruct (decide (b = a)) as [Hba|Hba].
    + subst b. right. apply elem_of_app. left. apply list_elem_of_fmap. eauto.
    + destruct (Hfront b o Hb Ho Hbv) as [?|Hin]; [by left|].
      apply elem_of_cons in Hin as [?|?]; [done|].
      right. apply elem_of_app. by right.
  - rewrite Hset by done. destruct (decide (p0 = a)); [by left|].
    destruct Hstart as [?|Hin]; [by left|].
    apply elem_of_cons in Hin as [?|?]; [done|].
    right. apply elem_of_app. by right.
Qed.

Lemma unlabelled_mset (a : Z * Z) (lab : matrix Z) :
  is_matrix R C lab → zat image a = v → zat lab a = 0 →
  (S (length (unlabelled image v R C
                (mset lab (Z.to_nat a.1) (Z.to_nat a.2) k)))
   ≤ length (unlabelled image v R C lab))%nat.
Proof.
  intros Hlab Hv H0.
  destruct (zat_in_range image R C a image_shape) as [Hr Hc]; [congruence|].
  unfold unlabelled.
  apply (length_filter_drop _ _ _ (cell_of_index a)).
  - intros q [Hq1 Hq2]. split; [done|].
    rewrite (zat_mset lab R C a) in Hq2 by done. by case_decide.
  - apply elem_of_all_cells. unfold cell_of_index. simpl. lia.
  - rewrite cell_index_of_index by lia. done.
  - rewrite cell_index_of_index by lia. intros [_ Hk].
    rewrite (zat_mset lab R C a) in Hk by done.
    by rewrite decide_True in Hk.
Qed.

Lemma flood_inv_final (fuel : nat) (stack : list (Z * Z)) (lab : matrix Z) :
  flood_inv stack lab →
  (flood_measure offs image v R C stack lab < fuel)%nat →
  flood_inv [] (flood fuel offs image v k stack lab).
Proof.
  revert stack lab. induction fuel as [|fuel IH]; intros stack lab Hinv Hfuel;
    [lia|].
  destruct stack as [|a stack]; [done|]. cbn [flood].
  change (zget image a.1 a.2) with (zat image a).
  change (zget lab a.1 a.2) with (zat lab a).
  destruct ((zat image a =? v) && (zat lab a =? 0)) eqn:Hcond.
  - apply andb_true_iff in Hcond as [Hv%Z.eqb_eq H0%Z.eqb_eq].
    apply IH; [by apply flood_inv_push|].
    pose proof Hinv as (Hshape & _).
    pose proof (unlabelled_mset a lab Hshape Hv H0) as Hdrop.
    unfold flood_measure in *. rewrite length_app, length_fmap.
    simpl in Hfuel. simpl. nia.
  - apply IH; [by eapply flood_inv_skip|].
    unfold flood_measure in *. simpl in Hfuel. lia.
Qed.

Lemma flood_spec (fuel : nat) :
  (S (length offs) * (R * C) + 1 < fuel)%nat →
  is_matrix R C (flood fuel offs image v k [p0] lab0)
  ∧ (∀ q, linked offs image p0 q →
          zat (flood fuel offs image v k [p0] lab0) q = k)
  ∧ (∀ q, zat (flood fuel offs image v k [p0] lab0) q = zat lab0 q
          ∨ (zat (flood fuel offs image v k [p0] lab0) q = k
             ∧ linked offs image p0 q)).
Proof.
  intros Hfuel.
  destruct (flood_inv_final fuel [p0] lab0 flood_inv_init)
    as (Hshape & Hlab & _ & Hfront & Hstart).
  { unfold flood_measure. simpl.
    assert (length (unlabelled image v R C lab0) ≤ R * C)%nat; [|nia].
    unfold unlabelled. rewrite <- (length_all_cells R C).
    apply length_filter_le. }
  split; [done|]. split; [|done].
  intros q Hq.
  eapply (rtc_ind_r (λ q', zat (flood fuel offs image v k [p0] lab0) q' = k));
    [| |exact Hq].
  - destruct Hstart as [?|Hin]; [done | by apply elem_of_nil in Hin].
  - intros b c Hb [Hval (o & Ho & ->)] IHq.
    destruct (Hfront b o IHq Ho) as [?|Hin];
      [|done|by apply elem_of_nil in Hin].
    rewrite <- Hval. by apply linked_value.
Qed.

End Flood.

(** ** Connected components: the raster scan *)

Lemma neighbour_offsets_sym (connectivity : Z) (o : Z * Z) :
  o ∈ neighbour_offsets connectivity →
  (- o.1, - o.2) ∈ neighbour_offsets connectivity.
Proof.
  unfold neighbour_offsets. destruct (connectivity =? 1); intros Ho;
    repeat (apply elem_of_cons in Ho as [->|Ho]);
    try (by apply elem_of_nil in Ho);
    apply list_elem_of_In; simpl; tauto.
Qed.

Lemma neighbour_offsets_length (connectivity : Z) :
  (length (neighbour_offsets connectivity) ≤ 8)%nat.
Proof. unfold neighbour_offsets. destruct (connectivity =? 1); simpl; lia. Qed.

Lemma linked_sym (connectivity : Z) (image : matrix Z) (a b : Z * Z) :
  linked (neighbour_offsets connectivity) image a b →
  linked (neighbour_offsets connectivity) image b a.
Proof.
  intros Hab. induction Hab as [|a b c [Hval (o & Ho & ->)] _ IH];
    [apply rtc_refl|].
  eapply rtc_r; [exact IH|]. split; [done|].
  exists (- o.1, - o.2). split; [by apply neighbour_offsets_sym|].
  destruct a as [a1 a2]. unfold shift. simpl. f_equal; lia.
Qed.

Lemma zat_mtabulate_zero (R C : nat) (q : Z * Z) :
  zat (mtabulate R C (λ _ _, 0)) q = 0.
Proof.
  unfold zat, zget. case_decide; [|done]. rewrite mget_mtabulate.
  by case_decide.
Qed.

Lemma zat_cell_index (m : matrix Z) (q : nat * nat) :
  zat m (cell_index q) = default 0 (mget m q.1 q.2).
Proof. unfold zat, cell_index. cbn [fst snd]. apply zget_nat. Qed.

Section Scan.

Variables (connectivity : Z) (image : matrix Z) (R C : nat).
Hypothesis image_shape : is_matrix R C image.

Let offs : list (Z * Z) := neighbour_offsets connectivity.

Let scan_inv (st : matrix Z * Z) : Prop :=
  is_matrix R C st.1
  ∧ 0 ≤ st.2
  ∧ (∀ q, zat st.1 q ≠ 0 → 1 ≤ zat st.1 q ≤ st.2 ∧ zat image q ≠ 0)
  ∧ (∀ p q, zat st.1 p ≠ 0 → linked offs image p q → zat st.1 q = zat st.1 p)
  ∧ (∀ p q, zat st.1 p ≠ 0 → zat st.1 q = zat st.1 p → linked offs image p q)
  ∧ (∀ k, 1 ≤ k ≤ st.2 → ∃ q, zat st.1 q = k).

Lemma scan_inv_init : scan_inv (mtabulate R C (λ _ _, 0), 0).
Proof.
  split; [apply is_matrix_mtabulate|]. split; [done|].
  cbn [fst snd]. split.
  { intros q Hq. by rewrite zat_mtabulate_zero in Hq. }
  split.
  { intros p q Hp. by rewrite zat_mtabulate_zero in Hp. }
  split.
  { intros p q Hp. by rewrite zat_mtabulate_zero in Hp. }
  intros k Hk. lia.
Qed.

Lemma label_step_spec (st : matrix Z * Z) (p : nat * nat) :
  scan_inv st → (p.1 < R)%nat → (p.2 < C)%nat →
  scan_inv (label_step offs image st p)
  ∧ (∀ q, zat st.1 q ≠ 0 → zat (label_step offs image st p).1 q = zat st.1 q)
  ∧ (zat image (cell_index p) ≠ 0 →
     zat (label_step offs image st p).1 (cell_index p) ≠ 0).
Proof.
  intros (Hshape & Hn & Hval & Hclosed & Hsame & Hall) Hr Hc.
  destruct st as [lab n]. cbn [fst snd] in *. unfold label_step. cbn [fst snd].
  change (zget image (Z.of_nat p.1) (Z.of_nat p.2))
    with (zat image (cell_index p)).
  change (zget lab (Z.of_nat p.1) (Z.of_nat p.2)) with (zat lab (cell_index p)).
  set (p0 := cell_index p). set (v := zat image p0).
  destruct (negb (v =? 0) && (zat lab p0 =? 0)) eqn:Hcond.
  - apply andb_true_iff in Hcond as [Hv%negb_true_iff%Z.eqb_neq H0%Z.eqb_eq].
    assert (∀ q, linked offs image p0 q → zat lab q = 0) as Hfree.
    { intros q Hq. destruct (decide (zat lab q = 0)) as [|Hne]; [done|].
      apply linked_sym in Hq. rewrite (Hclosed q p0 Hne Hq) in H0. done. }
    assert (∀ q, zat lab q ≠ n + 1) as Hfresh.
    { intros q Hq. destruct (Hval q); lia. }
    destruct (flood_spec offs image R C p0 v (n + 1) lab image_shape Hshape
                Hv ltac:(lia) eq_refl Hfresh Hfree (flood_fuel image))
      as (Hshape' & Hcomp & Hlab').
    { unfold flood_fuel. rewrite (is_matrix_nrows _ _ _ image_shape).
      rewrite (is_matrix_ncols _ _ _ image_shape) by lia.
      pose proof (neighbour_offsets_length connectivity). fold offs in H.
      nia. }
    cbn [fst snd].
    change (flood (flood_fuel image) offs image v (n + 1)
              [(Z.of_nat p.1, Z.of_nat p.2)] lab)
      with (flood (flood_fuel image) offs image v (n + 1) [p0] lab).
    set (lab' := flood (flood_fuel image) offs image v (n + 1) [p0] lab) in *.
    split; [|split].
    + split; [done|]. cbn [fst snd]. split; [lia|]. split.
      { intros q Hq. destruct (Hlab' q) as [Heq|[Heq Hlink]].
        - rewrite Heq in Hq |- *. destruct (Hval q Hq). split; [lia|done].
        - rewrite Heq. split; [lia|].
          by rewrite (linked_value offs image p0 v eq_refl q Hlink). }
      split.
      { intros a b Ha Hab. destruct (Hlab' a) as [Heq|[Heq Hlink]].
        - rewrite Heq in Ha. rewrite Heq.
          pose proof (Hclosed a b Ha Hab) as Hb.
          destruct (Hlab' b) as [Heqb|[_ Hlinkb]]; [congruence|].
          rewrite (Hfree b Hlinkb) in Hb. by destruct Ha.
        - rewrite Heq. apply Hcomp. by etrans. }
      split.
      { intros a b Ha Hab. destruct (Hlab' a) as [Heq|[Heq Hlink]].
        - rewrite Heq in Ha, Hab. destruct (Hlab' b) as [Heqb|[Heqb _]].
          + apply Hsame; [done|congruence].
          + destruct (Hfresh a). congruence.
        - rewrite Heq in Hab. destruct (Hlab' b) as [Heqb|[_ Hlinkb]].
          + destruct (Hfresh b). congruence.
          + etrans; [|exact Hlinkb]. by apply linked_sym. }
      intros k Hk. destruct (decide (k = n + 1)) as [->|Hne].
      * exists p0. apply Hcomp, rtc_refl.
      * destruct (Hall k) as [q Hq]; [lia|]. exists q.
        destruct (Hlab' q) as [?|[_ Hlink]]; [congruence|].
        rewrite (Hfree q Hlink) in Hq. lia.
    + intros q Hq. destruct (Hlab' q) as [?|[_ Hlink]]; [done|].
      by destruct Hq; apply Hfree.
    + intros _. rewrite (Hcomp p0 (rtc_refl _ _)). lia.
  - split; [|split; [done|]].
    + by split_and!.
    + cbn [fst snd]. intros Hv0 H0. fold v in Hv0.
      apply Z.eqb_neq in Hv0. rewrite Hv0, H0, Z.eqb_refl in Hcond. done.
Qed.

Lemma scan_spec (cells : list (nat * nat)) (st : matrix Z * Z) :
  scan_inv st → (∀ p, p ∈ cells → (p.1 < R ∧ p.2 < C)%nat) →
  scan_inv (foldl (label_step offs image) st cells)
  ∧ (∀ q, zat st.1 q ≠ 0 →
          zat (foldl (label_step offs image) st cells).1 q = zat st.1 q)
  ∧ (∀ p, p ∈ cells → zat image (cell_index p) ≠ 0 →
          zat (foldl (label_step offs image) st cells).1 (cell_index p) ≠ 0).
Proof.
  revert st. induction cells as [|p cells IH]; intros st Hinv Hin.
  - split; [done|]. split; [done|]. by intros p ?%elem_of_nil.
  - destruct (Hin p) as [Hr Hc]; [by left|].
    destruct (label_step_spec st p Hinv Hr Hc) as (Hinv' & Hmono & Hp).
    destruct (IH (label_step offs image st p) Hinv') as (Hfinal & Hmono' & Hcells).
    { intros q Hq. apply Hin. by right. }
    cbn [foldl]. split; [done|]. split.
    + intros q Hq. rewrite Hmono' by (by rewrite Hmono). by apply Hmono.
    + intros q [->|Hq]%elem_of_cons Hv; [|by apply Hcells].
      rewrite Hmono' by (by apply Hp). by apply Hp.
Qed.

End Scan.

(** [label_image] numbers the components of equal-valued neighbouring cells:
    background cells get 0, the labels used are exactly 1, ..., n, and two
    foreground cells share a label exactly when they are linked. *)
Lemma label_image_spec (image : matrix Z) (connectivity : Z) (R C : nat) :
  is_matrix R C image →
  is_matrix R C (label_image image connectivity)
  ∧ ∃ n, 0 ≤ n
    ∧ (∀ q, zat (label_image image connectivity) q ≠ 0 →
            1 ≤ zat (label_image image connectivity) q ≤ n)
    ∧ (∀ q, zat (label_image image connectivity) q = 0 ↔ zat image q = 0)
    ∧ (∀ p q, zat image p ≠ 0 →
              zat (label_image image connectivity) q
              = zat (label_image image connectivity) p
              ↔ linked (neighbour_offsets connectivity) image p q)
    ∧ (∀ k, 1 ≤ k ≤ n → ∃ q, zat (label_image image connectivity) q = k).
Proof.
  intros Himage.
  assert (is_matrix (nrows image) (ncols image) image) as Hown
    by by eapply is_matrix_own.
  unfold label_image.
  destruct (scan_spec connectivity image (nrows image) (ncols image) Hown
              (all_cells (nrows image) (ncols image))
              (mtabulate (nrows image) (ncols image) (λ _ _, 0), 0))
    as ((Hshape & Hn & Hval & Hclosed & Hsame & Hall) & _ & Hcells).
  { apply scan_inv_init. }
  { intros p Hp. by apply elem_of_all_cells. }
  set (st := foldl _ _ _) in *.
  assert (∀ q, zat image q ≠ 0 → zat st.1 q ≠ 0) as Hfg.
  { intros q Hq.
    destruct (zat_in_range image _ _ q Hown Hq) as [Hr Hc].
    rewrite <- (cell_index_of_index q) by lia.
    apply Hcells.
    - apply elem_of_all_cells. unfold cell_of_index. simpl. lia.
    - rewrite cell_index_of_index by lia. done. }
  split.
  - destruct (decide (R = 0)%nat) as [->|HR].
    + destruct Himage as [Hlen _]. destruct image; [|done].
      assert (st.1 = []) as -> by reflexivity. split; [done|constructor].
    + rewrite (is_matrix_nrows _ _ _ Himage) in Hshape.
      rewrite (is_matrix_ncols _ _ _ Himage) in Hshape by lia. done.
  - exists st.2. split; [done|]. split; [intros q Hq; by apply Hval|].
    split; [|split; [|done]].
    + intros q. split.
      * intros H0. destruct (decide (zat image q = 0)) as [|Hne]; [done|].
        by destruct (Hfg q Hne).
      * intros H0. destruct (decide (zat st.1 q = 0)) as [|Hne]; [done|].
        by destruct (Hval q Hne).
    + intros p q Hp. split.
      * intros Heq. apply Hsame; [by apply Hfg | done].
      * intros Hlink. apply Hclosed; [by apply Hfg | done].
Qed.

(** ** Regions of a frontal grid *)

Lemma is_matrix_like {A B : Type} (g : matrix A) (m : matrix B) (R C : nat) :
  is_matrix R C g → is_matrix (nrows g) (ncols g) m → is_matrix R C m.
Proof.
  intros Hg Hm. destruct (decide (R = 0)%nat) as [->|HR].
  - destruct Hg as [Hlen _]. destruct g; [|done]. destruct Hm as [Hlen' _].
    destruct m; [|done]. split; [done|constructor].
  - by rewrite (is_matrix_nrows _ _ _ Hg), (is_matrix_ncols _ _ _ Hg) in Hm
      by lia.
Qed.

Lemma close_frontal_grid_Ok (g : matrix Z) (R C : nat) :
  is_matrix R C g → ternary_grid g →
  ∃ closed,
    _close_frontal_grid_matrix g = Ok closed
    ∧ is_matrix R C closed ∧ ternary_grid closed.
Proof.
  intros Hg Hval. unfold _close_frontal_grid_matrix.
  set (cw := binary_closing (mmap (Z.eqb WARM_FRONT_INTEGER_ID) g) _).
  set (cc := binary_closing (mmap (Z.eqb COLD_FRONT_INTEGER_ID) g) _).
  assert (is_matrix R C cw) as Hcw.
  { apply (is_matrix_like g); [done|]. unfold cw.
    rewrite <- (nrows_mmap (Z.eqb WARM_FRONT_INTEGER_ID) g).
    rewrite <- (ncols_mmap (Z.eqb WARM_FRONT_INTEGER_ID) g).
    apply is_matrix_binary_closing. }
  assert (is_matrix R C cc) as Hcc.
  { apply (is_matrix_like g); [done|]. unfold cc.
    rewrite <- (nrows_mmap (Z.eqb COLD_FRONT_INTEGER_ID) g).
    rewrite <- (ncols_mmap (Z.eqb COLD_FRONT_INTEGER_ID) g).
    apply is_matrix_binary_closing. }
  rewrite (index_put_where _ _ R C) by done. cbn [mbind result_bind].
  rewrite (index_put_where _ _ R C);
    [|by apply is_matrix_mzip_with|done].
  eexists. split; [done|]. split.
  - by repeat apply is_matrix_mzip_with.
  - intros r c x. rewrite !mget_mzip_with.
    destruct (mget g r c) as [y|] eqn:Hy; [|done].
    destruct (mget cw r c) as [bw|]; [|done].
    destruct (mget cc r c) as [bc|]; [|done]. simpl.
    specialize (Hval r c y Hy).
    unfold WARM_FRONT_INTEGER_ID, COLD_FRONT_INTEGER_ID.
    destruct bc, bw; intros [= <-]; lia.
Qed.

Lemma mapM_Ok_fmap {A B : Type} (f : A → result B) (h : A → B) (l : list A) :
  (∀ x, x ∈ l → f x = Ok (h x)) → mapM f l = Ok (h <$> l).
Proof.
  induction l as [|x l IH]; intros Hf; [done|].
  cbn [mapM]. rewrite (Hf x) by (by left). cbn [mbind result_bind].
  rewrite IH; [done|]. intros y Hy. apply Hf. by right.
Qed.

Lemma np_max_Z_intro (l : list Z) (n : Z) :
  n ∈ l → (∀ x, x ∈ l → x ≤ n) → np_max_Z l = Ok n.
Proof.
  destruct l as [|y l]; [by intros ?%elem_of_nil|]. intros Hin Hle.
  simpl. f_equal.
  assert (∀ x, x ∈ y :: l → x ≤ foldr Z.max y l) as Hmax.
  { clear. induction l as [|z l IH]; simpl.
    - intros x ->%list_elem_of_singleton. lia.
    - intros x [->|[->|Hx]%elem_of_cons]%elem_of_cons.
      + assert (y ≤ foldr Z.max y l) by (apply IH; by left). lia.
      + lia.
      + assert (x ≤ foldr Z.max y l) by (apply IH; by right). lia. }
  assert (foldr Z.max y l ∈ y :: l) as Hmem.
  { clear. induction l as [|z l IH]; simpl; [by left|].
    destruct (Z.max_spec z (foldr Z.max y l)) as [[_ ->]|[_ ->]].
    - apply elem_of_cons in IH as [->|?]; [by left | right; by right].
    - right. by left. }
  specialize (Hmax n Hin). specialize (Hle _ Hmem). lia.
Qed.

Lemma np_item_head {A : Type} (x : A) (l : list A) : np_item (x :: l) 0 = Ok x.
Proof. by apply np_item_first. Qed.

Section Regions.

Variables (closed : matrix Z) (R C : nat).
Hypothesis closed_shape : is_matrix R C closed.
Hypothesis closed_valid : ternary_grid closed.
Hypothesis rows_positive : (0 < R)%nat.
Hypothesis columns_positive : (0 < C)%nat.

Let lab : matrix Z := label_image closed 2.

Lemma zat_Some (m : matrix Z) (q : nat * nat) (x : Z) :
  mget m q.1 q.2 = Some x → zat m (cell_index q) = x.
Proof. intros Hx. by rewrite zat_cell_index, Hx. Qed.

Lemma zat_mget (m : matrix Z) (q : Z * Z) :
  is_matrix R C m → zat m q ≠ 0 →
  ∃ q', q = cell_index q' ∧ mget m q'.1 q'.2 = Some (zat m q)
        ∧ (q'.1 < R ∧ q'.2 < C)%nat.
Proof.
  intros Hm Hq. pose proof Hq as (H1 & H2 & Hget)%zget_nonzero.
  exists (cell_of_index q). split; [by rewrite cell_index_of_index|].
  split; [done|]. by eapply mget_Some_lt.
Qed.

Lemma region_of_Ok (n : Z) (i : nat) :
  (∀ q, zat lab q = 0 ↔ zat closed q = 0) →
  (∀ k, 1 ≤ k ≤ n → ∃ q, zat lab q = k) →
  is_matrix R C lab → Z.of_nat i < n →
  ∃ first rest,
    region_cells lab i = first :: rest
    ∧ region_of closed lab i = Ok (region_summary closed lab i)
    ∧ (front_type_of_id (zat closed (cell_index first)) = WARM_FRONT_STRING_ID
       ∨ front_type_of_id (zat closed (cell_index first))
         = COLD_FRONT_STRING_ID).
Proof.
  intros Hzero Hall Hlab Hi.
  destruct (Hall (Z.of_nat i + 1)) as [q Hq]; [lia|].
  destruct (zat_mget lab q Hlab) as (q' & -> & Hget & _); [lia|].
  rewrite Hq in Hget.
  assert (q' ∈ region_cells lab i) as Hin.
  { destruct q' as [r c]. apply elem_of_where_cells.
    rewrite mget_mmap. cbn [fst snd] in Hget. rewrite Hget. simpl.
    by rewrite Z.eqb_refl. }
  destruct (region_cells lab i) as [|first rest] eqn:Hcells;
    [by apply elem_of_nil in Hin|].
  exists first, rest. split; [done|].
  assert (first ∈ region_cells lab i) as Hfirst by (rewrite Hcells; by left).
  destruct first as [r0 c0]. apply elem_of_where_cells in Hfirst.
  rewrite mget_mmap in Hfirst.
  destruct (mget lab r0 c0) as [k|] eqn:Hk; [|done].
  injection Hfirst as Hk'. apply Z.eqb_eq in Hk'. subst k.
  destruct (mget_Some_lt _ _ _ _ _ _ Hlab Hk) as [Hr0 Hc0].
  destruct (mget_is_Some closed R C r0 c0 closed_shape Hr0 Hc0) as [x Hx].
  assert (zat closed (cell_index (r0, c0)) = x) as Hzx by by apply zat_Some.
  assert (x ≠ 0) as Hx0.
  { rewrite <- Hzx. intros H0. apply Hzero in H0.
    rewrite (zat_Some lab (r0, c0) _ Hk) in H0. lia. }
  split.
  - unfold region_of, region_summary.
    change (where_cells (mmap (Z.eqb (Z.of_nat i + 1)) lab))
      with (region_cells lab i).
    change (np_where (mmap (Z.eqb (Z.of_nat i + 1)) lab))
      with ((λ p : nat * nat, Z.of_nat p.1) <$> region_cells lab i,
            (λ p : nat * nat, Z.of_nat p.2) <$> region_cells lab i).
    cbn [fst snd]. rewrite Hcells, !fmap_cons. cbn [hd fst snd].
    rewrite !np_item_head. cbn [mbind result_bind]. unfold item_get.
    rewrite (is_matrix_nrows _ _ _ closed_shape).
    rewrite (is_matrix_ncols _ _ _ closed_shape) by done.
    rewrite !norm_index_nat by done. cbn [mbind result_bind].
    rewrite Hx, Hzx. reflexivity.
  - rewrite Hzx. specialize (closed_valid r0 c0 x Hx).
    unfold front_type_of_id, WARM_FRONT_INTEGER_ID, COLD_FRONT_INTEGER_ID.
    assert (x = 1 ∨ x = 2) as [-> | ->] by lia; [by left | by right].
Qed.

Lemma num_regions_Ok (n : Z) :
  is_matrix R C lab → 0 ≤ n →
  (∀ q, zat lab q ≠ 0 → 1 ≤ zat lab q ≤ n) →
  (∀ k, 1 ≤ k ≤ n → ∃ q, zat lab q = k) →
  np_max_Z (concat lab) = Ok n.
Proof.
  intros Hlab Hn Hval Hall. apply np_max_Z_intro.
  - destruct (decide (n = 0)) as [->|Hne].
    + destruct (mget_is_Some lab R C 0 0 Hlab) as [x Hx]; [done..|].
      destruct (decide (x = 0)) as [->|Hx0]; [by eapply mget_elem_of_concat|].
      destruct (Hval (cell_index (0, 0)%nat)); [|lia].
      by rewrite (zat_Some lab (0, 0)%nat x Hx).
    + destruct (Hall n) as [q Hq]; [lia|].
      destruct (zat_mget lab q Hlab) as (q' & _ & Hget & _); [lia|].
      rewrite Hq in Hget. by eapply mget_elem_of_concat.
  - intros x (r & c & Hx)%elem_of_concat_mget.
    destruct (decide (x = 0)) as [->|Hx0]; [done|].
    destruct (Hval (cell_index (r, c))) as [_ ?]; [|].
    + by rewrite (zat_Some lab (r, c) x Hx).
    + by rewrite (zat_Some lab (r, c) x Hx) in *.
Qed.

End Regions.

(** C7, as the code has it.  For a valid, non-empty ternary grid,
    [frontal_grid_to_regions] closes the grid and labels the 8-connected
    components of equal-valued nonzero cells of the closed grid; it emits one
    region per component id 1, ..., n in ascending order, region [i] being
    the cells with id [i + 1] in raster order; and the front type of a region
    is the one of the closed grid, not of the grid before closing, at the
    first cell of the region, which is always warm or cold. *)
Theorem regions_follow_closed_grid (g : matrix Z) (R C : nat) :
  is_matrix R C g → ternary_grid g → (0 < R)%nat → (0 < C)%nat →
  ∃ closed regions (n : nat),
    _close_frontal_grid_matrix g = Ok closed
    ∧ frontal_grid_to_regions g = Ok regions
    ∧ (∀ q, zat (label_image closed 2) q = 0 ↔ zat closed q = 0)
    ∧ (∀ p q, zat closed p ≠ 0 →
              zat (label_image closed 2) q = zat (label_image closed 2) p
              ↔ linked (neighbour_offsets 2) closed p q)
    ∧ (∀ q, zat (label_image closed 2) q ≠ 0 →
            1 ≤ zat (label_image closed 2) q ≤ Z.of_nat n)
    ∧ length (row_indices_by_region regions) = n
    ∧ length (column_indices_by_region regions) = n
    ∧ length (front_type_by_region regions) = n
    ∧ ∀ i, (i < n)%nat →
        ∃ first rest,
          region_cells (label_image closed 2) i = first :: rest
          ∧ row_indices_by_region regions !! i
            = Some ((λ p : nat * nat, Z.of_nat p.1) <$> first :: rest)
          ∧ column_indices_by_region regions !! i
            = Some ((λ p : nat * nat, Z.of_nat p.2) <$> first :: rest)
          ∧ front_type_by_region regions !! i
            = Some (front_type_of_id (zat closed (cell_index first)))
          ∧ (front_type_of_id (zat closed (cell_index first))
             = WARM_FRONT_STRING_ID
             ∨ front_type_of_id (zat closed (cell_index first))
               = COLD_FRONT_STRING_ID).
Proof.
  intros Hg Hval HR HC.
  destruct (close_frontal_grid_Ok g R C Hg Hval)
    as (closed & Hclosed & Hshape & Hternary).
  destruct (label_image_spec closed 2 R C Hshape)
    as (Hlab & n & Hn & Hrange & Hzero & Hcomp & Hall).
  assert (∀ i, (i < Z.to_nat n)%nat →
            ∃ first rest,
              region_cells (label_image closed 2) i = first :: rest
              ∧ region_of closed (label_image closed 2) i
                = Ok (region_summary closed (label_image closed 2) i)
              ∧ (front_type_of_id (zat closed (cell_index first))
                 = WARM_FRONT_STRING_ID
                 ∨ front_type_of_id (zat closed (cell_index first))
                   = COLD_FRONT_STRING_ID)) as Hregion.
  { intros i Hi.
    apply (region_of_Ok closed R C Hshape Hternary HR HC n i); try done. lia. }
  exists closed. eexists. exists (Z.to_nat n). split; [done|]. split.
  { unfold frontal_grid_to_regions. rewrite Hclosed. cbn [mbind result_bind].
    rewrite (num_regions_Ok closed R C HR HC n) by done.
    cbn [mbind result_bind].
    rewrite (mapM_Ok_fmap _ (region_summary closed (label_image closed 2))); [reflexivity|].
    intros i Hi%elem_of_seq. destruct (Hregion i) as (_ & _ & _ & Hi' & _);
      [lia|done]. }
  split; [done|]. split; [done|]. split.
  { intros q Hq. rewrite Z2Nat.id by done. by apply Hrange. }
  cbn [row_indices_by_region column_indices_by_region front_type_by_region].
  rewrite !length_fmap, length_seq. split; [done|]. split; [done|].
  split; [done|]. intros i Hi.
  destruct (Hregion i Hi) as (first & rest & Hcells & _ & Htype).
  exists first, rest. split; [done|].
  rewrite !list_lookup_fmap, lookup_seq_lt by done.
  cbn [fmap option_fmap option_map]. unfold region_summary. cbn [fst snd].
  change (0 + i)%nat with i. rewrite Hcells. cbn [hd]. done.
Qed.

Lemma regions_follow_closed_grid_witness :
  ∃ closed regions n,
    _close_frontal_grid_matrix
      [[1; 0; 0; 0; 0]; [0; 0; 0; 1; 0]; [0; 0; 1; 0; 0]; [0; 0; 0; 0; 0]]
    = Ok closed
    ∧ frontal_grid_to_regions
        [[1; 0; 0; 0; 0]; [0; 0; 0; 1; 0]; [0; 0; 1; 0; 0]; [0; 0; 0; 0; 0]]
      = Ok regions
    ∧ length (front_type_by_region regions) = n.
Proof.
  destruct (regions_follow_closed_grid
              [[1; 0; 0; 0; 0]; [0; 0; 0; 1; 0]; [0; 0; 1; 0; 0];
               [0; 0; 0; 0; 0]] 4 5)
    as (closed & regions & n & Hclosed & Hregions & _ & _ & _ & _ & _ & Hlen & _).
  - split; [reflexivity | repeat constructor].
  - apply ternary_grid_mall. reflexivity.
  - lia.
  - lia.
  - by exists closed, regions, n.
Defined.

(** Closing fills the cell (1, 2) of this grid.  It is the first cell of the
    second region, whose type comes out warm, although the grid before
    closing holds no front there.  And a warm-front cell next to a cold-front
    cell makes two regions, not one. *)
Lemma first_cell_type_is_read_after_closing :
  (∃ regions,
     frontal_grid_to_regions
       [[1; 0; 0; 0; 0]; [0; 0; 0; 1; 0]; [0; 0; 1; 0; 0]; [0; 0; 0; 0; 0]]
     = Ok regions
     ∧ row_indices_by_region regions = [[0]; [1; 1; 2]]
     ∧ column_indices_by_region regions = [[0]; [2; 3; 2]]
     ∧ front_type_by_region regions
       = [WARM_FRONT_STRING_ID; WARM_FRONT_STRING_ID])
  ∧ item_get
      [[1; 0; 0; 0; 0]; [0; 0; 0; 1; 0]; [0; 0; 1; 0; 0]; [0; 0; 0; 0; 0]] 1 2
    = Ok NO_FRONT_INTEGER_ID
  ∧ front_type_of_id NO_FRONT_INTEGER_ID ≠ WARM_FRONT_STRING_ID
  ∧ front_type_of_id NO_FRONT_INTEGER_ID ≠ COLD_FRONT_STRING_ID
  ∧ ∃ regions,
      frontal_grid_to_regions [[1; 2]; [0; 0]] = Ok regions
      ∧ row_indices_by_region regions = [[0]; [0]]
      ∧ column_indices_by_region regions = [[0]; [1]]
      ∧ front_type_by_region regions
        = [WARM_FRONT_STRING_ID; COLD_FRONT_STRING_ID].
Proof.
  split; [eexists; split; [reflexivity|]; by split_and!|].
  split; [reflexivity|]. split; [discriminate|]. split; [discriminate|].
  eexists. split; [reflexivity|]. by split_and!.
Qed.

(** ** Grids and point lists *)

Lemma frontal_points_to_grid_where (warm cold : matrix bool) (R C : nat) :
  is_matrix R C warm → is_matrix R C cold →
  frontal_points_to_grid
    {| warm_front_row_indices := (np_where warm).1;
       warm_front_column_indices := (np_where warm).2;
       cold_front_row_indices := (np_where cold).1;
       cold_front_column_indices := (np_where cold).2 |}
    (Z.of_nat R) (Z.of_nat C)
  = Ok (mtabulate R C (λ r c,
          if default false (mget cold r c) then COLD_FRONT_INTEGER_ID
          else if default false (mget warm r c) then WARM_FRONT_INTEGER_ID
          else NO_FRONT_INTEGER_ID)).
Proof.
  intros Hw Hc. unfold frontal_points_to_grid.
  cbn [warm_front_row_indices warm_front_column_indices
       cold_front_row_indices cold_front_column_indices].
  rewrite np_full_Ok. cbn [mbind result_bind].
  rewrite <- !surjective_pairing.
  rewrite (index_put_where _ warm R C) by (done || apply is_matrix_replicate).
  cbn [mbind result_bind].
  rewrite (index_put_where _ cold R C);
    [|apply is_matrix_mzip_with; [apply is_matrix_replicate | done] | done].
  f_equal. eapply matrix_ext.
  - apply is_matrix_mzip_with; [|done].
    apply is_matrix_mzip_with; [apply is_matrix_replicate | done].
  - apply is_matrix_mtabulate.
  - intros r c Hr Hc'. rewrite !mget_mzip_with, mget_replicate, mget_mtabulate.
    rewrite !decide_True by done.
    destruct (mget_is_Some warm R C r c Hw Hr Hc') as [a ->].
    destruct (mget_is_Some cold R C r c Hc Hr Hc') as [b ->].
    simpl. by destruct a, b.
Qed.

(** X1.  A valid grid converted to point lists and back is the same grid. *)
Theorem frontal_grid_points_round_trip (g : matrix Z) (R C : nat) :
  is_matrix R C g → ternary_grid g →
  ∃ d, frontal_grid_to_points g = Ok d
       ∧ frontal_points_to_grid d (Z.of_nat R) (Z.of_nat C) = Ok g.
Proof.
  intros Hg Hval. unfold frontal_grid_to_points.
  assert (mall (λ x, NO_FRONT_INTEGER_ID <=? x) g = true) as ->.
  { apply mall_spec. intros r c x Hx. apply Z.leb_le.
    unfold NO_FRONT_INTEGER_ID. by apply (Hval r c). }
  assert (mall (λ x, x <=? COLD_FRONT_INTEGER_ID) g = true) as ->.
  { apply mall_spec. intros r c x Hx. apply Z.leb_le.
    unfold COLD_FRONT_INTEGER_ID. by apply (Hval r c). }
  cbn [assert_that mbind result_bind]. eexists. split; [reflexivity|].
  rewrite (frontal_points_to_grid_where _ _ R C) by by apply is_matrix_mmap.
  f_equal. eapply matrix_ext; [apply is_matrix_mtabulate | done |].
  intros r c Hr Hc. rewrite mget_mtabulate, !decide_True by done.
  rewrite !mget_mmap.
  destruct (mget_is_Some g R C r c Hg Hr Hc) as [x Hx]. rewrite Hx.
  specialize (Hval r c x Hx).
  cbn [fmap option_fmap option_map from_option id].
  unfold COLD_FRONT_INTEGER_ID, WARM_FRONT_INTEGER_ID, NO_FRONT_INTEGER_ID.
  destruct (2 =? x) eqn:H2; [apply Z.eqb_eq in H2; by subst|].
  destruct (1 =? x) eqn:H1; [apply Z.eqb_eq in H1; by subst|].
  apply Z.eqb_neq in H1, H2. f_equal. lia.
Qed.

Lemma frontal_grid_points_round_trip_witness :
  ∃ d, frontal_grid_to_points [[0; 1; 2]; [2; 2; 0]] = Ok d
       ∧ frontal_points_to_grid d 2 3 = Ok [[0; 1; 2]; [2; 2; 0]].
Proof.
  apply (frontal_grid_points_round_trip [[0; 1; 2]; [2; 2; 0]] 2 3).
  - split; [reflexivity | repeat constructor].
  - apply ternary_grid_mall. reflexivity.
Defined.

Lemma where_row_sorted r c0 row :
  StronglySorted raster_lt (where_row r c0 row).
Proof.
  revert c0. induction row as [|b row IH]; intros c0; simpl; [constructor|].
  apply StronglySorted_app_2; [| |apply IH].
  - intros x1 x2 Hx1 (i & -> & _)%elem_of_where_row.
    destruct b; [|by apply elem_of_nil in Hx1].
    apply list_elem_of_singleton in Hx1 as ->. right. simpl. lia.
  - destruct b; [|constructor]. repeat constructor.
Qed.

Lemma where_from_sorted r0 m : StronglySorted raster_lt (where_from r0 m).
Proof.
  revert r0. induction m as [|row m IH]; intros r0; simpl; [constructor|].
  apply StronglySorted_app_2; [|apply where_row_sorted|apply IH].
  intros x1 x2 (i & -> & _)%elem_of_where_row (j & Hj & _)%elem_of_where_from.
  left. simpl. lia.
Qed.

Lemma where_cells_sorted m : StronglySorted raster_lt (where_cells m).
Proof. apply where_from_sorted. Qed.

Lemma mget_mmap_eqb (a : Z) (g : matrix Z) (r c : nat) :
  mget (mmap (Z.eqb a) g) r c = Some true ↔ mget g r c = Some a.
Proof.
  rewrite mget_mmap. destruct (mget g r c) as [x|];
    cbn [fmap option_fmap option_map]; [|done].
  destruct (Z.eqb_spec a x) as [->|Hne]; [done|].
  split; [done | congruence].
Qed.

Lemma ternary_grid_checks (g : matrix Z) :
  mall (λ x, NO_FRONT_INTEGER_ID <=? x) g
  && mall (λ x, x <=? COLD_FRONT_INTEGER_ID) g = true ↔ ternary_grid g.
Proof.
  rewrite andb_true_iff, !mall_spec.
  unfold NO_FRONT_INTEGER_ID, COLD_FRONT_INTEGER_ID, ternary_grid. split.
  - intros [H0 H2] r c x Hx. specialize (H0 r c x Hx). specialize (H2 r c x Hx).
    cbv beta in *. lia.
  - intros H. split; intros r c x Hx; specialize (H r c x Hx); cbv beta; lia.
Qed.

(** X2.  [frontal_grid_to_points] accepts exactly the grids whose entries are all
    0, 1 or 2 and raises [ValueError] on any other.  On a valid grid the warm
    list holds exactly the cells with value 1 and the cold list exactly the
    cells with value 2, each cell once, in raster order. *)
Theorem frontal_grid_to_points_lists_front_cells (g : matrix Z) :
  (ternary_grid g →
   ∃ d warm cold,
     frontal_grid_to_points g = Ok d
     ∧ dict_warm_points d = cell_index <$> warm
     ∧ dict_cold_points d = cell_index <$> cold
     ∧ StronglySorted raster_lt warm ∧ StronglySorted raster_lt cold
     ∧ NoDup warm ∧ NoDup cold
     ∧ (∀ r c, (r, c) ∈ warm ↔ mget g r c = Some WARM_FRONT_INTEGER_ID)
     ∧ (∀ r c, (r, c) ∈ cold ↔ mget g r c = Some COLD_FRONT_INTEGER_ID))
  ∧ (¬ ternary_grid g → frontal_grid_to_points g = Raise ValueError).
Proof.
  split.
  - intros Hval.
    destruct (frontal_grid_to_points_Ok g Hval) as (d & Hd & Hw & Hc).
    exists d, (where_cells (mmap (Z.eqb WARM_FRONT_INTEGER_ID) g)),
      (where_cells (mmap (Z.eqb COLD_FRONT_INTEGER_ID) g)).
    split; [done|]. split; [done|]. split; [done|].
    split; [apply where_cells_sorted|]. split; [apply where_cells_sorted|].
    split; [apply NoDup_where_cells|]. split; [apply NoDup_where_cells|].
    split; intros r c; by rewrite elem_of_where_cells, mget_mmap_eqb.
  - intros Hbad. unfold frontal_grid_to_points.
    pose proof (ternary_grid_checks g) as Hchk.
    destruct (mall (λ x, NO_FRONT_INTEGER_ID <=? x) g); [|done].
    destruct (mall (λ x, x <=? COLD_FRONT_INTEGER_ID) g); [|done].
    exfalso. apply Hbad, Hchk. done.
Qed.

(** ** Index arrays with negative and out-of-range indices *)

Lemma norm_index_wrap (n : nat) (i : Z) :
  - Z.of_nat n ≤ i < Z.of_nat n →
  norm_index n i = Ok (Z.to_nat (i mod Z.of_nat n)).
Proof.
  intros Hi. unfold norm_index.
  destruct (decide (0 ≤ i < Z.of_nat n)) as [H|H].
  - by rewrite Z.mod_small.
  - rewrite decide_True by lia. do 2 f_equal.
    rewrite <- (Z.mod_add i 1) by lia. rewrite Z.mod_small; lia.
Qed.

Lemma norm_index_raises (n : nat) (i : Z) :
  ¬ (- Z.of_nat n ≤ i < Z.of_nat n) → norm_index n i = Raise IndexError.
Proof.
  intros Hi. unfold norm_index.
  rewrite decide_False by lia. by rewrite decide_False by lia.
Qed.

Lemma norm_index_error (n : nat) (i : Z) (e : exn) :
  norm_index n i = Raise e → e = IndexError.
Proof.
  unfold norm_index. repeat case_decide; congruence.
Qed.

(** The cell addressed by an index pair on a grid with [n1] rows and [n2]
    columns. *)
Lemma foldM_put_wrapped {A : Type} (n1 n2 : nat) (acc : matrix A)
    (ps : list (Z * Z)) (v : A) :
  (∀ p, p ∈ ps → - Z.of_nat n1 ≤ p.1 < Z.of_nat n1
                 ∧ - Z.of_nat n2 ≤ p.2 < Z.of_nat n2) →
  foldM (λ m' (p : Z * Z),
           r ← norm_index n1 p.1 ;
           c ← norm_index n2 p.2 ;
           Ok (mset m' r c v)) acc ps
  = Ok (put_cells acc
          ((λ p : Z * Z, (Z.to_nat (p.1 mod Z.of_nat n1),
                          Z.to_nat (p.2 mod Z.of_nat n2))) <$> ps) v).
Proof.
  unfold put_cells. revert acc.
  induction ps as [|p ps IH]; intros acc Hin; [done|].
  rewrite fmap_cons. cbn [foldM foldl].
  destruct (Hin p) as [Hr Hc]; [by left|].
  rewrite !norm_index_wrap by done. cbn [mbind result_bind fst snd].
  apply IH. intros q Hq. apply Hin. by right.
Qed.

Lemma foldM_put_error {A : Type} (n1 n2 : nat) (acc : matrix A)
    (ps : list (Z * Z)) (v : A) (e : exn) :
  foldM (λ m' (p : Z * Z),
           r ← norm_index n1 p.1 ;
           c ← norm_index n2 p.2 ;
           Ok (mset m' r c v)) acc ps = Raise e → e = IndexError.
Proof.
  revert acc. induction ps as [|p ps IH]; intros acc; cbn [foldM]; [done|].
  destruct (norm_index n1 p.1) as [r|e1] eqn:Hr; cbn [mbind result_bind].
  - destruct (norm_index n2 p.2) as [c|e2] eqn:Hc; cbn [mbind result_bind].
    + apply IH.
    + intros [= <-]. by eapply norm_index_error.
  - intros [= <-]. by eapply norm_index_error.
Qed.

Lemma foldM_put_bad_point {A : Type} (n1 n2 : nat) (acc : matrix A)
    (ps : list (Z * Z)) (v : A) (p : Z * Z) :
  p ∈ ps →
  ¬ (- Z.of_nat n1 ≤ p.1 < Z.of_nat n1 ∧ - Z.of_nat n2 ≤ p.2 < Z.of_nat n2) →
  foldM (λ m' (p : Z * Z),
           r ← norm_index n1 p.1 ;
           c ← norm_index n2 p.2 ;
           Ok (mset m' r c v)) acc ps = Raise IndexError.
Proof.
  intros Hp Hbad. revert acc.
  induction ps as [|q ps IH]; intros acc; [by apply elem_of_nil in Hp|].
  cbn [foldM].
  destruct (norm_index n1 q.1) as [r|e1] eqn:Hr; cbn [mbind result_bind].
  - destruct (norm_index n2 q.2) as [c|e2] eqn:Hc; cbn [mbind result_bind].
    + apply elem_of_cons in Hp as [->|Hp]; [|by apply IH].
      exfalso. apply Hbad. split.
      * destruct (decide (- Z.of_nat n1 ≤ q.1 < Z.of_nat n1)); [done|].
        rewrite norm_index_raises in Hr by done. done.
      * destruct (decide (- Z.of_nat n2 ≤ q.2 < Z.of_nat n2)); [done|].
        rewrite norm_index_raises in Hc by done. done.
    + f_equal. by eapply norm_index_error.
  - f_equal. by eapply norm_index_error.
Qed.

Lemma broadcast_indices_error (rows cols : list Z) (e : exn) :
  broadcast_indices rows cols = Raise e → e = IndexError.
Proof.
  unfold broadcast_indices. case_decide; [done|].
  destruct rows as [|r [|r' rows]], cols as [|c [|c' cols]]; congruence.
Qed.

Lemma broadcast_indices_zip_subseteq (rows cols : list Z) (ps : list (Z * Z)) :
  broadcast_indices rows cols = Ok ps → zip rows cols ⊆ ps.
Proof.
  unfold broadcast_indices. case_decide as Hlen; [by intros [= <-]|].
  intros Hps p Hp. destruct rows as [|r [|r' rows]].
  - by apply elem_of_nil in Hp.
  - injection Hps as <-. destruct cols as [|c cols]; [by apply elem_of_nil in Hp|].
    simpl in Hp. apply list_elem_of_singleton in Hp as ->. by left.
  - destruct cols as [|c [|c' cols]]; [done| |done].
    injection Hps as <-. simpl in Hp.
    apply list_elem_of_singleton in Hp as ->. by left.
Qed.

Lemma index_put_error {A : Type} (m : matrix A) (idx : list Z * list Z) (v : A)
    (e : exn) :
  index_put m idx v = Raise e → e = IndexError.
Proof.
  unfold index_put.
  destruct (broadcast_indices idx.1 idx.2) as [ps|e'] eqn:Hps;
    cbn [mbind result_bind].
  - apply foldM_put_error.
  - intros [= <-]. by eapply broadcast_indices_error.
Qed.

Lemma index_put_bad_point {A : Type} (m : matrix A) (idx : list Z * list Z)
    (v : A) (p : Z * Z) :
  p ∈ zip idx.1 idx.2 →
  ¬ (- Z.of_nat (nrows m) ≤ p.1 < Z.of_nat (nrows m)
     ∧ - Z.of_nat (ncols m) ≤ p.2 < Z.of_nat (ncols m)) →
  index_put m idx v = Raise IndexError.
Proof.
  intros Hp Hbad. unfold index_put.
  destruct (broadcast_indices idx.1 idx.2) as [ps|e'] eqn:Hps;
    cbn [mbind result_bind].
  - eapply foldM_put_bad_point; [|done].
    by eapply broadcast_indices_zip_subseteq.
  - f_equal. by eapply broadcast_indices_error.
Qed.

Lemma nrows_mset {A : Type} (m : matrix A) (r c : nat) (v : A) :
  nrows (mset m r c v) = nrows m.
Proof. unfold nrows, mset. by rewrite length_alter. Qed.

Lemma ncols_mset {A : Type} (m : matrix A) (r c : nat) (v : A) :
  ncols (mset m r c v) = ncols m.
Proof.
  unfold ncols, mset. destruct m as [|row m]; [done|].
  destruct r; simpl; [by rewrite length_insert | done].
Qed.

Lemma foldM_put_shape {A : Type} (n1 n2 : nat) (acc m' : matrix A)
    (ps : list (Z * Z)) (v : A) :
  foldM (λ m' (p : Z * Z),
           r ← norm_index n1 p.1 ;
           c ← norm_index n2 p.2 ;
           Ok (mset m' r c v)) acc ps = Ok m' →
  nrows m' = nrows acc ∧ ncols m' = ncols acc.
Proof.
  revert acc. induction ps as [|p ps IH]; intros acc; cbn [foldM];
    [by intros [= <-]|].
  destruct (norm_index n1 p.1) as [r|]; cbn [mbind result_bind]; [|done].
  destruct (norm_index n2 p.2) as [c|]; cbn [mbind result_bind]; [|done].
  intros [-> ->]%IH. by rewrite nrows_mset, ncols_mset.
Qed.

Lemma index_put_shape {A : Type} (m m' : matrix A) (idx : list Z * list Z)
    (v : A) :
  index_put m idx v = Ok m' → nrows m' = nrows m ∧ ncols m' = ncols m.
Proof.
  unfold index_put.
  destruct (broadcast_indices idx.1 idx.2) as [ps|e']; cbn [mbind result_bind];
    [|done].
  apply foldM_put_shape.
Qed.

Lemma nrows_replicate {A : Type} (R C : nat) (v : A) :
  nrows (replicate R (replicate C v)) = R.
Proof. unfold nrows. by rewrite length_replicate. Qed.

Lemma ncols_replicate {A : Type} (R C : nat) (v : A) :
  (0 < R)%nat → ncols (replicate R (replicate C v)) = C.
Proof.
  intros HR. unfold ncols. destruct R; [lia|]. simpl.
  by rewrite length_replicate.
Qed.

(** ** [frontal_points_to_grid] on arbitrary index lists *)

(** X3.  With every index within the bounds NumPy accepts (negative indices count
    from the end), [frontal_points_to_grid] returns a grid of the requested
    shape in which a cell holds 2 when the cold list addresses it, else 1
    when the warm list addresses it, else 0: a cell listed as both warm and
    cold comes out cold. *)
Theorem frontal_points_to_grid_cells (warm cold : list (Z * Z)) (R C : nat) :
  (∀ p, p ∈ warm ++ cold →
        - Z.of_nat R ≤ p.1 < Z.of_nat R ∧ - Z.of_nat C ≤ p.2 < Z.of_nat C) →
  ∃ g, frontal_points_to_grid (points_dict warm cold) (Z.of_nat R) (Z.of_nat C)
       = Ok g
       ∧ is_matrix R C g
       ∧ ∀ r c, (r < R)%nat → (c < C)%nat →
           ∃ x, mget g r c = Some x
                ∧ (x = COLD_FRONT_INTEGER_ID ↔ addresses R C cold r c)
                ∧ (x = WARM_FRONT_INTEGER_ID
                   ↔ addresses R C warm r c ∧ ¬ addresses R C cold r c)
                ∧ (x = NO_FRONT_INTEGER_ID
                   ↔ ¬ addresses R C warm r c ∧ ¬ addresses R C cold r c).
Proof.
  intros Hrange.
  destruct (decide (R = 0)%nat) as [->|HR].
  { assert (warm = [] ∧ cold = []) as [-> ->].
    { destruct warm as [|p ?]; [destruct cold as [|p ?]; [done|]|];
        (destruct (Hrange p); [by left | simpl in *; lia]). }
    exists []. split.
    { unfold frontal_points_to_grid. rewrite np_full_Ok. reflexivity. }
    split; [by split|]. intros r c Hr. lia. }
  set (wrap := λ p : Z * Z, (Z.to_nat (p.1 mod Z.of_nat R),
                             Z.to_nat (p.2 mod Z.of_nat C))).
  set (g0 := replicate R (replicate C NO_FRONT_INTEGER_ID)).
  set (g1 := put_cells g0 (wrap <$> warm) WARM_FRONT_INTEGER_ID).
  set (g2 := put_cells g1 (wrap <$> cold) COLD_FRONT_INTEGER_ID).
  assert (is_matrix R C g0) as Hg0 by apply is_matrix_replicate.
  assert (is_matrix R C g1) as Hg1 by by apply is_matrix_put_cells.
  assert (is_matrix R C g2) as Hg2 by by apply is_matrix_put_cells.
  exists g2. split; [|split; [done|]].
  - unfold frontal_points_to_grid, points_dict.
    cbn [warm_front_row_indices warm_front_column_indices
         cold_front_row_indices cold_front_column_indices].
    rewrite np_full_Ok. cbn [mbind result_bind]. fold g0.
    unfold index_put. cbn [fst snd].
    rewrite !broadcast_indices_zip. cbn [mbind result_bind].
    rewrite (is_matrix_nrows _ _ _ Hg0), (is_matrix_ncols _ _ _ Hg0) by lia.
    rewrite foldM_put_wrapped by (intros p Hp; apply Hrange, elem_of_app; auto).
    cbn [mbind result_bind]. fold wrap. fold g1.
    rewrite (is_matrix_nrows _ _ _ Hg1), (is_matrix_ncols _ _ _ Hg1) by lia.
    rewrite foldM_put_wrapped by (intros p Hp; apply Hrange, elem_of_app; auto).
    reflexivity.
  - intros r c Hr Hc. unfold g2, g1. rewrite !mget_put_cells.
    unfold g0.
    rewrite mget_replicate, (decide_True (P := (r < R ∧ c < C)%nat)) by done.
    assert (∀ ps : list (Z * Z),
              (∀ p, p ∈ ps → - Z.of_nat R ≤ p.1 < Z.of_nat R
                             ∧ - Z.of_nat C ≤ p.2 < Z.of_nat C) →
              (r, c) ∈ wrap <$> ps ↔ addresses R C ps r c) as Hwrap.
    { intros ps Hps. rewrite list_elem_of_fmap. unfold wrap, addresses. split.
      - intros (p & [= -> ->] & Hp). exists p. split; [done|].
        destruct (Hps p Hp).
        rewrite !Z2Nat.id; [done|apply Z.mod_pos_bound; lia..].
      - intros (p & Hp & H1 & H2). exists p. split; [|done].
        rewrite H1, H2, !Nat2Z.id. done. }
    unfold COLD_FRONT_INTEGER_ID, WARM_FRONT_INTEGER_ID, NO_FRONT_INTEGER_ID.
    destruct (decide ((r, c) ∈ wrap <$> cold)) as [Hc1|Hc1];
      destruct (decide ((r, c) ∈ wrap <$> warm)) as [Hw1|Hw1];
      cbn [fmap option_fmap option_map];
      rewrite Hwrap in Hc1 by (intros p Hp; apply Hrange, elem_of_app; auto);
      rewrite Hwrap in Hw1 by (intros p Hp; apply Hrange, elem_of_app; auto);
      eexists; (split; [reflexivity|]); split_and!; split;
        try done; try lia; try tauto.
Qed.

Lemma frontal_points_to_grid_cells_witness :
  ∃ g, frontal_points_to_grid (points_dict [(0, 0); (-1, -1)] [(0, 0)]) 2 3
       = Ok g
       ∧ mget g 0 0 = Some COLD_FRONT_INTEGER_ID
       ∧ mget g 1 2 = Some WARM_FRONT_INTEGER_ID.
Proof.
  destruct (frontal_points_to_grid_cells [(0, 0); (-1, -1)] [(0, 0)] 2 3)
    as (g & Hg & _ & Hcell).
  - intros p Hp. repeat (apply elem_of_cons in Hp as [->|Hp]); simpl; try lia.
    by apply elem_of_nil in Hp.
  - exists g. split; [exact Hg|]. split.
    + destruct (Hcell 0 0)%nat as (x & -> & Hx & _); [lia..|]. f_equal.
      apply Hx. exists (0, 0). split; [by left | done].
    + destruct (Hcell 1 2)%nat as (x & -> & _ & Hx & _); [lia..|]. f_equal.
      apply Hx. split.
      * exists (-1, -1). split; [right; by left | done].
      * intros (p & Hp & H1 & H2). apply list_elem_of_singleton in Hp as ->.
        done.
Defined.

(** X4.  An index outside the bounds of the grid, in either list, makes
    [frontal_points_to_grid] raise [IndexError]. *)
Theorem frontal_points_to_grid_index_error (d : frontal_grid_dict) (R C : nat)
    (p : Z * Z) :
  p ∈ dict_warm_points d ∨ p ∈ dict_cold_points d →
  ¬ (- Z.of_nat R ≤ p.1 < Z.of_nat R ∧ - Z.of_nat C ≤ p.2 < Z.of_nat C) →
  frontal_points_to_grid d (Z.of_nat R) (Z.of_nat C) = Raise IndexError.
Proof.
  intros Hp Hbad. unfold frontal_points_to_grid.
  rewrite np_full_Ok. cbn [mbind result_bind].
  set (g0 := replicate R (replicate C NO_FRONT_INTEGER_ID)).
  assert (∀ m : matrix Z, nrows m = nrows g0 → ncols m = ncols g0 →
            ¬ (- Z.of_nat (nrows m) ≤ p.1 < Z.of_nat (nrows m)
               ∧ - Z.of_nat (ncols m) ≤ p.2 < Z.of_nat (ncols m))) as Hbad'.
  { intros m -> ->. unfold g0. rewrite nrows_replicate.
    destruct (decide (R = 0)%nat) as [->|HR]; [lia|].
    rewrite ncols_replicate by lia. done. }
  destruct (index_put g0 _ WARM_FRONT_INTEGER_ID) as [g1|e] eqn:H1;
    cbn [mbind result_bind].
  - destruct (index_put_shape _ _ _ _ H1) as [Hn1 Hn2].
    destruct Hp as [Hp|Hp].
    + rewrite (index_put_bad_point g0
                 (warm_front_row_indices d, warm_front_column_indices d)
                 _ p Hp) in H1; [done|by apply Hbad'].
    + apply (index_put_bad_point g1
               (cold_front_row_indices d, cold_front_column_indices d)
               _ p Hp). by apply Hbad'.
  - f_equal. by eapply index_put_error.
Qed.

Lemma frontal_points_to_grid_index_error_witness :
  frontal_points_to_grid (points_dict [(0, 0)] [(2, 0)]) 2 3 = Raise IndexError.
Proof.
  apply (frontal_points_to_grid_index_error
           (points_dict [(0, 0)] [(2, 0)]) 2 3 (2, 0)).
  - right. by left.
  - simpl. lia.
Defined.

(** ** Closing of a frontal grid *)

Lemma bget_nat (m : matrix bool) (r c : nat) :
  bget m (Z.of_nat r) (Z.of_nat c) = default false (mget m r c).
Proof. unfold bget. rewrite decide_True by lia. by rewrite !Nat2Z.id. Qed.

Lemma bget_true (m : matrix bool) (r c : Z) :
  bget m r c = true
  ↔ 0 ≤ r ∧ 0 ≤ c ∧ mget m (Z.to_nat r) (Z.to_nat c) = Some true.
Proof.
  unfold bget. destruct (decide (0 ≤ r ∧ 0 ≤ c)) as [[? ?]|Hn].
  - destruct (mget m (Z.to_nat r) (Z.to_nat c)) as [[]|]; simpl;
      split; try done; try by intros (_ & _ & ?). 
  - split; [done|]. intros (? & ? & _). by destruct Hn.
Qed.

Lemma bget_mmap_eqb (a : Z) (g : matrix Z) (r c : Z) :
  bget (mmap (Z.eqb a) g) r c = true
  ↔ 0 ≤ r ∧ 0 ≤ c ∧ mget g (Z.to_nat r) (Z.to_nat c) = Some a.
Proof. by rewrite bget_true, mget_mmap_eqb. Qed.

Section ClosingOrder.

Variable structure : matrix bool.

(** Dilating a closed mask adds nothing to the dilation of the mask. *)
Lemma dilation_of_closing (input : matrix bool) (r c : Z) :
  bget (binary_dilation (binary_closing input structure) structure) r c = true →
  bget (binary_dilation input structure) r c = true.
Proof.
  intros (_ & _ & s & Hs & Hcl)%binary_dilation_spec.
  apply binary_closing_spec in Hcl as (_ & _ & Hcl).
  specialize (Hcl s Hs).
  replace (r - s.1 + s.1) with r in Hcl by lia.
  replace (c - s.2 + s.2) with c in Hcl by lia.
  done.
Qed.

Lemma binary_dilation_mono (x y : matrix bool) (r c : Z) :
  nrows x = nrows y → ncols x = ncols y →
  (∀ r' c', bget x r' c' = true → bget y r' c' = true) →
  bget (binary_dilation x structure) r c = true →
  bget (binary_dilation y structure) r c = true.
Proof.
  intros Hn Hc Hsub (Hr' & Hc' & s & Hs & Hx)%binary_dilation_spec.
  apply binary_dilation_spec. rewrite <- Hn, <- Hc.
  split; [done|]. split; [done|]. exists s. split; [done|]. by apply Hsub.
Qed.

Lemma binary_closing_mono (x y : matrix bool) (r c : Z) :
  nrows x = nrows y → ncols x = ncols y →
  (∀ r' c', bget x r' c' = true → bget y r' c' = true) →
  bget (binary_closing x structure) r c = true →
  bget (binary_closing y structure) r c = true.
Proof.
  intros Hn Hc Hsub (Hr' & Hc' & Hx)%binary_closing_spec.
  apply binary_closing_spec. rewrite <- Hn, <- Hc.
  split; [done|]. split; [done|]. intros s Hs.
  by apply (binary_dilation_mono x y), Hx.
Qed.

(** Where the closing of one mask holds, the closing of any mask of the same
    shape contains that mask. *)
Lemma binary_closing_extensive_at (x y : matrix bool) (r c : Z) :
  nrows x = nrows y → ncols x = ncols y →
  bget x r c = true →
  bget (binary_closing y structure) r c = true →
  bget (binary_closing x structure) r c = true.
Proof.
  intros Hn Hc Hx (Hr' & Hc' & Hy)%binary_closing_spec.
  apply binary_closing_spec. rewrite Hn, Hc.
  split; [done|]. split; [done|]. intros s Hs.
  apply binary_dilation_spec. rewrite Hn, Hc.
  destruct (proj1 (binary_dilation_spec _ _ _ _) (Hy s Hs)) as (? & ? & _).
  split; [done|]. split; [done|]. exists s. split; [done|].
  replace (r + s.1 - s.1) with r by lia.
  replace (c + s.2 - s.2) with c by lia. done.
Qed.

End ClosingOrder.

Lemma structure_offsets_closing :
  struct_offsets STRUCTURE_MATRIX_FOR_BINARY_CLOSING
  = [(-1, -1); (-1, 0); (-1, 1); (0, -1); (0, 0); (0, 1);
     (1, -1); (1, 0); (1, 1)].
Proof. reflexivity. Qed.

(** The 3 x 3 structuring element reaches the four orthogonal neighbours, so
    a closed mask never holds on the border of the grid. *)
Lemma binary_closing_interior (input : matrix bool) (r c : Z) :
  bget (binary_closing input STRUCTURE_MATRIX_FOR_BINARY_CLOSING) r c = true →
  1 ≤ r < Z.of_nat (nrows input) - 1 ∧ 1 ≤ c < Z.of_nat (ncols input) - 1.
Proof.
  intros (_ & _ & H)%binary_closing_spec.
  assert (∀ s, s ∈ struct_offsets STRUCTURE_MATRIX_FOR_BINARY_CLOSING →
               0 ≤ r + s.1 < Z.of_nat (nrows input)
               ∧ 0 ≤ c + s.2 < Z.of_nat (ncols input)) as Hin.
  { intros s Hs. specialize (H s Hs).
    apply binary_dilation_spec in H as (? & ? & _). done. }
  pose proof (Hin (-1, -1)) as H1. pose proof (Hin (1, 1)) as H2.
  cbn [fst snd] in H1, H2.
  destruct H1;
    [rewrite structure_offsets_closing; apply list_elem_of_In; simpl; tauto|].
  destruct H2;
    [rewrite structure_offsets_closing; apply list_elem_of_In; simpl; tauto|].
  lia.
Qed.

Section CloseFrontalGrid.

Variables (g : matrix Z) (R C : nat).
Hypothesis g_shape : is_matrix R C g.

Let cw : matrix bool :=
  binary_closing (mmap (Z.eqb WARM_FRONT_INTEGER_ID) g)
                 STRUCTURE_MATRIX_FOR_BINARY_CLOSING.
Let cc : matrix bool :=
  binary_closing (mmap (Z.eqb COLD_FRONT_INTEGER_ID) g)
                 STRUCTURE_MATRIX_FOR_BINARY_CLOSING.
Let closed : matrix Z :=
  mzip_with (λ x (b : bool), if b then COLD_FRONT_INTEGER_ID else x)
    (mzip_with (λ x (b : bool), if b then WARM_FRONT_INTEGER_ID else x) g cw) cc.

Lemma closed_mask_shape (a : Z) :
  is_matrix R C (binary_closing (mmap (Z.eqb a) g)
                                STRUCTURE_MATRIX_FOR_BINARY_CLOSING).
Proof.
  apply (is_matrix_like g); [done|].
  rewrite <- (nrows_mmap (Z.eqb a) g), <- (ncols_mmap (Z.eqb a) g).
  apply is_matrix_binary_closing.
Qed.

Lemma close_frontal_grid_eq : _close_frontal_grid_matrix g = Ok closed.
Proof.
  unfold _close_frontal_grid_matrix.
  rewrite (index_put_where _ _ R C) by (done || apply closed_mask_shape).
  cbn [mbind result_bind].
  rewrite (index_put_where _ _ R C);
    [done | apply is_matrix_mzip_with; [done|] | ]; apply closed_mask_shape.
Qed.

Lemma closed_shape' : is_matrix R C closed.
Proof.
  unfold closed. repeat apply is_matrix_mzip_with; try done;
    apply closed_mask_shape.
Qed.

Lemma closed_cell (r c : nat) (x : Z) :
  mget g r c = Some x →
  mget closed r c
  = Some (if bget cc (Z.of_nat r) (Z.of_nat c) then COLD_FRONT_INTEGER_ID
          else if bget cw (Z.of_nat r) (Z.of_nat c) then WARM_FRONT_INTEGER_ID
          else x).
Proof.
  intros Hx. destruct (mget_Some_lt _ _ _ _ _ _ g_shape Hx) as [Hr Hc].
  unfold closed. rewrite !mget_mzip_with, Hx, !bget_nat.
  destruct (mget_is_Some cw R C r c (closed_mask_shape _) Hr Hc) as [a ->].
  destruct (mget_is_Some cc R C r c (closed_mask_shape _) Hr Hc) as [b ->].
  done.
Qed.

(** A cold-front cell in the closed warm mask is in the closed cold mask. *)
Lemma cold_cell_closed (r c : nat) :
  mget g r c = Some COLD_FRONT_INTEGER_ID →
  bget cw (Z.of_nat r) (Z.of_nat c) = true →
  bget cc (Z.of_nat r) (Z.of_nat c) = true.
Proof.
  intros Hx Hw. unfold cc.
  eapply binary_closing_extensive_at; [| | |exact Hw].
  - by rewrite !nrows_mmap.
  - by rewrite !ncols_mmap.
  - apply bget_mmap_eqb. rewrite !Nat2Z.id. split; [lia|]. split; [lia|done].
Qed.

End CloseFrontalGrid.

(** X5.  [_close_frontal_grid_matrix] returns a valid grid of the same shape in
    which every cold-front cell is still cold, every warm-front cell is warm
    or cold (no front cell is cleared), and every cell on the border of the
    grid keeps its value. *)
Theorem closing_keeps_front_cells (g : matrix Z) (R C : nat) :
  is_matrix R C g → ternary_grid g →
  ∃ closed,
    _close_frontal_grid_matrix g = Ok closed
    ∧ is_matrix R C closed ∧ ternary_grid closed
    ∧ ∀ r c x, mget g r c = Some x →
        ∃ y, mget closed r c = Some y
             ∧ (x = COLD_FRONT_INTEGER_ID → y = COLD_FRONT_INTEGER_ID)
             ∧ (x = WARM_FRONT_INTEGER_ID →
                y = WARM_FRONT_INTEGER_ID ∨ y = COLD_FRONT_INTEGER_ID)
             ∧ (r = 0%nat ∨ r = (R - 1)%nat ∨ c = 0%nat ∨ c = (C - 1)%nat →
                y = x).
Proof.
  intros Hg Hval.
  destruct (close_frontal_grid_Ok g R C Hg Hval) as (closed & Hclosed & Hs & Hv).
  exists closed. split; [done|]. split; [done|]. split; [done|].
  rewrite (close_frontal_grid_eq g R C Hg) in Hclosed. injection Hclosed as <-.
  intros r c x Hx. rewrite (closed_cell g R C Hg r c x Hx).
  eexists. split; [reflexivity|].
  destruct (mget_Some_lt _ _ _ _ _ _ Hg Hx) as [Hr Hc].
  set (cw := binary_closing (mmap (Z.eqb WARM_FRONT_INTEGER_ID) g) _).
  set (cc := binary_closing (mmap (Z.eqb COLD_FRONT_INTEGER_ID) g) _).
  split; [|split].
  - intros ->.
    destruct (bget cc _ _) eqn:Hcc; [done|].
    destruct (bget cw _ _) eqn:Hcw; [|done].
    pose proof (cold_cell_closed g r c Hx Hcw) as Hcc'. fold cc in Hcc'.
    congruence.
  - intros ->. destruct (bget cc _ _); [by right|].
    destruct (bget cw _ _); by left.
  - intros Hborder.
    assert (∀ a, bget (binary_closing (mmap (Z.eqb a) g)
                         STRUCTURE_MATRIX_FOR_BINARY_CLOSING)
                      (Z.of_nat r) (Z.of_nat c) = false) as Hout.
    { intros a. apply not_true_is_false. intros H%binary_closing_interior.
      rewrite nrows_mmap, ncols_mmap in H.
      rewrite (is_matrix_nrows _ _ _ Hg) in H.
      rewrite (is_matrix_ncols _ _ _ Hg) in H by lia. lia. }
    unfold cc, cw. by rewrite !Hout.
Qed.

Lemma closing_keeps_front_cells_witness :
  ∃ closed,
    _close_frontal_grid_matrix [[2; 0; 0]; [0; 1; 0]; [0; 0; 2]] = Ok closed
    ∧ is_matrix 3 3 closed.
Proof.
  destruct (closing_keeps_front_cells [[2; 0; 0]; [0; 1; 0]; [0; 0; 2]] 3 3)
    as (closed & Hclosed & Hshape & _).
  - split; [reflexivity | repeat constructor].
  - apply ternary_grid_mall. reflexivity.
  - by exists closed.
Defined.

(** X6.  Closing a frontal grid a second time changes nothing. *)
Theorem close_frontal_grid_idempotent (g : matrix Z) (R C : nat) :
  is_matrix R C g →
  ∃ closed,
    _close_frontal_grid_matrix g = Ok closed
    ∧ _close_frontal_grid_matrix closed = Ok closed.
Proof.
  intros Hg. eexists. split; [by apply (close_frontal_grid_eq g R C)|].
  pose proof (closed_cell g R C Hg) as Hcell.
  pose proof (cold_cell_closed g) as Hcold.
  pose proof (closed_shape' g R C Hg) as Hg1.
  set (W := mmap (Z.eqb WARM_FRONT_INTEGER_ID) g) in *.
  set (K := mmap (Z.eqb COLD_FRONT_INTEGER_ID) g) in *.
  set (cw := binary_closing W STRUCTURE_MATRIX_FOR_BINARY_CLOSING) in *.
  set (cc := binary_closing K STRUCTURE_MATRIX_FOR_BINARY_CLOSING) in *.
  set (g1 := mzip_with _ (mzip_with _ g cw) cc) in *.
  rewrite (close_frontal_grid_eq g1 R C Hg1). f_equal.
  pose proof (closed_cell g1 R C Hg1) as Hcell1.
  set (W1 := mmap (Z.eqb WARM_FRONT_INTEGER_ID) g1) in *.
  set (K1 := mmap (Z.eqb COLD_FRONT_INTEGER_ID) g1) in *.
  set (cw1 := binary_closing W1 STRUCTURE_MATRIX_FOR_BINARY_CLOSING) in *.
  set (cc1 := binary_closing K1 STRUCTURE_MATRIX_FOR_BINARY_CLOSING) in *.
  (* the cells of the grid after one pass *)
  assert (∀ r c : Z, bget K1 r c = true ↔ bget K r c = true ∨ bget cc r c = true)
    as HK1.
  { intros r c. unfold K1, K. rewrite !bget_mmap_eqb. split.
    - intros (Hr & Hc' & Hx).
      destruct (mget_Some_lt _ _ _ _ _ _ Hg1 Hx) as [Hr' Hc''].
      destruct (mget_is_Some g R C _ _ Hg Hr' Hc'') as [x Hgx].
      rewrite (Hcell _ _ x Hgx) in Hx.
      rewrite !Z2Nat.id in Hx by done.
      destruct (bget cc r c); [by right|]. left.
      destruct (bget cw r c); [done|]. injection Hx as ->. done.
    - intros [(Hr & Hc' & Hx)|Hcc].
      + split; [done|]. split; [done|].
        rewrite (Hcell _ _ _ Hx).
        destruct (bget cc _ _) eqn:Hcc; [done|].
        destruct (bget cw _ _) eqn:Hcw; [|done].
        pose proof (Hcold _ _ Hx Hcw) as Hcc'. congruence.
      + pose proof Hcc as (Hr & Hc' & _)%binary_closing_spec.
        unfold K in Hr, Hc'. rewrite nrows_mmap in Hr. rewrite ncols_mmap in Hc'.
        split; [lia|]. split; [lia|].
        assert (Z.to_nat r < R ∧ Z.to_nat c < C)%nat as [Hr' Hc''].
        { rewrite (is_matrix_nrows _ _ _ Hg) in Hr.
          destruct (decide (R = 0)%nat); [lia|].
          rewrite (is_matrix_ncols _ _ _ Hg) in Hc' by lia. lia. }
        destruct (mget_is_Some g R C _ _ Hg Hr' Hc'') as [x Hgx].
        rewrite (Hcell _ _ x Hgx).
        rewrite !Z2Nat.id by lia. by rewrite Hcc. }
  assert (∀ r c : Z, bget W1 r c = true → bget W r c = true ∨ bget cw r c = true)
    as HW1.
  { intros r c. unfold W1, W. rewrite !bget_mmap_eqb.
    intros (Hr & Hc' & Hx).
    destruct (mget_Some_lt _ _ _ _ _ _ Hg1 Hx) as [Hr' Hc''].
    destruct (mget_is_Some g R C _ _ Hg Hr' Hc'') as [x Hgx].
    rewrite (Hcell _ _ x Hgx) in Hx.
    rewrite !Z2Nat.id in Hx by done.
    destruct (bget cc r c); [done|].
    destruct (bget cw r c); [by right|]. left. injection Hx as ->. done. }
  assert (nrows K1 = nrows K ∧ ncols K1 = ncols K
          ∧ nrows W1 = nrows W ∧ ncols W1 = ncols W) as (HnK & HcK & HnW & HcW).
  { unfold K1, K, W1, W. rewrite !nrows_mmap, !ncols_mmap.
    destruct (decide (R = 0)%nat) as [->|HR].
    - destruct Hg as [Hl _], Hg1 as [Hl1 _]. destruct g, g1; done.
    - rewrite !(is_matrix_nrows _ R C), !(is_matrix_ncols _ R C) by (done || lia).
      done. }
  assert (∀ r c, bget cc1 r c = bget cc r c) as Hcc1.
  { intros r c. apply eq_true_iff_eq. split.
    - intros (Hr & Hc' & H)%binary_closing_spec.
      apply binary_closing_spec. rewrite <- HnK, <- HcK.
      split; [done|]. split; [done|]. intros s Hs. specialize (H s Hs).
      apply binary_dilation_spec in H as (Hr'' & Hc'' & s' & Hs' & Hb).
      apply HK1 in Hb as [Hb|Hb].
      + apply binary_dilation_spec. rewrite <- HnK, <- HcK. eauto.
      + apply dilation_of_closing. apply binary_dilation_spec.
        rewrite nrows_binary_closing, ncols_binary_closing.
        rewrite <- HnK, <- HcK. eauto.
    - apply binary_closing_mono; [done..|]. intros r' c' Hb. apply HK1. by left. }
  assert (∀ r c, bget cw1 r c = true → bget cw r c = true) as Hcw1.
  { intros r c (Hr & Hc' & H)%binary_closing_spec.
    apply binary_closing_spec. rewrite <- HnW, <- HcW.
    split; [done|]. split; [done|]. intros s Hs. specialize (H s Hs).
    apply binary_dilation_spec in H as (Hr'' & Hc'' & s' & Hs' & Hb).
    apply HW1 in Hb as [Hb|Hb].
    - apply binary_dilation_spec. rewrite <- HnW, <- HcW. eauto.
    - apply dilation_of_closing. apply binary_dilation_spec.
      rewrite nrows_binary_closing, ncols_binary_closing.
      rewrite <- HnW, <- HcW. eauto. }
  eapply matrix_ext; [by apply closed_shape' | done |].
  intros r c Hr Hc'.
  destruct (mget_is_Some g1 R C r c Hg1 Hr Hc') as [y Hy].
  rewrite (Hcell1 r c y Hy). rewrite Hy, Hcc1.
  destruct (mget_is_Some g R C r c Hg Hr Hc') as [x Hx].
  rewrite (Hcell r c x Hx) in Hy.
  destruct (bget cc _ _) eqn:Hcc; [done|].
  destruct (bget cw1 _ _) eqn:Hw1; [|done].
  apply Hcw1 in Hw1. rewrite Hw1 in Hy. done.
Qed.

Lemma close_frontal_grid_idempotent_witness :
  ∃ closed,
    _close_frontal_grid_matrix
      [[1; 0; 0; 0; 0]; [0; 0; 0; 1; 0]; [0; 0; 1; 0; 0]; [0; 0; 0; 0; 0]]
    = Ok closed
    ∧ _close_frontal_grid_matrix closed = Ok closed.
Proof.
  apply (close_frontal_grid_idempotent
           [[1; 0; 0; 0; 0]; [0; 0; 0; 1; 0]; [0; 0; 1; 0; 0]; [0; 0; 0; 0; 0]]
           4 5).
  split; [reflexivity | repeat constructor].
Defined.

(** ** The buffer mask *)

Lemma Qsquare_le_inv (a b : Q) :
  (0 <= a)%Q → (0 <= b)%Q → (a * a <= b * b)%Q → (a <= b)%Q.
Proof. intros. nra. Qed.

Lemma Qsquare_le (a b : Q) :
  (0 <= a)%Q → (a <= b)%Q → (a * a <= b * b)%Q.
Proof. intros. nra. Qed.

Lemma inject_Z_square_sum (i j : Z) :
  (inject_Z (i * i + j * j) == inject_Z i * inject_Z i + inject_Z j * inject_Z j)%Q.
Proof. by rewrite inject_Z_plus, !inject_Z_mult. Qed.

(** An offset within the buffer distance is at most
    floor (distance / spacing) in either direction. *)
Lemma offset_within_floor (s d : Q) (i j : Z) :
  (0 < s)%Q → (0 <= d)%Q →
  (s * s * inject_Z (i * i + j * j) <= d * d)%Q →
  - Qfloor (d / s) ≤ i ≤ Qfloor (d / s).
Proof.
  intros Hs Hd Hle. rewrite inject_Z_square_sum in Hle.
  assert (Z.abs i ≤ Qfloor (d / s)); [|lia].
  rewrite <- (Qfloor_Z (Z.abs i)). apply Qfloor_resp_le.
  apply Qle_shift_div_l; [done|].
  apply Qsquare_le_inv; [| done |].
  - apply Qmult_le_0_compat; [|by apply Qlt_le_weak].
    rewrite <- (Zle_Qle 0). lia.
  - assert (inject_Z (Z.abs i) * inject_Z (Z.abs i) == inject_Z i * inject_Z i)%Q
      as Habs.
    { rewrite <- !inject_Z_mult. apply inject_Z_injective. lia. }
    assert (0 <= inject_Z j * inject_Z j)%Q.
    { rewrite <- inject_Z_mult, <- (Zle_Qle 0). nia. }
    assert (0 <= s * s)%Q by nra. 
    nra.
Qed.

Section BufferMask.

Variables (s d : Q).
Hypothesis spacing_positive : (0 < s)%Q.
Hypothesis distance_positive : (0 < d)%Q.

Let d' : Q := effective_distance d.
Let k : Z := Qfloor (d' / s).
Let n : nat := Z.to_nat (2 * k + 1).

Lemma effective_distance_positive : (0 < d')%Q.
Proof.
  unfold d', effective_distance. eapply Qlt_le_trans; [|apply Qmax'_ge_1].
  reflexivity.
Qed.

Lemma buffer_half_width_nonneg : 0 ≤ k.
Proof.
  unfold k. change 0 with (Qfloor 0). apply Qfloor_resp_le.
  apply Qle_shift_div_l; [done|].
  assert (0 * s == 0)%Q as -> by ring.
  apply Qlt_le_weak, effective_distance_positive.
Qed.

Lemma buffer_mask_cells :
  ∃ mask,
    buffer_distance_to_narr_mask s d = Ok mask
    ∧ is_matrix n n mask
    ∧ ∀ i j, (i < n)%nat → (j < n)%nat →
        mget mask i j
        = Some (Qle_bool
                  (s * s * inject_Z ((Z.of_nat i - k) * (Z.of_nat i - k)
                                     + (Z.of_nat j - k) * (Z.of_nat j - k)))
                  (d' * d')).
Proof.
  unfold buffer_distance_to_narr_mask.
  pose proof distance_positive as Hd. apply Qlt_bool_iff in Hd. rewrite Hd.
  cbn [assert_that mbind result_bind].
  eexists. split; [reflexivity|].
  fold (effective_distance d). fold d'. fold k. fold n.
  set (offs := (λ i : nat, Z.of_nat i - k) <$> seq 0 n).
  assert (length offs = n) as Hlen
    by (unfold offs; by rewrite length_fmap, length_seq).
  assert (∀ i, (i < n)%nat → offs !! i = Some (Z.of_nat i - k)) as Hoff.
  { intros i Hi. unfold offs. by rewrite list_lookup_fmap, lookup_seq_lt. }
  clearbody offs. split.
  - apply is_matrix_mzip_with.
    + split; [by rewrite length_fmap|]. apply Forall_fmap, Forall_forall.
      intros y _. simpl. by rewrite length_fmap.
    + split; [by rewrite length_fmap|]. apply Forall_fmap, Forall_forall.
      by intros y _.
  - intros i j Hi Hj. rewrite mget_mzip_with. unfold mget.
    rewrite !list_lookup_fmap, (Hoff i Hi).
    cbn [fmap option_fmap option_map mbind option_bind].
    rewrite list_lookup_fmap, (Hoff j Hj).
    by cbn [fmap option_fmap option_map mbind option_bind].
Qed.

Lemma buffer_mask_half_width : (n / 2)%nat = Z.to_nat k.
Proof.
  pose proof buffer_half_width_nonneg.
  apply Nat2Z.inj. rewrite Nat2Z.inj_div. unfold n.
  rewrite !Z2Nat.id by lia. change (Z.of_nat 2) with 2.
  symmetry. apply Z.div_unique with (r := 1); lia.
Qed.

(** The offsets of the kernel built from a distance are exactly the offsets
    within that distance. *)
Lemma buffer_kernel_offsets (mask : matrix bool) (o : Z * Z) :
  buffer_distance_to_narr_mask s d = Ok mask →
  o ∈ kernel_offsets (mmap Z.b2z mask)
  ↔ (s * s * inject_Z (o.1 * o.1 + o.2 * o.2) <= d' * d')%Q.
Proof.
  intros Hmask. destruct buffer_mask_cells as (mask' & Hmask' & Hshape & Hcell).
  rewrite Hmask in Hmask'. injection Hmask' as <-.
  pose proof buffer_half_width_nonneg as Hk.
  assert (0 < n)%nat as Hn by (unfold n; lia).
  unfold kernel_offsets.
  rewrite nrows_mmap, ncols_mmap.
  rewrite (is_matrix_nrows _ _ _ Hshape), (is_matrix_ncols _ _ _ Hshape) by done.
  rewrite buffer_mask_half_width, Z2Nat.id by done.
  rewrite list_elem_of_fmap. split.
  - intros ([i j] & -> & Hij). cbn [fst snd].
    apply elem_of_where_cells in Hij. rewrite !mget_mmap in Hij.
    destruct (mget mask i j) as [b|] eqn:Hb; [|done].
    destruct (mget_Some_lt _ _ _ _ _ _ Hshape Hb) as [Hi Hj].
    rewrite (Hcell i j Hi Hj) in Hb. injection Hb as <-.
    cbn [fmap option_fmap option_map] in Hij.
    apply Qle_bool_iff. destruct (Qle_bool _ _); [done|]. done.
  - intros Hle.
    assert (- k ≤ o.1 ≤ k) as H1.
    { by eapply offset_within_floor;
        [|apply Qlt_le_weak, effective_distance_positive|exact Hle]. }
    assert (- k ≤ o.2 ≤ k) as H2.
    { eapply (offset_within_floor s d' o.2 o.1);
        [done|apply Qlt_le_weak, effective_distance_positive|].
      by rewrite Z.add_comm. }
    exists (Z.to_nat (o.1 + k), Z.to_nat (o.2 + k)). cbn [fst snd]. split.
    + destruct o as [o1 o2]. cbn [fst snd] in *. f_equal; lia.
    + apply elem_of_where_cells. rewrite !mget_mmap.
      rewrite Hcell by (unfold n; lia).
      cbn [fmap option_fmap option_map]. rewrite !Z2Nat.id by lia.
      replace (o.1 + k - k) with o.1 by lia.
      replace (o.2 + k - k) with o.2 by lia.
      apply Qle_bool_iff in Hle. by rewrite Hle.
Qed.

End BufferMask.

(** X7.  [buffer_distance_to_narr_mask] returns a square mask of side 2k + 1,
    k = floor (max (d, 1) / spacing), whose middle row and middle column are
    entirely [True] (so the mask is no larger than needed) and which is
    symmetric under transposition and under reflection of either axis. *)
Theorem buffer_mask_shape_and_symmetry (s d : Q) :
  (0 < s)%Q → (0 < d)%Q →
  ∃ mask (k : nat),
    buffer_distance_to_narr_mask s d = Ok mask
    ∧ Z.of_nat k = Qfloor (effective_distance d / s)
    ∧ is_matrix (2 * k + 1) (2 * k + 1) mask
    ∧ (∀ i, (i ≤ 2 * k)%nat →
            mget mask k i = Some true ∧ mget mask i k = Some true)
    ∧ (∀ i j, mget mask i j = mget mask j i)
    ∧ (∀ i j, (i ≤ 2 * k)%nat → mget mask i j = mget mask (2 * k - i) j)
    ∧ (∀ i j, (j ≤ 2 * k)%nat → mget mask i j = mget mask i (2 * k - j)).
Proof.
  intros Hs Hd.
  destruct (buffer_mask_cells s d Hd) as (mask & Hmask & Hshape & Hcell).
  pose proof (buffer_half_width_nonneg s d Hs) as Hk.
  pose proof (effective_distance_positive d) as Hd'.
  set (k := Qfloor (effective_distance d / s)) in *.
  exists mask, (Z.to_nat k).
  replace (Z.to_nat (2 * k + 1)) with (2 * Z.to_nat k + 1)%nat in * by lia.
  split; [done|]. split; [lia|]. split; [done|].
  assert (∀ i j, ¬ (i < 2 * Z.to_nat k + 1 ∧ j < 2 * Z.to_nat k + 1)%nat →
                 mget mask i j = None) as Hnone.
  { intros i j Hij. destruct (mget mask i j) eqn:H; [|done].
    destruct (mget_Some_lt _ _ _ _ _ _ Hshape H). lia. }
  split; [|split; [|split]].
  - intros i Hi.
    assert (Qle_bool
              (s * s * inject_Z ((Z.of_nat i - k) * (Z.of_nat i - k)))
              (effective_distance d * effective_distance d) = true) as Hmid.
    { apply Qle_bool_iff.
      assert (inject_Z k <= effective_distance d / s)%Q as Hfl
        by apply Qfloor_le.
      assert (s * inject_Z k <= effective_distance d)%Q as Hsk.
      { assert (inject_Z k * s <= effective_distance d / s * s)%Q as H1
          by (apply Qmult_le_compat_r; [done | by apply Qlt_le_weak]).
        assert (effective_distance d / s * s == effective_distance d)%Q as H2.
        { field. intros H0. rewrite H0 in Hs. discriminate. }
        rewrite H2 in H1. by rewrite Qmult_comm. }
      set (a := Z.abs (Z.of_nat i - k)).
      assert (inject_Z ((Z.of_nat i - k) * (Z.of_nat i - k))
              == inject_Z a * inject_Z a)%Q as ->.
      { rewrite <- inject_Z_mult. apply inject_Z_injective. unfold a. lia. }
      assert (0 <= inject_Z a)%Q by (rewrite <- (Zle_Qle 0); unfold a; lia).
      assert (inject_Z a <= inject_Z k)%Q by (rewrite <- Zle_Qle; unfold a; lia).
      assert (0 <= s * inject_Z a)%Q by (apply Qmult_le_0_compat; [by apply Qlt_le_weak|done]).
      assert (s * inject_Z a <= s * inject_Z k)%Q.
      { rewrite !(Qmult_comm s).
        apply Qmult_le_compat_r; [done | by apply Qlt_le_weak]. }
      assert (s * inject_Z a <= effective_distance d)%Q
        by (by eapply Qle_trans).
      assert (s * s * (inject_Z a * inject_Z a)
              == (s * inject_Z a) * (s * inject_Z a))%Q as -> by ring.
      by apply Qsquare_le. }
    rewrite !Hcell by lia. rewrite Z2Nat.id by done.
    replace ((k - k) * (k - k) + (Z.of_nat i - k) * (Z.of_nat i - k))
      with ((Z.of_nat i - k) * (Z.of_nat i - k)) by lia.
    replace ((Z.of_nat i - k) * (Z.of_nat i - k) + (k - k) * (k - k))
      with ((Z.of_nat i - k) * (Z.of_nat i - k)) by lia.
    by rewrite Hmid.
  - intros i j.
    destruct (decide (i < 2 * Z.to_nat k + 1 ∧ j < 2 * Z.to_nat k + 1)%nat)
      as [[Hi Hj]|Hout].
    + rewrite !Hcell by done. by rewrite Z.add_comm.
    + rewrite !Hnone; [done | lia | done].
  - intros i j Hi.
    destruct (decide (j < 2 * Z.to_nat k + 1)%nat) as [Hj|Hout].
    + rewrite !Hcell by lia.
      replace (Z.of_nat (2 * Z.to_nat k - i) - k) with (- (Z.of_nat i - k))
        by lia.
      by rewrite Z.mul_opp_opp.
    + rewrite !Hnone; [done | lia | lia].
  - intros i j Hj.
    destruct (decide (i < 2 * Z.to_nat k + 1)%nat) as [Hi|Hout].
    + rewrite !Hcell by lia.
      replace (Z.of_nat (2 * Z.to_nat k - j) - k) with (- (Z.of_nat j - k))
        by lia.
      by rewrite Z.mul_opp_opp.
    + rewrite !Hnone; [done | lia | lia].
Qed.

Lemma buffer_mask_shape_and_symmetry_witness :
  ∃ mask (k : nat),
    buffer_distance_to_narr_mask 2 3 = Ok mask
    ∧ Z.of_nat k = Qfloor (effective_distance 3 / 2)
    ∧ is_matrix (2 * k + 1) (2 * k + 1) mask.
Proof.
  destruct (buffer_mask_shape_and_symmetry 2 3) as (mask & k & H1 & H2 & H3 & _);
    [reflexivity..|].
  by exists mask, k.
Defined.

(** ** Dilation by a distance *)

(** With a dilation distance and no kernel, [dilate_binary_narr_image]
    dilates with a kernel whose offsets are the ones within the distance. *)
Lemma dilate_binary_by_distance (s d : Q) (m : matrix Z) :
  (0 < s)%Q → (0 < d)%Q → binary_image m →
  ∃ kernel,
    dilate_binary_narr_image s m (Some d) None = Ok (cv2_dilate m kernel)
    ∧ ∀ o, o ∈ kernel_offsets kernel
           ↔ (s * s * inject_Z (o.1 * o.1 + o.2 * o.2)
              <= effective_distance d * effective_distance d)%Q.
Proof.
  intros Hs Hd Hm.
  destruct (buffer_mask_centre s d Hs Hd) as (mask & Hmask & Hcentre).
  exists (mmap Z.b2z mask). split.
  - eapply dilate_binary_narr_image_Ok; try done.
    + unfold chosen_kernel. by rewrite Hmask.
    + apply binary_image_b2z.
  - intros o. by apply buffer_kernel_offsets.
Qed.

(** A marked cell of a dilated image has a marked cell of the input at one
    of the offsets of the kernel. *)
Lemma cv2_dilate_reach (src kernel : matrix Z) (k : Z) (r c : nat) :
  binary_image src →
  (∀ o, o ∈ kernel_offsets kernel → Z.abs o.1 ≤ k ∧ Z.abs o.2 ≤ k) →
  mget (cv2_dilate src kernel) r c = Some 1 →
  ∃ r' c', mget src r' c' = Some 1
           ∧ Z.abs (Z.of_nat r' - Z.of_nat r) ≤ k
           ∧ Z.abs (Z.of_nat c' - Z.of_nat c) ≤ k.
Proof.
  intros Hbin Hk (_ & o & Ho & Hz)%cv2_dilate_one; [|done].
  destruct (zget_nonzero src _ _ ltac:(rewrite Hz; lia)) as (H1 & H2 & Hget).
  rewrite Hz in Hget. destruct (Hk o Ho).
  exists (Z.to_nat (Z.of_nat r + o.1)), (Z.to_nat (Z.of_nat c + o.2)).
  split; [done|]. rewrite !Z2Nat.id by done. lia.
Qed.

(** The kernel of a dilation distance holds the offset zero, and its offsets
    are at most floor (distance / spacing) in either direction. *)
Lemma distance_kernel_reach (s d : Q) (kernel : matrix Z) :
  (0 < s)%Q → (0 < d)%Q →
  (∀ o, o ∈ kernel_offsets kernel
        ↔ (s * s * inject_Z (o.1 * o.1 + o.2 * o.2) <= d * d)%Q) →
  (0, 0) ∈ kernel_offsets kernel
  ∧ ∀ o, o ∈ kernel_offsets kernel →
         Z.abs o.1 ≤ Qfloor (d / s) ∧ Z.abs o.2 ≤ Qfloor (d / s).
Proof.
  intros Hs Hd Hoff. split.
  - apply Hoff. cbn [fst snd]. change (0 * 0 + 0 * 0) with 0.
    assert (s * s * inject_Z 0 == 0)%Q as -> by ring. nra.
  - intros o Ho%Hoff.
    pose proof (offset_within_floor s d o.1 o.2 Hs (Qlt_le_weak _ _ Hd) Ho).
    rewrite (Z.add_comm (o.1 * o.1)) in Ho.
    pose proof (offset_within_floor s d o.2 o.1 Hs (Qlt_le_weak _ _ Hd) Ho).
    lia.
Qed.

(** X8.  Dilation by a distance gives a binary image of the same shape that
    keeps every marked cell of the input, and in which every marked cell has
    a marked cell of the input within floor (distance / spacing) rows and
    columns, the distance being at least one metre. *)
Theorem dilation_by_distance_reach (s d : Q) (m : matrix Z) (R C : nat) :
  (0 < s)%Q → (0 < d)%Q → (0 < R)%nat → (0 < C)%nat →
  is_matrix R C m → binary_image m →
  ∃ out,
    dilate_binary_narr_image s m (Some d) None = Ok out
    ∧ is_matrix R C out ∧ binary_image out
    ∧ (∀ r c, mget m r c = Some 1 → mget out r c = Some 1)
    ∧ ∀ r c, mget out r c = Some 1 →
        ∃ r' c', mget m r' c' = Some 1
                 ∧ Z.abs (Z.of_nat r' - Z.of_nat r)
                   ≤ Qfloor (effective_distance d / s)
                 ∧ Z.abs (Z.of_nat c' - Z.of_nat c)
                   ≤ Qfloor (effective_distance d / s).
Proof.
  intros Hs Hd HR HC Hm Hbin.
  destruct (dilate_binary_by_distance s d m Hs Hd Hbin) as (kernel & Hout & Hoff).
  destruct (distance_kernel_reach s (effective_distance d) kernel Hs
              (effective_distance_positive d) Hoff) as [Hcentre Hreach].
  exists (cv2_dilate m kernel). split; [done|].
  split; [by apply is_matrix_cv2_dilate|].
  split; [by apply cv2_dilate_binary|]. split.
  - intros r c. by apply (cv2_dilate_extensive m kernel R C).
  - intros r c. by apply cv2_dilate_reach.
Qed.

Lemma dilation_by_distance_reach_witness :
  ∃ out,
    dilate_binary_narr_image 2 [[0; 0; 0]; [0; 1; 0]; [0; 0; 0]] (Some 2%Q) None
    = Ok out
    ∧ is_matrix 3 3 out ∧ mget out 1 1 = Some 1.
Proof.
  destruct (dilation_by_distance_reach 2 2
              [[0; 0; 0]; [0; 1; 0]; [0; 0; 0]] 3 3)
    as (out & Hout & Hshape & _ & Hkeep & _).
  - reflexivity.
  - reflexivity.
  - lia.
  - lia.
  - split; [reflexivity | repeat constructor].
  - apply binary_image_mall. reflexivity.
  - exists out. split; [done|]. split; [done|]. by apply Hkeep.
Defined.

(** X9.  With a dilation distance below the grid spacing the image comes back
    unchanged. *)
Theorem dilation_below_grid_spacing_is_identity (s d : Q) (m : matrix Z)
    (R C : nat) :
  (0 < d)%Q → (effective_distance d < s)%Q → (0 < R)%nat → (0 < C)%nat →
  is_matrix R C m → binary_image m →
  dilate_binary_narr_image s m (Some d) None = Ok m.
Proof.
  intros Hd Hlt HR HC Hm Hbin.
  pose proof (effective_distance_positive d) as Hd'.
  assert (0 < s)%Q as Hs by (by eapply Qlt_trans).
  destruct (dilate_binary_by_distance s d m Hs Hd Hbin) as (kernel & Hout & Hoff).
  rewrite Hout. f_equal.
  assert (∀ o, o ∈ kernel_offsets kernel ↔ o = (0, 0)) as Hzero.
  { intros o. rewrite Hoff. split.
    - intros Hle.
      assert (o.1 * o.1 + o.2 * o.2 < 1) as Hsmall.
      { apply Z.lt_nge. intros Hge. rewrite Zle_Qle in Hge.
        change (inject_Z 1) with 1%Q in Hge.
        set (x := inject_Z (o.1 * o.1 + o.2 * o.2)) in *.
        assert (effective_distance d * effective_distance d < s * s)%Q by nra.
        assert (0 <= s * s)%Q by nra.
        assert (s * s <= s * s * x)%Q by nra.
        nra. }
      destruct o as [o1 o2]. cbn [fst snd] in *. f_equal; nia.
    - intros ->. cbn [fst snd]. change (0 * 0 + 0 * 0) with 0.
      assert (s * s * inject_Z 0 == 0)%Q as -> by ring. nra. }
  eapply matrix_ext; [by apply is_matrix_cv2_dilate | done |].
  intros r c Hr Hc. rewrite mget_cv2_dilate.
  rewrite (is_matrix_nrows _ _ _ Hm), (is_matrix_ncols _ _ _ Hm) by done.
  rewrite decide_True by done.
  destruct (mget_is_Some m R C r c Hm Hr Hc) as [x Hx]. rewrite Hx. f_equal.
  destruct (foldr_max_in
              ((λ o : Z * Z, zget m (Z.of_nat r + o.1) (Z.of_nat c + o.2))
               <$> kernel_offsets kernel)) as [H0|Hin].
  - rewrite H0.
    pose proof (proj2 (foldr_max_ge
                  ((λ o : Z * Z, zget m (Z.of_nat r + o.1) (Z.of_nat c + o.2))
                   <$> kernel_offsets kernel)) x) as Hge.
    destruct (Hbin _ _ _ Hx) as [->| ->]; [done|].
    rewrite H0 in Hge. exfalso.
    assert (1 ≤ 0); [|lia]. apply Hge. apply list_elem_of_fmap.
    exists (0, 0). split; [|by apply Hzero]. cbn [fst snd].
    by rewrite !Z.add_0_r, zget_nat, Hx.
  - apply list_elem_of_fmap in Hin as (o & -> & ->%Hzero). cbn [fst snd].
    by rewrite !Z.add_0_r, zget_nat, Hx.
Qed.

Lemma dilation_below_grid_spacing_witness :
  dilate_binary_narr_image 32463 [[0; 1]; [1; 0]] (Some 1000%Q) None
  = Ok [[0; 1]; [1; 0]].
Proof.
  apply (dilation_below_grid_spacing_is_identity 32463 1000 [[0; 1]; [1; 0]] 2 2).
  - reflexivity.
  - reflexivity.
  - lia.
  - lia.
  - split; [reflexivity | repeat constructor].
  - apply binary_image_mall. reflexivity.
Defined.

(** ** The checks of the dilation functions *)

Lemma binary_image_checks (m : matrix Z) :
  mall (λ x, 0 <=? x) m && mall (λ x, x <=? 1) m = true ↔ binary_image m.
Proof.
  rewrite andb_true_iff, !mall_spec. unfold binary_image. split.
  - intros [H0 H1] r c x Hx. specialize (H0 r c x Hx). specialize (H1 r c x Hx).
    cbv beta in *. lia.
  - intros H. split; intros r c x Hx; destruct (H r c x Hx); cbv beta; lia.
Qed.

Lemma sum_nonneg (l : list Z) : (∀ y, y ∈ l → 0 ≤ y) → 0 ≤ foldr Z.add 0 l.
Proof.
  induction l as [|y l IH]; intros Hpos; simpl; [lia|].
  assert (0 ≤ y) by (apply Hpos; by left).
  assert (0 ≤ foldr Z.add 0 l); [|lia]. apply IH. intros z Hz. apply Hpos.
  by right.
Qed.

Lemma sum_positive_elem (l : list Z) :
  (∀ y, y ∈ l → y = 0 ∨ y = 1) → 1 ≤ foldr Z.add 0 l → 1 ∈ l.
Proof.
  induction l as [|y l IH]; intros Hbin Hsum; simpl in Hsum; [lia|].
  destruct (Hbin y) as [->| ->]; [by left| |by left].
  right. apply IH; [|lia]. intros z Hz. apply Hbin. by right.
Qed.

Lemma kernel_sum_check (k : matrix Z) :
  binary_image k →
  (1 <=? foldr Z.add 0 (concat k)) = true ↔ ∃ i j, mget k i j = Some 1.
Proof.
  intros Hbin. rewrite Z.leb_le. split.
  - intros Hsum. apply elem_of_concat_mget. apply sum_positive_elem; [|done].
    intros y (i & j & Hy)%elem_of_concat_mget. by eapply Hbin.
  - intros (i & j & H1). apply sum_ge_elem.
    + intros y (r & c & Hy)%elem_of_concat_mget. destruct (Hbin _ _ _ Hy); lia.
    + by eapply mget_elem_of_concat.
Qed.

(** X10.  Given a kernel, [dilate_binary_narr_image] dilates when the image and the
    kernel hold only 0 and 1 and the kernel holds a 1, and raises
    [ValueError] in every other case. *)
Theorem dilate_binary_narr_image_checks (s : Q) (m k : matrix Z)
    (dist : option Q) :
  (binary_image m ∧ valid_kernel k →
   dilate_binary_narr_image s m dist (Some k) = Ok (cv2_dilate m k))
  ∧ (¬ (binary_image m ∧ valid_kernel k) →
     dilate_binary_narr_image s m dist (Some k) = Raise ValueError).
Proof.
  unfold dilate_binary_narr_image, valid_kernel.
  pose proof (binary_image_checks m) as Hm.
  pose proof (binary_image_checks k) as Hk.
  pose proof (kernel_sum_check k) as Hsum.
  destruct (mall (λ x, 0 <=? x) m); [|split; [intros [H _]|done]].
  2: { by apply Hm in H. }
  destruct (mall (λ x, x <=? 1) m); [|split; [intros [H _]|done]].
  2: { by apply Hm in H. }
  cbn [assert_that mbind result_bind].
  destruct (mall (λ x, 0 <=? x) k); [|split; [intros (_ & H & _)|done]].
  2: { by apply Hk in H. }
  destruct (mall (λ x, x <=? 1) k); [|split; [intros (_ & H & _)|done]].
  2: { by apply Hk in H. }
  cbn [assert_that mbind result_bind].
  specialize (Hsum (proj1 Hk eq_refl)).
  destruct (1 <=? foldr Z.add 0 (concat k)).
  - split; [done|]. intros Hbad. destruct Hbad. split; [by apply Hm|].
    split; [by apply Hk | by apply Hsum].
  - split; [|done]. intros (_ & _ & H). by apply Hsum in H.
Qed.

Lemma dilate_binary_chosen_kernel (s : Q) (m : matrix Z) (dist : option Q)
    (kernel : option (matrix Z)) (k : matrix Z) :
  binary_image m → chosen_kernel s dist kernel = Ok k → valid_kernel k →
  dilate_binary_narr_image s m dist kernel = Ok (cv2_dilate m k).
Proof.
  intros Hm Hk [Hbin Hone]. unfold dilate_binary_narr_image.
  destruct (mall_binary m Hm) as [-> ->].
  cbn [assert_that mbind result_bind].
  change (match kernel with
          | Some k0 => Ok k0
          | None => match dist with
                    | Some d =>
                      (mask ← buffer_distance_to_narr_mask s d ;
                       Ok (mmap Z.b2z mask))
                    | None => Raise TypeError
                    end
          end) with (chosen_kernel s dist kernel).
  rewrite Hk. cbn [mbind result_bind].
  destruct (mall_binary k Hbin) as [-> ->].
  cbn [assert_that mbind result_bind].
  by rewrite (proj2 (kernel_sum_check k Hbin) Hone).
Qed.

(** ** Ternary dilation never fails on valid input *)

(** X11.  On a valid ternary grid and with a valid kernel (given, or built from the
    distance), [dilate_ternary_narr_image] returns a valid ternary grid of
    the same shape: the minima over the cold and warm points are never taken
    of an empty array.  A cell outside both dilated masks keeps its label, a
    cell in one dilated mask only gets that front type, and a cell in both
    gets one of the two front types. *)
Theorem ternary_dilation_total (s : Q) (g : matrix Z) (R C : nat)
    (dist : option Q) (kernel : option (matrix Z)) (k : matrix Z) :
  is_matrix R C g → ternary_grid g → (0 < R)%nat → (0 < C)%nat →
  chosen_kernel s dist kernel = Ok k → valid_kernel k →
  ∃ dc dw out,
    dilated_front_matrix s COLD_FRONT_INTEGER_ID g dist kernel = Ok dc
    ∧ dilated_front_matrix s WARM_FRONT_INTEGER_ID g dist kernel = Ok dw
    ∧ dilate_ternary_narr_image s g dist kernel = Ok out
    ∧ is_matrix R C out ∧ ternary_grid out
    ∧ ∀ r c x, mget g r c = Some x →
        ∃ y a b,
          mget out r c = Some y ∧ mget dc r c = Some a ∧ mget dw r c = Some b
          ∧ (a = 0 ∨ a = 1) ∧ (b = 0 ∨ b = 1)
          ∧ (a = 0 → b = 0 → y = x)
          ∧ (a = 1 → b = 0 → y = COLD_FRONT_INTEGER_ID)
          ∧ (a = 0 → b = 1 → y = WARM_FRONT_INTEGER_ID)
          ∧ (a = 1 → b = 1 →
             y = WARM_FRONT_INTEGER_ID ∨ y = COLD_FRONT_INTEGER_ID).
Proof.
  intros Hg Hval HR HC Hk Hvalid.
  set (front := λ label : Z, mmap (λ y, if label =? y then 1 else 0) g).
  assert (∀ label,
            dilated_front_matrix s label g dist kernel
            = Ok (cv2_dilate (front label) k)) as Hdil.
  { intros label. rewrite (dilated_front_matrix_eq _ _ _ R C) by done.
    apply dilate_binary_chosen_kernel; try done. apply binary_image_front. }
  destruct (dilate_ternary_narr_image_spec _ _ _ _ _ _ _ _ Hg Hval
              (Hdil COLD_FRONT_INTEGER_ID) (Hdil WARM_FRONT_INTEGER_ID))
    as (out & Hout & Hshape & Hcell).
  assert (∀ label, is_matrix R C (cv2_dilate (front label) k)) as Hdshape.
  { intros label. by apply is_matrix_cv2_dilate, is_matrix_mmap. }
  assert (∀ label r c a, mget (cv2_dilate (front label) k) r c = Some a →
                         a = 0 ∨ a = 1) as Hdbin.
  { intros label r c a. apply cv2_dilate_binary, binary_image_front. }
  assert (∀ r c x a b,
            mget g r c = Some x →
            mget (cv2_dilate (front COLD_FRONT_INTEGER_ID) k) r c = Some a →
            mget (cv2_dilate (front WARM_FRONT_INTEGER_ID) k) r c = Some b →
            ∃ y, mget out r c = Some y
                 ∧ (y = x ∨ y = WARM_FRONT_INTEGER_ID ∨ y = COLD_FRONT_INTEGER_ID)
                 ∧ (a = 0 → b = 0 → y = x)
                 ∧ (a = 1 → b = 0 → y = COLD_FRONT_INTEGER_ID)
                 ∧ (a = 0 → b = 1 → y = WARM_FRONT_INTEGER_ID)
                 ∧ (a = 1 → b = 1 →
                    y = WARM_FRONT_INTEGER_ID ∨ y = COLD_FRONT_INTEGER_ID))
    as Hres.
  { intros r c x a b Hx Ha Hb. rewrite (Hcell r c x a b Hx Ha Hb).
    eexists. split; [reflexivity|]. unfold resolved_label.
    destruct (cold_wins _ _ _);
      unfold ANY_FRONT_INTEGER_ID, WARM_FRONT_INTEGER_ID, COLD_FRONT_INTEGER_ID,
        NO_FRONT_INTEGER_ID;
      destruct (Hdbin _ _ _ _ Ha) as [-> | ->];
      destruct (Hdbin _ _ _ _ Hb) as [-> | ->];
      cbn; split_and!; intros; try done; auto. }
  exists (cv2_dilate (front COLD_FRONT_INTEGER_ID) k),
    (cv2_dilate (front WARM_FRONT_INTEGER_ID) k), out.
  split; [done|]. split; [done|]. split; [done|]. split; [done|]. split.
  - intros r c y Hy. destruct (mget_Some_lt _ _ _ _ _ _ Hshape Hy) as [Hr Hc].
    destruct (mget_is_Some g R C r c Hg Hr Hc) as [x Hx].
    destruct (mget_is_Some _ R C r c (Hdshape COLD_FRONT_INTEGER_ID) Hr Hc)
      as [a Ha].
    destruct (mget_is_Some _ R C r c (Hdshape WARM_FRONT_INTEGER_ID) Hr Hc)
      as [b Hb].
    destruct (Hres r c x a b Hx Ha Hb) as (y' & Hy' & Hcases & _).
    rewrite Hy in Hy'. injection Hy' as <-. specialize (Hval r c x Hx).
    unfold WARM_FRONT_INTEGER_ID, COLD_FRONT_INTEGER_ID in Hcases. lia.
  - intros r c x Hx. destruct (mget_Some_lt _ _ _ _ _ _ Hg Hx) as [Hr Hc].
    destruct (mget_is_Some _ R C r c (Hdshape COLD_FRONT_INTEGER_ID) Hr Hc)
      as [a Ha].
    destruct (mget_is_Some _ R C r c (Hdshape WARM_FRONT_INTEGER_ID) Hr Hc)
      as [b Hb].
    destruct (Hres r c x a b Hx Ha Hb) as (y & Hy & _ & H1 & H2 & H3 & H4).
    exists y, a, b. split_and!; try done; by eapply Hdbin.
Qed.

Lemma ternary_dilation_total_witness :
  ∃ dc dw out,
    dilated_front_matrix 1 COLD_FRONT_INTEGER_ID [[1; 2; 0]] None
      (Some [[1; 0; 0]]) = Ok dc
    ∧ dilated_front_matrix 1 WARM_FRONT_INTEGER_ID [[1; 2; 0]] None
        (Some [[1; 0; 0]]) = Ok dw
    ∧ dilate_ternary_narr_image 1 [[1; 2; 0]] None (Some [[1; 0; 0]]) = Ok out
    ∧ is_matrix 1 3 out.
Proof.
  destruct (ternary_dilation_total 1 [[1; 2; 0]] 1 3 None (Some [[1; 0; 0]])
              [[1; 0; 0]])
    as (dc & dw & out & H1 & H2 & H3 & H4 & _).
  - split; [reflexivity | repeat constructor].
  - apply ternary_grid_mall. reflexivity.
  - lia.
  - lia.
  - reflexivity.
  - split; [apply binary_image_mall; reflexivity|]. by exists 0%nat, 0%nat.
  - by exists dc, dw, out.
Defined.

(** ** Regions are the connected components of one front type *)

Lemma linked_same_value (offs : list (Z * Z)) (image : matrix Z) (p q : Z * Z) :
  linked offs image p q → zat image q = zat image p.
Proof.
  intros H. induction H as [|a b c [Hab _] _ IH]; [done|]. by rewrite IH.
Qed.

Lemma frontal_grid_to_regions_summary (g : matrix Z) (R C : nat) :
  is_matrix R C g → ternary_grid g → (0 < R)%nat → (0 < C)%nat →
  ∃ closed (n : nat),
    _close_frontal_grid_matrix g = Ok closed
    ∧ is_matrix R C closed ∧ ternary_grid closed
    ∧ is_matrix R C (label_image closed 2)
    ∧ (∀ q, zat (label_image closed 2) q ≠ 0 →
            1 ≤ zat (label_image closed 2) q ≤ Z.of_nat n)
    ∧ (∀ q, zat (label_image closed 2) q = 0 ↔ zat closed q = 0)
    ∧ (∀ p q, zat closed p ≠ 0 →
              zat (label_image closed 2) q = zat (label_image closed 2) p
              ↔ linked (neighbour_offsets 2) closed p q)
    ∧ (∀ k, 1 ≤ k ≤ Z.of_nat n → ∃ q, zat (label_image closed 2) q = k)
    ∧ frontal_grid_to_regions g
      = Ok {| row_indices_by_region :=
                (λ x, x.1.1)
                <$> (region_summary closed (label_image closed 2) <$> seq 0 n);
              column_indices_by_region :=
                (λ x, x.1.2)
                <$> (region_summary closed (label_image closed 2) <$> seq 0 n);
              front_type_by_region :=
                (λ x, x.2)
                <$> (region_summary closed (label_image closed 2) <$> seq 0 n)
           |}.
Proof.
  intros Hg Hval HR HC.
  destruct (close_frontal_grid_Ok g R C Hg Hval)
    as (closed & Hclosed & Hshape & Hternary).
  destruct (label_image_spec closed 2 R C Hshape)
    as (Hlab & n & Hn & Hrange & Hzero & Hcomp & Hall).
  exists closed, (Z.to_nat n). rewrite Z2Nat.id by done.
  split; [done|]. split; [done|]. split; [done|]. split; [done|].
  split; [done|]. split; [done|]. split; [done|]. split; [done|].
  unfold frontal_grid_to_regions. rewrite Hclosed. cbn [mbind result_bind].
  rewrite (num_regions_Ok closed R C HR HC n) by done.
  cbn [mbind result_bind].
  rewrite (mapM_Ok_fmap _ (region_summary closed (label_image closed 2)));
    [reflexivity|].
  intros i Hi%elem_of_seq.
  destruct (region_of_Ok closed R C Hshape Hternary HR HC n i)
    as (_ & _ & _ & Hi' & _); try done. lia.
Qed.

Lemma region_points_summary (closed lab : matrix Z) (n i : nat) :
  (i < n)%nat →
  region_points
    {| row_indices_by_region :=
         (λ x, x.1.1) <$> (region_summary closed lab <$> seq 0 n);
       column_indices_by_region :=
         (λ x, x.1.2) <$> (region_summary closed lab <$> seq 0 n);
       front_type_by_region :=
         (λ x, x.2) <$> (region_summary closed lab <$> seq 0 n) |} i
  = cell_index <$> region_cells lab i.
Proof.
  intros Hi. unfold region_points.
  cbn [row_indices_by_region column_indices_by_region].
  rewrite !list_lookup_fmap, lookup_seq_lt by done.
  cbn [fmap option_fmap option_map from_option]. unfold region_summary.
  cbn [fst snd]. change (0 + i)%nat with i. apply zip_cell_index.
Qed.

Lemma region_points_outside (closed lab : matrix Z) (n i : nat) :
  ¬ (i < n)%nat →
  region_points
    {| row_indices_by_region :=
         (λ x, x.1.1) <$> (region_summary closed lab <$> seq 0 n);
       column_indices_by_region :=
         (λ x, x.1.2) <$> (region_summary closed lab <$> seq 0 n);
       front_type_by_region :=
         (λ x, x.2) <$> (region_summary closed lab <$> seq 0 n) |} i
  = [].
Proof.
  intros Hi. unfold region_points.
  cbn [row_indices_by_region column_indices_by_region].
  rewrite !list_lookup_fmap, lookup_seq_ge by lia. done.
Qed.

Lemma elem_of_region_cells (lab : matrix Z) (R C : nat) (i : nat) (p : Z * Z) :
  is_matrix R C lab →
  p ∈ cell_index <$> region_cells lab i ↔ zat lab p = Z.of_nat i + 1.
Proof.
  intros Hlab. rewrite list_elem_of_fmap. split.
  - intros ([r c] & -> & Hq). unfold region_cells in Hq.
    apply elem_of_where_cells, mget_mmap_eqb in Hq. by apply zat_Some.
  - intros Hp. destruct (zat_mget R C lab p Hlab) as (q & -> & Hget & _); [lia|].
    exists q. split; [done|]. destruct q as [r c]. unfold region_cells.
    apply elem_of_where_cells, mget_mmap_eqb. cbn [fst snd] in Hget.
    by rewrite Hget, Hp.
Qed.

(** X12.  Every region that [frontal_grid_to_regions] returns holds cells of one
    front type only, the type emitted for the region; every front cell of
    the closed grid lies in exactly one region; and the cells of a region are
    exactly the cells joined to any one of them by a chain of neighbours
    (eight directions) of the same front type. *)
Theorem regions_partition_front_cells (g : matrix Z) (R C : nat) :
  is_matrix R C g → ternary_grid g → (0 < R)%nat → (0 < C)%nat →
  ∃ closed regions,
    _close_frontal_grid_matrix g = Ok closed
    ∧ frontal_grid_to_regions g = Ok regions
    ∧ (∀ i type p,
         front_type_by_region regions !! i = Some type →
         p ∈ region_points regions i →
         zat closed p ≠ 0 ∧ front_type_of_id (zat closed p) = type)
    ∧ (∀ p, zat closed p ≠ 0 →
            ∃ i, (i < length (front_type_by_region regions))%nat
                 ∧ p ∈ region_points regions i
                 ∧ ∀ j, p ∈ region_points regions j → j = i)
    ∧ (∀ i p q,
         p ∈ region_points regions i →
         q ∈ region_points regions i
         ↔ linked (neighbour_offsets 2) closed p q).
Proof.
  intros Hg Hval HR HC.
  destruct (frontal_grid_to_regions_summary g R C Hg Hval HR HC)
    as (closed & n & Hclosed & Hshape & Hternary & Hlab & Hrange & Hzero
        & Hcomp & Hall & Hregions).
  set (lab := label_image closed 2) in *.
  exists closed. eexists. split; [done|]. split; [exact Hregions|].
  assert (∀ i p, p ∈ region_points
                       {| row_indices_by_region :=
                            (λ x, x.1.1) <$> (region_summary closed lab <$> seq 0 n);
                          column_indices_by_region :=
                            (λ x, x.1.2) <$> (region_summary closed lab <$> seq 0 n);
                          front_type_by_region :=
                            (λ x, x.2) <$> (region_summary closed lab <$> seq 0 n) |} i
                 ↔ (i < n)%nat ∧ zat lab p = Z.of_nat i + 1) as Hin.
  { intros i p. destruct (decide (i < n)%nat) as [Hi|Hi].
    - rewrite region_points_summary by done.
      rewrite (elem_of_region_cells lab R C) by done. tauto.
    - rewrite region_points_outside by done. split; [by intros ?%elem_of_nil|].
      by intros [? _]. }
  split; [|split].
  - intros i type p Htype [Hi Hp]%Hin.
    assert (zat closed p ≠ 0) as Hnz.
    { intros H0. apply Hzero in H0. lia. }
    split; [done|].
    cbn [front_type_by_region] in Htype.
    rewrite !list_lookup_fmap, lookup_seq_lt in Htype by done.
    cbn [fmap option_fmap option_map] in Htype. injection Htype as <-.
    unfold region_summary. cbn [fst snd]. change (0 + i)%nat with i.
    destruct (Hall (Z.of_nat i + 1)) as [q Hq]; [lia|].
    assert (cell_index <$> region_cells lab i ≠ []) as Hne.
    { intros Hnil. pose proof (proj2 (elem_of_region_cells lab R C i q Hlab) Hq)
        as Hq'. rewrite Hnil in Hq'. by apply elem_of_nil in Hq'. }
    destruct (region_cells lab i) as [|first rest] eqn:Hcells; [done|].
    cbn [hd]. f_equal.
    assert (zat lab (cell_index first) = Z.of_nat i + 1) as Hfirst.
    { apply (elem_of_region_cells lab R C i); [done|]. rewrite Hcells.
      rewrite fmap_cons. by left. }
    apply (linked_same_value (neighbour_offsets 2)).
    apply Hcomp; [|by rewrite Hfirst, Hp].
    intros H0. apply Hzero in H0. lia.
  - intros p Hp. assert (zat lab p ≠ 0) as Hl by (by rewrite Hzero).
    destruct (Hrange p Hl) as [H1 H2].
    exists (Z.to_nat (zat lab p - 1)).
    cbn [front_type_by_region]. rewrite !length_fmap, length_seq.
    split; [lia|]. split.
    + apply Hin. split; lia.
    + intros j [_ Hj]%Hin. lia.
  - intros i p q [Hi Hp]%Hin.
    assert (zat closed p ≠ 0) as Hnz.
    { intros H0. apply Hzero in H0. lia. }
    rewrite Hin, <- (Hcomp p q Hnz), Hp. tauto.
Qed.

Lemma regions_partition_front_cells_witness :
  ∃ closed regions,
    _close_frontal_grid_matrix [[1; 2]; [0; 2]] = Ok closed
    ∧ frontal_grid_to_regions [[1; 2]; [0; 2]] = Ok regions.
Proof.
  destruct (regions_partition_front_cells [[1; 2]; [0; 2]] 2 2)
    as (closed & regions & H1 & H2 & _).
  - split; [reflexivity | repeat constructor].
  - apply ternary_grid_mall. reflexivity.
  - lia.
  - lia.
  - by exists closed, regions.
Defined.

(** A grid and its closing hold a front in the same situations: closing
    clears no front cell and invents none on a grid without fronts. *)
Lemma closed_has_front_iff (g closed : matrix Z) (R C : nat) :
  is_matrix R C g → _close_frontal_grid_matrix g = Ok closed →
  (∀ r c x, mget closed r c = Some x → x = NO_FRONT_INTEGER_ID)
  ↔ (∀ r c x, mget g r c = Some x → x = NO_FRONT_INTEGER_ID).
Proof.
  intros Hg Hclosed.
  rewrite (close_frontal_grid_eq g R C Hg) in Hclosed. injection Hclosed as <-.
  pose proof (closed_cell g R C Hg) as Hcell.
  pose proof (closed_shape' g R C Hg) as Hshape.
  split.
  - intros Hzero r c x Hx. specialize (Hzero r c _ (Hcell r c x Hx)).
    unfold NO_FRONT_INTEGER_ID, COLD_FRONT_INTEGER_ID, WARM_FRONT_INTEGER_ID in *.
    destruct (bget _ _ _); [done|]. by destruct (bget _ _ _).
  - intros Hzero r c y Hy.
    destruct (mget_Some_lt _ _ _ _ _ _ Hshape Hy) as [Hr Hc].
    destruct (mget_is_Some g R C r c Hg Hr Hc) as [x Hx].
    rewrite (Hcell r c x Hx) in Hy.
    assert (∀ a, a ≠ 0 →
              bget (binary_closing (mmap (Z.eqb a) g)
                      STRUCTURE_MATRIX_FOR_BINARY_CLOSING)
                   (Z.of_nat r) (Z.of_nat c) = false) as Hempty.
    { intros a Ha. apply not_true_is_false.
      intros (_ & _ & H)%binary_closing_spec.
      specialize (H (0, 0)).
      destruct (proj1 (binary_dilation_spec _ _ _ _) (H ltac:(
        rewrite structure_offsets_closing; apply list_elem_of_In; simpl; tauto)))
        as (_ & _ & s & _ & Hb).
      apply bget_mmap_eqb in Hb as (_ & _ & Hb).
      specialize (Hzero _ _ _ Hb). by subst a. }
    rewrite !Hempty in Hy by done. injection Hy as <-. by eapply Hzero.
Qed.

(** X13.  [frontal_grid_to_regions] returns no region exactly when the grid holds
    no front, and its three lists always have the same length. *)
Theorem regions_empty_iff_no_front (g : matrix Z) (R C : nat) :
  is_matrix R C g → ternary_grid g → (0 < R)%nat → (0 < C)%nat →
  ∃ regions,
    frontal_grid_to_regions g = Ok regions
    ∧ length (row_indices_by_region regions)
      = length (front_type_by_region regions)
    ∧ length (column_indices_by_region regions)
      = length (front_type_by_region regions)
    ∧ (front_type_by_region regions = []
       ↔ ∀ r c x, mget g r c = Some x → x = NO_FRONT_INTEGER_ID).
Proof.
  intros Hg Hval HR HC.
  destruct (frontal_grid_to_regions_summary g R C Hg Hval HR HC)
    as (closed & n & Hclosed & Hshape & Hternary & Hlab & Hrange & Hzero
        & Hcomp & Hall & Hregions).
  eexists. split; [exact Hregions|].
  cbn [row_indices_by_region column_indices_by_region front_type_by_region].
  rewrite !length_fmap. split; [done|]. split; [done|].
  rewrite <- (closed_has_front_iff g closed R C Hg Hclosed).
  rewrite <- length_zero_iff_nil, !length_fmap, length_seq. split.
  - intros -> r c x Hx. unfold NO_FRONT_INTEGER_ID.
    rewrite <- (zat_Some closed (r, c) x Hx). apply Hzero.
    destruct (decide (zat (label_image closed 2) (cell_index (r, c)) = 0));
      [done|]. specialize (Hrange _ n). lia.
  - intros Hnone. destruct n as [|n]; [done|].
    destruct (Hall 1) as [q Hq]; [lia|].
    assert (zat closed q ≠ 0) as Hnz by (rewrite <- Hzero; lia).
    destruct (zat_mget R C closed q Hshape Hnz) as (q' & -> & Hget & _).
    by specialize (Hnone _ _ _ Hget).
Qed.

Lemma regions_empty_iff_no_front_witness :
  ∃ regions,
    frontal_grid_to_regions [[0; 0]; [0; 0]] = Ok regions
    ∧ front_type_by_region regions = [].
Proof.
  destruct (regions_empty_iff_no_front [[0; 0]; [0; 0]] 2 2)
    as (regions & H1 & _ & _ & H2).
  - split; [reflexivity | repeat constructor].
  - apply ternary_grid_mall. reflexivity.
  - lia.
  - lia.
  - exists regions. split; [exact H1|]. apply H2.
    intros r c x Hx.
    destruct r as [|[|r]], c as [|[|c]]; cbv in Hx;
      unfold NO_FRONT_INTEGER_ID; congruence.
Defined.

(** ** Front types and the direction of the wind *)

Lemma fget_mmap_opp (m : matrix float) (R C r c : nat) :
  is_matrix R C m → (r < R)%nat → (c < C)%nat →
  fget (mmap PrimFloat.opp m) r c = (- fget m r c)%float.
Proof.
  intros Hm Hr Hc. unfold fget. rewrite mget_mmap.
  by destruct (mget_is_Some m R C r c Hm Hr Hc) as [x ->].
Qed.

(** The three tests of a double against zero, by its sign. *)
Lemma float_zero_tests (a : float) :
  match sf_cmp0 (Prim2SF a) with
  | Some Gt =>
    (0 <? a)%float = true ∧ (a <=? 0)%float = false ∧ (a =? 0)%float = false
  | Some Lt =>
    (0 <? a)%float = false ∧ (a <=? 0)%float = true ∧ (a =? 0)%float = false
  | Some Eq =>
    (0 <? a)%float = false ∧ (a <=? 0)%float = true ∧ (a =? 0)%float = true
  | None =>
    (0 <? a)%float = false ∧ (a <=? 0)%float = false ∧ (a =? 0)%float = false
  end.
Proof.
  pose proof (ltb_zero_spec a) as Hlt. pose proof (leb_zero_spec a) as Hle.
  pose proof (eqb_zero_spec a) as Heq.
  destruct (0 <? a)%float, (a <=? 0)%float, (a =? 0)%float,
    (sf_cmp0 (Prim2SF a)) as [[]|];
    intuition congruence.
Qed.

(** Reversing the wind reverses the sign of the advection; a zero advection
    stays zero and a NaN stays NaN. *)
Lemma reversed_wind_advection_sign (u v ddx ddy : float) :
  sf_cmp0 (Prim2SF (- (- u * ddx + - v * ddy))%float)
  = CompOpp <$> sf_cmp0 (Prim2SF (- (u * ddx + v * ddy))%float).
Proof.
  rewrite !opp_spec, !add_spec, !mul_spec, !opp_spec.
  unfold SF64add, SF64mul. rewrite !SFmul_opp_l.
  rewrite (sf_cmp0_alike _ _ (sf_alike_opp _ _ (SFadd_opp _ _))).
  by rewrite sf_cmp0_opp.
Qed.

(** X14.  Reversing the wind, with the thermal field and the front mask unchanged,
    turns every warm-front label into a cold-front label; it turns a
    cold-front label into a warm-front label except where the advection is
    exactly zero, where the label stays cold; cells without a front stay
    without one. *)
Theorem reversing_wind_swaps_front_types (u v theta : matrix float)
    (mask : matrix bool) (dx dy : float) (R C : nat) :
  is_matrix R C u → is_matrix R C v → is_matrix R C theta →
  is_matrix R C mask → (2 ≤ R)%nat → (2 ≤ C)%nat →
  ∃ advection g g',
    _get_thermal_advection_over_grid u v theta dx dy = Ok advection
    ∧ get_frontal_types_over_grid u v theta mask dx dy = Ok g
    ∧ get_frontal_types_over_grid (mmap PrimFloat.opp u) (mmap PrimFloat.opp v)
        theta mask dx dy
      = Ok g'
    ∧ ∀ r c, (r < R)%nat → (c < C)%nat →
        ∃ (a : float) (x x' : Z),
          mget advection r c = Some a
          ∧ mget g r c = Some x ∧ mget g' r c = Some x'
          ∧ (x = NO_FRONT_INTEGER_ID ↔ x' = NO_FRONT_INTEGER_ID)
          ∧ (x = WARM_FRONT_INTEGER_ID → x' = COLD_FRONT_INTEGER_ID)
          ∧ (x = COLD_FRONT_INTEGER_ID → (a =? 0)%float = false →
             x' = WARM_FRONT_INTEGER_ID)
          ∧ (x = COLD_FRONT_INTEGER_ID → (a =? 0)%float = true →
             x' = COLD_FRONT_INTEGER_ID).
Proof.
  intros Hu Hv Ht Hm HR HC.
  assert (is_matrix R C (mmap PrimFloat.opp u)) as Hu'
    by by apply is_matrix_mmap.
  assert (is_matrix R C (mmap PrimFloat.opp v)) as Hv'
    by by apply is_matrix_mmap.
  eexists _, _, _. split; [by eapply thermal_advection_Ok|].
  split; [by eapply frontal_types_Ok|].
  split; [by eapply frontal_types_Ok|].
  intros r c Hr Hc.
  destruct (frontal_cell_value u v theta mask dx dy R C Hu Hv Ht Hm HR HC r c
              Hr Hc) as (a & b & Ha & Hb & Hval & Hg).
  destruct (frontal_cell_value (mmap PrimFloat.opp u) (mmap PrimFloat.opp v)
              theta mask dx dy R C Hu' Hv' Ht Hm HR HC r c Hr Hc)
    as (a' & b' & Ha' & Hb' & Hval' & Hg').
  rewrite Hb in Hb'. injection Hb' as <-.
  rewrite !(fget_mmap_opp _ R C) in Hval' by done.
  exists a. eexists _, _. split; [exact Ha|].
  split; [exact Hg|]. split; [exact Hg'|].
  pose proof (reversed_wind_advection_sign (fget u r c) (fget v r c)
                (fget (gradient_axis1 theta dx) r c)
                (fget (gradient_axis0 theta dy) r c)) as Hsign.
  rewrite <- Hval, <- Hval' in Hsign.
  pose proof (float_zero_tests a) as Htests.
  pose proof (float_zero_tests a') as Htests'.
  rewrite Hsign in Htests'. clear Hg Hg' Hsign Hval Hval'.
  unfold NO_FRONT_INTEGER_ID, WARM_FRONT_INTEGER_ID, COLD_FRONT_INTEGER_ID.
  destruct (sf_cmp0 (Prim2SF a)) as [[]|]; cbn in Htests';
    destruct Htests as (-> & -> & ->), Htests' as (-> & -> & _);
    destruct b; cbn [andb]; split_and!; done.
Qed.

Lemma reversing_wind_witness :
  ∃ advection g g',
    _get_thermal_advection_over_grid
      [[1; 1]; [1; 1]]%float [[0; 0]; [0; 0]]%float [[0; 1]; [0; 1]]%float
      1 1
    = Ok advection
    ∧ get_frontal_types_over_grid
        [[1; 1]; [1; 1]]%float [[0; 0]; [0; 0]]%float [[0; 1]; [0; 1]]%float
        [[true; false]; [true; true]] 1 1 = Ok g
    ∧ get_frontal_types_over_grid
        (mmap PrimFloat.opp [[1; 1]; [1; 1]]%float)
        (mmap PrimFloat.opp [[0; 0]; [0; 0]]%float)
        [[0; 1]; [0; 1]]%float [[true; false]; [true; true]] 1 1 = Ok g'.
Proof.
  destruct (reversing_wind_swaps_front_types
              [[1; 1]; [1; 1]]%float [[0; 0]; [0; 0]]%float
              [[0; 1]; [0; 1]]%float
              [[true; false]; [true; true]] 1 1 2 2)
    as (advection & g & g' & H1 & H2 & H3 & _).
  - split; [reflexivity | repeat constructor].
  - split; [reflexivity | repeat constructor].
  - split; [reflexivity | repeat constructor].
  - split; [reflexivity | repeat constructor].
  - lia.
  - lia.
  - by exists advection, g, g'.
Defined.

(** X15.  [numpy.gradient] needs two elements along every axis: a thermal field
    with fewer than two rows or fewer than two columns makes
    [get_frontal_types_over_grid] raise [ValueError], whatever the winds and
    the mask. *)
Theorem frontal_types_need_two_rows_and_columns (u v theta : matrix float)
    (mask : matrix bool) (dx dy : float) :
  (nrows theta < 2 ∨ ncols theta < 2)%nat →
  get_frontal_types_over_grid u v theta mask dx dy = Raise ValueError.
Proof.
  intros Hsmall.
  unfold get_frontal_types_over_grid, _get_thermal_advection_over_grid,
    np_gradient.
  rewrite bool_decide_eq_false_2 by lia. reflexivity.
Qed.

Lemma frontal_types_need_two_rows_witness :
  get_frontal_types_over_grid [[1; 1]]%float [[0; 0]]%float [[0; 1]]%float
    [[true; true]] 1 1 = Raise ValueError.
Proof.
  apply (frontal_types_need_two_rows_and_columns
           [[1; 1]]%float [[0; 0]]%float [[0; 1]]%float [[true; true]] 1 1).
  left. cbv. lia.
Defined.

(** ** The test for closed polylines *)

Lemma np_item_nil {A : Type} (i : Z) : np_item (@nil A) i = Raise IndexError.
Proof.
  unfold np_item, norm_index. cbn [length].
  rewrite decide_False by lia. by rewrite decide_False by lia.
Qed.

Lemma np_item_is_Ok {A : Type} (l : list A) (i : Z) :
  l ≠ [] → (i = 0 ∨ i = -1) → ∃ x, np_item l i = Ok x.
Proof.
  intros Hl Hi. destruct l as [|x l]; [done|]. destruct Hi as [-> | ->].
  - exists x. apply np_item_head.
  - destruct (last (x :: l)) as [y|] eqn:Hy.
    + exists y. by apply np_item_last.
    + by apply last_None in Hy.
Qed.

(** The difference of two doubles and the opposite difference have the same
    absolute value. *)
Lemma float_abs_sub_comm (a b : float) :
  PrimFloat.abs (a - b)%float = PrimFloat.abs (b - a)%float.
Proof.
  apply Prim2SF_inj. rewrite !abs_spec, !sub_spec. apply SFabs_sub_comm.
Qed.

(** A finite double differs from itself by zero. *)
Lemma float_sub_diag (a : float) :
  is_finite a = true → PrimFloat.abs (a - a)%float = 0%float.
Proof.
  intros Ha. apply Prim2SF_inj. rewrite abs_spec, sub_spec.
  unfold SF64sub. by rewrite (SFsub_diag _ (is_finite_spec _ Ha)).
Qed.

(** X16.  [_is_polyline_closed] looks at the first and the last vertex only.  It
    raises [IndexError] on an empty latitude or longitude array; otherwise
    it answers with the test of the two rounded coordinate differences
    against the tolerance, so a polyline with a single vertex of finite
    coordinates counts as closed, and a polyline and its reversal get the
    same answer. *)
Theorem polyline_closed_test (lats lngs : list float) :
  (lats = [] ∨ lngs = [] → _is_polyline_closed lats lngs = Raise IndexError)
  ∧ (∀ lat0 latn lng0 lngn,
       head lats = Some lat0 → last lats = Some latn →
       head lngs = Some lng0 → last lngs = Some lngn →
       _is_polyline_closed lats lngs
       = Ok ((PrimFloat.abs (lat0 - latn) <? TOLERANCE_DEG)%float
             && (PrimFloat.abs (lng0 - lngn) <? TOLERANCE_DEG)%float))
  ∧ (∀ lat lng, lats = [lat] → lngs = [lng] →
       is_finite lat = true → is_finite lng = true →
       _is_polyline_closed lats lngs = Ok true)
  ∧ _is_polyline_closed (reverse lats) (reverse lngs)
    = _is_polyline_closed lats lngs.
Proof.
  split; [|split; [|split]].
  - intros [-> | ->]; unfold _is_polyline_closed.
    + by rewrite np_item_nil.
    + destruct (np_item lats 0) as [x|e] eqn:H0; cbn [mbind result_bind].
      * destruct (np_item lats (-1)) as [y|e] eqn:H1; cbn [mbind result_bind].
        -- by rewrite np_item_nil.
        -- destruct lats as [|lat lats]; [by rewrite np_item_nil in H0|].
           destruct (np_item_is_Ok (lat :: lats) (-1)) as [z Hz];
             [done|by right|].
           congruence.
      * destruct lats; [rewrite np_item_nil in H0; congruence|].
        by rewrite np_item_head in H0.
  - intros lat0 latn lng0 lngn H1 H2 H3 H4.
    by apply is_polyline_closed_ends.
  - intros lat lng -> -> Hlat Hlng.
    rewrite (is_polyline_closed_ends [lat] [lng] lat lat lng lng) by done.
    by rewrite !float_sub_diag.
  - destruct lats as [|lat lats] using rev_ind.
    { unfold _is_polyline_closed. by rewrite !np_item_nil. }
    destruct lngs as [|lng lngs] using rev_ind.
    { rewrite reverse_app. cbn [reverse rev_append app].
      unfold _is_polyline_closed. cbn [reverse].
      destruct (np_item_is_Ok (lat :: reverse lats) 0) as [x ->]; [done|by left|].
      destruct (np_item_is_Ok (lat :: reverse lats) (-1)) as [y ->];
        [done|by right|].
      destruct (np_item_is_Ok (lats ++ [lat]) 0) as [x' ->];
        [by destruct lats|by left|].
      destruct (np_item_is_Ok (lats ++ [lat]) (-1)) as [y' ->];
        [by destruct lats|by right|].
      cbn [mbind result_bind]. by rewrite !np_item_nil. }
    clear IHlats IHlngs.
    destruct (head (lats ++ [lat])) as [lat0|] eqn:Hlat0;
      [|by destruct lats].
    destruct (head (lngs ++ [lng])) as [lng0|] eqn:Hlng0;
      [|by destruct lngs].
    rewrite (is_polyline_closed_ends (lats ++ [lat]) (lngs ++ [lng])
               lat0 lat lng0 lng); [|done|by rewrite last_snoc|done
                                     |by rewrite last_snoc].
    rewrite (is_polyline_closed_ends (reverse (lats ++ [lat]))
               (reverse (lngs ++ [lng])) lat lat0 lng lng0).
    + by rewrite (float_abs_sub_comm lat lat0), (float_abs_sub_comm lng lng0).
    + by rewrite reverse_app.
    + rewrite last_reverse. done.
    + by rewrite reverse_app.
    + rewrite last_reverse. done.
Qed.

(** A polyline of one vertex is closed, unless a coordinate of the vertex is
    infinite. *)
Lemma polyline_closed_test_witness :
  _is_polyline_closed [40]%float [-100]%float = Ok true
  ∧ _is_polyline_closed [infinity] [-100]%float = Ok false.
Proof.
  split; [|reflexivity].
  destruct (polyline_closed_test [40]%float [-100]%float)
    as (_ & _ & Hone & _).
  by apply (Hone 40%float (-100)%float).
Defined.

(** ** Binary images and point lists *)

(** X17.  The points of a binary image, put back on an empty image of the same
    shape, give the image again. *)
Theorem binary_image_points_round_trip (binary_matrix : matrix bool)
    (R C : nat) :
  is_matrix R C binary_matrix →
  _grid_points_to_binary_image
    (_binary_image_to_grid_points binary_matrix).1
    (_binary_image_to_grid_points binary_matrix).2
    (Z.of_nat R) (Z.of_nat C)
  = Ok binary_matrix.
Proof.
  intros Hm. unfold _grid_points_to_binary_image, _binary_image_to_grid_points.
  rewrite np_full_Ok. cbn [mbind result_bind].
  rewrite <- surjective_pairing.
  rewrite (index_put_where _ binary_matrix R C)
    by (done || apply is_matrix_replicate).
  f_equal. eapply matrix_ext; [|done|].
  - apply is_matrix_mzip_with; [apply is_matrix_replicate | done].
  - intros r c Hr Hc. rewrite mget_mzip_with, mget_replicate.
    rewrite decide_True by done.
    destruct (mget_is_Some binary_matrix R C r c Hm Hr Hc) as [b ->].
    by destruct b.
Qed.

Lemma binary_image_points_round_trip_witness :
  _grid_points_to_binary_image
    (_binary_image_to_grid_points [[true; false]; [false; true]]).1
    (_binary_image_to_grid_points [[true; false]; [false; true]]).2 2 2
  = Ok [[true; false]; [false; true]].
Proof.
  apply (binary_image_points_round_trip [[true; false]; [false; true]] 2 2).
  split; [reflexivity | repeat constructor].
Defined.

(** ** Index arrays of a window of a sorted axis *)

Lemma elem_of_where1_from (i : nat) (l : list bool) (z : Z) :
  z ∈ where1_from i l ↔ ∃ k, z = Z.of_nat (i + k) ∧ l !! k = Some true.
Proof.
  revert i. induction l as [|b l IH]; intros i; simpl.
  - split; [by intros ?%elem_of_nil | by intros (k & _ & ?)].
  - rewrite elem_of_app, IH. split.
    + intros [Hb | (k & -> & Hk)].
      * destruct b; [|by apply elem_of_nil in Hb].
        apply list_elem_of_singleton in Hb as ->. exists 0%nat.
        split; [f_equal; lia | done].
      * exists (S k). split; [f_equal; lia | done].
    + intros ([|k] & -> & Hk); simpl in Hk.
      * injection Hk as ->. left. rewrite Nat.add_0_r.
        by apply list_elem_of_singleton.
      * right. exists k. split; [f_equal; lia | done].
Qed.

Lemma where1_from_sorted (i : nat) (l : list bool) :
  StronglySorted Z.lt (where1_from i l).
Proof.
  revert i. induction l as [|b l IH]; intros i; simpl; [constructor|].
  apply StronglySorted_app_2; [| |apply IH].
  - intros x1 x2 Hx1 (k & -> & _)%elem_of_where1_from.
    destruct b; [|by apply elem_of_nil in Hx1].
    apply list_elem_of_singleton in Hx1 as ->. lia.
  - destruct b; [|constructor]. repeat constructor.
Qed.

(** A strictly ascending list of integers without gaps counts up from its
    first element. *)
Lemma sorted_without_gaps (idx : list Z) (lo : Z) :
  StronglySorted Z.lt idx →
  (∀ a b c, a ∈ idx → c ∈ idx → a ≤ b ≤ c → b ∈ idx) →
  head idx = Some lo →
  idx = (λ k : nat, lo + Z.of_nat k) <$> seq 0 (length idx).
Proof.
  revert lo. induction idx as [|a idx IH]; intros lo Hsorted Hconvex Hhead;
    [done|].
  injection Hhead as ->. cbn [length seq fmap list_fmap]. f_equal; [lia|].
  apply StronglySorted_inv in Hsorted as [Hsorted Hall].
  destruct idx as [|b idx']; [done|].
  assert (b = lo + 1) as ->.
  { assert (lo < b) by (by apply Forall_inv in Hall).
    assert (lo + 1 ∈ lo :: b :: idx') as Hin.
    { apply (Hconvex lo (lo + 1) b); [by left | right; by left | lia]. }
    apply elem_of_cons in Hin as [?|Hin]; [lia|].
    apply elem_of_cons in Hin as [?|Hin]; [lia|].
    apply StronglySorted_inv in Hsorted as [_ Hall'].
    rewrite Forall_forall in Hall'. specialize (Hall' _ Hin). lia. }
  rewrite (IH (lo + 1)) at 1; [| done | | done].
  - rewrite <- fmap_S_seq, <- list_fmap_compose. apply list_fmap_ext.
    intros _ k _. simpl. lia.
  - intros a' b' c' Ha Hc Hab.
    assert (b' ∈ lo :: (lo + 1) :: idx') as Hin.
    { apply (Hconvex a' b' c'); [by right | by right | done]. }
    apply elem_of_cons in Hin as [->|Hin]; [|done].
    rewrite Forall_forall in Hall. specialize (Hall _ Ha). lia.
Qed.

Lemma np_min_Z_counting (lo : Z) (n : nat) :
  (0 < n)%nat →
  np_min_Z ((λ k : nat, lo + Z.of_nat k) <$> seq 0 n) = Ok lo.
Proof.
  intros Hn. destruct n as [|n]; [lia|]. cbn [seq fmap list_fmap np_min_Z].
  f_equal. rewrite Z.add_0_r.
  assert (∀ l : list Z, (∀ x, x ∈ l → lo ≤ x) → foldr Z.min lo l = lo) as Hmin.
  { induction l as [|x l IH]; intros Hl; [done|]. simpl.
    rewrite IH by (intros y Hy; apply Hl; by right).
    assert (lo ≤ x) by (apply Hl; by left). lia. }
  apply Hmin. intros x (k & -> & _)%list_elem_of_fmap. lia.
Qed.

Section Window.

Variables (f : Q → bool) (coords : list Q).

(** The flags hold on a stretch of the axis without gaps. *)
Hypothesis window_convex :
  ∀ i j k x y z, (i ≤ j ≤ k)%nat →
    coords !! i = Some x → coords !! j = Some y → coords !! k = Some z →
    f x = true → f z = true → f y = true.
Hypothesis window_inhabited : ∃ x, x ∈ coords ∧ f x = true.

Lemma elem_of_window (z : Z) :
  z ∈ np_where1 (f <$> coords)
  ↔ ∃ (k : nat) x, z = Z.of_nat k ∧ coords !! k = Some x ∧ f x = true.
Proof.
  unfold np_where1. rewrite elem_of_where1_from. split.
  - intros (k & -> & Hk). rewrite list_lookup_fmap in Hk.
    destruct (coords !! k) as [x|] eqn:Hx; [|done]. injection Hk as Hk.
    by exists k, x.
  - intros (k & x & -> & Hx & Hf). exists k. split; [done|].
    by rewrite list_lookup_fmap, Hx, <- Hf.
Qed.

Lemma window_indices :
  ∃ (lo n : nat),
    (0 < n)%nat
    ∧ np_where1 (f <$> coords)
      = (λ k : nat, Z.of_nat lo + Z.of_nat k) <$> seq 0 n
    ∧ ∀ k, (lo ≤ k < lo + n)%nat ↔ ∃ x, coords !! k = Some x ∧ f x = true.
Proof.
  destruct window_inhabited as (x0 & [k0 Hk0]%list_elem_of_lookup & Hf0).
  assert (Z.of_nat k0 ∈ np_where1 (f <$> coords)) as Hin0.
  { apply elem_of_window. by exists k0, x0. }
  destruct (np_where1 (f <$> coords)) as [|z idx] eqn:Hidx;
    [by apply elem_of_nil in Hin0|].
  assert (z ∈ np_where1 (f <$> coords)) as Hz by (rewrite Hidx; by left).
  apply elem_of_window in Hz as (lo & xlo & -> & Hlo & Hflo).
  exists lo, (S (length idx)). split; [lia|].
  assert (Z.of_nat lo :: idx
          = (λ k : nat, Z.of_nat lo + Z.of_nat k) <$> seq 0 (S (length idx)))
    as Heq.
  { apply (sorted_without_gaps (Z.of_nat lo :: idx)); [| |done].
    - rewrite <- Hidx. apply where1_from_sorted.
    - rewrite <- Hidx. intros a b c.
      intros (i & x & -> & Hi & Hfi)%elem_of_window
             (k & y & -> & Hk & Hfk)%elem_of_window Hab.
      apply elem_of_window.
      destruct (coords !! Z.to_nat b) as [w|] eqn:Hw.
      + exists (Z.to_nat b), w. split; [lia|]. split; [done|].
        apply (window_convex i (Z.to_nat b) k x w y); try done. lia.
      + apply lookup_ge_None in Hw. apply lookup_lt_Some in Hk. lia. }
  split; [done|].
  intros k. split.
  - intros Hk.
    assert (Z.of_nat k ∈ Z.of_nat lo :: idx) as Hin.
    { rewrite Heq. apply list_elem_of_fmap. exists (k - lo)%nat.
      split; [lia|]. apply elem_of_seq. lia. }
    rewrite <- Hidx in Hin.
    apply elem_of_window in Hin as (k' & x & Hkk & Hx & Hf).
    apply Nat2Z.inj in Hkk as <-. eauto.
  - intros (x & Hx & Hf).
    assert (Z.of_nat k ∈ Z.of_nat lo :: idx) as Hin.
    { rewrite <- Hidx. apply elem_of_window. by exists k, x. }
    rewrite Heq in Hin. apply list_elem_of_fmap in Hin as (j & Hj & Hin).
    apply elem_of_seq in Hin. lia.
Qed.

End Window.

Lemma np_take_counting {A : Type} (l : list A) (lo n : nat) :
  (lo + n ≤ length l)%nat →
  np_take l ((λ k : nat, Z.of_nat lo + Z.of_nat k) <$> seq 0 n)
  = Ok (take n (drop lo l)).
Proof.
  unfold np_take. revert lo. induction n as [|n IH]; intros lo Hlen; [done|].
  cbn [seq fmap list_fmap]. rewrite <- fmap_S_seq, <- list_fmap_compose.
  destruct (lookup_lt_is_Some_2 l lo) as [x Hx]; [lia|].
  rewrite (drop_S _ _ _ Hx). cbn [take mapM].
  rewrite (np_item_lookup l _ x) by (lia || by rewrite Z.add_0_r, Nat2Z.id).
  cbn [mbind result_bind].
  assert (((λ k : nat, Z.of_nat lo + Z.of_nat k) ∘ S) <$> seq 0 n
          = (λ k : nat, Z.of_nat (S lo) + Z.of_nat k) <$> seq 0 n) as ->.
  { apply list_fmap_ext. intros _ k _. simpl. lia. }
  rewrite (IH (S lo)) by lia. reflexivity.
Qed.

(** ** The double loop over the window *)

Lemma scan_row_cells (flags : list bool) (r c0 : nat) (ro co : Z) :
  concat (imap (λ (j : nat) (b : bool),
                  if b then [(Z.of_nat r + ro, Z.of_nat (c0 + j) + co)]
                  else []) flags)
  = (λ p : nat * nat, (Z.of_nat p.1 + ro, Z.of_nat p.2 + co))
    <$> where_row r c0 flags.
Proof.
  revert c0. induction flags as [|b flags IH]; intros c0; [done|].
  rewrite imap_cons. cbn [concat where_row]. rewrite fmap_app. f_equal.
  - rewrite Nat.add_0_r. by destruct b.
  - rewrite <- IH. f_equal. apply imap_ext. intros j b' _. simpl.
    by replace (c0 + S j)%nat with (S c0 + j)%nat by lia.
Qed.

Lemma scan_grid_cells (m : matrix bool) (r0 : nat) (ro co : Z) :
  concat (imap (λ (i : nat) (row : list bool),
                  concat (imap (λ (j : nat) (b : bool),
                                  if b then [(Z.of_nat (r0 + i) + ro,
                                              Z.of_nat j + co)]
                                  else []) row)) m)
  = (λ p : nat * nat, (Z.of_nat p.1 + ro, Z.of_nat p.2 + co))
    <$> where_from r0 m.
Proof.
  revert r0. induction m as [|row m IH]; intros r0; [done|].
  rewrite imap_cons. cbn [concat where_from]. rewrite fmap_app. f_equal.
  - rewrite Nat.add_0_r. apply (scan_row_cells row r0 0).
  - rewrite <- IH. f_equal. apply imap_ext. intros i row' _. simpl.
    by replace (r0 + S i)%nat with (S r0 + i)%nat by lia.
Qed.

Lemma scan_window_cells {A B : Type} (F : A → B → bool) (xs : list A)
    (ys : list B) (ro co : Z) :
  concat (imap (λ (i : nat) (y : B),
                  concat (imap (λ (j : nat) (x : A),
                                  if F x y then [(Z.of_nat i + ro,
                                                  Z.of_nat j + co)]
                                  else []) xs)) ys)
  = (λ p : nat * nat, (Z.of_nat p.1 + ro, Z.of_nat p.2 + co))
    <$> where_cells ((λ y, (λ x, F x y) <$> xs) <$> ys).
Proof.
  unfold where_cells. rewrite <- scan_grid_cells, imap_fmap.
  f_equal. apply imap_ext. intros i y _. simpl. rewrite imap_fmap.
  f_equal.
Qed.

Lemma ascending_window_convex (lo hi spacing : Q) (coords : list Q) :
  ascending coords →
  ∀ i j k x y z, (i ≤ j ≤ k)%nat →
    coords !! i = Some x → coords !! j = Some y → coords !! k = Some z →
    in_window lo hi spacing x = true → in_window lo hi spacing z = true →
    in_window lo hi spacing y = true.
Proof.
  intros Hasc i j k x y z [Hij Hjk] Hx Hy Hz.
  unfold in_window. rewrite !andb_true_iff, !Qle_bool_iff.
  intros [Hx1 _] [_ Hz2].
  pose proof (Hasc i j x y Hij Hx Hy). pose proof (Hasc j k y z Hjk Hy Hz).
  split; lra.
Qed.

Section SortedGrid.

Variable linestring_is_valid : geometry → bool.
Variable shapely_intersects : geometry → geometry → bool.
Variable shapely_touches : geometry → geometry → bool.

#[local] Abbreviation polyline_to_grid_points' :=
  (_polyline_to_grid_points linestring_is_valid shapely_intersects
     shapely_touches).
#[local] Abbreviation cell_meets_polyline' :=
  (cell_meets_polyline shapely_intersects shapely_touches).

(** X18.  On a grid whose coordinates ascend along both axes, and when the window
    around the polyline holds a grid row and a grid column,
    [_polyline_to_grid_points] returns, in raster order and each once,
    exactly the grid cells of the window whose footprint meets the polyline:
    the returned indices are indices into the whole grid. *)
Theorem polyline_to_grid_points_on_sorted_grid (px py gx gy : list Q)
    (x0 x1 y0 y1 x_lo x_hi y_lo y_hi : Q) :
  length py = length px →
  linestring_is_valid (zip px py) = true →
  np_item gx 1 = Ok x1 → np_item gx 0 = Ok x0 →
  np_item gy 1 = Ok y1 → np_item gy 0 = Ok y0 →
  np_min_Q px = Ok x_lo → np_max_Q px = Ok x_hi →
  np_min_Q py = Ok y_lo → np_max_Q py = Ok y_hi →
  ascending gx → ascending gy →
  (∃ x, x ∈ gx ∧ in_window x_lo x_hi (x1 - x0) x = true) →
  (∃ y, y ∈ gy ∧ in_window y_lo y_hi (y1 - y0) y = true) →
  ∃ cells : list (nat * nat),
    polyline_to_grid_points' px py gx gy
    = Ok ((λ p : nat * nat, Z.of_nat p.1) <$> cells,
          (λ p : nat * nat, Z.of_nat p.2) <$> cells)
    ∧ StronglySorted raster_lt cells
    ∧ ∀ r c, (r, c) ∈ cells
        ↔ ∃ x y, gx !! c = Some x ∧ gy !! r = Some y
                 ∧ in_window x_lo x_hi (x1 - x0) x = true
                 ∧ in_window y_lo y_hi (y1 - y0) y = true
                 ∧ cell_meets_polyline' x y (x1 - x0) (y1 - y0) (zip px py)
                   = true.
Proof.
  intros Hlen Hvalid Hx1 Hx0 Hy1 Hy0 Hxlo Hxhi Hylo Hyhi Hgx Hgy Hwx Hwy.
  destruct (window_indices (in_window x_lo x_hi (x1 - x0)) gx
              (ascending_window_convex _ _ _ _ Hgx) Hwx)
    as (lox & nx & Hnx & Hidx & Hinx).
  destruct (window_indices (in_window y_lo y_hi (y1 - y0)) gy
              (ascending_window_convex _ _ _ _ Hgy) Hwy)
    as (loy & ny & Hny & Hidy & Hiny).
  assert (lox + nx ≤ length gx)%nat as Hlx.
  { destruct (proj1 (Hinx (lox + nx - 1)%nat)) as (x & Hx & _); [lia|].
    apply lookup_lt_Some in Hx. lia. }
  assert (loy + ny ≤ length gy)%nat as Hly.
  { destruct (proj1 (Hiny (loy + ny - 1)%nat)) as (y & Hy & _); [lia|].
    apply lookup_lt_Some in Hy. lia. }
  set (xs := take nx (drop lox gx)). set (ys := take ny (drop loy gy)).
  set (M := (λ y, (λ x, cell_meets_polyline' x y (x1 - x0) (y1 - y0)
                          (zip px py)) <$> xs) <$> ys).
  exists ((λ p : nat * nat, (p.1 + loy, p.2 + lox)%nat) <$> where_cells M).
  split; [|split].
  - unfold _polyline_to_grid_points,
      _polyline_from_vertex_arrays_to_linestring, _vertex_arrays_to_list,
      _check_polyline.
    rewrite bool_decide_eq_true_2 by done.
    cbn [assert_that mbind result_bind]. rewrite Hvalid.
    cbn [assert_that mbind result_bind].
    rewrite Hx1, Hx0, Hy1, Hy0, Hxlo, Hxhi, Hylo, Hyhi.
    cbn [mbind result_bind].
    change (λ x : Q, Qle_bool (x_lo - (x1 - x0)) x
                     && Qle_bool x (x_hi + (x1 - x0)))
      with (in_window x_lo x_hi (x1 - x0)).
    change (λ y : Q, Qle_bool (y_lo - (y1 - y0)) y
                     && Qle_bool y (y_hi + (y1 - y0)))
      with (in_window y_lo y_hi (y1 - y0)).
    rewrite Hidx, Hidy, !np_min_Z_counting by done.
    cbn [mbind result_bind].
    rewrite !np_take_counting by done. cbn [mbind result_bind].
    fold xs ys. cbv zeta.
    pose proof (scan_window_cells
                  (λ x y, cell_meets_polyline' x y (x1 - x0) (y1 - y0)
                            (zip px py))
                  xs ys (Z.of_nat loy) (Z.of_nat lox)) as Hscan.
    fold M in Hscan. unfold cell_meets_polyline in Hscan at 1.
    rewrite Hscan. rewrite <- !list_fmap_compose. f_equal. f_equal.
    + apply list_fmap_ext. intros _ p _. simpl. lia.
    + apply list_fmap_ext. intros _ p _. simpl. lia.
  - apply (StronglySorted_fmap _ raster_lt); [|apply where_cells_sorted].
    intros [r c] [r' c']. unfold raster_lt. simpl. lia.
  - intros r c. rewrite list_elem_of_fmap.
    assert (∀ i j, mget M i j = Some true
                   ↔ ∃ x y, xs !! j = Some x ∧ ys !! i = Some y
                            ∧ cell_meets_polyline' x y (x1 - x0) (y1 - y0)
                                (zip px py) = true) as HM.
    { intros i j. unfold M, mget. rewrite list_lookup_fmap.
      destruct (ys !! i) as [y|]; cbn [fmap option_fmap option_map mbind option_bind].
      - rewrite list_lookup_fmap.
        destruct (xs !! j) as [x|]; cbn [fmap option_fmap option_map].
        + split; [intros [= H]; by exists x, y|].
          intros (x' & y' & [= <-] & [= <-] & H). by rewrite H.
        + split; [done | by intros (? & ? & ? & _)].
      - split; [done | by intros (? & ? & _ & ? & _)]. }
    assert (∀ j x, xs !! j = Some x
                   ↔ (j < nx)%nat ∧ gx !! (lox + j)%nat = Some x) as Hxs.
    { intros j x. unfold xs. rewrite lookup_take_Some, lookup_drop. tauto. }
    assert (∀ i y, ys !! i = Some y
                   ↔ (i < ny)%nat ∧ gy !! (loy + i)%nat = Some y) as Hys.
    { intros i y. unfold ys. rewrite lookup_take_Some, lookup_drop. tauto. }
    split.
    + intros ([i j] & [= -> ->] & Hin). cbn [fst snd].
      apply elem_of_where_cells, HM in Hin as (x & y & Hx & Hy & Hmeet).
      apply Hxs in Hx as [Hj Hx]. apply Hys in Hy as [Hi Hy].
      exists x, y. rewrite (Nat.add_comm j), (Nat.add_comm i).
      split; [done|]. split; [done|].
      destruct (proj1 (Hinx (lox + j)%nat)) as (x' & Hx' & Hfx); [lia|].
      destruct (proj1 (Hiny (loy + i)%nat)) as (y' & Hy' & Hfy); [lia|].
      rewrite Hx in Hx'. injection Hx' as <-.
      rewrite Hy in Hy'. injection Hy' as <-. done.
    + intros (x & y & Hx & Hy & Hfx & Hfy & Hmeet).
      assert (lox ≤ c < lox + nx)%nat as Hc by (apply Hinx; eauto).
      assert (loy ≤ r < loy + ny)%nat as Hr by (apply Hiny; eauto).
      exists ((r - loy)%nat, (c - lox)%nat). cbn [fst snd]. split.
      * f_equal; lia.
      * apply elem_of_where_cells, HM. exists x, y.
        rewrite Hxs, Hys.
        replace (lox + (c - lox))%nat with c by lia.
        replace (loy + (r - loy))%nat with r by lia.
        split; [split; [lia|done]|]. split; [split; [lia|done]|done].
Qed.

End SortedGrid.

Lemma small_grid_axes_ascending :
  ascending SmallGrid.grid_point_x_coords_metres
  ∧ ascending SmallGrid.grid_point_y_coords_metres.
Proof.
  split.
  - intros [|[|[|[|i]]]] [|[|[|[|j]]]] x y Hij Hx Hy;
      cbv in Hx, Hy; try discriminate; try lia;
      injection Hx as <-; injection Hy as <-; by vm_compute.
  - intros [|[|[|i]]] [|[|[|j]]] x y Hij Hx Hy;
      cbv in Hx, Hy; try discriminate; try lia;
      injection Hx as <-; injection Hy as <-; by vm_compute.
Qed.

Lemma polyline_to_grid_points_witness :
  ∃ cells : list (nat * nat),
    SmallGrid.polyline_to_grid_points [0; 2]%Q [0; 0]%Q
      SmallGrid.grid_point_x_coords_metres SmallGrid.grid_point_y_coords_metres
    = Ok ((λ p : nat * nat, Z.of_nat p.1) <$> cells,
          (λ p : nat * nat, Z.of_nat p.2) <$> cells)
    ∧ StronglySorted raster_lt cells.
Proof.
  destruct (polyline_to_grid_points_on_sorted_grid
              SmallGrid.linestring_is_valid SmallGrid.shapely_intersects
              SmallGrid.shapely_touches [0; 2]%Q [0; 0]%Q
              SmallGrid.grid_point_x_coords_metres
              SmallGrid.grid_point_y_coords_metres
              0%Q 2%Q 0%Q 2%Q 0%Q 2%Q 0%Q 0%Q)
    as (cells & Hcells & Hsorted & _); try reflexivity.
  - apply small_grid_axes_ascending.
  - apply small_grid_axes_ascending.
  - exists 0%Q. split; [by left | reflexivity].
  - exists 0%Q. split; [by left | reflexivity].
  - by exists cells.
Defined.

(** ** The table of rasterized fronts *)

Lemma foldM_put_is_matrix {A : Type} (n1 n2 R C : nat) (acc m' : matrix A)
    (ps : list (Z * Z)) (v : A) :
  is_matrix R C acc →
  foldM (λ m' (p : Z * Z),
           r ← norm_index n1 p.1 ;
           c ← norm_index n2 p.2 ;
           Ok (mset m' r c v)) acc ps = Ok m' →
  is_matrix R C m'
  ∧ ∀ r c y, mget m' r c = Some y → y = v ∨ mget acc r c = Some y.
Proof.
  revert acc. induction ps as [|p ps IH]; intros acc Hacc; cbn [foldM].
  { intros [= <-]. split; [done|]. auto. }
  destruct (norm_index n1 p.1) as [r|]; cbn [mbind result_bind]; [|done].
  destruct (norm_index n2 p.2) as [c|]; cbn [mbind result_bind]; [|done].
  intros H. apply IH in H as [Hm Hval]; [|by apply is_matrix_mset].
  split; [done|]. intros r' c' y Hy. destruct (Hval r' c' y Hy) as [->|Hy'].
  - by left.
  - rewrite mget_mset in Hy'. destruct (decide (r = r' ∧ c = c')); [|by right].
    destruct (mget acc r' c'); [|done]. injection Hy' as <-. by left.
Qed.

Lemma index_put_is_matrix {A : Type} (m m' : matrix A) (R C : nat)
    (idx : list Z * list Z) (v : A) :
  is_matrix R C m → index_put m idx v = Ok m' →
  is_matrix R C m'
  ∧ ∀ r c y, mget m' r c = Some y → y = v ∨ mget m r c = Some y.
Proof.
  intros Hm. unfold index_put.
  destruct (broadcast_indices idx.1 idx.2) as [ps|]; cbn [mbind result_bind];
    [|done].
  by apply foldM_put_is_matrix.
Qed.

Lemma foldM_invariant {A S : Type} (P : S → Prop) (f : S → A → result S)
    (s s' : S) (l : list A) :
  (∀ s a s', P s → f s a = Ok s' → P s') →
  P s → foldM f s l = Ok s' → P s'.
Proof.
  intros Hstep. revert s. induction l as [|a l IH]; intros s Hs; cbn [foldM].
  - by intros [= <-].
  - destruct (f s a) as [s1|] eqn:Hf; cbn [mbind result_bind]; [|done].
    apply IH. by eapply Hstep.
Qed.

Lemma mapM_Ok_inv {A B : Type} (f : A → result B) (l : list A) (ys : list B) :
  mapM f l = Ok ys →
  length ys = length l
  ∧ ∀ i y, ys !! i = Some y → ∃ x, l !! i = Some x ∧ f x = Ok y.
Proof.
  revert ys. induction l as [|a l IH]; intros ys; cbn [mapM].
  - intros [= <-]. split; [done|]. by intros i y ?.
  - destruct (f a) as [b|] eqn:Hb; cbn [mbind result_bind]; [|done].
    destruct (mapM f l) as [bs|]; cbn [mbind result_bind]; [|done].
    intros [= <-]. destruct (IH bs eq_refl) as [Hlen Hall]. split.
    + simpl. by rewrite Hlen.
    + intros [|i] y Hy.
      * injection Hy as <-. by exists a.
      * by apply Hall.
Qed.

Lemma np_unique_spec (l : list Z) :
  StronglySorted Z.le (np_unique l) ∧ NoDup (np_unique l)
  ∧ ∀ x, x ∈ np_unique l ↔ x ∈ l.
Proof.
  unfold np_unique. split; [|split].
  - apply (StronglySorted_merge_sort Z.le); apply _.
  - rewrite merge_sort_Permutation. apply NoDup_remove_dups.
  - intros x. by rewrite merge_sort_Permutation, elem_of_remove_dups.
Qed.

(** The point lists of a valid grid: no duplicates, inside the grid, and no
    cell in both lists. *)
Lemma frontal_grid_to_points_inv (g : matrix Z) (R C : nat)
    (d : frontal_grid_dict) :
  is_matrix R C g → frontal_grid_to_points g = Ok d →
  length (warm_front_row_indices d) = length (warm_front_column_indices d)
  ∧ length (cold_front_row_indices d) = length (cold_front_column_indices d)
  ∧ NoDup (dict_warm_points d) ∧ NoDup (dict_cold_points d)
  ∧ (∀ p, p ∈ dict_warm_points d ∨ p ∈ dict_cold_points d →
          0 ≤ p.1 < Z.of_nat R ∧ 0 ≤ p.2 < Z.of_nat C)
  ∧ (∀ p, p ∈ dict_warm_points d → p ∉ dict_cold_points d).
Proof.
  intros Hg Hd. unfold frontal_grid_to_points in Hd.
  apply bind_Ok in Hd as (_ & _ & Hd). apply bind_Ok in Hd as (_ & _ & Hd).
  injection Hd as <-. unfold dict_warm_points, dict_cold_points.
  cbn [warm_front_row_indices warm_front_column_indices
       cold_front_row_indices cold_front_column_indices].
  unfold np_where. cbn [fst snd]. rewrite !length_fmap, !zip_cell_index.
  split; [done|]. split; [done|].
  split; [apply (NoDup_fmap_2 _), NoDup_where_cells|].
  split; [apply (NoDup_fmap_2 _), NoDup_where_cells|].
  split.
  - intros p [Hp|Hp]; apply list_elem_of_fmap in Hp as ([r c] & -> & Hp);
      apply elem_of_where_cells in Hp;
      (destruct (mget_Some_lt _ R C r c _ (is_matrix_mmap _ _ _ _ Hg) Hp));
      unfold cell_index; cbn [fst snd]; lia.
  - intros p ([r c] & -> & Hw)%list_elem_of_fmap
           ([r' c'] & Heq & Hc)%list_elem_of_fmap.
    apply cell_index_inj in Heq. injection Heq as <- <-.
    apply elem_of_where_cells, mget_mmap_eqb in Hw.
    apply elem_of_where_cells, mget_mmap_eqb in Hc.
    rewrite Hw in Hc. done.
Qed.

Section FrontTable.

Variable narr_grid_spacing_metres : Q.
Variable narr_grid_point_x_coords_metres : list Q.
Variable narr_grid_point_y_coords_metres : list Q.
Variable narr_grid_dimensions : Z * Z.
Variable project_latlng_to_xy : list float → list float → list Q * list Q.
Variable linestring_is_valid : geometry → bool.
Variable shapely_intersects : geometry → geometry → bool.
Variable shapely_touches : geometry → geometry → bool.

#[local] Abbreviation rasterize_front' :=
  (rasterize_front narr_grid_spacing_metres narr_grid_point_x_coords_metres
     narr_grid_point_y_coords_metres narr_grid_dimensions project_latlng_to_xy
     linestring_is_valid shapely_intersects shapely_touches).
#[local] Abbreviation rasterize_time' :=
  (rasterize_time narr_grid_spacing_metres narr_grid_point_x_coords_metres
     narr_grid_point_y_coords_metres narr_grid_dimensions project_latlng_to_xy
     linestring_is_valid shapely_intersects shapely_touches).
#[local] Abbreviation many_polylines_to_narr_grid' :=
  (many_polylines_to_narr_grid narr_grid_spacing_metres
     narr_grid_point_x_coords_metres narr_grid_point_y_coords_metres
     narr_grid_dimensions project_latlng_to_xy linestring_is_valid
     shapely_intersects shapely_touches).

Lemma rasterize_front_is_matrix (front_table : list front_record) (d : Q)
    (i : nat) (g g' : matrix Z) (j : Z) (R C : nat) :
  is_matrix R C g → rasterize_front' front_table d i g j = Ok g' →
  is_matrix R C g'.
Proof.
  intros Hg. unfold rasterize_front. intros H.
  apply bind_Ok in H as (lats & _ & H). apply bind_Ok in H as (lngs & _ & H).
  apply bind_Ok in H as ([|] & _ & H); [by injection H as <-|].
  apply bind_Ok in H as (b & _ & H). apply bind_Ok in H as (type_j & _ & H).
  destruct (String.eqb type_j WARM_FRONT_STRING_ID).
  - by eapply index_put_is_matrix.
  - apply bind_Ok in H as (type_i & _ & H).
    destruct (String.eqb type_i COLD_FRONT_STRING_ID).
    + by eapply index_put_is_matrix.
    + by injection H as <-.
Qed.

Lemma rasterize_time_inv (front_table : list front_record) (d : Q)
    (i : nat) (valid_time : Z) (dict : frontal_grid_dict) :
  rasterize_time' front_table d i valid_time = Ok dict →
  length (warm_front_row_indices dict)
  = length (warm_front_column_indices dict)
  ∧ length (cold_front_row_indices dict)
    = length (cold_front_column_indices dict)
  ∧ NoDup (dict_warm_points dict) ∧ NoDup (dict_cold_points dict)
  ∧ (∀ p, p ∈ dict_warm_points dict ∨ p ∈ dict_cold_points dict →
          0 ≤ p.1 < narr_grid_dimensions.1 ∧ 0 ≤ p.2 < narr_grid_dimensions.2)
  ∧ (∀ p, p ∈ dict_warm_points dict → p ∉ dict_cold_points dict).
Proof.
  unfold rasterize_time. destruct narr_grid_dimensions as [R C] eqn:Hdim.
  intros H. apply bind_Ok in H as (g0 & Hg0 & H).
  apply bind_Ok in H as (g & Hg & H).
  unfold np_full in Hg0. destruct (decide (0 ≤ R ∧ 0 ≤ C)) as [[HR HC]|]; [|done].
  injection Hg0 as <-.
  assert (is_matrix (Z.to_nat R) (Z.to_nat C) g) as Hshape.
  { eapply (foldM_invariant (is_matrix (Z.to_nat R) (Z.to_nat C)));
      [| |exact Hg].
    - intros s a s' Hs Hf. rewrite <- Hdim in Hf.
      by eapply rasterize_front_is_matrix.
    - apply is_matrix_replicate. }
  pose proof (frontal_grid_to_points_inv g _ _ dict Hshape H) as Hinv.
  rewrite !Z2Nat.id in Hinv by done. exact Hinv.
Qed.

(** X19.  The table that [many_polylines_to_narr_grid] returns has one row for
    each distinct valid time of the front table, in ascending order, and its
    five columns have the same length.  In every row the warm and the cold
    index arrays pair up to cells inside the grid, without duplicates and
    with no cell both warm and cold. *)
Theorem many_polylines_table_invariants (front_table : list front_record)
    (d : Q) (t : frontal_grid_table) :
  many_polylines_to_narr_grid' front_table d = Ok t →
  StronglySorted Z.le (table_unix_time_sec t)
  ∧ NoDup (table_unix_time_sec t)
  ∧ (∀ time, time ∈ table_unix_time_sec t
             ↔ ∃ record, record ∈ front_table ∧ unix_time_sec record = time)
  ∧ length (table_warm_front_row_indices t) = length (table_unix_time_sec t)
  ∧ length (table_warm_front_column_indices t)
    = length (table_unix_time_sec t)
  ∧ length (table_cold_front_row_indices t) = length (table_unix_time_sec t)
  ∧ length (table_cold_front_column_indices t)
    = length (table_unix_time_sec t)
  ∧ ∀ i wr wc cr cc,
      table_warm_front_row_indices t !! i = Some wr →
      table_warm_front_column_indices t !! i = Some wc →
      table_cold_front_row_indices t !! i = Some cr →
      table_cold_front_column_indices t !! i = Some cc →
      length wr = length wc ∧ length cr = length cc
      ∧ NoDup (zip wr wc) ∧ NoDup (zip cr cc)
      ∧ (∀ p, p ∈ zip wr wc ∨ p ∈ zip cr cc →
              0 ≤ p.1 < narr_grid_dimensions.1
              ∧ 0 ≤ p.2 < narr_grid_dimensions.2)
      ∧ (∀ p, p ∈ zip wr wc → p ∉ zip cr cc).
Proof.
  unfold many_polylines_to_narr_grid. intros H.
  apply bind_Ok in H as (dicts & Hdicts & H). injection H as <-.
  cbn [table_unix_time_sec table_warm_front_row_indices
       table_warm_front_column_indices table_cold_front_row_indices
       table_cold_front_column_indices].
  destruct (np_unique_spec (unix_time_sec <$> front_table))
    as (Hsorted & Hnodup & Helem).
  apply mapM_Ok_inv in Hdicts as [Hlen Hall].
  rewrite length_imap in Hlen.
  split; [done|]. split; [done|]. split.
  { intros time. rewrite Helem, list_elem_of_fmap. split.
    - intros (record & -> & Hin). by exists record.
    - intros (record & Hin & <-). by exists record. }
  rewrite !length_fmap.
  split; [done|]. split; [done|]. split; [done|]. split; [done|].
  intros i wr wc cr cc. rewrite !list_lookup_fmap.
  destruct (dicts !! i) as [dict|] eqn:Hdict; [|done].
  cbn [fmap option_fmap option_map].
  intros [= <-] [= <-] [= <-] [= <-].
  destruct (Hall i dict Hdict) as ([i' time] & _ & Hraster).
  cbn [fst snd] in Hraster. exact (rasterize_time_inv _ _ _ _ _ Hraster).
Qed.

End FrontTable.

Lemma many_polylines_table_witness :
  ∃ t,
    SmallGrid.many_polylines_to_grid
      [SmallGrid.cold_record; SmallGrid.warm_record] 0 = Ok t
    ∧ NoDup (table_unix_time_sec t)
    ∧ length (table_warm_front_row_indices t) = length (table_unix_time_sec t).
Proof.
  eexists. split; [vm_compute; reflexivity|].
  destruct (many_polylines_table_invariants SmallGrid.grid_spacing_metres
              SmallGrid.grid_point_x_coords_metres
              SmallGrid.grid_point_y_coords_metres SmallGrid.grid_dimensions
              SmallGrid.project_latlng_to_xy SmallGrid.linestring_is_valid
              SmallGrid.shapely_intersects SmallGrid.shapely_touches
              [SmallGrid.cold_record; SmallGrid.warm_record] 0
              {| table_unix_time_sec := [0];
                 table_warm_front_row_indices := [[0; 0]];
                 table_warm_front_column_indices := [[0; 1]];
                 table_cold_front_row_indices := [[2; 2]];
                 table_cold_front_column_indices := [[2; 3]] |})
    as (_ & H1 & _ & H2 & _); [reflexivity|].
  split; [exact H1 | exact H2].
Defined.

(** ** A polyline on the NARR grid *)

Lemma Qmax'_idem (d : Q) : Qmax' (Qmax' d 1) 1 = Qmax' d 1.
Proof.
  unfold Qmax'. destruct (Qle_bool d 1) eqn:Hd; [done|]. by rewrite Hd.
Qed.

Lemma foldM_put_in_bounds {A : Type} (n1 n2 : nat) (acc m' : matrix A)
    (ps : list (Z * Z)) (v : A) :
  foldM (λ m' (p : Z * Z),
           r ← norm_index n1 p.1 ;
           c ← norm_index n2 p.2 ;
           Ok (mset m' r c v)) acc ps = Ok m' →
  ∀ p, p ∈ ps → - Z.of_nat n1 ≤ p.1 < Z.of_nat n1
                ∧ - Z.of_nat n2 ≤ p.2 < Z.of_nat n2.
Proof.
  intros Hput p Hp.
  destruct (decide (- Z.of_nat n1 ≤ p.1 < Z.of_nat n1
                    ∧ - Z.of_nat n2 ≤ p.2 < Z.of_nat n2)) as [|Hbad]; [done|].
  by rewrite (foldM_put_bad_point n1 n2 acc ps v p Hp Hbad) in Hput.
Qed.

(** The image that [_grid_points_to_binary_image] builds from index arrays
    of equal length holds [True] exactly at the cells the arrays address. *)
Lemma grid_points_to_binary_image_cells (rows cols : list Z) (R C : nat)
    (m : matrix bool) :
  length rows = length cols → (0 < R)%nat →
  _grid_points_to_binary_image rows cols (Z.of_nat R) (Z.of_nat C) = Ok m →
  is_matrix R C m
  ∧ ∀ r c, mget m r c = Some true ↔ addresses R C (zip rows cols) r c.
Proof.
  intros Hlen HR. unfold _grid_points_to_binary_image.
  rewrite np_full_Ok. cbn [mbind result_bind]. unfold index_put.
  cbn [fst snd]. unfold broadcast_indices. rewrite decide_True by done.
  cbn [mbind result_bind].
  rewrite nrows_replicate, ncols_replicate by done. intros Hput.
  pose proof (foldM_put_in_bounds _ _ _ _ _ _ Hput) as Hbounds.
  rewrite foldM_put_wrapped in Hput by done. injection Hput as <-.
  split; [apply is_matrix_put_cells, is_matrix_replicate|].
  intros r c. rewrite mget_put_cells, mget_replicate.
  assert ((r, c) ∈ (λ p : Z * Z, (Z.to_nat (p.1 mod Z.of_nat R),
                                   Z.to_nat (p.2 mod Z.of_nat C)))
                   <$> zip rows cols
          ↔ addresses R C (zip rows cols) r c) as Hin.
  { rewrite list_elem_of_fmap. unfold addresses. split.
    - intros (p & [= -> ->] & Hp). exists p. split; [done|].
      destruct (Hbounds p Hp).
      rewrite !Z2Nat.id; [done|apply Z.mod_pos_bound; lia..].
    - intros (p & Hp & H1 & H2). exists p. split; [|done].
      by rewrite H1, H2, !Nat2Z.id. }
  destruct (decide ((r, c) ∈ _)) as [Hrc|Hrc].
  - apply Hin in Hrc. split; [done|]. intros _.
    destruct Hrc as (p & Hp & H1 & H2). destruct (Hbounds p Hp).
    pose proof (Z.mod_pos_bound p.1 (Z.of_nat R)).
    pose proof (Z.mod_pos_bound p.2 (Z.of_nat C)).
    rewrite (decide_True (P := (r < R ∧ c < C)%nat)) by lia. done.
  - split; [|by intros ?%Hin]. by destruct (decide (r < R ∧ c < C)%nat).
Qed.

Section PolylineRaster.

Variable narr_grid_spacing_metres : Q.
Variable narr_grid_point_x_coords_metres : list Q.
Variable narr_grid_point_y_coords_metres : list Q.
Variable narr_grid_dimensions : Z * Z.
Variable project_latlng_to_xy : list float → list float → list Q * list Q.
Variable linestring_is_valid : geometry → bool.
Variable shapely_intersects : geometry → geometry → bool.
Variable shapely_touches : geometry → geometry → bool.

#[local] Abbreviation polyline_to_binary_narr_grid' :=
  (polyline_to_binary_narr_grid narr_grid_spacing_metres
     narr_grid_point_x_coords_metres narr_grid_point_y_coords_metres
     narr_grid_dimensions project_latlng_to_xy linestring_is_valid
     shapely_intersects shapely_touches).
#[local] Abbreviation polyline_to_grid_points' :=
  (_polyline_to_grid_points linestring_is_valid shapely_intersects
     shapely_touches).

Lemma polyline_to_grid_points_lengths (px py gx gy : list Q)
    (rows cols : list Z) :
  polyline_to_grid_points' px py gx gy = Ok (rows, cols) →
  length rows = length cols.
Proof.
  unfold _polyline_to_grid_points. intros H.
  repeat (apply bind_Ok in H as (? & _ & H)).
  injection H as <- <-. by rewrite !length_fmap.
Qed.

(** X20.  Whenever [polyline_to_binary_narr_grid] returns, its result is a
    binary image with the dimensions of the grid in which every cell that
    [_polyline_to_grid_points] lists for the projected polyline is marked,
    and every marked cell has a listed cell within
    floor (max (d, 1) / spacing) rows and columns. *)
Theorem polyline_raster_covers_footprint (lats lngs : list float) (d : Q)
    (R C : nat) (out : matrix Z) :
  (0 < narr_grid_spacing_metres)%Q → (0 < R)%nat → (0 < C)%nat →
  narr_grid_dimensions = (Z.of_nat R, Z.of_nat C) →
  polyline_to_binary_narr_grid' lats lngs d = Ok out →
  ∃ rows cols,
    polyline_to_grid_points'
      (project_latlng_to_xy lats lngs).1 (project_latlng_to_xy lats lngs).2
      narr_grid_point_x_coords_metres narr_grid_point_y_coords_metres
    = Ok (rows, cols)
    ∧ is_matrix R C out ∧ binary_image out
    ∧ (∀ r c, (r < R)%nat → (c < C)%nat →
         addresses R C (zip rows cols) r c → mget out r c = Some 1)
    ∧ ∀ r c, mget out r c = Some 1 →
        ∃ r' c', addresses R C (zip rows cols) r' c'
                 ∧ Z.abs (Z.of_nat r' - Z.of_nat r)
                   ≤ Qfloor (effective_distance d / narr_grid_spacing_metres)
                 ∧ Z.abs (Z.of_nat c' - Z.of_nat c)
                   ≤ Qfloor (effective_distance d / narr_grid_spacing_metres).
Proof.
  intros Hs HR HC Hdim. unfold polyline_to_binary_narr_grid. rewrite Hdim.
  intros H. apply bind_Ok in H as (_ & _ & H).
  destruct (project_latlng_to_xy lats lngs) as [px py]. cbn [fst snd].
  apply bind_Ok in H as ([rows cols] & Hpoints & H).
  apply bind_Ok in H as (binary & Hbinary & H).
  exists rows, cols. split; [done|].
  pose proof (polyline_to_grid_points_lengths _ _ _ _ _ _ Hpoints) as Hlen.
  destruct (grid_points_to_binary_image_cells rows cols R C binary Hlen HR
              Hbinary) as [Hshape Hcells].
  assert (0 < Qmax' d 1)%Q as Hpos.
  { eapply Qlt_le_trans; [|apply Qmax'_ge_1]. reflexivity. }
  destruct (dilate_binary_by_distance narr_grid_spacing_metres (Qmax' d 1)
              (mmap Z.b2z binary) Hs Hpos (binary_image_b2z binary))
    as (kernel & Hdil & Hoff).
  rewrite Hdil in H. injection H as <-.
  unfold effective_distance in Hoff. rewrite Qmax'_idem in Hoff.
  destruct (distance_kernel_reach narr_grid_spacing_metres (Qmax' d 1) kernel
              Hs Hpos Hoff) as [Hcentre Hreach].
  assert (is_matrix R C (mmap Z.b2z binary)) as Hshape'
    by by apply is_matrix_mmap.
  split; [by apply is_matrix_cv2_dilate|].
  split; [apply cv2_dilate_binary, binary_image_b2z|].
  assert (∀ r c, mget (mmap Z.b2z binary) r c = Some 1
                 ↔ addresses R C (zip rows cols) r c) as Hone.
  { intros r c. rewrite <- Hcells, mget_mmap.
    destruct (mget binary r c) as [[|]|]; cbn; split; done. }
  split.
  - intros r c Hr Hc Hrc%Hone.
    by apply (cv2_dilate_extensive _ kernel R C);
      [|apply binary_image_b2z|..].
  - intros r c Hout.
    destruct (cv2_dilate_reach _ kernel _ r c (binary_image_b2z binary)
                Hreach Hout) as (r' & c' & Hget%Hone & H1 & H2).
    by exists r', c'.
Qed.

End PolylineRaster.

Lemma polyline_raster_witness :
  ∃ rows cols,
    SmallGrid.polyline_to_grid_points
      (SmallGrid.project_latlng_to_xy [0; 0]%float [0; 2]%float).1
      (SmallGrid.project_latlng_to_xy [0; 0]%float [0; 2]%float).2
      SmallGrid.grid_point_x_coords_metres SmallGrid.grid_point_y_coords_metres
    = Ok (rows, cols)
    ∧ is_matrix 3 4 [[1; 1; 1; 0]; [1; 1; 0; 0]; [0; 0; 0; 0]].
Proof.
  destruct (polyline_raster_covers_footprint
              SmallGrid.grid_spacing_metres
              SmallGrid.grid_point_x_coords_metres
              SmallGrid.grid_point_y_coords_metres SmallGrid.grid_dimensions
              SmallGrid.project_latlng_to_xy SmallGrid.linestring_is_valid
              SmallGrid.shapely_intersects SmallGrid.shapely_touches
              [0; 0]%float [0; 2]%float 2 3 4
              [[1; 1; 1; 0]; [1; 1; 0; 0]; [0; 0; 0; 0]])
    as (rows & cols & H1 & H2 & _).
  - reflexivity.
  - lia.
  - lia.
  - reflexivity.
  - reflexivity.
  - by exists rows, cols.
Defined.

Example separation_time_unit_test :
  let hours := [0; 3; 6; 9; 12; 15; 18; 21; 24; 27; 33; 36; 39; 42; 45; 48;
                744; 747; 753; 756; 759; 762; 765; 768; 771; 774; 777; 780;
                783; 786; 789; 792] in
  let times := (λ h, h * 3600) <$> hours in
  let before := [1; 1; 1; 2; 2; 1; 2; 1; 0; 1; 2; 1; 0; 0; 2; 2;
                 2; 2; 1; 0; 0; 0; 0; 2; 0; 1; 2; 2; 2; 0; 1; 1] in
  _apply_sep_time_one_front_type 0 before times 80000 1
  = Ok [1; 0; 0; 2; 2; 0; 2; 0; 0; 1; 2; 0; 0; 0; 2; 2;
        2; 2; 1; 0; 0; 0; 0; 2; 0; 0; 2; 2; 2; 0; 1; 0]
  ∧ _apply_sep_time_one_front_type 0 before times 80000 2
    = Ok [1; 1; 1; 2; 0; 1; 0; 1; 0; 1; 2; 1; 0; 0; 0; 0;
          2; 0; 1; 0; 0; 0; 0; 2; 0; 1; 0; 0; 0; 0; 1; 1].
Proof. split; vm_compute; reflexivity. Qed.

(** ** Seasons, hours and months *)

(** X21.  [season_to_months] raises [ValueError] for a string that is not one of
    the four seasons; for a season it returns three months that
    [_check_months] accepts, and every month from 1 to 12 belongs to exactly
    one season. *)
Theorem seasons_partition_the_year :
  (∀ season, season ∉ VALID_SEASON_STRINGS →
             season_to_months season = Raise ValueError)
  ∧ (∀ season, season ∈ VALID_SEASON_STRINGS →
       ∃ months, season_to_months season = Ok months
                 ∧ length months = 3%nat ∧ _check_months months = Ok tt)
  ∧ (∀ m, 1 ≤ m ≤ 12 →
       ∃ season months,
         season ∈ VALID_SEASON_STRINGS
         ∧ season_to_months season = Ok months ∧ m ∈ months
         ∧ ∀ season' months',
             season_to_months season' = Ok months' → m ∈ months' →
             season' = season).
Proof.
  assert (∀ season months,
            season_to_months season = Ok months →
            (season = WINTER_STRING ∧ months = [12; 1; 2])
            ∨ (season = SPRING_STRING ∧ months = [3; 4; 5])
            ∨ (season = SUMMER_STRING ∧ months = [6; 7; 8])
            ∨ (season = FALL_STRING ∧ months = [9; 10; 11])) as Hinv.
  { intros season months. unfold season_to_months, _check_season.
    destruct (bool_decide (season ∈ VALID_SEASON_STRINGS)) eqn:Hin; [|done].
    apply bool_decide_eq_true in Hin. cbn [assert_that mbind result_bind].
    unfold VALID_SEASON_STRINGS in Hin.
    repeat (apply elem_of_cons in Hin as [->|Hin]);
      [| | | |by apply elem_of_nil in Hin]; cbn; intros [= <-]; auto 10. }
  split; [|split].
  - intros season Hout. unfold season_to_months, _check_season.
    by rewrite bool_decide_eq_false_2.
  - intros season Hin. unfold VALID_SEASON_STRINGS in Hin.
    repeat (apply elem_of_cons in Hin as [->|Hin]);
      [| | | |by apply elem_of_nil in Hin]; by eexists.
  - intros m Hm.
    assert (m ∈ [12; 1; 2] ∨ m ∈ [3; 4; 5] ∨ m ∈ [6; 7; 8] ∨ m ∈ [9; 10; 11])
      as Hcase.
    { assert (m = 1 ∨ m = 2 ∨ m = 3 ∨ m = 4 ∨ m = 5 ∨ m = 6 ∨ m = 7 ∨ m = 8
              ∨ m = 9 ∨ m = 10 ∨ m = 11 ∨ m = 12) as Hcases by lia.
      repeat destruct Hcases as [->|Hcases]; try subst m;
        rewrite !elem_of_cons; auto 20. }
    assert (∀ (a b c : Z) (l : list Z), l = [a; b; c] → m ∈ l →
              m = a ∨ m = b ∨ m = c) as Hthree.
    { intros a b c l -> Hin. rewrite !elem_of_cons in Hin.
      destruct Hin as [?|[?|[?|Hin]]]; auto. by apply elem_of_nil in Hin. }
    destruct Hcase as [Hin|[Hin|[Hin|Hin]]].
    + exists WINTER_STRING, [12; 1; 2]. split; [by left|].
      split; [done|]. split; [done|]. intros s' ms' Hs' Hm'.
      destruct (Hinv _ _ Hs') as [[-> ->]|[[-> Hl]|[[-> Hl]|[-> Hl]]]];
        [done|..]; apply (Hthree _ _ _ _ eq_refl) in Hin;
        apply (Hthree _ _ _ _ Hl) in Hm'; lia.
    + exists SPRING_STRING, [3; 4; 5]. split; [right; by left|].
      split; [done|]. split; [done|]. intros s' ms' Hs' Hm'.
      destruct (Hinv _ _ Hs') as [[-> Hl]|[[-> ->]|[[-> Hl]|[-> Hl]]]];
        [|done|..]; apply (Hthree _ _ _ _ eq_refl) in Hin;
        apply (Hthree _ _ _ _ Hl) in Hm'; lia.
    + exists SUMMER_STRING, [6; 7; 8]. split; [do 2 right; by left|].
      split; [done|]. split; [done|]. intros s' ms' Hs' Hm'.
      destruct (Hinv _ _ Hs') as [[-> Hl]|[[-> Hl]|[[-> ->]|[-> Hl]]]];
        [| |done|]; apply (Hthree _ _ _ _ eq_refl) in Hin;
        apply (Hthree _ _ _ _ Hl) in Hm'; lia.
    + exists FALL_STRING, [9; 10; 11]. split; [do 3 right; by left|].
      split; [done|]. split; [done|]. intros s' ms' Hs' Hm'.
      destruct (Hinv _ _ Hs') as [[-> Hl]|[[-> Hl]|[[-> Hl]|[-> ->]]]];
        [| | |done]; apply (Hthree _ _ _ _ eq_refl) in Hin;
        apply (Hthree _ _ _ _ Hl) in Hm'; lia.
Qed.

(** The flags that the loops of [filter_by_hour] and [filter_by_month]
    build: a time is kept when its value is one of the wanted ones. *)
Lemma keep_flags_lookup (values wanted : list Z) (keep : list bool) (i : nat)
    (b : bool) :
  length keep = length values →
  foldl (λ keep_time_flags this,
           zip_with orb keep_time_flags ((λ v, v =? this) <$> values))
        keep wanted !! i = Some b →
  ∃ b0 v, keep !! i = Some b0 ∧ values !! i = Some v
          ∧ (b = true ↔ b0 = true ∨ v ∈ wanted).
Proof.
  revert keep. induction wanted as [|w wanted IH]; intros keep Hlen; cbn [foldl].
  - intros Hb. destruct (lookup_lt_is_Some_2 values i) as [v Hv].
    { rewrite <- Hlen. by eapply lookup_lt_Some. }
    exists b, v. split; [done|]. split; [done|].
    split; [by left|]. intros [?|?%elem_of_nil]; done.
  - intros Hb. apply IH in Hb as (b1 & v & Hb1 & Hv & Hiff).
    2: { rewrite length_zip_with, length_fmap. lia. }
    apply lookup_zip_with_Some in Hb1 as (b0 & e & -> & Hb0 & He).
    rewrite list_lookup_fmap, Hv in He. injection He as <-.
    exists b0, v. split; [done|]. split; [done|].
    rewrite Hiff, orb_true_iff, Z.eqb_eq, elem_of_cons. tauto.
Qed.

Lemma keep_flags_length (values wanted : list Z) (keep : list bool) :
  length keep = length values →
  length (foldl (λ keep_time_flags this,
                   zip_with orb keep_time_flags ((λ v, v =? this) <$> values))
                keep wanted) = length values.
Proof.
  revert keep. induction wanted as [|w wanted IH]; intros keep Hlen;
    cbn [foldl]; [done|].
  apply IH. rewrite length_zip_with, length_fmap. lia.
Qed.

Lemma kept_indices (values wanted : list Z) (i : nat) :
  Z.of_nat i
  ∈ np_where1
      (foldl (λ keep_time_flags this,
                zip_with orb keep_time_flags ((λ v, v =? this) <$> values))
             (replicate (length values) false) wanted)
  ↔ ∃ v, values !! i = Some v ∧ v ∈ wanted.
Proof.
  unfold np_where1. rewrite elem_of_where1_from. split.
  - intros (k & Hk & Hb). apply Nat2Z.inj in Hk. simpl in Hk. subst k.
    apply keep_flags_lookup in Hb as (b0 & v & Hb0 & Hv & Hiff);
      [|by rewrite length_replicate].
    apply lookup_replicate in Hb0 as [-> _]. exists v. split; [done|].
    destruct Hiff as [Hiff _]. by destruct Hiff.
  - intros (v & Hv & Hin). exists i. split; [done|].
    destruct (lookup_lt_is_Some_2
                (foldl (λ keep_time_flags this,
                          zip_with orb keep_time_flags
                                   ((λ v, v =? this) <$> values))
                       (replicate (length values) false) wanted) i) as [b Hb].
    { rewrite keep_flags_length by (by rewrite length_replicate).
      by eapply lookup_lt_Some. }
    rewrite Hb. f_equal.
    apply keep_flags_lookup in Hb as (b0 & v' & _ & Hv' & Hiff);
      [|by rewrite length_replicate].
    rewrite Hv in Hv'. injection Hv' as <-. apply Hiff. by right.
Qed.

Lemma forallb_range (lo hi : Z) (l : list Z) :
  forallb (λ x, lo <=? x) l && forallb (λ x, x <=? hi) l = true
  ↔ ∀ x, x ∈ l → lo ≤ x ≤ hi.
Proof.
  rewrite andb_true_iff, !forallb_forall. split.
  - intros [H1 H2] x Hx%list_elem_of_In.
    specialize (H1 x Hx). specialize (H2 x Hx). cbv beta in *. lia.
  - intros H. split; intros x Hx%list_elem_of_In; specialize (H x Hx);
      cbv beta; lia.
Qed.

Section Filters.

Variable unix_sec_to_hour : Z → Z.
Variable unix_sec_to_month : Z → Z.

(** X22.  [filter_by_hour] raises [ValueError] unless every wanted hour lies in
    0..23; otherwise it returns, in ascending order, exactly the indices of
    the times whose hour is one of the wanted hours. *)
Theorem filter_by_hour_keeps_wanted_hours (all_times_unix_sec
    hours_to_keep : list Z) :
  ((∀ h, h ∈ hours_to_keep → 0 ≤ h ≤ 23) →
   ∃ indices_to_keep,
     filter_by_hour unix_sec_to_hour all_times_unix_sec hours_to_keep
     = Ok indices_to_keep
     ∧ StronglySorted Z.lt indices_to_keep
     ∧ (∀ z, z ∈ indices_to_keep → 0 ≤ z)
     ∧ ∀ i, Z.of_nat i ∈ indices_to_keep
            ↔ ∃ t, all_times_unix_sec !! i = Some t
                   ∧ unix_sec_to_hour t ∈ hours_to_keep)
  ∧ (¬ (∀ h, h ∈ hours_to_keep → 0 ≤ h ≤ 23) →
     filter_by_hour unix_sec_to_hour all_times_unix_sec hours_to_keep
     = Raise ValueError).
Proof.
  unfold filter_by_hour, _check_hours.
  pose proof (forallb_range 0 23 hours_to_keep) as Hrange.
  split.
  - intros Hok. apply Hrange in Hok. apply andb_true_iff in Hok as [-> ->].
    cbn [assert_that mbind result_bind]. eexists. split; [reflexivity|].
    split; [apply where1_from_sorted|]. split.
    { intros z (k & -> & _)%elem_of_where1_from. lia. }
    intros i. unfold _exact_times_to_hours.
    rewrite <- (length_fmap unix_sec_to_hour all_times_unix_sec).
    rewrite kept_indices. setoid_rewrite list_lookup_fmap. split.
    + intros (v & Hv & Hin).
      destruct (all_times_unix_sec !! i) as [t|]; [|done].
      injection Hv as <-. by exists t.
    + intros (t & -> & Hin). by eexists.
  - intros Hbad.
    destruct (forallb (λ h, 0 <=? h) hours_to_keep); [|done].
    destruct (forallb (λ h, h <=? 23) hours_to_keep); [|done].
    exfalso. by apply Hbad, Hrange.
Qed.

(** X23.  [filter_by_month] raises [ValueError] unless every wanted month lies in
    1..12; otherwise it returns, in ascending order, exactly the indices of
    the times whose month is one of the wanted months. *)
Theorem filter_by_month_keeps_wanted_months (all_times_unix_sec
    months_to_keep : list Z) :
  ((∀ m, m ∈ months_to_keep → 1 ≤ m ≤ 12) →
   ∃ indices_to_keep,
     filter_by_month unix_sec_to_month all_times_unix_sec months_to_keep
     = Ok indices_to_keep
     ∧ StronglySorted Z.lt indices_to_keep
     ∧ (∀ z, z ∈ indices_to_keep → 0 ≤ z)
     ∧ ∀ i, Z.of_nat i ∈ indices_to_keep
            ↔ ∃ t, all_times_unix_sec !! i = Some t
                   ∧ unix_sec_to_month t ∈ months_to_keep)
  ∧ (¬ (∀ m, m ∈ months_to_keep → 1 ≤ m ≤ 12) →
     filter_by_month unix_sec_to_month all_times_unix_sec months_to_keep
     = Raise ValueError).
Proof.
  unfold filter_by_month, _check_months.
  pose proof (forallb_range 1 12 months_to_keep) as Hrange.
  split.
  - intros Hok. apply Hrange in Hok. apply andb_true_iff in Hok as [-> ->].
    cbn [assert_that mbind result_bind]. eexists. split; [reflexivity|].
    split; [apply where1_from_sorted|]. split.
    { intros z (k & -> & _)%elem_of_where1_from. lia. }
    intros i. unfold _exact_times_to_months.
    rewrite <- (length_fmap unix_sec_to_month all_times_unix_sec).
    rewrite kept_indices. setoid_rewrite list_lookup_fmap. split.
    + intros (v & Hv & Hin).
      destruct (all_times_unix_sec !! i) as [t|]; [|done].
      injection Hv as <-. by exists t.
    + intros (t & -> & Hin). by eexists.
  - intros Hbad.
    destruct (forallb (λ m, 1 <=? m) months_to_keep); [|done].
    destruct (forallb (λ m, m <=? 12) months_to_keep); [|done].
    exfalso. by apply Hbad, Hrange.
Qed.

End Filters.

(** ** Separation time *)

Lemma broadcast1_same {A B C : Type} (f : A → B → C) (l1 : list A)
    (l2 : list B) :
  length l1 = length l2 → broadcast1 f l1 l2 = Ok (zip_with f l1 l2).
Proof. intros H. unfold broadcast1. by rewrite decide_True. Qed.

Lemma foldM_put1 {A : Type} (N : nat) (v : A) (idx : list Z) (acc : list A) :
  length acc = N → (∀ i, i ∈ idx → 0 ≤ i < Z.of_nat N) →
  ∃ l', foldM (λ acc i, k ← norm_index N i ; Ok (<[k := v]> acc)) acc idx
        = Ok l' ∧
        length l' = N ∧
        ∀ n, (n < N)%nat →
             (Z.of_nat n ∈ idx → l' !! n = Some v) ∧
             (Z.of_nat n ∉ idx → l' !! n = acc !! n).
Proof.
  revert acc. induction idx as [|i idx IH]; intros acc Hlen Hidx.
  - exists acc. split; [done|]. split; [done|]. intros n Hn.
    split; [by intros ?%elem_of_nil|done].
  - assert (0 ≤ i < Z.of_nat N) as Hi by (apply Hidx; by left).
    assert (norm_index N i = Ok (Z.to_nat i)) as Hnorm
      by (unfold norm_index; by rewrite decide_True).
    cbn [foldM]. rewrite Hnorm. cbn [mbind result_bind].
    destruct (IH (<[Z.to_nat i := v]> acc)) as (l' & Hl' & Hlen' & Hget).
    { by rewrite length_insert. }
    { intros j Hj. apply Hidx. by right. }
    exists l'. split; [done|]. split; [done|]. intros n Hn.
    destruct (Hget n Hn) as [Hin Hout].
    destruct (decide (Z.of_nat n ∈ idx)) as [Hmem|Hmem].
    + split; [intros _; by apply Hin|].
      intros Hno. exfalso. apply Hno. by right.
    + split.
      * intros [Heq|Hmem']%elem_of_cons; [|done]. rewrite (Hout Hmem).
        replace (Z.to_nat i) with n by lia.
        apply list_lookup_insert_eq. lia.
      * intros Hno. rewrite (Hout Hmem). apply list_lookup_insert_ne.
        intros Heq. apply Hno. apply elem_of_cons. left. lia.
Qed.

Lemma lookup_np_diff (l : list Z) (j : nat) (t0 t1 : Z) :
  l !! j = Some t0 → l !! S j = Some t1 → np_diff l !! j = Some (t1 - t0).
Proof.
  intros H0 H1. unfold np_diff. rewrite lookup_zip_with, lookup_tail, H1.
  simpl. by rewrite H0.
Qed.

Lemma length_np_diff (l : list Z) : length (np_diff l) = (length l - 1)%nat.
Proof.
  unfold np_diff. rewrite length_zip_with. destruct l; simpl; lia.
Qed.

Lemma length_removelast' {A : Type} (l : list A) :
  length (removelast l) = (length l - 1)%nat.
Proof.
  rewrite removelast_firstn_len. rewrite length_take. lia.
Qed.

Lemma lookup_removelast {A : Type} (l : list A) (j : nat) :
  (S j < length l)%nat → removelast l !! j = l !! j.
Proof.
  intros Hj. rewrite removelast_firstn_len. apply lookup_take_lt. lia.
Qed.

Section Separation.

Variable NO_FRONT_ENUM : Z.
Variables (times : list Z) (sep rel smallest : Z).

Local Abbreviation count l := (length (filter (λ x, x = rel) l)).
Local Abbreviation removes := (removes_only NO_FRONT_ENUM rel).
Local Abbreviation step := (separate_from NO_FRONT_ENUM times sep rel).
Local Abbreviation pass :=
  (separation_pass NO_FRONT_ENUM times (np_diff times) smallest sep rel).

Lemma removes_refl (e : list Z) : removes e e.
Proof.
  apply Forall2_same_length_lookup_2; [done|]. intros i x y Hx Hy. left.
  congruence.
Qed.

Lemma removes_trans (e1 e2 e3 : list Z) :
  removes e1 e2 → removes e2 e3 → removes e1 e3.
Proof.
  intros H12. revert e3.
  induction H12 as [|x y l k Hxy _ IH]; intros e3 H23; [done|].
  inversion H23 as [|? z ? k' Hyz Hkk']; subst. constructor; [|by apply IH].
  destruct Hxy as [->|[-> ->]], Hyz as [->|[? ->]]; auto.
Qed.

Lemma removes_length (e1 e2 : list Z) :
  removes e1 e2 → length e2 = length e1.
Proof. intros H. symmetry. by eapply Forall2_length. Qed.

Lemma removes_count (e1 e2 : list Z) :
  removes e1 e2 → e2 = e1 ∨ (count e2 < count e1)%nat.
Proof.
  destruct (decide (NO_FRONT_ENUM = rel)) as [Heq|Hne].
  { intros H. left. induction H as [|o n l k [->|[-> ->]] _ IH]; [done| |].
    - by rewrite IH.
    - by rewrite IH, Heq. }
  intros H.
  assert ((count e2 ≤ count e1)%nat
          ∧ (e2 ≠ e1 → (count e2 < count e1)%nat)) as [_ Hlt].
  { induction H as [|o n l k Hon _ [IHle IHlt]]; [by split|].
    destruct Hon as [->|[-> ->]].
    - destruct (decide (o = rel)) as [Ho|Ho].
      + rewrite !filter_cons_True by done. simpl. split; [lia|].
        intros Hk. assert (k ≠ l) as Hk' by congruence.
        specialize (IHlt Hk'). lia.
      + rewrite !filter_cons_False by done. split; [lia|].
        intros Hk. apply IHlt. congruence.
    - rewrite (filter_cons_True _ rel l) by done.
      rewrite (filter_cons_False _ NO_FRONT_ENUM k) by done.
      simpl. split; lia. }
  destruct (decide (e2 = e1)); auto.
Qed.

Lemma removes_antisym (e1 e2 : list Z) :
  removes e1 e2 → removes e2 e1 → e2 = e1.
Proof.
  intros [?|H1]%removes_count [?|H2]%removes_count; try done. lia.
Qed.

(** The flags whose indices a pass visits. *)
Lemma front_start_indices_ok (e : list Z) :
  (1 ≤ length e)%nat → length e = length times →
  ∃ starts, front_start_indices e (np_diff times) smallest rel = Ok starts ∧
    (∀ k, k ∈ starts → 0 ≤ k < Z.of_nat (length e)) ∧
    ∀ k, front_start e times smallest rel k → Z.of_nat k ∈ starts.
Proof.
  intros Hpos Hlen. unfold front_start_indices.
  rewrite broadcast1_same
    by (rewrite !length_fmap, length_np_diff, length_removelast'; lia).
  cbn [mbind result_bind].
  rewrite broadcast1_same.
  2:{ cbn [length]. rewrite length_zip_with, !length_fmap, length_np_diff,
        length_removelast'. lia. }
  cbn [mbind result_bind]. eexists. split; [done|]. split.
  - intros k (n & -> & Hn)%elem_of_where1_from.
    apply lookup_lt_Some in Hn. rewrite length_zip_with, length_fmap in Hn.
    lia.
  - intros k [Hk Hprev]. apply elem_of_where1_from. exists k.
    split; [done|]. rewrite lookup_zip_with, list_lookup_fmap, Hk.
    cbn [fmap option_fmap option_map mbind option_bind].
    rewrite Z.eqb_refl. destruct k as [|j]; [done|].
    rewrite lookup_cons.
    assert (S j < length e)%nat as Hj by (by apply lookup_lt_Some in Hk).
    rewrite lookup_zip_with, !list_lookup_fmap, lookup_removelast by done.
    destruct (lookup_lt_is_Some_2 e j) as [ej Hej]; [lia|].
    destruct (lookup_lt_is_Some_2 times j) as [t0 Ht0]; [lia|].
    destruct (lookup_lt_is_Some_2 times (S j)) as [t1 Ht1]; [lia|].
    rewrite (lookup_np_diff _ _ _ _ Ht0 Ht1), Hej.
    cbn [fmap option_fmap option_map mbind option_bind]. f_equal.
    destruct Hprev as [Hne|(t0' & t1' & H0 & H1 & Hgap)].
    + assert (ej ≠ rel) as Hne' by congruence.
      apply Z.eqb_neq in Hne'. rewrite Hne'. simpl. by rewrite orb_true_r.
    + assert (t0' = t0) as -> by congruence.
      assert (t1' = t1) as -> by congruence.
      apply Z.ltb_lt in Hgap. by rewrite Hgap.
Qed.

(** The flags of the labels a front start removes. *)
Lemma late_flags_lookup (e : list Z) (tk : Z) (n : nat) :
  zip_with andb ((λ x, x =? rel) <$> e) ((λ t, t <? tk + sep) <$> times) !! n
  = Some true ↔
  e !! n = Some rel ∧ ∃ t, times !! n = Some t ∧ t < tk + sep.
Proof.
  rewrite lookup_zip_with, !list_lookup_fmap.
  destruct (e !! n) as [x|]; [|by split; [|intros [? _]]].
  destruct (times !! n) as [t|];
    [|by split; [|intros [_ (? & ? & _)]]].
  cbn [fmap option_fmap option_map mbind option_bind]. split.
  - intros [= [Hx Ht]%andb_true_iff]. apply Z.eqb_eq in Hx as ->.
    apply Z.ltb_lt in Ht. eauto.
  - intros [[= ->] (t' & [= <-] & Ht)]. apply Z.ltb_lt in Ht.
    by rewrite Z.eqb_refl, Ht.
Qed.

Lemma separate_from_removes (e : list Z) (k : Z) :
  length e = length times → 0 ≤ k < Z.of_nat (length e) →
  ∃ e', step e k = Ok e' ∧ removes e e'.
Proof.
  intros Hlen Hk. unfold separate_from.
  destruct (lookup_lt_is_Some_2 e (Z.to_nat k)) as [ek Hek]; [lia|].
  destruct (lookup_lt_is_Some_2 times (Z.to_nat k)) as [tk Htk]; [lia|].
  rewrite (np_item_lookup e k ek) by (done || lia).
  cbn [mbind result_bind].
  destruct (negb (ek =? rel)); [by eauto using removes_refl|].
  rewrite (np_item_lookup times k tk) by (done || lia).
  cbn [mbind result_bind].
  rewrite broadcast1_same by (by rewrite !length_fmap).
  cbn [mbind result_bind].
  set (these := filter _ _). case_bool_decide; [by eauto using removes_refl|].
  destruct (foldM_put1 (length e) NO_FRONT_ENUM these e) as
    (e' & He' & Hlen' & Hget); [done| |].
  { intros i [_ Hi]%list_elem_of_filter.
    apply elem_of_where1_from in Hi as (n & -> & Hn).
    apply late_flags_lookup in Hn as [Hn _]. apply lookup_lt_Some in Hn.
    lia. }
  exists e'. split; [exact He'|].
  apply Forall2_same_length_lookup_2; [done|]. intros n x y Hx Hy.
  assert (n < length e)%nat as Hn by (by apply lookup_lt_Some in Hx).
  destruct (Hget n Hn) as [Hin Hout].
  destruct (decide (Z.of_nat n ∈ these)) as [Hmem|Hmem].
  - right. rewrite (Hin Hmem) in Hy. injection Hy as <-. split; [|done].
    apply list_elem_of_filter in Hmem as [_ Hmem].
    apply elem_of_where1_from in Hmem as (n' & Hnn & Hflag).
    simpl in Hnn. apply Nat2Z.inj in Hnn as <-.
    apply late_flags_lookup in Hflag as [Hflag _]. congruence.
  - left. rewrite (Hout Hmem) in Hy. congruence.
Qed.

Lemma foldM_separate_removes (ks : list Z) (e : list Z) :
  length e = length times → (∀ k, k ∈ ks → 0 ≤ k < Z.of_nat (length e)) →
  ∃ e', foldM step e ks = Ok e' ∧ removes e e'.
Proof.
  revert e. induction ks as [|k ks IH]; intros e Hlen Hks.
  - exists e. split; [done|apply removes_refl].
  - destruct (separate_from_removes e k Hlen) as (e1 & He1 & Hr1).
    { apply Hks. by left. }
    pose proof (removes_length _ _ Hr1) as Hlen1.
    destruct (IH e1) as (e' & He' & Hr'); [congruence| |].
    { intros j Hj. rewrite Hlen1. apply Hks. by right. }
    exists e'. cbn [foldM]. rewrite He1. cbn [mbind result_bind].
    split; [done|]. by eapply removes_trans.
Qed.

(** A pass that changes nothing has changed nothing at any front start. *)
Lemma foldM_separate_fixed (ks : list Z) (e : list Z) :
  length e = length times → (∀ k, k ∈ ks → 0 ≤ k < Z.of_nat (length e)) →
  foldM step e ks = Ok e → ∀ k, k ∈ ks → step e k = Ok e.
Proof.
  induction ks as [|k ks IH]; intros Hlen Hks Hfold j Hj;
    [by apply elem_of_nil in Hj|].
  destruct (separate_from_removes e k Hlen) as (e1 & He1 & Hr1).
  { apply Hks. by left. }
  cbn [foldM] in Hfold. rewrite He1 in Hfold. cbn [mbind result_bind] in Hfold.
  pose proof (removes_length _ _ Hr1) as Hlen1.
  destruct (foldM_separate_removes ks e1) as (e' & He' & Hr'); [congruence| |].
  { intros i Hi. rewrite Hlen1. apply Hks. by right. }
  assert (e' = e) as -> by congruence.
  assert (e1 = e) as -> by (by apply removes_antisym).
  apply elem_of_cons in Hj as [->|Hj]; [done|].
  apply IH; try done. intros i Hi. apply Hks. by right.
Qed.

Lemma separation_pass_removes (e : list Z) :
  (1 ≤ length e)%nat → length e = length times →
  ∃ e', pass e = Ok e' ∧ removes e e'.
Proof.
  intros Hpos Hlen. unfold separation_pass.
  destruct (front_start_indices_ok e Hpos Hlen) as (starts & -> & Hin & _).
  cbn [mbind result_bind]. by apply foldM_separate_removes.
Qed.

(** The loop ends by its [break] before the bound on the passes is
    reached. *)
Lemma separation_loop_stable (fuel : nat) (e : list Z) :
  (1 ≤ length e)%nat → length e = length times → (count e < fuel)%nat →
  ∃ out, separation_loop NO_FRONT_ENUM fuel times (np_diff times) smallest
           sep rel e = Ok out ∧
         removes e out ∧ pass out = Ok out.
Proof.
  revert e. induction fuel as [|fuel IH]; intros e Hpos Hlen Hfuel; [lia|].
  cbn [separation_loop].
  destruct (separation_pass_removes e Hpos Hlen) as (e' & He' & Hr).
  rewrite He'. cbn [mbind result_bind]. case_bool_decide as Heq.
  - subst e'. exists e. by split; [|split; [apply removes_refl|]].
  - pose proof (removes_length _ _ Hr) as Hlen'.
    destruct (removes_count _ _ Hr) as [?|Hlt]; [done|].
    destruct (IH e') as (out & Hout & Hr' & Hstable); [lia|congruence|lia|].
    exists out. split; [done|]. split; [|done]. by eapply removes_trans.
Qed.

Lemma separation_stable_spec (e : list Z) :
  (1 ≤ length e)%nat → length e = length times → NO_FRONT_ENUM ≠ rel →
  pass e = Ok e →
  ∀ k i tk ti, front_start e times smallest rel k → (k < i)%nat →
               e !! i = Some rel → times !! k = Some tk →
               times !! i = Some ti → tk + sep ≤ ti.
Proof.
  intros Hpos Hlen Hne Hpass k i tk ti Hstart Hki Hi Htk Hti.
  unfold separation_pass in Hpass.
  destruct (front_start_indices_ok e Hpos Hlen) as (starts & Hs & Hin & Hmem).
  rewrite Hs in Hpass. cbn [mbind result_bind] in Hpass.
  pose proof (foldM_separate_fixed starts e Hlen Hin Hpass _ (Hmem k Hstart))
    as Hstep.
  destruct Hstart as [Hk _]. unfold separate_from in Hstep.
  rewrite (np_item_lookup e (Z.of_nat k) rel) in Hstep
    by (lia || by rewrite Nat2Z.id).
  cbn [mbind result_bind] in Hstep. rewrite Z.eqb_refl in Hstep.
  cbn [negb] in Hstep.
  rewrite (np_item_lookup times (Z.of_nat k) tk) in Hstep
    by (lia || by rewrite Nat2Z.id).
  cbn [mbind result_bind] in Hstep.
  rewrite broadcast1_same in Hstep by (by rewrite !length_fmap).
  cbn [mbind result_bind] in Hstep.
  destruct (Z_lt_le_dec ti (tk + sep)) as [Hlate|]; [exfalso|done].
  set (these := filter _ _) in Hstep.
  assert (Z.of_nat i ∈ these) as Hthese.
  { apply list_elem_of_filter. split; [lia|].
    apply elem_of_where1_from. exists i. split; [done|].
    apply late_flags_lookup. eauto. }
  case_bool_decide as Hempty.
  { apply nil_length_inv in Hempty. rewrite Hempty in Hthese.
    by apply elem_of_nil in Hthese. }
  destruct (foldM_put1 (length e) NO_FRONT_ENUM these e) as
    (e' & He' & _ & Hget); [done| |].
  { intros j [_ Hj]%list_elem_of_filter.
    apply elem_of_where1_from in Hj as (n & -> & Hn).
    apply late_flags_lookup in Hn as [Hn _]. apply lookup_lt_Some in Hn.
    lia. }
  unfold np_put1 in Hstep. rewrite He' in Hstep. injection Hstep as ->.
  assert (i < length e)%nat as Hile by (by apply lookup_lt_Some in Hi).
  destruct (Hget i Hile) as [Hput _]. rewrite (Hput Hthese) in Hi. congruence.
Qed.

End Separation.

(** X24.  With fewer than two valid times there is no time step, and the smallest
    one cannot be taken: the call raises [ValueError] whatever the labels. *)
Theorem separation_time_needs_two_times (NO_FRONT_ENUM : Z)
    (front_type_enums valid_times_unix_sec : list Z)
    (separation_time_sec relevant_front_type_enum : Z) :
  (length valid_times_unix_sec ≤ 1)%nat →
  _apply_sep_time_one_front_type NO_FRONT_ENUM front_type_enums
    valid_times_unix_sec separation_time_sec relevant_front_type_enum
  = Raise ValueError.
Proof.
  intros Hlen. unfold _apply_sep_time_one_front_type.
  destruct valid_times_unix_sec as [|t [|t' l]]; try done. simpl in Hlen. lia.
Qed.

Lemma separation_time_needs_two_times_witness :
  _apply_sep_time_one_front_type 0 [1] [1000] 80000 1 = Raise ValueError.
Proof. apply separation_time_needs_two_times. simpl. lia. Defined.

Lemma apply_sep_time_stable (NO_FRONT_ENUM : Z) (enums times : list Z)
    (sep rel smallest : Z) :
  length enums = length times → np_min_Z (np_diff times) = Ok smallest →
  ∃ out, _apply_sep_time_one_front_type NO_FRONT_ENUM enums times sep rel
         = Ok out ∧
         removes_only NO_FRONT_ENUM rel enums out ∧
         separation_pass NO_FRONT_ENUM times (np_diff times) smallest sep rel
           out = Ok out.
Proof.
  intros Hlen Hmin. unfold _apply_sep_time_one_front_type. rewrite Hmin.
  cbn [mbind result_bind]. apply separation_loop_stable; [|done|].
  - destruct times as [|t [|t' l]]; try done. simpl in Hlen. lia.
  - pose proof (length_filter (λ x, x = rel) enums). lia.
Qed.

(** X25.  The result of [_apply_sep_time_one_front_type] differs from the input
    only by labels of the relevant type that became "no front", and in it no
    label of the relevant type comes after the start of a front of that type
    by less than the separation time. *)
Theorem separation_time_is_enforced (NO_FRONT_ENUM : Z)
    (front_type_enums valid_times_unix_sec : list Z)
    (separation_time_sec relevant_front_type_enum smallest : Z) :
  length front_type_enums = length valid_times_unix_sec →
  np_min_Z (np_diff valid_times_unix_sec) = Ok smallest →
  NO_FRONT_ENUM ≠ relevant_front_type_enum →
  ∃ out,
    _apply_sep_time_one_front_type NO_FRONT_ENUM front_type_enums
      valid_times_unix_sec separation_time_sec relevant_front_type_enum
    = Ok out ∧
    removes_only NO_FRONT_ENUM relevant_front_type_enum front_type_enums out ∧
    ∀ k i tk ti,
      front_start out valid_times_unix_sec smallest
        relevant_front_type_enum k →
      (k < i)%nat → out !! i = Some relevant_front_type_enum →
      valid_times_unix_sec !! k = Some tk →
      valid_times_unix_sec !! i = Some ti →
      tk + separation_time_sec ≤ ti.
Proof.
  intros Hlen Hmin Hne.
  destruct (apply_sep_time_stable NO_FRONT_ENUM _ _ separation_time_sec
              relevant_front_type_enum _ Hlen Hmin) as (out & Hout & Hr & Hst).
  exists out. split; [done|]. split; [done|].
  pose proof (Forall2_length _ _ _ Hr) as Hlen'.
  apply (separation_stable_spec NO_FRONT_ENUM); try done.
  - destruct valid_times_unix_sec as [|t [|t' l]]; try done.
    simpl in Hlen. lia.
  - congruence.
Qed.

Lemma separation_time_is_enforced_witness :
  ∃ out,
    _apply_sep_time_one_front_type 0 [1; 1; 1; 2; 1] [0; 10; 20; 30; 40] 25 1
    = Ok out ∧
    removes_only 0 1 [1; 1; 1; 2; 1] out ∧
    ∀ k i tk ti,
      front_start out [0; 10; 20; 30; 40] 10 1 k →
      (k < i)%nat → out !! i = Some 1 →
      [0; 10; 20; 30; 40] !! k = Some tk →
      [0; 10; 20; 30; 40] !! i = Some ti →
      tk + 25 ≤ ti.
Proof.
  apply (separation_time_is_enforced 0 [1; 1; 1; 2; 1] [0; 10; 20; 30; 40]
           25 1 10); [reflexivity|reflexivity|lia].
Defined.

(** X26.  Applying the separation time to its own result changes nothing. *)
Theorem separation_time_idempotent (NO_FRONT_ENUM : Z)
    (front_type_enums valid_times_unix_sec : list Z)
    (separation_time_sec relevant_front_type_enum : Z) (out : list Z) :
  length front_type_enums = length valid_times_unix_sec →
  _apply_sep_time_one_front_type NO_FRONT_ENUM front_type_enums
    valid_times_unix_sec separation_time_sec relevant_front_type_enum
  = Ok out →
  _apply_sep_time_one_front_type NO_FRONT_ENUM out valid_times_unix_sec
    separation_time_sec relevant_front_type_enum
  = Ok out.
Proof.
  intros Hlen Hrun.
  destruct (np_min_Z (np_diff valid_times_unix_sec)) as [smallest|err]
    eqn:Hmin.
  2:{ unfold _apply_sep_time_one_front_type in Hrun. by rewrite Hmin in Hrun. }
  destruct (apply_sep_time_stable NO_FRONT_ENUM _ _ separation_time_sec
              relevant_front_type_enum _ Hlen Hmin) as (out' & Hout & _ & Hst).
  assert (out' = out) as -> by congruence.
  unfold _apply_sep_time_one_front_type. rewrite Hmin.
  cbn [mbind result_bind separation_loop]. rewrite Hst.
  cbn [mbind result_bind]. by rewrite bool_decide_true.
Qed.

Lemma separation_time_idempotent_witness :
  _apply_sep_time_one_front_type 0 [1; 0; 0; 2; 1] [0; 10; 20; 30; 40] 25 1
  = Ok [1; 0; 0; 2; 1].
Proof.
  apply (separation_time_idempotent 0 [1; 1; 1; 2; 1] [0; 10; 20; 30; 40]
           25 1 [1; 0; 0; 2; 1]); [reflexivity|vm_compute; reflexivity].
Defined.
